(** * Redex: persistent tree map, CFG mutation batching, CFG inliner and
      concurrent containers -- a shallow embedding and its properties.

    The embedding follows the C++ sources:
    - [sparta/include/PatriciaTreeMap.h]      (module [PTMap])
    - [libredex/CFGMutation.h]                (module [Mutation])
    - [service/method-inliner/CFGInliner.cpp] (module [Inliner])
    - [libredex/ConcurrentContainers.h]       (module [Concurrent])

    Conventions.  Unsigned machine integers are [Z] with the wrap-around
    written out.  A [std::shared_ptr] to an immutable node is the node itself
    tagged with the address [make_shared] gave it, so that pointer comparison
    ([==] on shared pointers) is comparison of addresses; allocation threads
    the next free address.  A C++ exception or failed assertion is the
    [Throw] outcome. *)

From Stdlib Require Import ZArith Lia Bool List Sorted.
From stdpp Require Import base option list gmap.

Local Open Scope Z_scope.

#[local] Set Warnings "-clear-no-such-hyp".

(** ** Exceptions and outcomes *)

Inductive exn : Type :=
| internal_error        (* sparta::internal_error, RUNTIME_CHECK *)
| undefined_operation   (* sparta::undefined_operation *)
| null_dereference      (* dereferencing a null shared_ptr *)
| out_of_range          (* std::out_of_range, e.g. vector::at *)
| assertion_failure.    (* always_assert / always_assert_log *)

Inductive outcome (A : Type) : Type :=
| Ok (a : A)
| Throw (e : exn).
Arguments Ok {A} a.
Arguments Throw {A} e.

Definition is_ok {A} (o : outcome A) : bool :=
  match o with Ok _ => true | Throw _ => false end.

(** ** Allocation: a state-and-exception monad over the next free address *)

Definition M (A : Type) : Type := nat -> outcome (A * nat).

Definition ret {A} (a : A) : M A := fun n => Ok (a, n).
Definition raise {A} (e : exn) : M A := fun _ => Throw e.
Definition bind {A B} (m : M A) (k : A -> M B) : M B :=
  fun n => match m n with
           | Ok (a, n') => k a n'
           | Throw e => Throw e
           end.
Definition lift {A} (o : outcome A) : M A :=
  fun n => match o with Ok a => Ok (a, n) | Throw e => Throw e end.

Notation "'do' x <- m ; k" := (bind m (fun x => k))
  (at level 10, x name, m at level 100, k at level 200).

(** ** [sparta::PatriciaTreeMap] *)

Module PTMap.

(** *** Bit operations ([PatriciaTreeUtil.h])

    The header [PatriciaTreeUtil.h] (namespace [pt_util]), which
    [PatriciaTreeMap.h] includes, is not available.  The spec describes the
    tree as a binary trie over the bits of the integer key whose branch nodes
    hold a shared bit-prefix and a branching bit; the definitions below are the
    little-endian ones of the paper the source cites (Okasaki and Gill, Fast
    Mergeable Integer Maps), on unsigned integers of [int_bits] bits. *)

(** Modelled from the spec: the width of [IntegerType], the unsigned integer
    type of the keys (a template argument; [uint32_t] here). *)
Definition int_bits : Z := 32.

(** Arithmetic on [IntegerType] wraps around. *)
Definition wrap (x : Z) : Z := x mod 2 ^ int_bits.

(** Modelled from the spec: [pt_util::is_zero_bit] of [PatriciaTreeUtil.h],
    whether the key has the branching bit clear. *)
Definition is_zero_bit (k m : Z) : bool := Z.land k m =? 0.

(** Modelled from the spec: [pt_util::get_lowest_bit] of
    [PatriciaTreeUtil.h], [x & (~x + 1)]. *)
Definition get_lowest_bit (x : Z) : Z := Z.land x (wrap (Z.lnot x + 1)).

(** Modelled from the spec: [pt_util::get_branching_bit] of
    [PatriciaTreeUtil.h], the lowest bit at which two prefixes differ. *)
Definition get_branching_bit (prefix0 prefix1 : Z) : Z :=
  get_lowest_bit (Z.lxor prefix0 prefix1).

(** Modelled from the spec: [pt_util::mask] of [PatriciaTreeUtil.h], the bits
    of the key below the branching bit, [k & (m - 1)]. *)
Definition mask (k m : Z) : Z := Z.land k (wrap (m - 1)).

(** Modelled from the spec: [pt_util::match_prefix] of [PatriciaTreeUtil.h],
    whether the key agrees with the prefix below the branching bit. *)
Definition match_prefix (k p m : Z) : bool := mask k m =? p.

(** The values of [IntegerType]. *)
Definition in_range (k : Z) : Prop := 0 <= k < 2 ^ int_bits.

(** A single bit of [IntegerType], as a branching bit is. *)
Definition is_bit (b : Z) : Prop := exists i, 0 <= i < int_bits /\ b = 2 ^ i.

(** *** The value descriptor ([struct Value] of the header comment) *)

Class Value (T : Type) : Type := {
  default_value : T;
  is_default_value : T -> bool;
  equals_value : T -> T -> bool
}.

(** [ptmap_impl::SimpleValue<T>]: default-constructible, compared with [==]. *)
Definition SimpleValue (T : Type) `{EqDecision T} (dflt : T) : Value T := {|
  default_value := dflt;
  is_default_value t := bool_decide (t = dflt);
  equals_value a b := bool_decide (a = b)
|}.

(** A descriptor whose predicates agree with Leibniz equality, as
    [SimpleValue]'s do. *)
Class ValueLaws (T : Type) `{Value T} : Prop := {
  is_default_value_spec : forall t, is_default_value t = true <-> t = default_value;
  equals_value_spec : forall a b, equals_value a b = true <-> a = b
}.

(** *** Trees *)

(** [std::shared_ptr<PatriciaTree<IntegerType, Value>>]: null, or a leaf or
    branch node at address [addr]. *)
Inductive PatriciaTree (T : Type) : Type :=
| Null
| Leaf (addr : nat) (key : Z) (value : T)
| Branch (addr : nat) (prefix branching_bit : Z)
         (left_tree right_tree : PatriciaTree T).
Arguments Null {T}.
Arguments Leaf {T} addr key value.
Arguments Branch {T} addr prefix branching_bit left_tree right_tree.

(** [T -> T -> T] as a [std::function], which may throw. *)
Definition CombiningFunction (T : Type) : Type := T -> T -> outcome T.

Section Trees.
Context {T : Type} `{VT : Value T}.

Definition address (t : PatriciaTree T) : option nat :=
  match t with
  | Null => None
  | Leaf a _ _ => Some a
  | Branch a _ _ _ _ => Some a
  end.

(** [operator==] on two shared pointers. *)
Definition ptr_eq (s t : PatriciaTree T) : bool :=
  match address s, address t with
  | None, None => true
  | Some a, Some b => Nat.eqb a b
  | _, _ => false
  end.

Definition is_null (t : PatriciaTree T) : bool :=
  match t with Null => true | _ => false end.

(** [std::make_shared<PatriciaTreeLeaf>(key, value)] *)
Definition make_leaf (key : Z) (value : T) : M (PatriciaTree T) :=
  fun n => Ok (Leaf n key value, S n).

(** [std::make_shared<PatriciaTreeBranch>(prefix, branching_bit, l, r)] *)
Definition make_shared_branch (prefix branching_bit : Z)
    (l r : PatriciaTree T) : M (PatriciaTree T) :=
  fun n => Ok (Branch n prefix branching_bit l r, S n).

Definition join (prefix0 : Z) (tree0 : PatriciaTree T)
    (prefix1 : Z) (tree1 : PatriciaTree T) : M (PatriciaTree T) :=
  let m := get_branching_bit prefix0 prefix1 in
  if is_zero_bit prefix0 m
  then make_shared_branch (mask prefix0 m) m tree0 tree1
  else make_shared_branch (mask prefix0 m) m tree1 tree0.

Definition make_branch (prefix branching_bit : Z)
    (left_tree right_tree : PatriciaTree T) : M (PatriciaTree T) :=
  if is_null left_tree then ret right_tree
  else if is_null right_tree then ret left_tree
  else make_shared_branch prefix branching_bit left_tree right_tree.

(** [find_value]: [None] is the null result. *)
Fixpoint find_value (key : Z) (tree : PatriciaTree T) : option T :=
  match tree with
  | Null => None
  | Leaf _ k v => if key =? k then Some v else None
  | Branch _ _ b l r =>
      if is_zero_bit key b then find_value key l else find_value key r
  end.

Fixpoint equals (tree1 tree2 : PatriciaTree T) : bool :=
  if ptr_eq tree1 tree2 then true
  else match tree1, tree2 with
       | Null, _ => is_null tree2
       | _, Null => false
       | Leaf _ k1 v1, Leaf _ k2 v2 => (k1 =? k2) && equals_value v1 v2
       | Leaf _ _ _, Branch _ _ _ _ _ => false
       | Branch _ _ _ _ _, Leaf _ _ _ => false
       | Branch _ p1 b1 l1 r1, Branch _ p2 b2 l2 r2 =>
           (p1 =? p2) && (b1 =? b2) && equals l1 l2 && equals r1 r2
       end.

(** [combine_leaf], on the leaf at address [a] holding [(k, v)]. *)
Definition combine_leaf (combine : CombiningFunction T) (value : T)
    (a : nat) (k : Z) (v : T) : M (PatriciaTree T) :=
  do combined_value <- lift (combine v value) ;
  if is_default_value combined_value then ret Null
  else if negb (equals_value combined_value v) then make_leaf k combined_value
  else ret (Leaf a k v).

Definition combine_new_leaf (combine : CombiningFunction T) (key : Z)
    (value : T) : M (PatriciaTree T) :=
  fun n => combine_leaf combine value n key default_value (S n).

Fixpoint update (combine : CombiningFunction T) (key : Z) (value : T)
    (tree : PatriciaTree T) : M (PatriciaTree T) :=
  match tree with
  | Null => combine_new_leaf combine key value
  | Leaf a k v =>
      if key =? k then combine_leaf combine value a k v
      else
        do new_leaf <- combine_new_leaf combine key value ;
        if is_null new_leaf then ret tree
        else join key new_leaf k tree
  | Branch _ p b l r =>
      if match_prefix key p b then
        if is_zero_bit key b then
          do new_left_tree <- update combine key value l ;
          if ptr_eq new_left_tree l then ret tree
          else make_branch p b new_left_tree r
        else
          do new_right_tree <- update combine key value r ;
          if ptr_eq new_right_tree r then ret tree
          else make_branch p b l new_right_tree
      else
        do new_leaf <- combine_new_leaf combine key value ;
        if is_null new_leaf then ret tree
        else join key new_leaf p tree
  end.

Fixpoint erase_all_matching (key_mask : Z) (tree : PatriciaTree T)
    : M (PatriciaTree T) :=
  match tree with
  | Null => ret Null
  | Leaf _ k _ =>
      if negb (Z.land key_mask k =? 0) then ret Null else ret tree
  | Branch _ p b l r =>
      if negb (Z.land key_mask p =? 0) then ret Null
      else if key_mask <? b then ret tree
      else
        do new_left_tree <- erase_all_matching key_mask l ;
        do new_right_tree <- erase_all_matching key_mask r ;
        if ptr_eq new_left_tree l && ptr_eq new_right_tree r then ret tree
        else make_branch p b new_left_tree new_right_tree
  end.

Fixpoint merge (combine : CombiningFunction T) (s : PatriciaTree T)
    : PatriciaTree T -> M (PatriciaTree T) :=
  fix merge_s (t : PatriciaTree T) : M (PatriciaTree T) :=
    if ptr_eq s t then ret s
    else match s, t with
    | Null, _ => ret t
    | _, Null => ret s
    | Leaf _ k v, _ => update combine k v t
    | _, Leaf _ k v => update combine k v s
    | Branch _ p m s0 s1, Branch _ q n t0 t1 =>
        if (m =? n) && (p =? q) then
          do new_left <- merge combine s0 t0 ;
          do new_right <- merge combine s1 t1 ;
          if ptr_eq new_left s0 && ptr_eq new_right s1 then ret s
          else if ptr_eq new_left t0 && ptr_eq new_right t1 then ret t
          else make_shared_branch p m new_left new_right
        else if (m <? n) && match_prefix q p m then
          if is_zero_bit q m then
            do new_left <- merge combine s0 t ;
            if ptr_eq s0 new_left then ret s
            else make_shared_branch p m new_left s1
          else
            do new_right <- merge combine s1 t ;
            if ptr_eq s1 new_right then ret s
            else make_shared_branch p m s0 new_right
        else if (n <? m) && match_prefix p q n then
          if is_zero_bit p n then
            do new_left <- merge_s t0 ;
            if ptr_eq t0 new_left then ret t
            else make_shared_branch q n new_left t1
          else
            do new_right <- merge_s t1 ;
            if ptr_eq t1 new_right then ret t
            else make_shared_branch q n t0 new_right
        else join p s q t
    end.

(** The lambda [intersect] hands to [merge] for subtrees without overlapping
    explicit values. *)
Definition use_available_value : CombiningFunction T :=
  fun x y =>
    if is_default_value x then Ok y
    else if is_default_value y then Ok x
    else Throw internal_error.

Fixpoint intersect (combine : CombiningFunction T) (s : PatriciaTree T)
    : PatriciaTree T -> M (PatriciaTree T) :=
  fix intersect_s (t : PatriciaTree T) : M (PatriciaTree T) :=
    if ptr_eq s t then ret s
    else match s, t with
    | Null, _ => ret Null
    | _, Null => ret Null
    | Leaf a k v, _ =>
        match find_value k t with
        | None => ret Null
        | Some value => combine_leaf combine value a k v
        end
    | _, Leaf a k v =>
        match find_value k s with
        | None => ret Null
        | Some value => combine_leaf combine value a k v
        end
    | Branch _ p m s0 s1, Branch _ q n t0 t1 =>
        if (m =? n) && (p =? q) then
          do i0 <- intersect combine s0 t0 ;
          do i1 <- intersect combine s1 t1 ;
          merge use_available_value i0 i1
        else if (m <? n) && match_prefix q p m then
          intersect combine (if is_zero_bit q m then s0 else s1) t
        else if (n <? m) && match_prefix p q n then
          intersect_s (if is_zero_bit p n then t0 else t1)
        else ret Null
    end.

(** *** [PatriciaTreeIterator] *)

Record PatriciaTreeIterator : Type := {
  m_stack : list (PatriciaTree T);
  m_leaf : PatriciaTree T
}.

(** The default-constructed (end) iterator. *)
Definition end_iterator : PatriciaTreeIterator :=
  {| m_stack := []; m_leaf := Null |}.

Fixpoint go_to_next_leaf (t : PatriciaTree T) (stack : list (PatriciaTree T))
    : outcome PatriciaTreeIterator :=
  match t with
  | Null => Throw null_dereference
  | Leaf _ _ _ => Ok {| m_stack := stack; m_leaf := t |}
  | Branch _ _ _ l _ =>
      if is_null l then Throw internal_error
      else go_to_next_leaf l (t :: stack)
  end.

Definition iterator_begin (tree : PatriciaTree T) : outcome PatriciaTreeIterator :=
  if is_null tree then Ok end_iterator else go_to_next_leaf tree [].

(** [operator++] *)
Definition increment (it : PatriciaTreeIterator) : outcome PatriciaTreeIterator :=
  if is_null (m_leaf it) then Throw undefined_operation
  else match m_stack it with
       | [] => Ok {| m_stack := []; m_leaf := Null |}
       | Branch _ _ _ _ r :: stack => go_to_next_leaf r stack
       | _ :: _ => Throw null_dereference
       end.

(** [std::for_each(begin(), end(), [&s](const auto&) { ++s; })]; [None] when
    [fuel] steps did not reach [end()]. *)
Fixpoint for_each_count (fuel : nat) (it : PatriciaTreeIterator) (s : nat)
    : option (outcome nat) :=
  match fuel with
  | O => None
  | S fuel' =>
      if ptr_eq (m_leaf it) Null then Some (Ok s)
      else match increment it with
           | Ok it' => for_each_count fuel' it' (S s)
           | Throw e => Some (Throw e)
           end
  end.

Fixpoint node_count (t : PatriciaTree T) : nat :=
  match t with
  | Null => 0
  | Leaf _ _ _ => 1
  | Branch _ _ _ l r => S (node_count l + node_count r)
  end.

(** *** The class [PatriciaTreeMap] *)

Record PatriciaTreeMap : Type := { m_tree : PatriciaTree T }.

Definition empty_map : PatriciaTreeMap := {| m_tree := Null |}.

Definition empty (m : PatriciaTreeMap) : bool := is_null (m_tree m).

Definition size (m : PatriciaTreeMap) : option (outcome nat) :=
  match iterator_begin (m_tree m) with
  | Ok it => for_each_count (S (node_count (m_tree m))) it 0
  | Throw e => Some (Throw e)
  end.

Definition at_ (m : PatriciaTreeMap) (key : Z) : T :=
  match find_value key (m_tree m) with
  | None => default_value
  | Some value => value
  end.

Definition map_equals (m other : PatriciaTreeMap) : bool :=
  equals (m_tree m) (m_tree other).

Definition reference_equals (m other : PatriciaTreeMap) : bool :=
  ptr_eq (m_tree m) (m_tree other).

Definition map_update (operation : T -> outcome T) (key : Z)
    (m : PatriciaTreeMap) : M PatriciaTreeMap :=
  do t <- update (fun x _ => operation x) key default_value (m_tree m) ;
  ret {| m_tree := t |}.

(** [ptmap_impl::snd] *)
Definition snd_value : CombiningFunction T := fun _ second => Ok second.

Definition insert_or_assign (key : Z) (value : T) (m : PatriciaTreeMap)
    : M PatriciaTreeMap :=
  do t <- update snd_value key value (m_tree m) ;
  ret {| m_tree := t |}.

(** Returns the new map and whether the tree changed. *)
Definition map_erase_all_matching (key_mask : Z) (m : PatriciaTreeMap)
    : M (PatriciaTreeMap * bool) :=
  do new_tree <- erase_all_matching key_mask (m_tree m) ;
  ret ({| m_tree := new_tree |}, negb (ptr_eq new_tree (m_tree m))).

Definition union_with (combine : CombiningFunction T)
    (m other : PatriciaTreeMap) : M PatriciaTreeMap :=
  do t <- merge combine (m_tree m) (m_tree other) ;
  ret {| m_tree := t |}.

Definition intersection_with (combine : CombiningFunction T)
    (m other : PatriciaTreeMap) : M PatriciaTreeMap :=
  do t <- intersect combine (m_tree m) (m_tree other) ;
  ret {| m_tree := t |}.

Definition clear (m : PatriciaTreeMap) : PatriciaTreeMap := {| m_tree := Null |}.

(** *** Invariants *)

(** The bindings a tree stores, in iteration order. *)
Fixpoint leaves (t : PatriciaTree T) : list (Z * T) :=
  match t with
  | Null => []
  | Leaf _ k v => [(k, v)]
  | Branch _ _ _ l r => leaves l ++ leaves r
  end.

(** [x] is [t] or a node below it. *)
Fixpoint subtree (x t : PatriciaTree T) : Prop :=
  x = t \/ match t with
           | Branch _ _ _ l r => subtree x l \/ subtree x r
           | _ => False
           end.

(** Every node of [t] was allocated before the allocator reached [n]. *)
Fixpoint below (n : nat) (t : PatriciaTree T) : Prop :=
  match t with
  | Null => True
  | Leaf a _ _ => (a < n)%nat
  | Branch a _ _ l r => (a < n)%nat /\ below n l /\ below n r
  end.

(** An address stands for one node: two nodes of [t] at the same address are
    the same node. *)
Definition coherent (t : PatriciaTree T) : Prop :=
  forall x y, subtree x t -> subtree y t -> address x = address y -> x = y.

(** The shape of a Patricia tree: a branch has two children, the keys below
    it agree with its prefix, those on the left have the branching bit clear
    and those on the right have it set; no leaf holds the default value. *)
Fixpoint well_formed (t : PatriciaTree T) : Prop :=
  match t with
  | Null => True
  | Leaf _ _ v => is_default_value v = false
  | Branch _ p b l r =>
      l <> Null /\ r <> Null
      /\ (forall k v, (k, v) ∈ leaves l ->
            match_prefix k p b = true /\ is_zero_bit k b = true)
      /\ (forall k v, (k, v) ∈ leaves r ->
            match_prefix k p b = true /\ is_zero_bit k b = false)
      /\ well_formed l /\ well_formed r
  end.

(** The nodes allocated so far, as a set of trees: all at addresses before
    the next free one, no two at the same address, and closed under taking
    children.  Pointer comparison of allocated nodes is then comparison of the
    nodes. *)
Definition heap : Type := PatriciaTree T -> Prop.

Definition in_heap (H : heap) (t : PatriciaTree T) : Prop := t = Null \/ H t.

Record heap_inv (n : nat) (H : heap) : Prop := {
  heap_below : forall x, H x -> exists a, address x = Some a /\ (a < n)%nat;
  heap_coherent : forall x y, H x -> H y -> address x = address y -> x = y;
  heap_closed : forall a p b l r, H (Branch a p b l r) -> in_heap H l /\ in_heap H r
}.

Definition heap_add (H : heap) (t : PatriciaTree T) : heap := fun x => H x \/ x = t.

(** The non-null nodes of a tree, as a heap. *)
Definition heap_of (t : PatriciaTree T) : heap := fun x => x <> Null /\ subtree x t.

(** How an allocating operation leaves the heap: grown, with the result in
    it. *)
Definition heap_post (n : nat) (H : heap) (t' : PatriciaTree T) (n' : nat) : Prop :=
  exists H', heap_inv n' H' /\ (forall x, H x -> H' x) /\ in_heap H' t' /\ (n <= n')%nat.

(** The bindings of the keys other than [key]. *)
Definition other_key (key : Z) (kv : Z * T) : Prop := kv.1 <> key.

#[global] Instance other_key_dec key kv : Decision (other_key key kv).
Proof. unfold other_key. apply _. Defined.

(** The branches an iterator still has to come back to: each has a
    well-formed right subtree. *)
Definition stack_ok (stack : list (PatriciaTree T)) : Prop :=
  Forall (fun x => match x with
                   | Branch _ _ _ _ r => r <> Null /\ well_formed r
                   | _ => False
                   end) stack.

Fixpoint stack_leaves (stack : list (PatriciaTree T)) : nat :=
  match stack with
  | [] => 0
  | Branch _ _ _ _ r :: stack' => length (leaves r) + stack_leaves stack'
  | _ :: stack' => stack_leaves stack'
  end.

Definition iterator_ok (it : PatriciaTreeIterator) : Prop :=
  is_null (m_leaf it) = false /\ stack_ok (m_stack it).

(** The trees of the header comment: well formed, with keys of
    [IntegerType] and branching bits that are single bits. *)
Fixpoint canonical (t : PatriciaTree T) : Prop :=
  match t with
  | Null => True
  | Leaf _ k v => in_range k /\ is_default_value v = false
  | Branch _ p b l r =>
      l <> Null /\ r <> Null /\ is_bit b
      /\ (forall k v, (k, v) ∈ leaves l ->
            match_prefix k p b = true /\ is_zero_bit k b = true)
      /\ (forall k v, (k, v) ∈ leaves r ->
            match_prefix k p b = true /\ is_zero_bit k b = false)
      /\ canonical l /\ canonical r
  end.

(** Two trees with the same prefixes, branching bits and leaves, whatever
    the addresses of their nodes. *)
Fixpoint same_shape (t1 t2 : PatriciaTree T) : Prop :=
  match t1, t2 with
  | Null, Null => True
  | Leaf _ k1 v1, Leaf _ k2 v2 => k1 = k2 /\ v1 = v2
  | Branch _ p1 b1 l1 r1, Branch _ p2 b2 l2 r2 =>
      p1 = p2 /\ b1 = b2 /\ same_shape l1 l2 /\ same_shape r1 r2
  | _, _ => False
  end.

(** The maps a client has after starting from empty maps and applying
    [update], [insert_or_assign] and [erase_all_matching] to maps it has, the
    allocator having reached [n]. *)
Inductive built : list PatriciaTreeMap -> nat -> Prop :=
| built_nil : built [] 0%nat
| built_empty ms n : built ms n -> built (empty_map :: ms) n
| built_update ms n operation key m m' n' :
    built ms n -> m ∈ ms -> in_range key ->
    map_update operation key m n = Ok (m', n') -> built (m' :: ms) n'
| built_insert_or_assign ms n key value m m' n' :
    built ms n -> m ∈ ms -> in_range key ->
    insert_or_assign key value m n = Ok (m', n') -> built (m' :: ms) n'
| built_erase_all_matching ms n key_mask m m' changed n' :
    built ms n -> m ∈ ms ->
    map_erase_all_matching key_mask m n = Ok (m', changed, n') -> built (m' :: ms) n'.

End Trees.

Arguments PatriciaTreeMap T : clear implicits.
Arguments heap T : clear implicits.
Arguments PatriciaTreeIterator T : clear implicits.

(** *** More of [PatriciaTreeMap.h] *)

(** What [ptmap_impl::leq] asks of the values: [Value::leq] of the
    descriptor, and [is_top] of the value type (an [AbstractDomain]). *)
Class AbstractValue (T : Type) : Type := {
  leq_value : T -> T -> bool;
  is_top : T -> bool
}.

Section Operations.
Context {T : Type} `{VT : Value T}.

(** [ptmap_impl::map] *)
Fixpoint map (f : T -> outcome T) (tree : PatriciaTree T) : M (PatriciaTree T) :=
  match tree with
  | Null => ret Null
  | Leaf a k v =>
      do new_value <- lift (f v) ;
      combine_leaf snd_value new_value a k v
  | Branch _ p b l r =>
      do new_left_tree <- map f l ;
      do new_right_tree <- map f r ;
      if ptr_eq new_left_tree l && ptr_eq new_right_tree r then ret tree
      else make_branch p b new_left_tree new_right_tree
  end.

(** [PatriciaTreeMap::map]: the new map and whether the tree changed. *)
Definition map_map (f : T -> outcome T) (m : PatriciaTreeMap T)
    : M (PatriciaTreeMap T * bool) :=
  do new_tree <- map f (m_tree m) ;
  ret ({| m_tree := new_tree |}, negb (ptr_eq new_tree (m_tree m))).

(** The pairs a traversal [for (it = begin(); it != end(); ++it)] reads off
    [*it], as [operator<<] does; [None] when [fuel] steps did not reach
    [end()]. *)
Fixpoint for_each_pair (fuel : nat) (it : PatriciaTreeIterator T)
    : option (outcome (list (Z * T))) :=
  match fuel with
  | O => None
  | S fuel' =>
      match m_leaf it with
      | Null => Some (Ok [])
      | Leaf _ k v =>
          match increment it with
          | Ok it' =>
              match for_each_pair fuel' it' with
              | Some (Ok l) => Some (Ok ((k, v) :: l))
              | r => r
              end
          | Throw e => Some (Throw e)
          end
      | Branch _ _ _ _ _ => Some (Throw null_dereference)
      end
  end.

(** The bindings of a map in iteration order: a traversal from [begin()]
    with fuel for every node. *)
Definition elements (m : PatriciaTreeMap T) : option (outcome (list (Z * T))) :=
  match iterator_begin (m_tree m) with
  | Ok it => for_each_pair (S (node_count (m_tree m))) it
  | Throw e => Some (Throw e)
  end.

(** The bindings an iterator has yet to visit after its leaf. *)
Fixpoint stack_pairs (stack : list (PatriciaTree T)) : list (Z * T) :=
  match stack with
  | [] => []
  | Branch _ _ _ _ r :: stack' => leaves r ++ stack_pairs stack'
  | _ :: stack' => stack_pairs stack'
  end.

(** *** Specification predicates *)

(** A map in canonical form whose nodes were allocated before the allocator
    reached [n], no two of them at one address. *)
Definition invariant (n : nat) (m : PatriciaTreeMap T) : Prop :=
  canonical (m_tree m) /\ below n (m_tree m) /\ coherent (m_tree m).

(** How [merge] leaves one key: a binding of one tree alone is kept; where
    both trees bind the key, the values are combined (in either order), or
    kept when the two trees share the node; a default result is dropped. *)
Definition merged (combine : CombiningFunction T) (oa ob oc : option T) : Prop :=
  match oa, ob with
  | None, None => oc = None
  | Some a, None => oc = Some a
  | None, Some b => oc = Some b
  | Some a, Some b =>
      exists c, (combine a b = Ok c \/ combine b a = Ok c \/ (a = b /\ c = a))
        /\ oc = if is_default_value c then None else Some c
  end.

(** How [intersect] leaves one key. *)
Definition intersected (combine : CombiningFunction T) (oa ob oc : option T) : Prop :=
  match oa, ob with
  | Some a, Some b =>
      exists c, (combine a b = Ok c \/ combine b a = Ok c \/ (a = b /\ c = a))
        /\ oc = if is_default_value c then None else Some c
  | _, _ => oc = None
  end.

(** When [merge] and [intersect] can run: the values the two trees bind to
    one key can be combined. *)
Definition combinable (combine : CombiningFunction T) (s t : PatriciaTree T) : Prop :=
  forall k a b, find_value k s = Some a -> find_value k t = Some b ->
    exists c c', combine a b = Ok c /\ combine b a = Ok c'.

(** No combination of two bound values is the default value. *)
Definition no_cancellation (combine : CombiningFunction T) (s t : PatriciaTree T) : Prop :=
  forall k a b c, find_value k s = Some a -> find_value k t = Some b ->
    combine a b = Ok c \/ combine b a = Ok c -> is_default_value c = false.

(** What a run of [merge] leaves. *)
Definition merge_post (combine : CombiningFunction T) (s t : PatriciaTree T)
    (n : nat) (H : heap T) : Prop :=
  exists r n',
    merge combine s t n = Ok (r, n')
    /\ heap_post n H r n'
    /\ (forall k, merged combine (find_value k s) (find_value k t) (find_value k r))
    /\ (no_cancellation combine s t -> canonical r).

(** What a run of [intersect] leaves. *)
Definition intersect_post (combine : CombiningFunction T) (s t : PatriciaTree T)
    (n : nat) (H : heap T) : Prop :=
  exists r n',
    intersect combine s t n = Ok (r, n')
    /\ heap_post n H r n'
    /\ canonical r
    /\ forall k, intersected combine (find_value k s) (find_value k t) (find_value k r).

(** The value a tree gives a key. *)
Definition value_at (t : PatriciaTree T) (k : Z) : T :=
  default default_value (find_value k t).

End Operations.

Section Order.
Context {T : Type} `{VT : Value T} `{AV : AbstractValue T}.

(** [ptmap_impl::leq] *)
Fixpoint leq (s t : PatriciaTree T) {struct s} : bool :=
  if ptr_eq s t then true
  else match s, t with
  | Null, _ => negb (is_top (default_value : T))
  | _, Null => is_top (default_value : T)
  | Leaf _ _ _, Branch _ _ _ _ _ => negb (is_top (default_value : T))
  | Leaf _ k1 v1, Leaf _ k2 v2 => (k1 =? k2) && leq_value v1 v2
  | Branch _ _ _ _ _, Leaf _ k v =>
      match find_value k s with
      | None => leq_value default_value v
      | Some s_value => leq_value s_value v
      end
  | Branch _ p m s0 s1, Branch _ q n t0 t1 =>
      if (m =? n) && (p =? q) then leq s0 t0 && leq s1 t1
      else if (m <? n) && match_prefix q p m then
        leq (if is_zero_bit q m then s0 else s1) t
      else negb (is_top (default_value : T))
  end.

(** [PatriciaTreeMap::leq] *)
Definition map_leq (m other : PatriciaTreeMap T) : bool :=
  leq (m_tree m) (m_tree other).

End Order.

(** *** Sample maps over [int] values *)

Module Samples.

#[export] Instance int_value : Value Z := SimpleValue Z 0.

(** [{0 -> v, 1 -> v}], built with [insert_or_assign]. *)
Definition two_bindings (v : Z) : M (PatriciaTreeMap Z) :=
  do m <- insert_or_assign 0 v empty_map ;
  insert_or_assign 1 v m.

(** A combining function that maps every pair of values to [0], the default
    value. *)
Definition always_default : CombiningFunction Z := fun _ _ => Ok 0.

Definition cancelling_union : M (PatriciaTreeMap Z) :=
  do a <- two_bindings 1 ;
  do b <- two_bindings 2 ;
  union_with always_default a b.

(** [{0 -> 1, 1 -> 1}] as [two_bindings 1] builds it. *)
Definition sample_tree : PatriciaTree Z := Branch 4 0 1 (Leaf 1 0 1) (Leaf 3 1 1).

(** [{0 -> v, 1 -> v}] again, the keys inserted in the other order. *)
Definition two_bindings_reversed (v : Z) : M (PatriciaTreeMap Z) :=
  do m <- insert_or_assign 1 v empty_map ;
  insert_or_assign 0 v m.

Definition both_orders : M (PatriciaTreeMap Z * PatriciaTreeMap Z) :=
  do a <- two_bindings 1 ;
  do b <- two_bindings_reversed 1 ;
  ret (a, b).

(** A flat order on [Z] under the top element [0]. *)
#[export] Instance flat_order : AbstractValue Z := {|
  leq_value a b := (b =? 0) || (a =? b);
  is_top a := a =? 0
|}.

(** The maps [{0 -> 1, 1 -> 1}] and [{0 -> 1}], as [two_bindings 1] makes
    them on the way. *)
Definition sample_tree_map : PatriciaTreeMap Z := {| m_tree := sample_tree |}.
Definition sample_leaf_map : PatriciaTreeMap Z := {| m_tree := Leaf 1 0 1 |}.

End Samples.

End PTMap.

(** ** IR instructions *)

Module IR.

(** Modelled from the spec: the enumeration [IROpcode] of [IROpcode.h],
    which is not available.  The spec describes an instruction as an opcode
    plus source registers and an optional destination register, and names the
    opcode classes branch, throw, return, load-param and move.  Listed are the
    opcodes that [CFGInliner.cpp] mentions by name and a representative of
    each other class. *)
Inductive IROpcode : Type :=
| OPCODE_NOP
| OPCODE_MOVE | OPCODE_MOVE_WIDE | OPCODE_MOVE_OBJECT
| OPCODE_MOVE_RESULT
| OPCODE_RETURN_VOID | OPCODE_RETURN | OPCODE_RETURN_WIDE | OPCODE_RETURN_OBJECT
| IOPCODE_LOAD_PARAM | IOPCODE_LOAD_PARAM_OBJECT | IOPCODE_LOAD_PARAM_WIDE
| OPCODE_CONST
| OPCODE_ADD_INT
| OPCODE_GOTO
| OPCODE_IF_EQZ
| OPCODE_THROW
| OPCODE_NEW_INSTANCE
| OPCODE_INVOKE_STATIC
| OPCODE_INVOKE_VIRTUAL.

#[global] Instance IROpcode_eq_dec : EqDecision IROpcode.
Proof. solve_decision. Defined.

(** Modelled from the spec: [is_branch] of [IROpcode.h], the branch
    instructions. *)
Definition is_branch (op : IROpcode) : bool :=
  match op with OPCODE_GOTO | OPCODE_IF_EQZ => true | _ => false end.

(** Modelled from the spec: [is_throw] of [IROpcode.h]. *)
Definition is_throw (op : IROpcode) : bool :=
  match op with OPCODE_THROW => true | _ => false end.

(** Modelled from the spec: [is_return] of [IROpcode.h], the four return
    opcodes [return_to_move] handles. *)
Definition is_return (op : IROpcode) : bool :=
  match op with
  | OPCODE_RETURN_VOID | OPCODE_RETURN | OPCODE_RETURN_WIDE
  | OPCODE_RETURN_OBJECT => true
  | _ => false
  end.

(** Modelled from the spec: the load-param pseudo-instructions of
    [IROpcode.h]. *)
Definition is_load_param (op : IROpcode) : bool :=
  match op with
  | IOPCODE_LOAD_PARAM | IOPCODE_LOAD_PARAM_OBJECT | IOPCODE_LOAD_PARAM_WIDE => true
  | _ => false
  end.

(** Modelled from the spec: [opcode::can_throw] of [IROpcode.h], the
    instructions that may raise an exception. *)
Definition can_throw (op : IROpcode) : bool :=
  match op with
  | OPCODE_THROW | OPCODE_NEW_INSTANCE | OPCODE_INVOKE_STATIC
  | OPCODE_INVOKE_VIRTUAL => true
  | _ => false
  end.

(** Modelled from the spec: [opcode::load_param_to_move] of [IROpcode.h],
    the move that stands for a load-param of the same kind; it asserts that
    its argument is a load-param. *)
Definition load_param_to_move (op : IROpcode) : outcome IROpcode :=
  match op with
  | IOPCODE_LOAD_PARAM => Ok OPCODE_MOVE
  | IOPCODE_LOAD_PARAM_OBJECT => Ok OPCODE_MOVE_OBJECT
  | IOPCODE_LOAD_PARAM_WIDE => Ok OPCODE_MOVE_WIDE
  | _ => Throw assertion_failure
  end.

(** [reg_t] is [uint32_t]. *)
Definition reg_bits : Z := 32.
Definition reg_wrap (x : Z) : Z := x mod 2 ^ reg_bits.

(** Modelled from the spec: the class [IRInstruction] of [IRInstruction.h],
    which is not available: an opcode, source registers and an optional
    destination register, with identity by pointer -- the address
    [insn_addr] of the object. *)
Record IRInstruction : Type := {
  insn_addr : nat;
  opcode : IROpcode;
  srcs_vec : list Z;
  dest_opt : option Z
}.

Definition has_dest (insn : IRInstruction) : bool :=
  match dest_opt insn with Some _ => true | None => false end.

(** [insn->dest()], which asserts [has_dest()]. *)
Definition dest (insn : IRInstruction) : outcome Z :=
  match dest_opt insn with Some d => Ok d | None => Throw assertion_failure end.

(** [insn->src(i)] *)
Definition src (insn : IRInstruction) (i : nat) : outcome Z :=
  match srcs_vec insn !! i with Some r => Ok r | None => Throw assertion_failure end.

(** Every register an instruction mentions. *)
Definition registers (insn : IRInstruction) : list Z :=
  srcs_vec insn ++ match dest_opt insn with Some d => [d] | None => [] end.

End IR.

(** ** [cfg::CFGMutation] *)

Module Mutation.
Import IR.

Inductive Insert : Type := Before | After | Replacing.

(** [CFGMutation::ChangeSet] *)
Record ChangeSet : Type := {
  m_insert_before : list IRInstruction;
  m_replace : option (list IRInstruction);
  m_insert_after : list IRInstruction
}.

(** A default-constructed [ChangeSet]. *)
Definition empty_change_set : ChangeSet :=
  {| m_insert_before := []; m_replace := None; m_insert_after := [] |}.

(** [CFGMutation::ChangeSet::add_change] *)
Definition ChangeSet_add_change (where_ : Insert) (insns : list IRInstruction)
    (cs : ChangeSet) : outcome ChangeSet :=
  match where_ with
  | Before =>
      Ok {| m_insert_before := m_insert_before cs ++ insns;
            m_replace := m_replace cs;
            m_insert_after := m_insert_after cs |}
  | After =>
      Ok {| m_insert_before := m_insert_before cs;
            m_replace := m_replace cs;
            m_insert_after := m_insert_after cs ++ insns |}
  | Replacing =>
      match m_replace cs with
      | Some _ => Throw assertion_failure
      | None =>
          Ok {| m_insert_before := m_insert_before cs;
                m_replace := Some insns;
                m_insert_after := m_insert_after cs |}
      end
  end.

(** The pending changes of a [CFGMutation], keyed by the anchor's address
    ([std::unordered_map<IRInstruction*, ChangeSet> m_changes]).  The mutated
    control-flow graph [m_cfg] is a reference to an object owned elsewhere; it
    is passed to [flush] explicitly. *)
Record CFGMutation : Type := { m_changes : gmap nat ChangeSet }.

Definition new_mutation : CFGMutation := {| m_changes := ∅ |}.

(** A [cfg::InstructionIterator]: [None] is the end iterator. *)
Definition InstructionIterator : Type := option IRInstruction.

(** [CFGMutation::add_change]; [m_changes[anchor->insn]] default-constructs a
    missing entry. *)
Definition add_change (where_ : Insert) (anchor : InstructionIterator)
    (instructions : list IRInstruction) (m : CFGMutation) : outcome CFGMutation :=
  match anchor with
  | None => Throw assertion_failure
  | Some insn =>
      let cs := default empty_change_set (m_changes m !! insn_addr insn) in
      match ChangeSet_add_change where_ instructions cs with
      | Ok cs' => Ok {| m_changes := <[insn_addr insn := cs']> (m_changes m) |}
      | Throw e => Throw e
      end
  end.

(** [CFGMutation::is_terminal] *)
Definition is_terminal (op : IROpcode) : bool :=
  is_branch op || is_throw op || is_return op.

(** Modelled from the spec: [CFGMutation.cpp], which defines
    [ChangeSet::apply], [clear] and [flush], is not part of the sources at
    hand.  By the spec and the header's comments, the edits of one anchor take
    effect as the [Before] instructions, then the [Replacing] instructions in
    place of the anchor (the anchor itself when there are none), then the
    [After] instructions; inserting after a terminal instruction that is not
    replaced is a contract violation detected at flush time. *)
Definition ChangeSet_apply (cs : ChangeSet) (anchor : IRInstruction)
    : outcome (list IRInstruction) :=
  match m_replace cs with
  | Some r => Ok (m_insert_before cs ++ r ++ m_insert_after cs)
  | None =>
      if is_terminal (opcode anchor) && negb (bool_decide (m_insert_after cs = []))
      then Throw assertion_failure
      else Ok (m_insert_before cs ++ [anchor] ++ m_insert_after cs)
  end.

(** Modelled from the spec: [clear] discards all pending edits without
    applying them. *)
Definition clear (m : CFGMutation) : CFGMutation := {| m_changes := ∅ |}.

(** Modelled from the spec: [flush] walks the instructions of the graph and
    applies the change set anchored at each; a change set whose anchor is not
    met is dropped; afterwards the log is empty.  The graph is its instruction
    stream here. *)
Fixpoint flush_insns (changes : gmap nat ChangeSet) (cfg : list IRInstruction)
    : outcome (list IRInstruction) :=
  match cfg with
  | [] => Ok []
  | insn :: rest =>
      match changes !! insn_addr insn with
      | None =>
          match flush_insns changes rest with
          | Ok rest' => Ok (insn :: rest')
          | Throw e => Throw e
          end
      | Some cs =>
          match ChangeSet_apply cs insn with
          | Ok out =>
              match flush_insns changes rest with
              | Ok rest' => Ok (out ++ rest')
              | Throw e => Throw e
              end
          | Throw e => Throw e
          end
      end
  end.

Definition flush (cfg : list IRInstruction) (m : CFGMutation)
    : outcome (list IRInstruction * CFGMutation) :=
  match flush_insns (m_changes m) cfg with
  | Ok cfg' => Ok (cfg', clear m)
  | Throw e => Throw e
  end.

(** One call of the public interface, for runs of calls. *)
Inductive call : Type :=
| CallAddChange (where_ : Insert) (anchor : InstructionIterator)
                (instructions : list IRInstruction)
| CallClear
| CallFlush.

Definition step (c : call) (st : list IRInstruction * CFGMutation)
    : outcome (list IRInstruction * CFGMutation) :=
  match c with
  | CallAddChange w a l =>
      match add_change w a l (snd st) with
      | Ok m' => Ok (fst st, m')
      | Throw e => Throw e
      end
  | CallClear => Ok (fst st, clear (snd st))
  | CallFlush => flush (fst st) (snd st)
  end.

Fixpoint run (cs : list call) (st : list IRInstruction * CFGMutation)
    : outcome (list IRInstruction * CFGMutation) :=
  match cs with
  | [] => Ok st
  | c :: cs' =>
      match step c st with
      | Ok st' => run cs' st'
      | Throw e => Throw e
      end
  end.

(** A run of [add_change] calls on one anchor, and what the calls ask for:
    the [Before] lists in call order, the [After] lists in call order, the
    [Replacing] lists. *)
Fixpoint add_changes (anchor : IRInstruction)
    (calls : list (Insert * list IRInstruction)) (m : CFGMutation)
    : outcome CFGMutation :=
  match calls with
  | [] => Ok m
  | (w, l) :: calls' =>
      match add_change w (Some anchor) l m with
      | Ok m' => add_changes anchor calls' m'
      | Throw e => Throw e
      end
  end.

Fixpoint befores (calls : list (Insert * list IRInstruction)) : list IRInstruction :=
  match calls with
  | [] => []
  | (Before, l) :: calls' => l ++ befores calls'
  | _ :: calls' => befores calls'
  end.

Fixpoint afters (calls : list (Insert * list IRInstruction)) : list IRInstruction :=
  match calls with
  | [] => []
  | (After, l) :: calls' => l ++ afters calls'
  | _ :: calls' => afters calls'
  end.

Fixpoint replacings (calls : list (Insert * list IRInstruction))
    : list (list IRInstruction) :=
  match calls with
  | [] => []
  | (Replacing, l) :: calls' => l :: replacings calls'
  | _ :: calls' => replacings calls'
  end.

Definition is_add_change (c : call) : bool :=
  match c with CallAddChange _ _ _ => true | _ => false end.

(** Whether a call is [add_change(Replacing, anchor, _)] for the anchor at
    address [a]. *)
Definition is_replacing_on (a : nat) (c : call) : bool :=
  match c with
  | CallAddChange Replacing (Some i) _ => bool_decide (insn_addr i = a)
  | _ => false
  end.

(** Whether a call is [clear()] or [flush()]. *)
Definition is_reset (c : call) : bool :=
  match c with CallClear | CallFlush => true | CallAddChange _ _ _ => false end.

(** The change set a mutation holds for an anchor: a default one when there is
    no entry. *)
Definition change_set_of (m : CFGMutation) (a : nat) : ChangeSet :=
  default empty_change_set (m_changes m !! a).

Definition has_replace (m : CFGMutation) (a : nat) : Prop :=
  exists cs r, m_changes m !! a = Some cs /\ m_replace cs = Some r.

(** Sample instructions: an anchor at address 0 between two others. *)
Definition insn_at (a : nat) (op : IROpcode) : IRInstruction :=
  {| insn_addr := a; opcode := op; srcs_vec := []; dest_opt := None |}.

End Mutation.

(** ** [cfg::CFGInliner] *)

Module Inliner.
Import IR.

(** *** Control-flow graphs *)

(** Modelled from the spec: the graph types of [ControlFlow.h], which is not
    available, as is [ControlFlow.cpp].  By the spec a graph is a set of basic blocks, each
    an ordered sequence of entries, with typed directed edges, a THROW edge
    carrying a catch-handler type and an ordinal index that orders the handlers
    of a try region; the graph records a [registers_size].  Blocks and edges
    are referred to by the address of the block object; a block also has an
    id, the key of [m_blocks].  Only instruction entries are kept. *)
Record ThrowInfo : Type := {
  catch_type : option nat;   (* [None]: the null type of a catch-all *)
  index : Z                  (* [uint32_t] *)
}.

(** Modelled from the spec: [EdgeType] with, for a THROW edge, the throw
    info ([m_throw_info]) the edge carries. *)
Inductive EdgeType : Type :=
| EDGE_GOTO
| EDGE_BRANCH
| EDGE_THROW (m_throw_info : ThrowInfo)
| EDGE_GHOST.

(** Modelled from the spec: [cfg::Edge], from the block at address [e_src]
    to the block at address [e_target]. *)
Record Edge : Type := {
  e_src : nat;
  e_target : nat;
  e_type : EdgeType
}.

(** Modelled from the spec: [cfg::Block], the block object at address
    [block_addr]. *)
Record Block : Type := {
  block_addr : nat;
  m_id : nat;
  m_entries : list IRInstruction
}.

(** Modelled from the spec: [cfg::ControlFlowGraph]; [m_blocks] lists the
    blocks in the order of their ids, [m_entry_block] is the address of the
    entry block. *)
Record ControlFlowGraph : Type := {
  m_blocks : list Block;
  m_edges : list Edge;
  m_registers_size : Z;
  m_entry_block : nat
}.

(** [e->type() == EDGE_THROW], [e->type() == EDGE_GOTO] and
    [e->m_throw_info->index]. *)
Definition is_throw_edge (e : Edge) : bool :=
  match e_type e with EDGE_THROW _ => true | _ => false end.

Definition is_goto_edge (e : Edge) : bool :=
  match e_type e with EDGE_GOTO => true | _ => false end.

Definition throw_index (e : Edge) : Z :=
  match e_type e with EDGE_THROW ti => index ti | _ => 0 end.

(** Sorting edges by throw index (a stable insertion sort). *)
Fixpoint insert_by_index (e : Edge) (l : list Edge) : list Edge :=
  match l with
  | [] => [e]
  | x :: l' =>
      if throw_index e <? throw_index x then e :: l
      else x :: insert_by_index e l'
  end.

Definition sort_by_index (l : list Edge) : list Edge :=
  foldr insert_by_index [] l.

(** Modelled from the spec: [Block::get_outgoing_throws_in_order], the THROW
    edges leaving the block in catch-priority (index) order. *)
Definition get_outgoing_throws_in_order (cfg : ControlFlowGraph) (b : nat)
    : list Edge :=
  sort_by_index
    (filter (fun e => e_src e = b /\ is_throw_edge e = true) (m_edges cfg)).

(** Modelled from the spec: [ControlFlowGraph::add_edge], in its GOTO and its
    THROW form. *)
Definition add_edge (cfg : ControlFlowGraph) (e : Edge) : ControlFlowGraph :=
  {| m_blocks := m_blocks cfg;
     m_edges := m_edges cfg ++ [e];
     m_registers_size := m_registers_size cfg;
     m_entry_block := m_entry_block cfg |}.

Definition add_goto_edge (cfg : ControlFlowGraph) (pred succ : nat)
    : ControlFlowGraph :=
  add_edge cfg {| e_src := pred; e_target := succ; e_type := EDGE_GOTO |}.

Definition add_throw_edge (cfg : ControlFlowGraph) (pred succ : nat)
    (ty : option nat) (idx : Z) : ControlFlowGraph :=
  add_edge cfg {| e_src := pred; e_target := succ;
                  e_type := EDGE_THROW {| catch_type := ty; index := idx |} |}.

(** Field updates. *)
Definition set_edges (cfg : ControlFlowGraph) (es : list Edge) : ControlFlowGraph :=
  {| m_blocks := m_blocks cfg;
     m_edges := es;
     m_registers_size := m_registers_size cfg;
     m_entry_block := m_entry_block cfg |}.

Definition set_blocks (cfg : ControlFlowGraph) (bs : list Block) : ControlFlowGraph :=
  {| m_blocks := bs;
     m_edges := m_edges cfg;
     m_registers_size := m_registers_size cfg;
     m_entry_block := m_entry_block cfg |}.

Definition set_registers_size (cfg : ControlFlowGraph) (n : Z) : ControlFlowGraph :=
  {| m_blocks := m_blocks cfg;
     m_edges := m_edges cfg;
     m_registers_size := n;
     m_entry_block := m_entry_block cfg |}.

Definition set_entries (b : Block) (l : list IRInstruction) : Block :=
  {| block_addr := block_addr b; m_id := m_id b; m_entries := l |}.

(** The instructions of a graph in iteration order
    ([cfg::InstructionIterable]). *)
Definition instructions (cfg : ControlFlowGraph) : list IRInstruction :=
  concat (m_entries <$> m_blocks cfg).

Definition map_instructions (f : IRInstruction -> IRInstruction)
    (cfg : ControlFlowGraph) : ControlFlowGraph :=
  set_blocks cfg ((fun b => set_entries b (f <$> m_entries b)) <$> m_blocks cfg).

(** Modelled from the spec: [ControlFlowGraph::remove_insn], on the
    instruction at address [a]. *)
Definition remove_insn (cfg : ControlFlowGraph) (a : nat) : ControlFlowGraph :=
  set_blocks cfg
    ((fun b => set_entries b
                 (filter (fun i => insn_addr i <> a) (m_entries b)))
       <$> m_blocks cfg).

(** Modelled from the spec: [ControlFlowGraph::recompute_registers_size], the
    least size that exceeds every register referenced. *)
Definition recompute_registers_size (cfg : ControlFlowGraph) : ControlFlowGraph :=
  set_registers_size cfg
    (foldr Z.max 0 ((fun r => r + 1) <$> concat (registers <$> instructions cfg))).

(** The block at address [a]. *)
Definition find_block (cfg : ControlFlowGraph) (a : nat) : option Block :=
  List.find (fun b => Nat.eqb (block_addr b) a) (m_blocks cfg).

(** Modelled from the spec: [Block::get_last_insn], the last instruction of
    the block; [None] is [end()]. *)
Definition get_last_insn (b : Block) : option IRInstruction := last (m_entries b).

(** *** [CFGInlinerPlugin] *)

(** Modelled from the spec: the policy object of [CFGInliner.h], which says
    whether code goes after the call, may supply alternate argument registers
    and an alternate result register, and may edit caller and callee before and
    after the register remapping; the second hook reports whether the register
    count must be recomputed. *)
Record CFGInlinerPlugin : Type := {
  inline_after : bool;
  inline_srcs : option (list Z);
  reg_for_return : option Z;
  remove_inline_site : bool;
  update_before_reg_remap :
    ControlFlowGraph -> ControlFlowGraph -> ControlFlowGraph * ControlFlowGraph;
  update_after_reg_remap :
    ControlFlowGraph -> ControlFlowGraph -> ControlFlowGraph * ControlFlowGraph * bool
}.

(** The default-constructed plugin of the three-argument [inline_cfg]. *)
Definition base_plugin : CFGInlinerPlugin := {|
  inline_after := true;
  inline_srcs := None;
  reg_for_return := None;
  remove_inline_site := true;
  update_before_reg_remap caller callee := (caller, callee);
  update_after_reg_remap caller callee := (caller, callee, false)
|}.

(** *** The steps of [CFGInliner.cpp] *)

Definition remap_insn (caller_regs_size : Z) (insn : IRInstruction) : IRInstruction :=
  {| insn_addr := insn_addr insn;
     opcode := opcode insn;
     srcs_vec := (fun r => reg_wrap (r + caller_regs_size)) <$> srcs_vec insn;
     dest_opt := (fun d => reg_wrap (d + caller_regs_size)) <$> dest_opt insn |}.

(** [CFGInliner::remap_registers] *)
Definition remap_registers (callee : ControlFlowGraph) (caller_regs_size : Z)
    : ControlFlowGraph :=
  map_instructions (remap_insn caller_regs_size) callee.

(** [CFGInliner::steal_contents]: the blocks of the callee get the ids after
    the largest id of the caller; blocks and edges change owner. *)
Definition max_block_id (bs : list Block) : nat := foldr Nat.max 0%nat (m_id <$> bs).

Fixpoint steal_blocks (caller_blocks callee_blocks : list Block) : list Block :=
  match callee_blocks with
  | [] => caller_blocks
  | b :: rest =>
      let id := S (max_block_id caller_blocks) in
      steal_blocks
        (caller_blocks ++
           [{| block_addr := block_addr b; m_id := id; m_entries := m_entries b |}])
        rest
  end.

Definition steal_contents (caller callee : ControlFlowGraph)
    : outcome (ControlFlowGraph * ControlFlowGraph) :=
  match m_blocks caller with
  | [] => Throw assertion_failure
  | _ =>
      Ok ({| m_blocks := steal_blocks (m_blocks caller) (m_blocks callee);
             m_edges := m_edges caller ++ m_edges callee;
             m_registers_size := m_registers_size caller;
             m_entry_block := m_entry_block caller |},
          {| m_blocks := [];
             m_edges := [];
             m_registers_size := m_registers_size callee;
             m_entry_block := m_entry_block callee |})
  end.

(** The loop of [move_arg_regs] over the parameter instructions; [i] counts
    them.  [srcs.at(i)] throws when out of range. *)
Fixpoint move_arg_regs_loop (param_insns : list IRInstruction) (srcs : list Z)
    (i : nat) : M (list IRInstruction) :=
  match param_insns with
  | [] => ret []
  | load :: rest =>
      do op <- lift (load_param_to_move (opcode load)) ;
      do a <- (fun n => Ok (n, S n)) ;
      do s <- lift (match srcs !! i with
                    | Some r => Ok r
                    | None => Throw out_of_range
                    end) ;
      do d <- lift (dest load) ;
      let move := {| insn_addr := a; opcode := op;
                     srcs_vec := [s]; dest_opt := Some d |} in
      do rest' <- move_arg_regs_loop rest srcs (S i) ;
      ret (move :: rest')
  end.

(** Modelled from the spec: [ControlFlowGraph::get_param_instructions], the
    load-param instructions that open the entry block. *)
Fixpoint leading_params (l : list IRInstruction) : list IRInstruction * list IRInstruction :=
  match l with
  | [] => ([], [])
  | i :: l' =>
      if is_load_param (opcode i)
      then let '(ps, rest) := leading_params l' in (i :: ps, rest)
      else ([], l)
  end.

Definition get_param_instructions (cfg : ControlFlowGraph) : list IRInstruction :=
  match find_block cfg (m_entry_block cfg) with
  | Some b => fst (leading_params (m_entries b))
  | None => []
  end.

(** Writes [new_params] over the parameter instructions of the entry block. *)
Definition set_param_instructions (cfg : ControlFlowGraph)
    (new_params : list IRInstruction) : ControlFlowGraph :=
  set_blocks cfg
    ((fun b =>
        if Nat.eqb (block_addr b) (m_entry_block cfg)
        then set_entries b (new_params ++ snd (leading_params (m_entries b)))
        else b) <$> m_blocks cfg).

(** [CFGInliner::move_arg_regs] *)
Definition move_arg_regs (callee : ControlFlowGraph) (srcs : list Z)
    : M ControlFlowGraph :=
  do moves <- move_arg_regs_loop (get_param_instructions callee) srcs 0 ;
  ret (set_param_instructions callee moves).

(** The loop of [move_arg_regs] as it runs on the callee in place.  Each
    round writes its move over the load-param ([mie.insn = move]) before the
    next round begins, so a round that throws leaves the rounds before it
    done.  The result is what stands in the place of [param_insns] when the
    loop is left, the next free address, and how the loop was left. *)
Fixpoint move_arg_regs_loop_in_place (param_insns : list IRInstruction)
    (srcs : list Z) (i : nat) (n : nat) : list IRInstruction * nat * outcome unit :=
  match param_insns with
  | [] => ([], n, Ok tt)
  | load :: rest =>
      match load_param_to_move (opcode load) with
      | Throw e => (load :: rest, n, Throw e)
      | Ok op =>
          match srcs !! i with
          | None => (load :: rest, S n, Throw out_of_range)
          | Some s =>
              match dest load with
              | Throw e => (load :: rest, S n, Throw e)
              | Ok d =>
                  let move := {| insn_addr := n; opcode := op;
                                 srcs_vec := [s]; dest_opt := Some d |} in
                  let '(rest', n', r) :=
                    move_arg_regs_loop_in_place rest srcs (S i) (S n) in
                  (move :: rest', n', r)
              end
          end
      end
  end.

(** [CFGInliner::move_arg_regs] with the callee it leaves behind, also when
    it throws. *)
Definition move_arg_regs_in_place (callee : ControlFlowGraph) (srcs : list Z)
    (n : nat) : ControlFlowGraph * nat * outcome unit :=
  let '(insns, n', r) :=
    move_arg_regs_loop_in_place (get_param_instructions callee) srcs 0 n in
  (set_param_instructions callee insns, n', r).

(** [CFGInliner::return_to_move] *)
Definition return_to_move (op : IROpcode) : outcome IROpcode :=
  match op with
  | OPCODE_RETURN_VOID => Ok OPCODE_NOP
  | OPCODE_RETURN => Ok OPCODE_MOVE
  | OPCODE_RETURN_WIDE => Ok OPCODE_MOVE_WIDE
  | OPCODE_RETURN_OBJECT => Ok OPCODE_MOVE_OBJECT
  | _ => Throw assertion_failure
  end.

(** The loop of [move_return_reg] over one instruction list: a return becomes
    a move into [ret_reg], or is dropped. *)
Fixpoint move_return_reg_loop (l : list IRInstruction) (ret_reg : option Z)
    : M (list IRInstruction) :=
  match l with
  | [] => ret []
  | insn :: rest =>
      if is_return (opcode insn) then
        do op <- lift (return_to_move (opcode insn)) ;
        match ret_reg with
        | Some r =>
            if bool_decide (op <> OPCODE_NOP) then
              do a <- (fun n => Ok (n, S n)) ;
              do s <- lift (src insn 0) ;
              let move := {| insn_addr := a; opcode := op;
                             srcs_vec := [s]; dest_opt := Some r |} in
              do rest' <- move_return_reg_loop rest ret_reg ;
              ret (move :: rest')
            else move_return_reg_loop rest ret_reg
        | None => move_return_reg_loop rest ret_reg
        end
      else
        do rest' <- move_return_reg_loop rest ret_reg ;
        ret (insn :: rest')
  end.

Fixpoint move_return_reg_blocks (bs : list Block) (ret_reg : option Z)
    : M (list Block) :=
  match bs with
  | [] => ret []
  | b :: rest =>
      do l <- move_return_reg_loop (m_entries b) ret_reg ;
      do rest' <- move_return_reg_blocks rest ret_reg ;
      ret (set_entries b l :: rest')
  end.

(** [CFGInliner::move_return_reg] *)
Definition move_return_reg (callee : ControlFlowGraph) (ret_reg : option Z)
    : M ControlFlowGraph :=
  do bs <- move_return_reg_blocks (m_blocks callee) ret_reg ;
  ret (set_blocks callee bs).

(** The lambda [add_throw_edges] of [add_callee_throws_to_caller]. *)
Fixpoint add_throw_edges (cfg : ControlFlowGraph) (caller_catches : list Edge)
    (callee_block : nat) (starting_index : Z) : ControlFlowGraph :=
  match caller_catches with
  | [] => cfg
  | caller_catch :: rest =>
      match e_type caller_catch with
      | EDGE_THROW ti =>
          add_throw_edges
            (add_throw_edge cfg callee_block (e_target caller_catch)
               (catch_type ti) starting_index)
            rest callee_block (reg_wrap (starting_index + 1))
      | _ => add_throw_edges cfg rest callee_block (reg_wrap (starting_index + 1))
      end
  end.

(** [CFGInliner::add_callee_throws_to_caller] *)
Fixpoint add_callee_throws_to_caller (cfg : ControlFlowGraph)
    (callee_blocks : list Block) (caller_catches : list Edge) : ControlFlowGraph :=
  match callee_blocks with
  | [] => cfg
  | callee_block :: rest =>
      let existing_throws :=
        get_outgoing_throws_in_order cfg (block_addr callee_block) in
      let cfg' :=
        match last existing_throws with
        | None =>
            match get_last_insn callee_block with
            | Some last_insn =>
                if can_throw (opcode last_insn)
                then add_throw_edges cfg caller_catches (block_addr callee_block) 0
                else cfg
            | None => cfg
            end
        | Some back =>
            match e_type back with
            | EDGE_THROW ti =>
                match catch_type ti with
                | Some _ =>
                    add_throw_edges cfg caller_catches (block_addr callee_block)
                      (reg_wrap (index ti + 1))
                | None => cfg
                end
            | _ => cfg
            end
        end in
      add_callee_throws_to_caller cfg' rest caller_catches
  end.

(** The lambda [connect] of [connect_cfgs]. *)
Definition connect (cfg : ControlFlowGraph) (preds : list nat) (succ : nat)
    : ControlFlowGraph :=
  foldl (fun c pred => add_goto_edge c pred succ) cfg preds.

(** [CFGInliner::connect_cfgs]; blocks are given by address. *)
Definition connect_cfgs (inline_after_ : bool) (cfg : ControlFlowGraph)
    (callsite : nat) (callee_blocks : list Block) (callee_entry : nat)
    (callee_exits : list nat) (callsite_split : nat) : ControlFlowGraph :=
  let caller_throws := get_outgoing_throws_in_order cfg callsite in
  let cfg1 :=
    match caller_throws with
    | [] => cfg
    | _ => add_callee_throws_to_caller cfg callee_blocks caller_throws
    end in
  let cfg2 :=
    if inline_after_ then
      connect
        (set_edges cfg1
           (filter (fun e => ~ (e_src e = callsite /\ is_goto_edge e = true))
              (m_edges cfg1)))
        [callsite] callee_entry
    else
      let callsite_split_preds :=
        e_src <$> filter (fun e => e_target e = callsite_split) (m_edges cfg1) in
      set_edges (connect cfg1 callsite_split_preds callee_entry)
        (filter (fun e => e_target e <> callsite_split)
           (m_edges (connect cfg1 callsite_split_preds callee_entry)))
  in
  connect cfg2 callee_exits callsite_split.

(** Modelled from the spec: [ControlFlowGraph::return_blocks], the blocks
    whose last instruction is a return. *)
Definition ends_in_return (b : Block) : bool :=
  match get_last_insn b with
  | Some i => is_return (opcode i)
  | None => false
  end.

Definition return_blocks (cfg : ControlFlowGraph) : list nat :=
  block_addr <$> filter (fun b => ends_in_return b = true) (m_blocks cfg).

(** Modelled from the spec: [IRInstruction::has_move_result_any], true of
    the call instructions, whose result a following move-result captures. *)
Definition has_move_result_any (insn : IRInstruction) : bool :=
  match opcode insn with
  | OPCODE_INVOKE_STATIC | OPCODE_INVOKE_VIRTUAL => true
  | _ => false
  end.

(** The source registers handed to [move_arg_regs] (the argument of the call
    at lines 92-95 of [inline_cfg]). *)
Definition inline_site_srcs (plugin : CFGInlinerPlugin) (inline_site : IRInstruction)
    : list Z :=
  match inline_srcs plugin with
  | Some alt_srcs => alt_srcs
  | None => srcs_vec inline_site
  end.

(** The four-argument [CFGInliner::inline_cfg] from the call of
    [plugin.update_before_reg_remap] to its end.  What the statements before
    it computed with operations of [ControlFlow.cpp] comes in as arguments:
    [callee] is the copy of the callee after ghost-exit removal and block
    splitting, [callee_entry_block] and [callee_return_blocks] were read off
    it, [inline_site_block] and [inline_site] are the block and instruction of
    the call, [split_on_inline] is the block that runs after the callee, and
    [move_res] is [caller->move_result_of(inline_site)] ([None]: the end
    iterator).  Debug positions are not kept in this model. *)
Definition inline_cfg_body (plugin : CFGInlinerPlugin)
    (caller : ControlFlowGraph) (inline_site_block : nat)
    (inline_site : IRInstruction) (move_res : option IRInstruction)
    (callee : ControlFlowGraph) (callee_entry_block : nat)
    (callee_return_blocks : list nat) (split_on_inline : nat)
    : M ControlFlowGraph :=
  let '(caller, callee) := update_before_reg_remap plugin caller callee in
  let callee_regs_size := m_registers_size callee in
  let caller_regs_size := m_registers_size caller in
  let callee := remap_registers callee caller_regs_size in
  do callee <- move_arg_regs callee (inline_site_srcs plugin inline_site) ;
  do rc <-
    (if has_move_result_any inline_site then
       do return_reg <-
         match reg_for_return plugin with
         | Some r => ret (Some r)
         | None =>
             match move_res with
             | None => ret None
             | Some mr => do d <- lift (dest mr) ; ret (Some d)
             end
         end ;
       match move_res with
       | Some mr =>
           if remove_inline_site plugin
           then ret (return_reg, remove_insn caller (insn_addr mr))
           else ret (return_reg, caller)
       | None => ret (return_reg, caller)
       end
     else ret (reg_for_return plugin, caller)) ;
  let '(return_reg, caller) := rc in
  do callee <- move_return_reg callee return_reg ;
  let '(caller, callee, need_reg_size_recompute) :=
    update_after_reg_remap plugin caller callee in
  let callee_blocks := m_blocks callee in
  do stolen <- lift (steal_contents caller callee) ;
  let caller := fst stolen in
  let caller :=
    connect_cfgs (inline_after plugin) caller inline_site_block callee_blocks
      callee_entry_block callee_return_blocks split_on_inline in
  let caller :=
    if need_reg_size_recompute then recompute_registers_size caller
    else set_registers_size caller (reg_wrap (caller_regs_size + callee_regs_size)) in
  let caller :=
    if remove_inline_site plugin then remove_insn caller (insn_addr inline_site)
    else caller in
  ret caller.

(** *** Reading an inlined body *)

(** The entries of the entry block. *)
Definition entry_instructions (cfg : ControlFlowGraph) : list IRInstruction :=
  match find_block cfg (m_entry_block cfg) with
  | Some b => m_entries b
  | None => []
  end.

(** The meaning of a move: the source register -- a register pair for a
    wide move -- is copied to the destination; [rho] gives the contents of the
    registers. *)
Definition move_width (op : IROpcode) : Z :=
  match op with OPCODE_MOVE_WIDE => 2 | _ => 1 end.

Definition param_width (op : IROpcode) : Z :=
  match op with IOPCODE_LOAD_PARAM_WIDE => 2 | _ => 1 end.

Definition exec_move {V : Type} (rho : Z -> V) (insn : IRInstruction) : Z -> V :=
  match srcs_vec insn, dest_opt insn with
  | [s], Some d =>
      fun r => if (d <=? r) && (r <? d + move_width (opcode insn))
               then rho (s + (r - d)) else rho r
  | _, _ => rho
  end.

Definition exec_moves {V : Type} (rho : Z -> V) (l : list IRInstruction) : Z -> V :=
  foldl exec_move rho l.

(** Every register of [insn] lies in [[lo, hi)]. *)
Definition registers_within (lo hi : Z) (insn : IRInstruction) : Prop :=
  forall r, r ∈ registers insn -> lo <= r < hi.

(** The conditions under which the argument moves can be read off one by one:
    the argument registers are registers of the caller, the shifted parameter
    registers fit [reg_t], and the parameters occupy distinct registers. *)
Definition args_in_caller (params : list IRInstruction) (srcs : list Z)
    (caller_regs_size : Z) : Prop :=
  forall i load s, params !! i = Some load -> srcs !! i = Some s ->
    0 <= s /\ s + param_width (opcode load) <= caller_regs_size.

Definition dests_fit (params : list IRInstruction) (caller_regs_size : Z) : Prop :=
  forall load d, load ∈ params -> dest_opt load = Some d ->
    0 <= d /\ d + param_width (opcode load) + caller_regs_size <= 2 ^ reg_bits.

Definition dests_disjoint (params : list IRInstruction) : Prop :=
  forall i j li lj di dj, i <> j ->
    params !! i = Some li -> params !! j = Some lj ->
    dest_opt li = Some di -> dest_opt lj = Some dj ->
    di + param_width (opcode li) <= dj \/ dj + param_width (opcode lj) <= di.

(** A move the inliner itself made (an object allocated from [n] on): from
    an argument register of the caller into a parameter register of the
    callee, or from a register of the callee into the result register of the
    caller. *)
Definition inliner_move (caller_regs_size callee_regs_size : Z) (n : nat)
    (insn : IRInstruction) : Prop :=
  (n <= insn_addr insn)%nat
  /\ exists s d, srcs_vec insn = [s] /\ dest_opt insn = Some d
       /\ ((0 <= s < caller_regs_size
            /\ caller_regs_size <= d < caller_regs_size + callee_regs_size)
           \/ (caller_regs_size <= s < caller_regs_size + callee_regs_size
               /\ 0 <= d < caller_regs_size)).

(** *** Reading the throw edges *)



(** The edges [add_throw_edges] appends for one callee block. *)
Fixpoint new_throw_edges (caller_catches : list Edge) (callee_block : nat)
    (starting_index : Z) : list Edge :=
  match caller_catches with
  | [] => []
  | caller_catch :: rest =>
      match e_type caller_catch with
      | EDGE_THROW ti =>
          {| e_src := callee_block; e_target := e_target caller_catch;
             e_type := EDGE_THROW {| catch_type := catch_type ti;
                                     index := starting_index |} |}
          :: new_throw_edges rest callee_block (reg_wrap (starting_index + 1))
      | _ => new_throw_edges rest callee_block (reg_wrap (starting_index + 1))
      end
  end.



(** *** Predicates and samples for the properties below *)

Definition param_ok (load : IRInstruction) : Prop :=
  is_load_param (opcode load) = true /\ has_dest load = true.

Definition writes (m : IRInstruction) (r : Z) : Prop :=
  exists s d, srcs_vec m = [s] /\ dest_opt m = Some d
              /\ d <= r < d + move_width (opcode m).

(** A move the inliner made for a parameter: a fresh object, from one of
    the source registers into the register of a load-param. *)
Definition argument_move (params : list IRInstruction) (srcs : list Z) (n : nat)
    (m : IRInstruction) : Prop :=
  (n <= insn_addr m)%nat /\ is_return (opcode m) = false
  /\ exists load s d, load ∈ params /\ s ∈ srcs /\ dest_opt load = Some d
                      /\ srcs_vec m = [s] /\ dest_opt m = Some d.

(** A move the inliner made for a return: a fresh object, from the
    register a return of the callee names into the result register. *)
Definition return_move (l : list IRInstruction) (ret_reg : option Z) (n : nat)
    (m : IRInstruction) : Prop :=
  (n <= insn_addr m)%nat
  /\ exists ret s r, ret ∈ l /\ is_return (opcode ret) = true
                     /\ s ∈ srcs_vec ret /\ ret_reg = Some r
                     /\ srcs_vec m = [s] /\ dest_opt m = Some r.


(** An instruction that is no return. *)
Definition not_return (i : IRInstruction) : Prop := is_return (opcode i) = false.
#[global] Instance not_return_dec i : Decision (not_return i).
Proof. unfold not_return. apply _. Defined.

(** An instruction made before the allocator reached [n]. *)
Definition older_than (n : nat) (i : IRInstruction) : Prop := (insn_addr i < n)%nat.
#[global] Instance older_than_dec n i : Decision (older_than n i).
Proof. unfold older_than. apply _. Defined.

(** The move [move_return_reg] makes of a return of [l]: from the first
    source of the return into the result register, with the opcode
    [return_to_move] gives. *)
Definition made_from_return (l : list IRInstruction) (ret_reg : option Z)
    (m : IRInstruction) : Prop :=
  exists ret s r, ret ∈ l /\ is_return (opcode ret) = true
    /\ srcs_vec ret !! 0%nat = Some s /\ ret_reg = Some r
    /\ return_to_move (opcode ret) = Ok (opcode m)
    /\ srcs_vec m = [s] /\ dest_opt m = Some r.

(** The blocks [steal_contents] adds: the callee's, numbered from [id] on. *)
Fixpoint renumber (id : nat) (bs : list Block) : list Block :=
  match bs with
  | [] => []
  | b :: rest =>
      {| block_addr := block_addr b; m_id := id; m_entries := m_entries b |}
      :: renumber (S id) rest
  end.

(** The edge [add_edge(pred, succ, EDGE_GOTO)] adds. *)
Definition goto_edge (succ pred : nat) : Edge :=
  {| e_src := pred; e_target := succ; e_type := EDGE_GOTO |}.

(** The move that stands for the [i]-th load-param [load]: the object at
    address [a], with the move opcode of the load-param, the [i]-th source
    register as its source and the load-param's destination, shifted by
    [caller_regs_size], as its destination. *)
Definition move_for (srcs : list Z) (caller_regs_size : Z) (a : nat) (i : nat)
    (load m : IRInstruction) : Prop :=
  exists s d op,
    srcs !! i = Some s /\ dest_opt load = Some d
    /\ load_param_to_move (opcode load) = Ok op
    /\ m = {| insn_addr := a; opcode := op; srcs_vec := [s];
              dest_opt := Some (reg_wrap (d + caller_regs_size)) |}.

(** Every return of the graph other than return-void names the register it
    returns. *)
Definition returns_have_src (cfg : ControlFlowGraph) : Prop :=
  forall insn, insn ∈ instructions cfg -> is_return (opcode insn) = true ->
    opcode insn <> OPCODE_RETURN_VOID -> srcs_vec insn <> [].

Definition two_param_callee : ControlFlowGraph :=
  {| m_blocks :=
       [{| block_addr := 0; m_id := 0;
           m_entries :=
             [{| insn_addr := 0; opcode := IOPCODE_LOAD_PARAM;
                 srcs_vec := []; dest_opt := Some 0 |};
              {| insn_addr := 1; opcode := IOPCODE_LOAD_PARAM_WIDE;
                 srcs_vec := []; dest_opt := Some 1 |};
              {| insn_addr := 2; opcode := OPCODE_RETURN_WIDE;
                 srcs_vec := [1]; dest_opt := None |}] |}];
     m_edges := [];
     m_registers_size := 3;
     m_entry_block := 0 |}.

Definition invoke_with (a : nat) (srcs : list Z) : IRInstruction :=
  {| insn_addr := a; opcode := OPCODE_INVOKE_STATIC; srcs_vec := srcs; dest_opt := None |}.

Definition mk_insn (a : nat) (op : IROpcode) (srcs : list Z) (d : option Z)
    : IRInstruction :=
  {| insn_addr := a; opcode := op; srcs_vec := srcs; dest_opt := d |}.

(** A caller that calls a one-parameter callee inside a try region with two
    handlers, and captures the result. *)
Definition sample_caller : ControlFlowGraph :=
  {| m_blocks :=
       [{| block_addr := 100; m_id := 0;
           m_entries := [mk_insn 20 OPCODE_CONST [] (Some 0);
                         mk_insn 21 OPCODE_INVOKE_STATIC [0] None] |};
        {| block_addr := 101; m_id := 1;
           m_entries := [mk_insn 22 OPCODE_MOVE_RESULT [] (Some 1);
                         mk_insn 23 OPCODE_RETURN [1] None] |}];
     m_edges :=
       [{| e_src := 100; e_target := 101; e_type := EDGE_GOTO |};
        {| e_src := 100; e_target := 103;
           e_type := EDGE_THROW {| catch_type := None; index := 1 |} |};
        {| e_src := 100; e_target := 102;
           e_type := EDGE_THROW {| catch_type := Some 7%nat; index := 0 |} |}];
     m_registers_size := 2;
     m_entry_block := 100 |}.

Definition sample_callee : ControlFlowGraph :=
  {| m_blocks :=
       [{| block_addr := 200; m_id := 0;
           m_entries := [mk_insn 30 IOPCODE_LOAD_PARAM [] (Some 0);
                         mk_insn 31 OPCODE_NEW_INSTANCE [] (Some 1)] |};
        {| block_addr := 201; m_id := 1;
           m_entries := [mk_insn 32 OPCODE_INVOKE_VIRTUAL [1; 0] None] |};
        {| block_addr := 202; m_id := 2;
           m_entries := [mk_insn 33 OPCODE_ADD_INT [0; 0] (Some 1);
                         mk_insn 34 OPCODE_RETURN [1] None] |}];
     m_edges :=
       [{| e_src := 200; e_target := 201; e_type := EDGE_GOTO |};
        {| e_src := 201; e_target := 202; e_type := EDGE_GOTO |};
        {| e_src := 201; e_target := 203;
           e_type := EDGE_THROW {| catch_type := Some 5%nat; index := 0 |} |}];
     m_registers_size := 2;
     m_entry_block := 200 |}.




End Inliner.

(** ** Concurrent containers *)

Module Concurrent.

Section Containers.
Context {Key Value : Type} `{Countable Key}.

(** [Hash()(key)] and the template argument [n_slots]. *)
Variable hash : Key -> nat.
Variable n_slots : nat.

(** [ConcurrentMapContainer]: the array [m_slots] of hash maps.  The array of
    locks is not kept: the operations below are the bodies executed under the
    slot's lock, one call at a time. *)
Record ConcurrentMapContainer : Type := { m_slots : list (gmap Key Value) }.

(** [ConcurrentSet] *)
Record ConcurrentSet : Type := { s_slots : list (gset Key) }.

Definition slot_of (key : Key) : nat := (hash key mod n_slots)%nat.

(** [get_container(slot)] *)
Definition get_container (c : ConcurrentMapContainer) (slot : nat) : gmap Key Value :=
  default ∅ (m_slots c !! slot).

Definition set_container (c : ConcurrentMapContainer) (slot : nat)
    (m : gmap Key Value) : ConcurrentMapContainer :=
  {| m_slots := <[slot := m]> (m_slots c) |}.

(** [ConcurrentContainer::count] *)
Definition count (c : ConcurrentMapContainer) (key : Key) : nat :=
  match get_container c (slot_of key) !! key with
  | Some _ => 1
  | None => 0
  end.

(** [ConcurrentMapContainer::get] *)
Definition get (c : ConcurrentMapContainer) (key : Key) (default_value : Value) : Value :=
  match get_container c (slot_of key) !! key with
  | Some v => v
  | None => default_value
  end.

(** [std::unordered_map::insert(entry)]: the map and [.second]. *)
Definition unordered_map_insert (entry : Key * Value) (m : gmap Key Value)
    : gmap Key Value * bool :=
  match m !! fst entry with
  | Some _ => (m, false)
  | None => (<[fst entry := snd entry]> m, true)
  end.

(** [ConcurrentMapContainer::insert(const std::pair<Key, Value>&)] *)
Definition insert_entry (entry : Key * Value) (c : ConcurrentMapContainer)
    : ConcurrentMapContainer * bool :=
  let slot := slot_of (fst entry) in
  let map := get_container c slot in
  let '(map', inserted) := unordered_map_insert entry map in
  (set_container c slot map', inserted).

(** [ConcurrentMapContainer::insert_or_assign] *)
Definition insert_or_assign (entry : Key * Value) (c : ConcurrentMapContainer)
    : ConcurrentMapContainer :=
  let slot := slot_of (fst entry) in
  let map := get_container c slot in
  set_container c slot (<[fst entry := snd entry]> map).

(** The same for [ConcurrentSet]. *)
Definition set_get_container (c : ConcurrentSet) (slot : nat) : gset Key :=
  default ∅ (s_slots c !! slot).

Definition set_count (c : ConcurrentSet) (key : Key) : nat :=
  if bool_decide (key ∈ set_get_container c (slot_of key)) then 1 else 0.

(** [std::unordered_set::insert(key)]: the set and [.second]. *)
Definition unordered_set_insert (key : Key) (s : gset Key) : gset Key * bool :=
  if bool_decide (key ∈ s) then (s, false) else ({[key]} ∪ s, true).

(** [ConcurrentSet::insert(const Key&)] *)
Definition set_insert (key : Key) (c : ConcurrentSet) : ConcurrentSet * bool :=
  let slot := slot_of key in
  let set := set_get_container c slot in
  let '(set', inserted) := unordered_set_insert key set in
  ({| s_slots := <[slot := set']> (s_slots c) |}, inserted).

(** What [find(key)] sees: the binding of [key] in its slot. *)
Definition binding (c : ConcurrentMapContainer) (key : Key) : option Value :=
  get_container c (slot_of key) !! key.

Definition member (s : ConcurrentSet) (key : Key) : bool :=
  bool_decide (key ∈ set_get_container s (slot_of key)).

End Containers.

Arguments ConcurrentMapContainer Key Value {_ _}.
Arguments ConcurrentSet Key {_ _}.

(** *** More of [ConcurrentContainers.h] *)

Section Operations.
Context {Key Value : Type} `{Countable Key}.
Variable hash : Key -> nat.
Variable n_slots : nat.

(** The default-constructed container: [n_slots] empty hash maps. *)
Definition new_map : ConcurrentMapContainer Key Value :=
  {| m_slots := replicate n_slots ∅ |}.

Definition new_set : ConcurrentSet Key := {| s_slots := replicate n_slots ∅ |}.

(** [ConcurrentContainer::size] *)
Definition size (c : ConcurrentMapContainer Key Value) : nat :=
  foldl (fun s slot => (s + base.size (get_container c slot))%nat) 0%nat (seq 0 n_slots).

(** [ConcurrentContainer::clear] *)
Definition clear (c : ConcurrentMapContainer Key Value) : ConcurrentMapContainer Key Value :=
  foldl (fun c slot => set_container c slot ∅) c (seq 0 n_slots).

(** [ConcurrentContainer::erase]: the container and the number of elements
    removed. *)
Definition erase (key : Key) (c : ConcurrentMapContainer Key Value)
    : ConcurrentMapContainer Key Value * nat :=
  let slot := slot_of hash n_slots key in
  let map := get_container c slot in
  (set_container c slot (delete key map),
   match map !! key with Some _ => 1%nat | None => 0%nat end).

(** [ConcurrentContainer::bucket_size] *)
Definition bucket_size (i : nat) (c : ConcurrentMapContainer Key Value) : outcome nat :=
  if (i <? n_slots)%nat then Ok (base.size (get_container c i))
  else Throw assertion_failure.

(** [ConcurrentMapContainer::at]; [std::unordered_map::at] throws
    [std::out_of_range] for a missing key. *)
Definition at_ (c : ConcurrentMapContainer Key Value) (key : Key) : outcome Value :=
  match get_container c (slot_of hash n_slots key) !! key with
  | Some v => Ok v
  | None => Throw out_of_range
  end.

(** [insert(first, last)] and [insert(initializer_list)] *)
Definition insert_range (entries : list (Key * Value))
    (c : ConcurrentMapContainer Key Value) : ConcurrentMapContainer Key Value :=
  foldl (fun c entry => fst (insert_entry hash n_slots entry c)) c entries.

(** [ConcurrentMapContainer::update].  The updater works on a reference to
    the value: it is given here as the value it leaves there and the exception
    it raises, if any; [value_init] is a value-initialized [Value], which
    [map[key]] inserts for a missing key before the updater runs. *)
Definition update (key : Key) (updater : Key -> Value -> bool -> Value * option exn)
    (value_init : Value) (c : ConcurrentMapContainer Key Value)
    : ConcurrentMapContainer Key Value * option exn :=
  let slot := slot_of hash n_slots key in
  let map := get_container c slot in
  match map !! key with
  | None =>
      let '(v', e) := updater key value_init false in
      (set_container c slot (<[key := v']> map), e)
  | Some v =>
      let '(v', e) := updater key v true in
      (set_container c slot (<[key := v']> map), e)
  end.

(** The same for [ConcurrentSet]. *)
Definition set_size (c : ConcurrentSet Key) : nat :=
  foldl (fun s slot => (s + base.size (set_get_container c slot))%nat) 0%nat (seq 0 n_slots).

Definition set_erase (key : Key) (c : ConcurrentSet Key) : ConcurrentSet Key * nat :=
  let slot := slot_of hash n_slots key in
  let set := set_get_container c slot in
  ({| s_slots := <[slot := set ∖ {[key]}]> (s_slots c) |},
   if bool_decide (key ∈ set) then 1%nat else 0%nat).

Definition set_insert_range (keys : list Key) (c : ConcurrentSet Key) : ConcurrentSet Key :=
  foldl (fun c key => fst (set_insert hash n_slots key c)) c keys.

(** Every key is kept in the slot of its hash code. *)
Definition well_slotted (c : ConcurrentMapContainer Key Value) : Prop :=
  length (m_slots c) = n_slots
  /\ forall i m k, m_slots c !! i = Some m -> is_Some (m !! k) -> i = slot_of hash n_slots k.

End Operations.

(** *** [cc_impl::ConcurrentContainerIterator] *)

Section Iterator.
Context {Key Value : Type} `{Countable Key}.
Variable hash : Key -> nat.
Variable n_slots : nat.

(** [cc_impl::ConcurrentContainerIterator]: the slot, and the position in the
    slot's hash map as the number of elements before it in the map's
    iteration order; the number of elements of the slot is its [end()]. *)
Record ConcurrentContainerIterator : Type := { m_slot : nat; m_position : nat }.

(** The elements of a slot in the iteration order of its hash map. *)
Definition slot_elements (c : ConcurrentMapContainer Key Value) (slot : nat)
    : list (Key * Value) :=
  map_to_list (get_container c slot).

(** [m_position == m_slots[m_slot].end()] *)
Definition at_slot_end (c : ConcurrentMapContainer Key Value)
    (it : ConcurrentContainerIterator) : bool :=
  (m_position it =? length (slot_elements c (m_slot it)))%nat.

(** [skip_empty_slots]; the loop moves to the next slot each time, so
    [n_slots] rounds end it. *)
Fixpoint skip_empty_slots (fuel : nat) (c : ConcurrentMapContainer Key Value)
    (it : ConcurrentContainerIterator) : ConcurrentContainerIterator :=
  match fuel with
  | O => it
  | S fuel' =>
      if at_slot_end c it && (m_slot it <? n_slots - 1)%nat
      then skip_empty_slots fuel' c {| m_slot := S (m_slot it); m_position := 0 |}
      else it
  end.

(** The two constructors. *)
Definition make_iterator (c : ConcurrentMapContainer Key Value) (slot position : nat)
    : ConcurrentContainerIterator :=
  skip_empty_slots n_slots c {| m_slot := slot; m_position := position |}.

Definition end_iterator (c : ConcurrentMapContainer Key Value)
    : ConcurrentContainerIterator :=
  make_iterator c (n_slots - 1) (length (slot_elements c (n_slots - 1))).

(** [ConcurrentContainer::begin] and [end] *)
Definition begin (c : ConcurrentMapContainer Key Value) : ConcurrentContainerIterator :=
  make_iterator c 0 0.

Definition end_ (c : ConcurrentMapContainer Key Value) : ConcurrentContainerIterator :=
  end_iterator c.

(** [m_position == m_slots[n_slots - 1].end()]: a position of another slot
    is not the end of the last one. *)
Definition at_container_end (c : ConcurrentMapContainer Key Value)
    (it : ConcurrentContainerIterator) : bool :=
  (m_slot it =? n_slots - 1)%nat && at_slot_end c it.

(** [operator++] *)
Definition increment (c : ConcurrentMapContainer Key Value)
    (it : ConcurrentContainerIterator) : outcome ConcurrentContainerIterator :=
  if at_container_end c it then Throw assertion_failure
  else Ok (skip_empty_slots n_slots c
             {| m_slot := m_slot it; m_position := S (m_position it) |}).

(** [operator*]; reading the [end()] of a slot has no defined result. *)
Definition dereference (c : ConcurrentMapContainer Key Value)
    (it : ConcurrentContainerIterator) : outcome (Key * Value) :=
  if at_container_end c it then Throw assertion_failure
  else match slot_elements c (m_slot it) !! m_position it with
       | Some x => Ok x
       | None => Throw undefined_operation
       end.

(** [operator==] on iterators of one container. *)
Definition iterator_eq (a b : ConcurrentContainerIterator) : bool :=
  (m_slot a =? m_slot b)%nat && (m_position a =? m_position b)%nat.

(** The elements a traversal [for (it = begin(); it != end(); ++it)] reads
    off [*it]; [None] when [fuel] steps did not reach [end()]. *)
Fixpoint for_each (fuel : nat) (c : ConcurrentMapContainer Key Value)
    (it : ConcurrentContainerIterator) : option (outcome (list (Key * Value))) :=
  match fuel with
  | O => None
  | S fuel' =>
      if iterator_eq it (end_ c) then Some (Ok [])
      else match dereference c it with
           | Throw e => Some (Throw e)
           | Ok x =>
               match increment c it with
               | Throw e => Some (Throw e)
               | Ok it' =>
                   match for_each fuel' c it' with
                   | Some (Ok l) => Some (Ok (x :: l))
                   | r => r
                   end
               end
           end
  end.

Definition elements (c : ConcurrentMapContainer Key Value)
    : option (outcome (list (Key * Value))) :=
  for_each (S (size n_slots c)) c (begin c).

(** What is left to visit from a position on. *)
Definition remaining (c : ConcurrentMapContainer Key Value)
    (it : ConcurrentContainerIterator) : list (Key * Value) :=
  drop (m_position it) (slot_elements c (m_slot it))
  ++ concat (slot_elements c <$> seq (S (m_slot it)) (n_slots - S (m_slot it))).

End Iterator.

(** A sample: a map of three slots that binds 4 to 40, and the set {4}. *)
Definition sample_map : ConcurrentMapContainer nat Z :=
  {| m_slots := [∅; {[4%nat := 40]}; ∅] |}.
Definition sample_set : ConcurrentSet nat :=
  {| s_slots := [∅; {[4%nat]}; ∅] |}.

(** The hash of the samples, an empty map of three slots, and an updater
    that adds one to the value and raises nothing. *)
Definition id_hash (k : nat) : nat := k.

Definition empty_sample : ConcurrentMapContainer nat Z := new_map 3.

Definition increment_updater (_ : nat) (v : Z) (_ : bool) : Z * option exn :=
  (v + 1, None).

End Concurrent.

(** * Properties *)

(** ** Concurrent containers: [insert] never overwrites *)

Module ConcurrentFacts.
Import Concurrent.

Section Facts.
Context {Key Value : Type} `{Countable Key}.
Variable hash : Key -> nat.
Variable n_slots : nat.

Lemma slot_of_lt (key : Key) : (0 < n_slots)%nat -> (slot_of hash n_slots key < n_slots)%nat.
Proof. intros Hn. unfold slot_of. apply Nat.mod_upper_bound. lia. Qed.

Lemma get_set_container_eq (c : ConcurrentMapContainer Key Value) slot m :
  (slot < length (m_slots c))%nat ->
  get_container (set_container c slot m) slot = m.
Proof.
  intros Hlt. unfold get_container, set_container. simpl.
  by rewrite list_lookup_insert_eq.
Qed.

Lemma get_set_container_ne (c : ConcurrentMapContainer Key Value) slot slot' m :
  slot <> slot' ->
  get_container (set_container c slot m) slot' = get_container c slot'.
Proof.
  intros Hne. unfold get_container, set_container. simpl.
  by rewrite list_lookup_insert_ne.
Qed.

Lemma set_container_id (c : ConcurrentMapContainer Key Value) slot :
  (slot < length (m_slots c))%nat ->
  set_container c slot (get_container c slot) = c.
Proof.
  intros Hlt. destruct c as [slots]. unfold set_container, get_container. simpl in *.
  f_equal. apply list_insert_id.
  destruct (lookup_lt_is_Some_2 slots slot Hlt) as [m Hm]. by rewrite Hm.
Qed.

Lemma insert_entry_fresh (c : ConcurrentMapContainer Key Value) k v :
  (0 < n_slots)%nat -> length (m_slots c) = n_slots ->
  binding hash n_slots c k = None ->
  exists c', insert_entry hash n_slots (k, v) c = (c', true)
    /\ binding hash n_slots c' k = Some v
    /\ forall k', k' <> k -> binding hash n_slots c' k' = binding hash n_slots c k'.
Proof.
  intros Hn Hlen Hnone. unfold insert_entry, unordered_map_insert. simpl.
  unfold binding in Hnone. rewrite Hnone.
  eexists. split; [reflexivity|].
  assert (Hlt : (slot_of hash n_slots k < length (m_slots c))%nat)
    by (rewrite Hlen; by apply slot_of_lt).
  split.
  - unfold binding. rewrite get_set_container_eq by done. apply lookup_insert_eq.
  - intros k' Hne. unfold binding.
    destruct (decide (slot_of hash n_slots k = slot_of hash n_slots k')) as [Heq|Hs].
    + rewrite <- Heq. rewrite get_set_container_eq by done.
      by rewrite lookup_insert_ne.
    + by rewrite get_set_container_ne.
Qed.

Lemma insert_entry_present (c : ConcurrentMapContainer Key Value) k v old :
  (0 < n_slots)%nat -> length (m_slots c) = n_slots ->
  binding hash n_slots c k = Some old ->
  insert_entry hash n_slots (k, v) c = (c, false).
Proof.
  intros Hn Hlen Hsome. unfold insert_entry, unordered_map_insert. simpl.
  unfold binding in Hsome. rewrite Hsome.
  assert (Hlt : (slot_of hash n_slots k < length (m_slots c))%nat)
    by (rewrite Hlen; by apply slot_of_lt).
  by rewrite set_container_id.
Qed.

Lemma insert_or_assign_binding (c : ConcurrentMapContainer Key Value) k v :
  (0 < n_slots)%nat -> length (m_slots c) = n_slots ->
  binding hash n_slots (insert_or_assign hash n_slots (k, v) c) k = Some v.
Proof.
  intros Hn Hlen. unfold insert_or_assign, binding. simpl.
  assert (Hlt : (slot_of hash n_slots k < length (m_slots c))%nat)
    by (rewrite Hlen; by apply slot_of_lt).
  rewrite get_set_container_eq by done. apply lookup_insert_eq.
Qed.

Lemma set_insert_fresh (s : ConcurrentSet Key) k :
  (0 < n_slots)%nat -> length (s_slots s) = n_slots ->
  member hash n_slots s k = false ->
  exists s', set_insert hash n_slots k s = (s', true)
    /\ member hash n_slots s' k = true
    /\ forall k', k' <> k -> member hash n_slots s' k' = member hash n_slots s k'.
Proof.
  intros Hn Hlen Hno. unfold set_insert, unordered_set_insert.
  unfold member in Hno. rewrite Hno.
  eexists. split; [reflexivity|].
  assert (Hlt : (slot_of hash n_slots k < length (s_slots s))%nat)
    by (rewrite Hlen; by apply slot_of_lt).
  split.
  - unfold member, set_get_container. simpl.
    rewrite list_lookup_insert_eq by done. simpl.
    apply bool_decide_eq_true. set_solver.
  - intros k' Hne. unfold member, set_get_container. simpl.
    destruct (decide (slot_of hash n_slots k = slot_of hash n_slots k')) as [Heq|Hs].
    + rewrite <- Heq. rewrite list_lookup_insert_eq by done. simpl.
      apply bool_decide_ext. set_solver.
    + by rewrite list_lookup_insert_ne.
Qed.

Lemma set_insert_present (s : ConcurrentSet Key) k :
  (0 < n_slots)%nat -> length (s_slots s) = n_slots ->
  member hash n_slots s k = true ->
  set_insert hash n_slots k s = (s, false).
Proof.
  intros Hn Hlen Hyes. unfold set_insert, unordered_set_insert.
  unfold member in Hyes. rewrite Hyes.
  assert (Hlt : (slot_of hash n_slots k < length (s_slots s))%nat)
    by (rewrite Hlen; by apply slot_of_lt).
  destruct s as [slots]. simpl in *. f_equal. f_equal.
  apply list_insert_id. unfold set_get_container. simpl.
  destruct (lookup_lt_is_Some_2 slots _ Hlt) as [m Hm]. by rewrite Hm.
Qed.

(** C10.  Executed one call at a time on a container with its [n_slots]
    slots, [ConcurrentMapContainer::insert(entry)] returns [true] exactly when
    the key was not bound; then the key is bound to the entry's value and every
    other binding hash n_slots is as before.  When the key was bound it returns [false]
    and the container, the old value included, is the one it was given.
    [ConcurrentSet::insert(key)] behaves the same on membership, and
    [insert_or_assign] is the operation that overwrites. *)
Theorem insert_never_overwrites
    (c : ConcurrentMapContainer Key Value) (s : ConcurrentSet Key)
    (k : Key) (v : Value) :
  (0 < n_slots)%nat ->
  length (m_slots c) = n_slots ->
  length (s_slots s) = n_slots ->
  (snd (insert_entry hash n_slots (k, v) c) = true <-> binding hash n_slots c k = None)
  /\ (binding hash n_slots c k = None ->
      binding hash n_slots (fst (insert_entry hash n_slots (k, v) c)) k = Some v
      /\ forall k', k' <> k ->
           binding hash n_slots (fst (insert_entry hash n_slots (k, v) c)) k' = binding hash n_slots c k')
  /\ (forall old, binding hash n_slots c k = Some old ->
        insert_entry hash n_slots (k, v) c = (c, false)
        /\ binding hash n_slots (fst (insert_entry hash n_slots (k, v) c)) k = Some old)
  /\ (snd (set_insert hash n_slots k s) = true <-> member hash n_slots s k = false)
  /\ (member hash n_slots s k = false ->
      member hash n_slots (fst (set_insert hash n_slots k s)) k = true
      /\ forall k', k' <> k ->
           member hash n_slots (fst (set_insert hash n_slots k s)) k' = member hash n_slots s k')
  /\ (member hash n_slots s k = true -> set_insert hash n_slots k s = (s, false))
  /\ binding hash n_slots (insert_or_assign hash n_slots (k, v) c) k = Some v.
Proof.
  intros Hn Hc Hs.
  split; [|split; [|split; [|split; [|split; [|split]]]]].
  - destruct (binding hash n_slots c k) as [old|] eqn:Hb.
    + rewrite (insert_entry_present c k v old Hn Hc Hb). simpl. split; discriminate.
    + destruct (insert_entry_fresh c k v Hn Hc Hb) as (c' & -> & _). simpl. done.
  - intros Hb. destruct (insert_entry_fresh c k v Hn Hc Hb) as (c' & -> & H1 & H2).
    simpl. done.
  - intros old Hb. rewrite (insert_entry_present c k v old Hn Hc Hb). simpl. done.
  - destruct (member hash n_slots s k) eqn:Hb.
    + rewrite (set_insert_present s k Hn Hs Hb). simpl. split; discriminate.
    + destruct (set_insert_fresh s k Hn Hs Hb) as (s' & -> & _). simpl. done.
  - intros Hb. destruct (set_insert_fresh s k Hn Hs Hb) as (s' & -> & H1 & H2).
    simpl. done.
  - intros Hb. apply (set_insert_present s k Hn Hs Hb).
  - apply insert_or_assign_binding; done.
Qed.

End Facts.

Lemma insert_never_overwrites_witness :
  insert_entry (fun k => k) 3 (4%nat, 99) sample_map = (sample_map, false)
  /\ binding (fun k => k) 3 (insert_or_assign (fun k => k) 3 (4%nat, 99) sample_map) 4%nat
     = Some 99.
Proof.
  pose proof (insert_never_overwrites (fun k => k) 3 sample_map sample_set 4%nat 99
                ltac:(lia) eq_refl eq_refl) as (_ & _ & Hold & _ & _ & _ & Hassign).
  split.
  - apply (Hold 40). reflexivity.
  - exact Hassign.
Defined.

End ConcurrentFacts.

(** ** Concurrent containers: the other operations *)

Module ConcurrentOperations.
Import Concurrent ConcurrentFacts.

Section ContainerFacts.
Context {Key Value : Type} `{Countable Key}.
Variable hash : Key -> nat.
Variable n_slots : nat.

Lemma foldl_add_sum {A} (g : A -> nat) (l : list A) (a : nat) :
  foldl (fun s i => (s + g i)%nat) a l = (a + sum_list (g <$> l))%nat.
Proof.
  revert a. induction l as [|x l IH]; intros a; csimpl; [lia|]. rewrite IH. lia.
Qed.

Lemma fmap_seq_lookup {A B} (f : A -> B) (d : A) (l : list A) :
  (fun i => f (default d (l !! i))) <$> seq 0 (length l) = f <$> l.
Proof.
  apply list_eq. intros i. rewrite !list_lookup_fmap.
  destruct (decide (i < length l)%nat) as [Hlt|Hge].
  - rewrite lookup_seq_lt by done. simpl.
    destruct (lookup_lt_is_Some_2 l i Hlt) as [x Hx]. by rewrite Hx.
  - rewrite lookup_seq_ge by lia. by rewrite lookup_ge_None_2 by lia.
Qed.

Lemma size_sum (c : ConcurrentMapContainer Key Value) :
  length (m_slots c) = n_slots ->
  size n_slots c = sum_list (base.size <$> m_slots c).
Proof.
  intros <-. unfold size, get_container. rewrite foldl_add_sum.
  by rewrite (fmap_seq_lookup base.size ∅).
Qed.

Lemma sum_list_insert (l : list nat) (i : nat) (x y : nat) :
  l !! i = Some x -> (sum_list (<[i := y]> l) + x = sum_list l + y)%nat.
Proof.
  revert i. induction l as [|z l IH]; intros [|i] Hi; simpl in *; try done.
  - injection Hi as ->. lia.
  - specialize (IH i Hi). lia.
Qed.

Lemma size_set_container (c : ConcurrentMapContainer Key Value) (i : nat) (m : gmap Key Value) :
  length (m_slots c) = n_slots -> (i < n_slots)%nat ->
  (size n_slots (set_container c i m) + base.size (get_container c i)
   = size n_slots c + base.size m)%nat.
Proof.
  intros Hlen Hi. rewrite !size_sum; [|done|by simpl; rewrite length_insert].
  unfold set_container, get_container. simpl.
  destruct (lookup_lt_is_Some_2 (m_slots c) i) as [m0 Hm0]; [lia|].
  rewrite Hm0. simpl. rewrite list_fmap_insert.
  apply sum_list_insert. by rewrite list_lookup_fmap, Hm0.
Qed.

Lemma binding_set_container (c : ConcurrentMapContainer Key Value) (k k' : Key)
    (m : gmap Key Value) :
  length (m_slots c) = n_slots -> (0 < n_slots)%nat ->
  (forall k', k' <> k -> m !! k' = get_container c (slot_of hash n_slots k) !! k') ->
  binding hash n_slots (set_container c (slot_of hash n_slots k) m) k'
  = if decide (k' = k) then m !! k else binding hash n_slots c k'.
Proof.
  intros Hlen Hn Hm. unfold binding.
  assert (Hlt : (slot_of hash n_slots k < length (m_slots c))%nat)
    by (rewrite Hlen; by apply slot_of_lt).
  destruct (decide (k' = k)) as [->|Hne].
  - by rewrite get_set_container_eq.
  - destruct (decide (slot_of hash n_slots k = slot_of hash n_slots k')) as [Heq|Hs].
    + rewrite <- Heq. rewrite get_set_container_eq by done. by apply Hm.
    + by rewrite get_set_container_ne.
Qed.

(** X13.  [ConcurrentContainer::erase(key)] returns [count(key)] as it was
    before the call (1 for a key that was present, 0 otherwise); afterwards
    [count(key)] is 0, every other key has the binding it had, and [size()]
    has gone down by the number returned. *)
Theorem erase_removes_one_key (c : ConcurrentMapContainer Key Value) (k : Key) :
  (0 < n_slots)%nat -> length (m_slots c) = n_slots ->
  snd (erase hash n_slots k c) = count hash n_slots c k
  /\ count hash n_slots (fst (erase hash n_slots k c)) k = 0%nat
  /\ (forall k', k' <> k ->
        binding hash n_slots (fst (erase hash n_slots k c)) k' = binding hash n_slots c k')
  /\ (size n_slots (fst (erase hash n_slots k c)) + snd (erase hash n_slots k c)
      = size n_slots c)%nat
  /\ length (m_slots (fst (erase hash n_slots k c))) = n_slots.
Proof.
  intros Hn Hlen. unfold erase. simpl.
  assert (Hlt : (slot_of hash n_slots k < n_slots)%nat) by by apply slot_of_lt.
  split; [done|]. split.
  { unfold count. rewrite get_set_container_eq by lia. by rewrite lookup_delete_eq. }
  split.
  { intros k' Hne. rewrite (binding_set_container c k k') by
      (try done; intros k'' Hk''; by rewrite lookup_delete_ne).
    by destruct (decide (k' = k)). }
  split.
  { pose proof (size_set_container c (slot_of hash n_slots k)
                  (delete k (get_container c (slot_of hash n_slots k))) Hlen Hlt) as Hs.
    rewrite map_size_delete in Hs.
    destruct (get_container c (slot_of hash n_slots k) !! k) as [v|] eqn:Hk.
    - assert (base.size (get_container c (slot_of hash n_slots k)) <> 0)%nat.
      { intros Hz. apply map_size_empty_inv in Hz. by rewrite Hz in Hk. }
      lia.
    - unfold id in Hs. lia. }
  by rewrite length_insert.
Qed.

Lemma insert_entry_binding (c : ConcurrentMapContainer Key Value) (k k' : Key) (v : Value) :
  (0 < n_slots)%nat -> length (m_slots c) = n_slots ->
  binding hash n_slots (fst (insert_entry hash n_slots (k, v) c)) k'
  = if decide (k' = k) then Some (default v (binding hash n_slots c k))
    else binding hash n_slots c k'.
Proof.
  intros Hn Hlen. destruct (binding hash n_slots c k) as [old|] eqn:Hb.
  - rewrite (insert_entry_present hash n_slots c k v old Hn Hlen Hb). simpl.
    destruct (decide (k' = k)) as [->|]; done.
  - destruct (insert_entry_fresh hash n_slots c k v Hn Hlen Hb) as (c' & -> & Hk & Hother).
    simpl. destruct (decide (k' = k)) as [->|]; [done|by apply Hother].
Qed.

Lemma insert_entry_size (c : ConcurrentMapContainer Key Value) (k : Key) (v : Value) :
  (0 < n_slots)%nat -> length (m_slots c) = n_slots ->
  size n_slots (fst (insert_entry hash n_slots (k, v) c))
  = (size n_slots c + if snd (insert_entry hash n_slots (k, v) c) then 1 else 0)%nat
  /\ length (m_slots (fst (insert_entry hash n_slots (k, v) c))) = n_slots.
Proof.
  intros Hn Hlen.
  assert (Hlt : (slot_of hash n_slots k < n_slots)%nat) by by apply slot_of_lt.
  unfold insert_entry, unordered_map_insert. simpl.
  destruct (get_container c (slot_of hash n_slots k) !! k) as [old|] eqn:Hk; simpl.
  - split; [|by rewrite length_insert]. rewrite set_container_id by lia. lia.
  - split; [|by rewrite length_insert].
    pose proof (size_set_container c (slot_of hash n_slots k)
                  (<[k := v]> (get_container c (slot_of hash n_slots k))) Hlen Hlt) as Hs.
    rewrite map_size_insert, Hk in Hs. lia.
Qed.

Lemma insert_range_snoc (l : list (Key * Value)) (e : Key * Value)
    (c : ConcurrentMapContainer Key Value) :
  insert_range hash n_slots (l ++ [e]) c
  = fst (insert_entry hash n_slots e (insert_range hash n_slots l c)).
Proof. unfold insert_range. by rewrite foldl_app. Qed.

Lemma list_to_map_snoc (l : list (Key * Value)) (k : Key) (v : Value) :
  (list_to_map (l ++ [(k, v)]) : gmap Key Value)
  = match (list_to_map l : gmap Key Value) !! k with
    | Some _ => list_to_map l
    | None => <[k := v]> (list_to_map l)
    end.
Proof.
  induction l as [|[k0 v0] l IH]; simpl; [done|].
  rewrite IH. destruct (decide (k0 = k)) as [->|Hne].
  - rewrite lookup_insert_eq.
    destruct (list_to_map l !! k) eqn:Hl; simpl; [done|]. by rewrite insert_insert_eq.
  - rewrite lookup_insert_ne by done.
    destruct (list_to_map l !! k) eqn:Hl; simpl; [done|]. by apply insert_insert_ne.
Qed.

Lemma size_list_to_map_dups (l : list (Key * Value)) :
  base.size (list_to_map l : gmap Key Value) = length (remove_dups l.*1).
Proof.
  rewrite <- (size_dom (D := gset Key)), dom_list_to_map_L.
  rewrite <- (size_list_to_set (C := gset Key) (remove_dups l.*1))
    by apply NoDup_remove_dups.
  f_equal. apply set_eq. intros k. rewrite !elem_of_list_to_set.
  by rewrite elem_of_remove_dups.
Qed.

Lemma new_map_binding (k : Key) : binding hash n_slots (new_map n_slots) k = @None Value.
Proof.
  unfold binding, get_container, new_map. simpl.
  destruct (replicate n_slots ∅ !! slot_of hash n_slots k) as [m|] eqn:Hm; [|done].
  apply lookup_replicate in Hm as [-> _]. done.
Qed.

Lemma sum_list_replicate_empty (n : nat) :
  sum_list (base.size <$> replicate n (∅ : gmap Key Value)) = 0%nat.
Proof. induction n as [|n IH]; [done|]. csimpl. by rewrite IH. Qed.

Lemma new_map_size : size n_slots (new_map n_slots : ConcurrentMapContainer Key Value) = 0%nat.
Proof.
  rewrite size_sum by (simpl; apply length_replicate). simpl.
  apply sum_list_replicate_empty.
Qed.

(** X14.  [insert(first, last)] into an empty [ConcurrentMap]: of the
    entries with one key the first one is kept ([find] sees what a map built
    from the list with earlier entries taking precedence has), and [size()]
    is the number of distinct keys of the list. *)
Theorem insert_range_first_wins (l : list (Key * Value)) :
  (0 < n_slots)%nat ->
  (forall k, binding hash n_slots (insert_range hash n_slots l (new_map n_slots)) k
             = (list_to_map l : gmap Key Value) !! k)
  /\ size n_slots (insert_range hash n_slots l (new_map n_slots))
     = length (remove_dups l.*1).
Proof.
  intros Hn.
  assert (Hgen : length (m_slots (insert_range hash n_slots l (new_map n_slots))) = n_slots
    /\ (forall k, binding hash n_slots (insert_range hash n_slots l (new_map n_slots)) k
                  = (list_to_map l : gmap Key Value) !! k)
    /\ size n_slots (insert_range hash n_slots l (new_map n_slots))
       = base.size (list_to_map l : gmap Key Value)).
  { induction l as [|[k v] l IH] using rev_ind.
    - split; [apply length_replicate|]. split; [|apply new_map_size].
      intros k. rewrite new_map_binding. done.
    - destruct IH as (Hlen & Hb & Hs). rewrite insert_range_snoc.
      destruct (insert_entry_size (insert_range hash n_slots l (new_map n_slots)) k v Hn Hlen)
        as [Hsize Hlen'].
      split; [done|]. split.
      + intros k'. rewrite insert_entry_binding by done. rewrite list_to_map_snoc, !Hb.
        destruct (decide (k' = k)) as [->|Hne].
        * destruct (list_to_map l !! k) eqn:Hl; simpl; [by rewrite Hl|].
          by rewrite lookup_insert_eq.
        * destruct (list_to_map l !! k) eqn:Hl; [done|]. by rewrite lookup_insert_ne.
      + rewrite Hsize, Hs, list_to_map_snoc.
        unfold insert_entry, unordered_map_insert. simpl.
        specialize (Hb k). unfold binding in Hb. rewrite Hb.
        destruct (list_to_map l !! k) eqn:Hl; simpl; [lia|].
        rewrite map_size_insert, Hl. lia. }
  destruct Hgen as (_ & Hb & Hs). split; [done|].
  rewrite Hs. apply size_list_to_map_dups.
Qed.

Lemma at_binding (c : ConcurrentMapContainer Key Value) (k : Key) :
  at_ hash n_slots c k
  = match binding hash n_slots c k with Some v => Ok v | None => Throw out_of_range end.
Proof. reflexivity. Qed.

Lemma count_binding (c : ConcurrentMapContainer Key Value) (k : Key) :
  count hash n_slots c k
  = match binding hash n_slots c k with Some _ => 1%nat | None => 0%nat end.
Proof. reflexivity. Qed.

Lemma insert_size_step (c : ConcurrentMapContainer Key Value) (k : Key) (v : Value) :
  (0 < n_slots)%nat -> length (m_slots c) = n_slots ->
  (size n_slots (set_container c (slot_of hash n_slots k)
                   (<[k := v]> (get_container c (slot_of hash n_slots k))))
   + count hash n_slots c k = size n_slots c + 1)%nat.
Proof.
  intros Hn Hlen.
  assert (Hlt : (slot_of hash n_slots k < n_slots)%nat) by by apply slot_of_lt.
  pose proof (size_set_container c (slot_of hash n_slots k)
                (<[k := v]> (get_container c (slot_of hash n_slots k))) Hlen Hlt) as Hs.
  rewrite map_size_insert in Hs. unfold count.
  destruct (get_container c (slot_of hash n_slots k) !! k) as [old|] eqn:Hk.
  - unfold id in Hs. lia.
  - lia.
Qed.

(** X15.  [insert_or_assign((k, v))] then [at(k)] returns [v], whether or
    not [k] was bound; [at] of any other key is unchanged; [at] throws
    [std::out_of_range] exactly for the keys whose [count] is 0; [size()]
    goes up by one exactly when [k] was not bound. *)
Theorem insert_or_assign_at (c : ConcurrentMapContainer Key Value) (k : Key) (v : Value) :
  (0 < n_slots)%nat -> length (m_slots c) = n_slots ->
  at_ hash n_slots (insert_or_assign hash n_slots (k, v) c) k = Ok v
  /\ (forall k', k' <> k ->
        at_ hash n_slots (insert_or_assign hash n_slots (k, v) c) k' = at_ hash n_slots c k')
  /\ (at_ hash n_slots c k = Throw out_of_range <-> count hash n_slots c k = 0%nat)
  /\ (size n_slots (insert_or_assign hash n_slots (k, v) c) + count hash n_slots c k
      = size n_slots c + 1)%nat
  /\ length (m_slots (insert_or_assign hash n_slots (k, v) c)) = n_slots.
Proof.
  intros Hn Hlen. unfold insert_or_assign. simpl.
  assert (Hb : forall k',
            binding hash n_slots
              (set_container c (slot_of hash n_slots k)
                 (<[k := v]> (get_container c (slot_of hash n_slots k)))) k'
            = if decide (k' = k) then Some v else binding hash n_slots c k').
  { intros k'. rewrite (binding_set_container c k k') by
      (try done; intros k'' Hk''; by rewrite lookup_insert_ne).
    by rewrite lookup_insert_eq. }
  split.
  { rewrite at_binding, Hb. by rewrite decide_True. }
  split.
  { intros k' Hne. rewrite !at_binding, Hb. by rewrite decide_False. }
  split.
  { rewrite at_binding, count_binding. by destruct (binding hash n_slots c k). }
  split; [by apply insert_size_step|by rewrite length_insert].
Qed.

(** X16.  [ConcurrentMap::update(key, updater)] runs the updater once, on
    the value of [key] and [true] when the key is bound, and on a
    value-initialized value and [false] when it is not.  The key is bound
    afterwards to what the updater left in the value -- also when the updater
    raised an exception, which [update] passes on -- every other key is
    unchanged, and [size()] goes up by one exactly when the key was not
    bound. *)
Theorem update_creates_or_modifies (c : ConcurrentMapContainer Key Value) (k : Key)
    (updater : Key -> Value -> bool -> Value * option exn) (value_init : Value) :
  (0 < n_slots)%nat -> length (m_slots c) = n_slots ->
  let old := binding hash n_slots c k in
  let r := updater k (default value_init old) (bool_decide (is_Some old)) in
  let c' := fst (update hash n_slots k updater value_init c) in
  snd (update hash n_slots k updater value_init c) = snd r
  /\ binding hash n_slots c' k = Some (fst r)
  /\ (forall k', k' <> k -> binding hash n_slots c' k' = binding hash n_slots c k')
  /\ (size n_slots c' + count hash n_slots c k = size n_slots c + 1)%nat
  /\ length (m_slots c') = n_slots.
Proof.
  intros Hn Hlen old r c'. subst old r c'. unfold update.
  change (get_container c (slot_of hash n_slots k) !! k) with (binding hash n_slots c k).
  assert (Hb : forall v' k',
            binding hash n_slots
              (set_container c (slot_of hash n_slots k)
                 (<[k := v']> (get_container c (slot_of hash n_slots k)))) k'
            = if decide (k' = k) then Some v' else binding hash n_slots c k').
  { intros v' k'. rewrite (binding_set_container c k k') by
      (try done; intros k'' Hk''; by rewrite lookup_insert_ne).
    by rewrite lookup_insert_eq. }
  destruct (binding hash n_slots c k) as [v|] eqn:Hk; simpl.
  - destruct (updater k v true) as [v' e] eqn:Hu. simpl.
    split; [done|]. split; [by rewrite Hb, decide_True|].
    split; [intros k' Hne; by rewrite Hb, decide_False|].
    split; [by apply insert_size_step|by rewrite length_insert].
  - destruct (updater k value_init false) as [v' e] eqn:Hu. simpl.
    split; [done|]. split; [by rewrite Hb, decide_True|].
    split; [intros k' Hne; by rewrite Hb, decide_False|].
    split; [by apply insert_size_step|by rewrite length_insert].
Qed.

Lemma clear_slots (c : ConcurrentMapContainer Key Value) (j : nat) :
  (j <= length (m_slots c))%nat ->
  m_slots (foldl (fun c slot => set_container c slot ∅) c (seq 0 j))
  = replicate j ∅ ++ drop j (m_slots c).
Proof.
  induction j as [|j IH]; intros Hj.
  - simpl. by rewrite drop_0.
  - rewrite seq_S, foldl_app. simpl. rewrite IH by lia.
    rewrite insert_app_r_alt by (rewrite length_replicate; lia).
    rewrite length_replicate. replace (j - j)%nat with 0%nat by lia.
    destruct (drop j (m_slots c)) as [|m rest] eqn:Hd.
    { apply (f_equal length) in Hd. rewrite length_drop in Hd. simpl in Hd. lia. }
    transitivity (replicate (S j) (∅ : gmap Key Value) ++ drop (S j) (m_slots c)); [|done].
    rewrite replicate_S_end, <- app_assoc. simpl. do 2 f_equal.
    replace (S j) with (j + 1)%nat by lia. rewrite <- drop_drop, Hd. done.
Qed.

Lemma clear_new_map (c : ConcurrentMapContainer Key Value) :
  length (m_slots c) = n_slots -> clear n_slots c = new_map n_slots.
Proof.
  intros Hlen. unfold clear, new_map.
  pose proof (clear_slots c n_slots ltac:(lia)) as Hs.
  rewrite drop_ge, app_nil_r in Hs by lia.
  destruct (foldl _ c (seq 0 n_slots)) as [slots]. simpl in Hs. by rewrite Hs.
Qed.

(** X17.  [clear()] leaves the container as a default-constructed one:
    every slot empty, [size()] 0 and [count] 0 for every key. *)
Theorem clear_is_new (c : ConcurrentMapContainer Key Value) :
  length (m_slots c) = n_slots ->
  clear n_slots c = new_map n_slots
  /\ size n_slots (clear n_slots c) = 0%nat
  /\ forall k, count hash n_slots (clear n_slots c) k = 0%nat.
Proof.
  intros Hlen. pose proof (clear_new_map c Hlen) as Heq.
  split; [done|]. rewrite Heq. split; [apply new_map_size|].
  intros k. rewrite count_binding. by rewrite new_map_binding.
Qed.

Lemma well_slotted_set_container (c : ConcurrentMapContainer Key Value) (k : Key)
    (m : gmap Key Value) :
  (0 < n_slots)%nat ->
  well_slotted hash n_slots c ->
  (forall k', is_Some (m !! k') ->
     k' = k \/ is_Some (get_container c (slot_of hash n_slots k) !! k')) ->
  well_slotted hash n_slots (set_container c (slot_of hash n_slots k) m).
Proof.
  intros Hn [Hlen Hws] Hm. split; [simpl; by rewrite length_insert|].
  intros i m' k' Hi Hk'. simpl in Hi.
  assert (Hlt : (slot_of hash n_slots k < length (m_slots c))%nat)
    by (rewrite Hlen; by apply slot_of_lt).
  destruct (decide (i = slot_of hash n_slots k)) as [->|Hne].
  - rewrite list_lookup_insert_eq in Hi by done. injection Hi as <-.
    destruct (Hm k' Hk') as [->|Hold]; [done|].
    unfold get_container in Hold.
    destruct (m_slots c !! slot_of hash n_slots k) as [m0|] eqn:Hm0; [|by destruct Hold].
    by apply (Hws _ m0 k').
  - rewrite list_lookup_insert_ne in Hi by done. by apply (Hws i m' k').
Qed.

(** X18.  The slot invariant: if every key is stored in the slot of its hash
    code, it still is after [insert], [insert_or_assign], [erase], [update]
    and [clear]; and under this invariant a key is stored somewhere in the
    container exactly when [count] finds it. *)
Theorem keys_stay_in_their_slot (c : ConcurrentMapContainer Key Value)
    (k : Key) (v : Value)
    (updater : Key -> Value -> bool -> Value * option exn) (value_init : Value) :
  (0 < n_slots)%nat ->
  well_slotted hash n_slots c ->
  well_slotted hash n_slots (fst (insert_entry hash n_slots (k, v) c))
  /\ well_slotted hash n_slots (insert_or_assign hash n_slots (k, v) c)
  /\ well_slotted hash n_slots (fst (erase hash n_slots k c))
  /\ well_slotted hash n_slots (fst (update hash n_slots k updater value_init c))
  /\ well_slotted hash n_slots (clear n_slots c)
  /\ ((exists i m, m_slots c !! i = Some m /\ is_Some (m !! k))
      <-> count hash n_slots c k = 1%nat).
Proof.
  intros Hn Hws. pose proof Hws as [Hlen Hslots].
  assert (Hins : forall v', well_slotted hash n_slots
            (set_container c (slot_of hash n_slots k)
               (<[k := v']> (get_container c (slot_of hash n_slots k))))).
  { intros v'. apply well_slotted_set_container; [done|done|].
    intros k' Hk'. destruct (decide (k' = k)) as [->|Hne]; [by left|].
    right. by rewrite lookup_insert_ne in Hk'. }
  split.
  { unfold insert_entry, unordered_map_insert. simpl.
    destruct (get_container c (slot_of hash n_slots k) !! k) eqn:Hk; simpl; [|done].
    apply well_slotted_set_container; [done|done|]. intros k' Hk'. by right. }
  split; [apply Hins|]. split.
  { unfold erase. simpl. apply well_slotted_set_container; [done|done|].
    intros k' Hk'. right. destruct (decide (k' = k)) as [->|Hne].
    - rewrite lookup_delete_eq in Hk'. by destruct Hk'.
    - by rewrite lookup_delete_ne in Hk'. }
  split.
  { unfold update.
    destruct (get_container c (slot_of hash n_slots k) !! k) as [old|].
    - destruct (updater k old true) as [v' e]. apply Hins.
    - destruct (updater k value_init false) as [v' e]. apply Hins. }
  split.
  { rewrite (clear_new_map c Hlen). split; [apply length_replicate|].
    intros i m k' Hi Hk'. simpl in Hi. apply lookup_replicate in Hi as [-> _].
    rewrite lookup_empty in Hk'. by destruct Hk'. }
  rewrite count_binding. unfold binding, get_container. split.
  - intros (i & m & Hi & Hk). rewrite (Hslots i m k Hi Hk) in Hi. rewrite Hi. simpl.
    by destruct Hk as [x ->].
  - intros Hc. destruct (m_slots c !! slot_of hash n_slots k) as [m|] eqn:Hm; simpl in Hc.
    + exists (slot_of hash n_slots k), m. split; [done|].
      destruct (m !! k); [done|discriminate].
    + rewrite lookup_empty in Hc. discriminate.
Qed.

Lemma new_map_well_slotted :
  well_slotted hash n_slots (new_map n_slots : ConcurrentMapContainer Key Value).
Proof.
  split; [apply length_replicate|].
  intros i m k Hi Hk. simpl in Hi. apply lookup_replicate in Hi as [-> _].
  rewrite lookup_empty in Hk. by destruct Hk.
Qed.

Lemma set_size_sum (s : ConcurrentSet Key) :
  length (s_slots s) = n_slots ->
  set_size n_slots s = sum_list (base.size <$> s_slots s).
Proof.
  intros <-. unfold set_size, set_get_container. rewrite foldl_add_sum.
  by rewrite (fmap_seq_lookup base.size ∅).
Qed.

Lemma set_size_insert_slot (s : ConcurrentSet Key) (i : nat) (x : gset Key) :
  length (s_slots s) = n_slots -> (i < n_slots)%nat ->
  (set_size n_slots {| s_slots := <[i := x]> (s_slots s) |}
   + base.size (set_get_container s i)
   = set_size n_slots s + base.size x)%nat.
Proof.
  intros Hlen Hi. rewrite !set_size_sum; [|done|by simpl; rewrite length_insert].
  unfold set_get_container. simpl.
  destruct (lookup_lt_is_Some_2 (s_slots s) i) as [m0 Hm0]; [lia|].
  rewrite Hm0. simpl. rewrite list_fmap_insert.
  apply sum_list_insert. by rewrite list_lookup_fmap, Hm0.
Qed.

Lemma member_insert_slot (s : ConcurrentSet Key) (k k' : Key) (x : gset Key) :
  length (s_slots s) = n_slots -> (0 < n_slots)%nat ->
  (forall k', k' <> k -> k' ∈ x <-> k' ∈ set_get_container s (slot_of hash n_slots k)) ->
  member hash n_slots {| s_slots := <[slot_of hash n_slots k := x]> (s_slots s) |} k'
  = if decide (k' = k) then bool_decide (k ∈ x) else member hash n_slots s k'.
Proof.
  intros Hlen Hn Hx. unfold member, set_get_container. simpl.
  assert (Hlt : (slot_of hash n_slots k < length (s_slots s))%nat)
    by (rewrite Hlen; by apply slot_of_lt).
  destruct (decide (k' = k)) as [->|Hne].
  - by rewrite list_lookup_insert_eq.
  - destruct (decide (slot_of hash n_slots k = slot_of hash n_slots k')) as [Heq|Hs].
    + rewrite <- Heq. rewrite list_lookup_insert_eq by done. simpl.
      apply bool_decide_ext. by apply Hx.
    + by rewrite list_lookup_insert_ne.
Qed.

(** X19.  [ConcurrentSet]: [insert(k)] makes [size()] go up by one exactly
    when it returns [true]; [erase(k)] returns [count(k)] as it was, takes
    that many elements off [size()], leaves [k] absent and every other
    element as it was; and erasing [k] right after inserting it returns 1
    and leaves the set that erasing [k] from the original set leaves. *)
Theorem set_insert_erase_size (s : ConcurrentSet Key) (k : Key) :
  (0 < n_slots)%nat -> length (s_slots s) = n_slots ->
  let inserted := set_insert hash n_slots k s in
  let erased := set_erase hash n_slots k s in
  (set_size n_slots (fst inserted) = set_size n_slots s + if snd inserted then 1 else 0)%nat
  /\ snd erased = set_count hash n_slots s k
  /\ (set_size n_slots (fst erased) + snd erased = set_size n_slots s)%nat
  /\ member hash n_slots (fst erased) k = false
  /\ (forall k', k' <> k ->
        member hash n_slots (fst erased) k' = member hash n_slots s k')
  /\ set_erase hash n_slots k (fst inserted) = (fst erased, 1%nat).
Proof.
  intros Hn Hlen inserted erased. subst inserted erased.
  assert (Hlt : (slot_of hash n_slots k < n_slots)%nat) by by apply slot_of_lt.
  assert (Hlt' : (slot_of hash n_slots k < length (s_slots s))%nat) by lia.
  split.
  { unfold set_insert, unordered_set_insert.
    destruct (bool_decide (k ∈ set_get_container s (slot_of hash n_slots k))) eqn:Hk; simpl.
    - rewrite Nat.add_0_r. f_equal. destruct s as [slots]. simpl in *. f_equal.
      apply list_insert_id. unfold set_get_container. simpl.
      destruct (lookup_lt_is_Some_2 slots _ Hlt') as [m Hm]. by rewrite Hm.
    - apply bool_decide_eq_false in Hk.
      pose proof (set_size_insert_slot s (slot_of hash n_slots k)
                    ({[k]} ∪ set_get_container s (slot_of hash n_slots k)) Hlen Hlt) as Hs.
      rewrite size_union in Hs by set_solver. rewrite size_singleton in Hs. lia. }
  unfold set_erase. simpl. split; [done|]. split.
  { pose proof (set_size_insert_slot s (slot_of hash n_slots k)
                  (set_get_container s (slot_of hash n_slots k) ∖ {[k]}) Hlen Hlt) as Hs.
    destruct (bool_decide (k ∈ set_get_container s (slot_of hash n_slots k))) eqn:Hk.
    - apply bool_decide_eq_true in Hk.
      assert (Hsz : base.size (set_get_container s (slot_of hash n_slots k))
                    = S (base.size (set_get_container s (slot_of hash n_slots k) ∖ {[k]}))).
      { rewrite (union_difference_singleton_L k (set_get_container s (slot_of hash n_slots k)))
          at 1 by done.
        rewrite size_union by set_solver. by rewrite size_singleton. }
      lia.
    - apply bool_decide_eq_false in Hk.
      replace (set_get_container s (slot_of hash n_slots k) ∖ {[k]})
        with (set_get_container s (slot_of hash n_slots k)) in * by set_solver.
      lia. }
  split.
  { rewrite (member_insert_slot s k k) by (try done; set_solver).
    rewrite decide_True by done. apply bool_decide_eq_false. set_solver. }
  split.
  { intros k' Hne. rewrite (member_insert_slot s k k') by (try done; set_solver).
    by rewrite decide_False. }
  assert (Hget : forall x, set_get_container
            {| s_slots := <[slot_of hash n_slots k := x]> (s_slots s) |}
            (slot_of hash n_slots k) = x).
  { intros x. unfold set_get_container at 1. simpl. by rewrite list_lookup_insert_eq. }
  unfold set_insert, unordered_set_insert.
  destruct (bool_decide (k ∈ set_get_container s (slot_of hash n_slots k))) eqn:Hk;
    unfold set_erase; cbn [fst snd s_slots]; rewrite Hget, list_insert_insert_eq.
  - by rewrite Hk.
  - apply bool_decide_eq_false in Hk.
    rewrite bool_decide_true by set_solver. do 3 f_equal. set_solver.
Qed.

End ContainerFacts.

Section IteratorFacts.
Context {Key Value : Type} `{Countable Key}.
Variable hash : Key -> nat.
Variable n_slots : nat.
Hypothesis n_slots_pos : (0 < n_slots)%nat.

Implicit Types c : ConcurrentMapContainer Key Value.
Implicit Types it : ConcurrentContainerIterator.

Lemma elem_of_concat {A} (x : A) (ls : list (list A)) :
  x ∈ concat ls <-> exists l, l ∈ ls /\ x ∈ l.
Proof.
  induction ls as [|l0 ls IH]; simpl.
  - split; [by intros ?%elem_of_nil|]. by intros (l & ?%elem_of_nil & _).
  - rewrite elem_of_app, IH. split.
    + intros [Hx|(l & Hl & Hx)]; [exists l0|exists l]; split; try done;
        [by apply list_elem_of_here|by apply list_elem_of_further].
    + intros (l & Hl & Hx). apply elem_of_cons in Hl as [->|Hl]; [by left|].
      right. by exists l.
Qed.

Lemma skip_empty_slots_spec (fuel : nat) c :
  forall it,
  (m_slot it < n_slots)%nat ->
  (m_position it <= length (slot_elements c (m_slot it)))%nat ->
  (n_slots - S (m_slot it) <= fuel)%nat ->
  let it' := skip_empty_slots n_slots fuel c it in
  remaining n_slots c it' = remaining n_slots c it
  /\ (m_slot it' < n_slots)%nat
  /\ (m_position it' <= length (slot_elements c (m_slot it')))%nat
  /\ (at_slot_end c it' = true -> m_slot it' = (n_slots - 1)%nat).
Proof.
  induction fuel as [|fuel IH]; intros it Hslot Hpos Hfuel; simpl.
  - split; [done|]. split; [done|]. split; [done|]. intros _. lia.
  - destruct (at_slot_end c it) eqn:Hend; simpl.
    + destruct (Nat.ltb_spec (m_slot it) (n_slots - 1)) as [Hlt|Hge].
      * destruct (IH {| m_slot := S (m_slot it); m_position := 0 |})
          as (Hrem & Hs & Hp & He); [simpl; lia..|].
        split; [|done]. rewrite Hrem. unfold remaining. simpl.
        unfold at_slot_end in Hend. apply Nat.eqb_eq in Hend.
        rewrite Hend, drop_all. simpl.
        replace (n_slots - S (m_slot it))%nat with (S (n_slots - S (S (m_slot it)))) by lia.
        done.
      * split; [done|]. split; [done|]. split; [done|]. intros _. lia.
    + split; [done|]. split; [done|]. split; [done|]. by rewrite Hend.
Qed.

Lemma end_iterator_eq c :
  end_ n_slots c
  = {| m_slot := n_slots - 1;
       m_position := length (slot_elements c (n_slots - 1)) |}.
Proof.
  unfold end_, end_iterator, make_iterator. destruct n_slots as [|n]; [lia|].
  simpl. replace (n - 0 <? n - 0)%nat with false by (symmetry; apply Nat.ltb_irrefl).
  by rewrite andb_false_r.
Qed.

Lemma iterator_eq_spec (a b : ConcurrentContainerIterator) :
  iterator_eq a b = true <-> a = b.
Proof.
  unfold iterator_eq. rewrite andb_true_iff, !Nat.eqb_eq.
  destruct a, b; simpl. split; [by intros [-> ->]|by intros [= -> ->]].
Qed.

(** From a position the constructors and [operator++] leave, the traversal
    reads what is left. *)
Lemma for_each_spec (fuel : nat) c :
  forall it,
  (m_slot it < n_slots)%nat ->
  (m_position it <= length (slot_elements c (m_slot it)))%nat ->
  (at_slot_end c it = true -> m_slot it = (n_slots - 1)%nat) ->
  (length (remaining n_slots c it) < fuel)%nat ->
  for_each n_slots fuel c it = Some (Ok (remaining n_slots c it)).
Proof.
  induction fuel as [|fuel IH]; intros it Hslot Hpos Hnorm Hfuel; [lia|].
  simpl. rewrite end_iterator_eq.
  destruct (at_slot_end c it) eqn:Hend.
  - (* the end of the last slot *)
    pose proof (Hnorm eq_refl) as Hlast.
    unfold at_slot_end in Hend. apply Nat.eqb_eq in Hend.
    assert (Heq : iterator_eq it {| m_slot := n_slots - 1;
                     m_position := length (slot_elements c (n_slots - 1)) |} = true).
    { apply iterator_eq_spec. destruct it as [s p]; simpl in *. by subst. }
    rewrite Heq. unfold remaining. rewrite Hend, drop_all, Hlast. simpl.
    replace (n_slots - S (n_slots - 1))%nat with 0%nat by lia. done.
  - unfold at_slot_end in Hend. apply Nat.eqb_neq in Hend.
    assert (Hne : iterator_eq it {| m_slot := n_slots - 1;
                     m_position := length (slot_elements c (n_slots - 1)) |} = false).
    { apply not_true_is_false. intros Heq. apply iterator_eq_spec in Heq.
      subst it. simpl in *. lia. }
    rewrite Hne.
    assert (Hce : at_container_end n_slots c it = false).
    { unfold at_container_end, at_slot_end.
      apply andb_false_iff. right. by apply Nat.eqb_neq. }
    unfold dereference, increment. rewrite Hce.
    destruct (lookup_lt_is_Some_2 (slot_elements c (m_slot it)) (m_position it))
      as [x Hx]; [lia|].
    rewrite Hx.
    destruct (skip_empty_slots_spec n_slots c
                {| m_slot := m_slot it; m_position := S (m_position it) |})
      as (Hrem & Hs & Hp & He); [simpl; lia..|].
    assert (Hstep : remaining n_slots c it
              = x :: remaining n_slots c
                       {| m_slot := m_slot it; m_position := S (m_position it) |}).
    { unfold remaining. simpl. by rewrite (drop_S _ x _ Hx). }
    rewrite IH; [by rewrite Hrem, Hstep|done|done|done|].
    rewrite Hrem. rewrite Hstep in Hfuel. simpl in Hfuel. lia.
Qed.

Lemma remaining_begin c :
  remaining n_slots c {| m_slot := 0; m_position := 0 |}
  = concat (slot_elements c <$> seq 0 n_slots).
Proof.
  unfold remaining. simpl. destruct n_slots as [|n]; [lia|].
  simpl. by rewrite Nat.sub_0_r.
Qed.

Lemma length_all_elements c :
  length (concat (slot_elements c <$> seq 0 n_slots)) = size n_slots c.
Proof.
  unfold size. rewrite foldl_add_sum. simpl.
  generalize (seq 0 n_slots). intros l.
  induction l as [|i l IH]; [done|]. csimpl.
  rewrite length_app, IH. unfold slot_elements. by rewrite length_map_to_list.
Qed.

(** X26.  Iterating a concurrent container from [begin()] to [end()] fails
    no assertion and visits the elements of slot 0, then those of slot 1, and
    so on, skipping the empty slots: every stored element once, [size()] of
    them in all.  When every key is stored in the slot of its hash code, the
    keys visited are distinct and the pairs visited are the bindings [find]
    sees. *)
Theorem iteration_visits_every_slot c :
  length (m_slots c) = n_slots ->
  exists l,
    elements n_slots c = Some (Ok l)
    /\ l = concat (slot_elements c <$> seq 0 n_slots)
    /\ length l = size n_slots c
    /\ (forall k v, (k, v) ∈ l
          <-> exists i, (i < n_slots)%nat /\ get_container c i !! k = Some v)
    /\ (well_slotted hash n_slots c ->
        NoDup l.*1
        /\ forall k v, (k, v) ∈ l <-> binding hash n_slots c k = Some v).
Proof.
  intros Hlen. exists (concat (slot_elements c <$> seq 0 n_slots)).
  assert (Hin : forall k v, (k, v) ∈ concat (slot_elements c <$> seq 0 n_slots)
            <-> exists i, (i < n_slots)%nat /\ get_container c i !! k = Some v).
  { intros k v. rewrite elem_of_concat. split.
    - intros (l & Hl & Hkv). apply list_elem_of_fmap in Hl as (i & -> & Hi).
      apply elem_of_seq in Hi. exists i. split; [lia|].
      by apply elem_of_map_to_list.
    - intros (i & Hi & Hkv). exists (slot_elements c i). split.
      + apply list_elem_of_fmap. exists i. split; [done|]. apply elem_of_seq. lia.
      + by apply elem_of_map_to_list. }
  split.
  { unfold elements, begin, make_iterator.
    destruct (skip_empty_slots_spec n_slots c {| m_slot := 0; m_position := 0 |})
      as (Hrem & Hs & Hp & He); [simpl; lia..|].
    rewrite for_each_spec; [|done|done|done|].
    - by rewrite Hrem, remaining_begin.
    - rewrite Hrem, remaining_begin, length_all_elements. lia. }
  split; [done|]. split; [apply length_all_elements|]. split; [done|].
  intros [_ Hws].
  assert (Hbind : forall k v, (k, v) ∈ concat (slot_elements c <$> seq 0 n_slots)
            <-> binding hash n_slots c k = Some v).
  { intros k v. rewrite Hin. unfold binding. split.
    - intros (i & Hi & Hkv).
      destruct (lookup_lt_is_Some_2 (m_slots c) i) as [m Hm]; [lia|].
      assert (Hget : get_container c i = m) by (unfold get_container; by rewrite Hm).
      rewrite Hget in Hkv. rewrite <- (Hws i m k Hm); [by rewrite Hget|by rewrite Hkv].
    - intros Hkv. exists (slot_of hash n_slots k). split; [|done].
      unfold slot_of. apply Nat.mod_upper_bound. lia. }
  split; [|done].
  (* distinct keys: within a slot, and across slots by the slot invariant *)
  assert (Hnd : forall l : list nat, NoDup l ->
            NoDup (concat (slot_elements c <$> l)).*1).
  { intros l. induction l as [|i l IH]; intros Hl; [constructor|].
    apply NoDup_cons in Hl as [Hi Hl]. csimpl. rewrite fmap_app.
    apply NoDup_app. split; [apply NoDup_fst_map_to_list|]. split; [|by apply IH].
    intros k Hk1 Hk2.
    apply list_elem_of_fmap in Hk1 as ([k1 v1] & -> & Hk1).
    apply list_elem_of_fmap in Hk2 as ([k2 v2] & Heq & Hk2). simpl in Heq. subst k2.
    apply elem_of_map_to_list in Hk1.
    apply elem_of_concat in Hk2 as (l' & Hl' & Hk2).
    apply list_elem_of_fmap in Hl' as (j & -> & Hj).
    apply elem_of_map_to_list in Hk2.
    assert (Hslot : forall i' v', get_container c i' !! k1 = Some v' ->
              i' = slot_of hash n_slots k1).
    { intros i' v' Hg. unfold get_container in Hg.
      destruct (m_slots c !! i') as [m|] eqn:Hm; simpl in Hg; [|by rewrite lookup_empty in Hg].
      apply (Hws i' m k1 Hm). by rewrite Hg. }
    apply Hi. rewrite (Hslot i v1 Hk1). by rewrite <- (Hslot j v2 Hk2). }
  apply Hnd, NoDup_seq.
Qed.

End IteratorFacts.

(** *** Samples *)

Lemma erase_removes_one_key_witness :
  snd (erase id_hash 3 4%nat sample_map) = count id_hash 3 sample_map 4%nat
  /\ count id_hash 3 (fst (erase id_hash 3 4%nat sample_map)) 4%nat = 0%nat
  /\ (forall k', k' <> 4%nat ->
        binding id_hash 3 (fst (erase id_hash 3 4%nat sample_map)) k'
        = binding id_hash 3 sample_map k')
  /\ (size 3 (fst (erase id_hash 3 4%nat sample_map))
      + snd (erase id_hash 3 4%nat sample_map)
      = size 3 sample_map)%nat
  /\ length (m_slots (fst (erase id_hash 3 4%nat sample_map))) = 3%nat.
Proof.
  apply (erase_removes_one_key id_hash 3 sample_map 4%nat); [lia|reflexivity].
Defined.

Lemma insert_range_first_wins_witness :
  (forall k, binding id_hash 3
               (insert_range id_hash 3 [(4%nat, 40); (4%nat, 41); (5%nat, 50)] (new_map 3)) k
             = (list_to_map [(4%nat, 40); (4%nat, 41); (5%nat, 50)] : gmap nat Z) !! k)
  /\ size 3 (insert_range id_hash 3 [(4%nat, 40); (4%nat, 41); (5%nat, 50)] (new_map 3))
     = length (remove_dups [(4%nat, 40); (4%nat, 41); (5%nat, 50)].*1).
Proof.
  apply (insert_range_first_wins id_hash 3 [(4%nat, 40); (4%nat, 41); (5%nat, 50)]). lia.
Defined.

Lemma insert_or_assign_at_witness :
  at_ id_hash 3 (insert_or_assign id_hash 3 (4%nat, 41%Z) sample_map) 4%nat = Ok 41%Z
  /\ (forall k', k' <> 4%nat ->
        at_ id_hash 3 (insert_or_assign id_hash 3 (4%nat, 41%Z) sample_map) k'
        = at_ id_hash 3 sample_map k')
  /\ (at_ id_hash 3 sample_map 4%nat = Throw out_of_range
      <-> count id_hash 3 sample_map 4%nat = 0%nat)
  /\ (size 3 (insert_or_assign id_hash 3 (4%nat, 41%Z) sample_map)
      + count id_hash 3 sample_map 4%nat
      = size 3 sample_map + 1)%nat
  /\ length (m_slots (insert_or_assign id_hash 3 (4%nat, 41%Z) sample_map)) = 3%nat.
Proof.
  apply (insert_or_assign_at id_hash 3 sample_map 4%nat 41%Z); [lia|reflexivity].
Defined.

Lemma update_creates_or_modifies_witness :
  snd (update id_hash 3 7%nat increment_updater 0%Z sample_map) = None
  /\ binding id_hash 3 (fst (update id_hash 3 7%nat increment_updater 0%Z sample_map)) 7%nat
     = Some 1
  /\ (forall k', k' <> 7%nat ->
        binding id_hash 3 (fst (update id_hash 3 7%nat increment_updater 0%Z sample_map)) k'
        = binding id_hash 3 sample_map k')
  /\ (size 3 (fst (update id_hash 3 7%nat increment_updater 0%Z sample_map))
      + count id_hash 3 sample_map 7%nat
      = size 3 sample_map + 1)%nat
  /\ length (m_slots (fst (update id_hash 3 7%nat increment_updater 0%Z sample_map))) = 3%nat.
Proof.
  apply (update_creates_or_modifies id_hash 3 sample_map 7%nat increment_updater 0%Z);
    [lia|reflexivity].
Defined.

Lemma clear_is_new_witness :
  clear 3 sample_map = new_map 3
  /\ size 3 (clear 3 sample_map) = 0%nat
  /\ forall k, count id_hash 3 (clear 3 sample_map) k = 0%nat.
Proof. apply (clear_is_new id_hash 3 sample_map). reflexivity. Defined.

Lemma keys_stay_in_their_slot_witness :
  well_slotted id_hash 3 (fst (insert_entry id_hash 3 (4%nat, 40) empty_sample))
  /\ well_slotted id_hash 3 (insert_or_assign id_hash 3 (4%nat, 40) empty_sample)
  /\ well_slotted id_hash 3 (fst (erase id_hash 3 4%nat empty_sample))
  /\ well_slotted id_hash 3 (fst (update id_hash 3 4%nat increment_updater 0 empty_sample))
  /\ well_slotted id_hash 3 (clear 3 empty_sample)
  /\ ((exists i m, m_slots empty_sample !! i = Some m /\ is_Some (m !! 4%nat))
      <-> count id_hash 3 empty_sample 4%nat = 1%nat).
Proof.
  apply (keys_stay_in_their_slot id_hash 3 empty_sample 4%nat 40 increment_updater 0);
    [lia|apply new_map_well_slotted].
Defined.

Lemma set_insert_erase_size_witness :
  (set_size 3 (fst (set_insert id_hash 3 5%nat sample_set))
   = set_size 3 sample_set + if snd (set_insert id_hash 3 5%nat sample_set) then 1 else 0)%nat
  /\ snd (set_erase id_hash 3 5%nat sample_set) = set_count id_hash 3 sample_set 5%nat
  /\ (set_size 3 (fst (set_erase id_hash 3 5%nat sample_set))
      + snd (set_erase id_hash 3 5%nat sample_set)
      = set_size 3 sample_set)%nat
  /\ member id_hash 3 (fst (set_erase id_hash 3 5%nat sample_set)) 5%nat = false
  /\ (forall k', k' <> 5%nat ->
        member id_hash 3 (fst (set_erase id_hash 3 5%nat sample_set)) k'
        = member id_hash 3 sample_set k')
  /\ set_erase id_hash 3 5%nat (fst (set_insert id_hash 3 5%nat sample_set))
     = (fst (set_erase id_hash 3 5%nat sample_set), 1%nat).
Proof.
  apply (set_insert_erase_size id_hash 3 sample_set 5%nat); [lia|reflexivity].
Defined.

Lemma iteration_visits_every_slot_witness :
  exists l,
    elements 3 sample_map = Some (Ok l)
    /\ l = concat (slot_elements sample_map <$> seq 0 3)
    /\ length l = size 3 sample_map
    /\ (forall k v, (k, v) ∈ l
          <-> exists i, (i < 3)%nat /\ get_container sample_map i !! k = Some v)
    /\ (well_slotted id_hash 3 sample_map ->
        NoDup l.*1
        /\ forall k v, (k, v) ∈ l <-> binding id_hash 3 sample_map k = Some v).
Proof.
  apply (iteration_visits_every_slot id_hash 3 ltac:(lia) sample_map). reflexivity.
Defined.

End ConcurrentOperations.

(** ** CFG mutation batching *)

Module MutationFacts.
Import IR Mutation.

#[local] Arguments add_change : simpl never.

Lemma flush_insns_untouched (changes : gmap nat ChangeSet) (cfg : list IRInstruction) :
  (forall i, i ∈ cfg -> changes !! insn_addr i = None) ->
  flush_insns changes cfg = Ok cfg.
Proof.
  induction cfg as [|i cfg IH]; intros Hno; simpl; [done|].
  rewrite (Hno i) by set_solver.
  rewrite IH; [done|]. intros j Hj. apply Hno. set_solver.
Qed.

Lemma flush_insns_app (changes : gmap nat ChangeSet) (l1 l2 l1' l2' : list IRInstruction) :
  flush_insns changes l1 = Ok l1' ->
  flush_insns changes l2 = Ok l2' ->
  flush_insns changes (l1 ++ l2) = Ok (l1' ++ l2').
Proof.
  revert l1'. induction l1 as [|i l1 IH]; intros l1' H1 H2; simpl in *.
  - by inversion H1.
  - destruct (changes !! insn_addr i) as [cs|].
    + destruct (ChangeSet_apply cs i) as [out|]; [|done].
      destruct (flush_insns changes l1) as [r|]; [|done].
      inversion H1; subst. rewrite (IH r eq_refl H2). by rewrite <- app_assoc.
    + destruct (flush_insns changes l1) as [r|]; [|done].
      inversion H1; subst. by rewrite (IH r eq_refl H2).
Qed.

Lemma add_change_inv w anchor l m m' :
  add_change w (Some anchor) l m = Ok m' ->
  exists cs',
    ChangeSet_add_change w l (change_set_of m (insn_addr anchor)) = Ok cs'
    /\ m_changes m' = <[insn_addr anchor := cs']> (m_changes m).
Proof.
  unfold add_change, change_set_of. intros Hadd.
  destruct (ChangeSet_add_change w l _) as [cs'|e]; [|done].
  inversion Hadd; subst. by exists cs'.
Qed.

(** What a mutation holds for [anchor] after a run of calls on it. *)
Lemma add_changes_spec (anchor : IRInstruction) calls :
  forall (m m' : CFGMutation),
  add_changes anchor calls m = Ok m' ->
  let cs := change_set_of m (insn_addr anchor) in
  let cs' := change_set_of m' (insn_addr anchor) in
  m_insert_before cs' = m_insert_before cs ++ befores calls
  /\ m_insert_after cs' = m_insert_after cs ++ afters calls
  /\ match m_replace cs with
     | Some r => replacings calls = [] /\ m_replace cs' = Some r
     | None => match replacings calls with
               | [] => m_replace cs' = None
               | [r] => m_replace cs' = Some r
               | _ => False
               end
     end
  /\ (forall k, k <> insn_addr anchor -> m_changes m' !! k = m_changes m !! k)
  /\ (calls <> [] -> m_changes m' !! insn_addr anchor = Some cs').
Proof.
  induction calls as [|[w l] calls IH]; intros m m' Hrun; simpl in *.
  - inversion Hrun; subst. rewrite !app_nil_r. repeat split; try done.
    by destruct (m_replace (change_set_of m' (insn_addr anchor))).
  - destruct (add_change w (Some anchor) l m) as [m1|e] eqn:Hadd; [|done].
    destruct (add_change_inv _ _ _ _ _ Hadd) as (cs1 & Hcs1 & Hm1).
    specialize (IH m1 m' Hrun). simpl in IH.
    assert (Hof : change_set_of m1 (insn_addr anchor) = cs1).
    { unfold change_set_of. rewrite Hm1. by rewrite lookup_insert_eq. }
    rewrite Hof in IH. destruct IH as (Hb & Ha & Hr & Hk & Hsome).
    assert (Hkeys : forall k, k <> insn_addr anchor ->
                      m_changes m' !! k = m_changes m !! k).
    { intros k Hne. rewrite Hk by done. rewrite Hm1. by rewrite lookup_insert_ne. }
    assert (Hbound : m_changes m' !! insn_addr anchor
                     = Some (change_set_of m' (insn_addr anchor))).
    { destruct calls as [|c calls'].
      - simpl in Hrun. injection Hrun as Hmm. rewrite <- Hmm.
        by rewrite Hof, Hm1, lookup_insert_eq.
      - by apply Hsome. }
    set (cs := change_set_of m (insn_addr anchor)) in *.
    destruct w; simpl in Hcs1.
    + injection Hcs1 as Hcs1. rewrite <- Hcs1 in Hb, Ha, Hr. simpl in Hb, Ha, Hr.
      rewrite Hb, Ha, <- app_assoc. repeat split; done.
    + injection Hcs1 as Hcs1. rewrite <- Hcs1 in Hb, Ha, Hr. simpl in Hb, Ha, Hr.
      rewrite Hb, Ha, <- app_assoc. repeat split; done.
    + destruct (m_replace cs) as [r0|] eqn:Hr0; [done|].
      injection Hcs1 as Hcs1. rewrite <- Hcs1 in Hb, Ha, Hr. simpl in Hb, Ha, Hr.
      destruct Hr as [Hnil Hr]. rewrite Hnil.
      rewrite Hb, Ha. repeat split; done.
Qed.

Lemma flush_insns_anchor (changes : gmap nat ChangeSet) (anchor : IRInstruction)
    (cs : ChangeSet) (pre post out : list IRInstruction) :
  (forall k, k <> insn_addr anchor -> changes !! k = None) ->
  (forall i, i ∈ pre ++ post -> insn_addr i <> insn_addr anchor) ->
  changes !! insn_addr anchor = Some cs ->
  ChangeSet_apply cs anchor = Ok out ->
  flush_insns changes (pre ++ anchor :: post) = Ok (pre ++ out ++ post).
Proof.
  intros Hother Hfresh Hcs Happly.
  apply flush_insns_app.
  - apply flush_insns_untouched. intros i Hi. apply Hother, Hfresh. set_solver.
  - simpl. rewrite Hcs, Happly.
    rewrite flush_insns_untouched; [done|].
    intros i Hi. apply Hother, Hfresh. set_solver.
Qed.

Lemma add_changes_total (anchor : IRInstruction) calls :
  forall m,
  (length (replacings calls)
   + match m_replace (change_set_of m (insn_addr anchor)) with Some _ => 1 | None => 0 end <= 1)%nat ->
  exists m', add_changes anchor calls m = Ok m'.
Proof.
  induction calls as [|[w l] calls IH]; intros m Hlen; simpl; [by exists m|].
  unfold add_change. fold (change_set_of m (insn_addr anchor)).
  set (cs := change_set_of m (insn_addr anchor)) in *.
  destruct w; simpl in *.
  - apply IH. unfold change_set_of. simpl. rewrite lookup_insert_eq. simpl. exact Hlen.
  - apply IH. unfold change_set_of. simpl. rewrite lookup_insert_eq. simpl. exact Hlen.
  - destruct (m_replace cs) as [r|] eqn:Hr; [lia|].
    apply IH. unfold change_set_of. simpl. rewrite lookup_insert_eq. simpl. lia.
Qed.

Lemma add_changes_twice (anchor : IRInstruction) calls :
  forall m,
  (2 <= length (replacings calls)
        + match m_replace (change_set_of m (insn_addr anchor)) with Some _ => 1 | None => 0 end)%nat ->
  add_changes anchor calls m = Throw assertion_failure.
Proof.
  induction calls as [|[w l] calls IH]; intros m Hlen; simpl.
  - simpl in Hlen. destruct (m_replace _); lia.
  - unfold add_change. fold (change_set_of m (insn_addr anchor)).
    set (cs := change_set_of m (insn_addr anchor)) in *.
    destruct w; simpl in *.
    + apply IH. unfold change_set_of. simpl. rewrite lookup_insert_eq. simpl. exact Hlen.
    + apply IH. unfold change_set_of. simpl. rewrite lookup_insert_eq. simpl. exact Hlen.
    + destruct (m_replace cs) as [r|] eqn:Hr; [done|].
      apply IH. unfold change_set_of. simpl. rewrite lookup_insert_eq. simpl. lia.
Qed.

(** C2.  Edits of one anchor accumulate as all [Before] lists in call order,
    then the [Replacing] list if there is one, then all [After] lists in call
    order.  A run of [add_change] calls on the anchor succeeds exactly when it
    has at most one [Replacing] call; a second one fails the assertion.  A
    run that succeeds leaves a change set holding exactly those lists, and
    flushing replaces the anchor, where it stands in the instruction stream:
    with the [Before] lists, [r] and the [After] lists when the run has the
    [Replacing] call [r]; with the [Before] lists, the anchor itself and the
    [After] lists when it has none -- unless the anchor is then a terminal
    instruction with [After] instructions, which fails at flush time.  In
    particular the calls [Before a1], [Replacing r], [Before a2], [After y1],
    [After y2] flush to [a1 ++ a2 ++ r ++ y1 ++ y2] in place of the anchor. *)
Theorem mutation_ordering (anchor : IRInstruction)
    (pre post : list IRInstruction) :
  (forall i, i ∈ pre ++ post -> insn_addr i <> insn_addr anchor) ->
  (forall a1 r a2 y1 y2,
     exists m,
       add_changes anchor
         [(Before, a1); (Replacing, r); (Before, a2); (After, y1); (After, y2)]
         new_mutation = Ok m
       /\ flush (pre ++ anchor :: post) m
          = Ok (pre ++ (a1 ++ a2 ++ r ++ y1 ++ y2) ++ post, new_mutation))
  /\ (forall calls,
       match replacings calls with
       | [] | [_] => exists m, add_changes anchor calls new_mutation = Ok m
       | _ => add_changes anchor calls new_mutation = Throw assertion_failure
       end)
  /\ (forall calls m,
       add_changes anchor calls new_mutation = Ok m ->
       match replacings calls with
       | [] =>
           change_set_of m (insn_addr anchor)
           = {| m_insert_before := befores calls;
                m_replace := None;
                m_insert_after := afters calls |}
           /\ flush (pre ++ anchor :: post) m
              = if is_terminal (opcode anchor) && negb (bool_decide (afters calls = []))
                then Throw assertion_failure
                else Ok (pre ++ (befores calls ++ [anchor] ++ afters calls) ++ post,
                         new_mutation)
       | [r] =>
           change_set_of m (insn_addr anchor)
           = {| m_insert_before := befores calls;
                m_replace := Some r;
                m_insert_after := afters calls |}
           /\ flush (pre ++ anchor :: post) m
              = Ok (pre ++ (befores calls ++ r ++ afters calls) ++ post, new_mutation)
       | _ => False
       end).
Proof.
  intros Hfresh.
  assert (Hnew : change_set_of new_mutation (insn_addr anchor) = empty_change_set)
    by (unfold change_set_of; simpl; by rewrite lookup_empty).
  assert (Htotal : forall calls,
       match replacings calls with
       | [] | [_] => exists m, add_changes anchor calls new_mutation = Ok m
       | _ => add_changes anchor calls new_mutation = Throw assertion_failure
       end).
  { intros calls.
    pose proof (add_changes_total anchor calls new_mutation) as Hok.
    pose proof (add_changes_twice anchor calls new_mutation) as Hfail.
    rewrite Hnew in Hok, Hfail. simpl in Hok, Hfail.
    destruct (replacings calls) as [|r1 [|r2 rs]]; simpl in *.
    - apply Hok. lia.
    - apply Hok. lia.
    - apply Hfail. lia. }
  assert (Hgen : forall calls m,
       add_changes anchor calls new_mutation = Ok m ->
       match replacings calls with
       | [] =>
           change_set_of m (insn_addr anchor)
           = {| m_insert_before := befores calls;
                m_replace := None;
                m_insert_after := afters calls |}
           /\ flush (pre ++ anchor :: post) m
              = if is_terminal (opcode anchor) && negb (bool_decide (afters calls = []))
                then Throw assertion_failure
                else Ok (pre ++ (befores calls ++ [anchor] ++ afters calls) ++ post,
                         new_mutation)
       | [r] =>
           change_set_of m (insn_addr anchor)
           = {| m_insert_before := befores calls;
                m_replace := Some r;
                m_insert_after := afters calls |}
           /\ flush (pre ++ anchor :: post) m
              = Ok (pre ++ (befores calls ++ r ++ afters calls) ++ post, new_mutation)
       | _ => False
       end).
  { intros calls m Hrun.
    destruct (add_changes_spec anchor calls _ _ Hrun) as (Hb & Ha & Hr & Hk & Hsome).
    rewrite Hnew in Hb, Ha, Hr. simpl in Hb, Ha, Hr.
    assert (Hother : forall k, k <> insn_addr anchor -> m_changes m !! k = None)
      by (intros k Hne; rewrite Hk by done; apply lookup_empty).
    destruct (replacings calls) as [|r [|r' rs]] eqn:Hrs; [| |done].
    - assert (Hcs : change_set_of m (insn_addr anchor)
                    = {| m_insert_before := befores calls; m_replace := None;
                         m_insert_after := afters calls |}).
      { destruct (change_set_of m (insn_addr anchor)); simpl in *. by subst. }
      split; [done|]. unfold flush.
      destruct calls as [|c calls'].
      + simpl in Hrun. injection Hrun as <-. simpl.
        rewrite andb_false_r.
        rewrite flush_insns_untouched; [done|]. intros i _. apply lookup_empty.
      + destruct (is_terminal (opcode anchor)
                  && negb (bool_decide (afters (c :: calls') = []))) eqn:Hterm.
        * assert (Hthrow : flush_insns (m_changes m) (pre ++ anchor :: post)
                           = Throw assertion_failure).
          { clear - Hother Hfresh Hsome Hcs Hterm.
            assert (Hpre : forall i, i ∈ pre -> insn_addr i <> insn_addr anchor)
              by (intros i Hi; apply Hfresh; set_solver).
            clear Hfresh. induction pre as [|p pre IH]; simpl.
            - rewrite Hsome by done. unfold ChangeSet_apply. rewrite Hcs.
              cbn [m_replace m_insert_after m_insert_before]. by rewrite Hterm.
            - rewrite Hother by (apply Hpre; set_solver).
              rewrite IH; [done|]. intros i Hi. apply Hpre. set_solver. }
          by rewrite Hthrow.
        * rewrite (flush_insns_anchor (m_changes m) anchor
                     (change_set_of m (insn_addr anchor)) pre post
                     (befores (c :: calls') ++ [anchor] ++ afters (c :: calls')));
            [done|done|done|by apply Hsome|].
          unfold ChangeSet_apply. rewrite Hcs.
          cbn [m_replace m_insert_after m_insert_before]. by rewrite Hterm.
    - assert (Hcs : change_set_of m (insn_addr anchor)
                    = {| m_insert_before := befores calls; m_replace := Some r;
                         m_insert_after := afters calls |}).
      { destruct (change_set_of m (insn_addr anchor)); simpl in *. by subst. }
      split; [done|]. unfold flush.
      rewrite (flush_insns_anchor (m_changes m) anchor
                 (change_set_of m (insn_addr anchor)) pre post
                 (befores calls ++ r ++ afters calls)); [done|done|done| |].
      + apply Hsome. intros ->. discriminate Hrs.
      + rewrite Hcs. reflexivity. }
  split; [|split; [exact Htotal|exact Hgen]].
  intros a1 r a2 y1 y2.
  set (calls := [(Before, a1); (Replacing, r); (Before, a2); (After, y1); (After, y2)]).
  destruct (Htotal calls) as [m Hrun]. exists m. split; [done|].
  destruct (Hgen calls m Hrun) as [_ Hflush].
  rewrite Hflush. simpl. by rewrite !app_nil_r, <- !app_assoc.
Qed.

Lemma mutation_ordering_witness :
  (exists m,
    add_changes (insn_at 0 OPCODE_CONST)
      [(Before, [insn_at 10 OPCODE_NOP]); (Replacing, [insn_at 11 OPCODE_CONST]);
       (Before, [insn_at 12 OPCODE_NOP]); (After, [insn_at 13 OPCODE_NOP]);
       (After, [insn_at 14 OPCODE_NOP])] new_mutation = Ok m
    /\ flush ([insn_at 1 OPCODE_NOP] ++ insn_at 0 OPCODE_CONST :: [insn_at 2 OPCODE_RETURN_VOID]) m
       = Ok ([insn_at 1 OPCODE_NOP] ++
             ([insn_at 10 OPCODE_NOP] ++ [insn_at 12 OPCODE_NOP] ++
              [insn_at 11 OPCODE_CONST] ++ [insn_at 13 OPCODE_NOP] ++
              [insn_at 14 OPCODE_NOP]) ++ [insn_at 2 OPCODE_RETURN_VOID],
             new_mutation))
  /\ (exists m,
       add_changes (insn_at 0 OPCODE_CONST)
         [(After, [insn_at 13 OPCODE_NOP]); (Before, [insn_at 10 OPCODE_NOP]);
          (After, [insn_at 14 OPCODE_NOP])] new_mutation = Ok m
       /\ flush ([insn_at 1 OPCODE_NOP] ++ insn_at 0 OPCODE_CONST
                   :: [insn_at 2 OPCODE_RETURN_VOID]) m
          = Ok ([insn_at 1 OPCODE_NOP] ++
                ([insn_at 10 OPCODE_NOP] ++ [insn_at 0 OPCODE_CONST] ++
                 [insn_at 13 OPCODE_NOP] ++ [insn_at 14 OPCODE_NOP])
                ++ [insn_at 2 OPCODE_RETURN_VOID], new_mutation)).
Proof.
  assert (Hfresh : forall i, i ∈ [insn_at 1 OPCODE_NOP] ++ [insn_at 2 OPCODE_RETURN_VOID] ->
            insn_addr i <> insn_addr (insn_at 0 OPCODE_CONST)).
  { intros i Hi. simpl in Hi.
    apply elem_of_cons in Hi as [->|Hi]; [simpl; lia|].
    apply elem_of_cons in Hi as [->|Hi]; [simpl; lia|].
    by apply elem_of_nil in Hi. }
  destruct (mutation_ordering (insn_at 0 OPCODE_CONST)
              [insn_at 1 OPCODE_NOP] [insn_at 2 OPCODE_RETURN_VOID] Hfresh)
    as (Hfive & Htotal & Hgen).
  split; [apply Hfive|].
  destruct (Htotal [(After, [insn_at 13 OPCODE_NOP]); (Before, [insn_at 10 OPCODE_NOP]);
                    (After, [insn_at 14 OPCODE_NOP])]) as [m Hrun].
  exists m. split; [exact Hrun|].
  exact (proj2 (Hgen _ m Hrun)).
Defined.

(** *** Double replace *)

Lemma add_change_has_replace w anchor l m m' a :
  add_change w anchor l m = Ok m' -> has_replace m a -> has_replace m' a.
Proof.
  intros Hadd (cs & r & Hcs & Hr).
  destruct anchor as [insn|]; [|done].
  destruct (add_change_inv _ _ _ _ _ Hadd) as (cs' & Hcs' & Hm').
  unfold has_replace. rewrite Hm'.
  destruct (decide (insn_addr insn = a)) as [<-|Hne].
  - rewrite lookup_insert_eq. exists cs'.
    unfold change_set_of in Hcs'. rewrite Hcs in Hcs'. simpl in Hcs'.
    destruct w; simpl in Hcs'.
    + injection Hcs' as <-. by exists r.
    + injection Hcs' as <-. by exists r.
    + by rewrite Hr in Hcs'.
  - rewrite lookup_insert_ne by done. by exists cs, r.
Qed.

Lemma add_change_replacing_has_replace anchor l m m' :
  add_change Replacing (Some anchor) l m = Ok m' ->
  has_replace m' (insn_addr anchor).
Proof.
  intros Hadd. destruct (add_change_inv _ _ _ _ _ Hadd) as (cs' & Hcs' & Hm').
  unfold has_replace. rewrite Hm', lookup_insert_eq. exists cs'.
  simpl in Hcs'. destruct (m_replace _); [done|].
  injection Hcs' as <-. by exists l.
Qed.

Lemma run_add_changes_has_replace between a :
  forall st st',
  Forall (fun c => is_add_change c = true) between ->
  run between st = Ok st' ->
  has_replace (snd st) a -> has_replace (snd st') a.
Proof.
  induction between as [|c between IH]; intros st st' Hall Hrun Hhas; simpl in Hrun.
  - by injection Hrun as <-.
  - apply Forall_cons in Hall as [Hc Hall].
    destruct c as [w anc l| |]; [|done|done]. simpl in Hrun.
    destruct (add_change w anc l (snd st)) as [m1|e] eqn:Hadd; [|done].
    apply (IH (fst st, m1) st' Hall Hrun). simpl.
    by apply (add_change_has_replace _ _ _ _ _ _ Hadd).
Qed.

Lemma step_reset_empties (c : call) (st st' : list IRInstruction * CFGMutation) :
  is_reset c = true -> step c st = Ok st' -> snd st' = new_mutation.
Proof.
  destruct c as [w a l| |]; [done| |]; intros _; simpl.
  - by intros [= <-].
  - unfold flush. destruct (flush_insns _ _); [|done]. by intros [= <-].
Qed.

Lemma step_keeps_no_replace (a : nat) (c : call)
    (st st' : list IRInstruction * CFGMutation) :
  is_replacing_on a c = false -> step c st = Ok st' ->
  m_replace (change_set_of (snd st) a) = None ->
  m_replace (change_set_of (snd st') a) = None.
Proof.
  intros Hc Hstep Hnone. destruct c as [w anc l| |]; simpl in Hstep.
  - destruct (add_change w anc l (snd st)) as [m1|e] eqn:Hadd; [|done].
    injection Hstep as <-. simpl.
    destruct anc as [i|]; [|done].
    destruct (add_change_inv _ _ _ _ _ Hadd) as (cs' & Hcs' & Hm').
    unfold change_set_of at 1. rewrite Hm'.
    destruct (decide (insn_addr i = a)) as [Heq|Hne].
    + rewrite Heq, lookup_insert_eq. simpl. rewrite Heq in Hcs'.
      destruct w; simpl in Hcs'.
      * by injection Hcs' as <-.
      * by injection Hcs' as <-.
      * simpl in Hc. by rewrite bool_decide_eq_false in Hc.
    + rewrite lookup_insert_ne by done. exact Hnone.
  - injection Hstep as <-. simpl. unfold change_set_of. simpl. by rewrite lookup_empty.
  - unfold flush in Hstep. destruct (flush_insns _ _); [|done].
    injection Hstep as <-. simpl. unfold change_set_of. simpl. by rewrite lookup_empty.
Qed.

Lemma run_keeps_no_replace (a : nat) (calls : list call) :
  forall st st',
  Forall (fun c => is_replacing_on a c = false) calls ->
  run calls st = Ok st' ->
  m_replace (change_set_of (snd st) a) = None ->
  m_replace (change_set_of (snd st') a) = None.
Proof.
  induction calls as [|c calls IH]; intros st st' Hall Hrun Hnone; simpl in Hrun.
  - by injection Hrun as <-.
  - apply Forall_cons in Hall as [Hc Hall].
    destruct (step c st) as [st1|e] eqn:Hstep; [|done].
    apply (IH st1 st' Hall Hrun).
    by apply (step_keeps_no_replace a c st st1).
Qed.

(** C8, as amended.  Once [add_change(Replacing, anchor, _)] has succeeded, a
    second [Replacing] call on the same anchor fails the assertion, whatever
    successful [add_change] calls (on this or any other anchor) come between
    the two -- as long as no [clear] or [flush] does.  A [clear] or a [flush]
    that returns leaves the log empty, whatever came before it; after it, and
    after any further calls that are not a [Replacing] call on the anchor, a
    [Replacing] call on the anchor is accepted again: it returns and records
    its list as the replacement, leaving the other anchors as they are. *)
Theorem double_replace_rejected (anchor : IRInstruction)
    (r1 r2 : list IRInstruction) :
  (forall (between : list call) (st st1 st2 : list IRInstruction * CFGMutation),
     Forall (fun c => is_add_change c = true) between ->
     step (CallAddChange Replacing (Some anchor) r1) st = Ok st1 ->
     run between st1 = Ok st2 ->
     step (CallAddChange Replacing (Some anchor) r2) st2 = Throw assertion_failure)
  /\ (forall (before : list call) (reset : call) (after : list call)
        (st st1 st2 st3 st4 : list IRInstruction * CFGMutation),
     step (CallAddChange Replacing (Some anchor) r1) st = Ok st1 ->
     run before st1 = Ok st2 ->
     is_reset reset = true ->
     step reset st2 = Ok st3 ->
     Forall (fun c => is_replacing_on (insn_addr anchor) c = false) after ->
     run after st3 = Ok st4 ->
     snd st3 = new_mutation
     /\ exists m,
          step (CallAddChange Replacing (Some anchor) r2) st4 = Ok (fst st4, m)
          /\ m_replace (change_set_of m (insn_addr anchor)) = Some r2
          /\ forall k, k <> insn_addr anchor ->
               change_set_of m k = change_set_of (snd st4) k).
Proof.
  split.
  - intros between st st1 st2 Hall Hfirst Hrun. simpl in Hfirst.
    destruct (add_change Replacing (Some anchor) r1 (snd st)) as [m1|e] eqn:Hadd; [|done].
    injection Hfirst as <-.
    pose proof (add_change_replacing_has_replace _ _ _ _ Hadd) as Hhas.
    apply (run_add_changes_has_replace between (insn_addr anchor) _ st2 Hall Hrun) in Hhas.
    destruct Hhas as (cs & r & Hcs & Hr). simpl.
    unfold add_change. rewrite Hcs. simpl. by rewrite Hr.
  - intros before reset after st st1 st2 st3 st4 _ _ Hreset Hstep Hafter Hrun.
    pose proof (step_reset_empties reset st2 st3 Hreset Hstep) as Hempty.
    split; [exact Hempty|].
    assert (Hnone : m_replace (change_set_of (snd st4) (insn_addr anchor)) = None).
    { apply (run_keeps_no_replace (insn_addr anchor) after st3 st4 Hafter Hrun).
      rewrite Hempty. unfold change_set_of. simpl. by rewrite lookup_empty. }
    simpl. unfold add_change. fold (change_set_of (snd st4) (insn_addr anchor)).
    simpl. rewrite Hnone. eexists. split; [reflexivity|].
    split.
    + unfold change_set_of. simpl. by rewrite lookup_insert_eq.
    + intros k Hne. unfold change_set_of. simpl. by rewrite lookup_insert_ne.
Qed.

Lemma double_replace_rejected_witness :
  step (CallAddChange Replacing (Some (insn_at 0 OPCODE_CONST)) [insn_at 11 OPCODE_NOP])
    ([insn_at 0 OPCODE_CONST],
     {| m_changes :=
          {[ 0%nat := {| m_insert_before := [insn_at 12 OPCODE_NOP];
                         m_replace := Some [insn_at 10 OPCODE_NOP];
                         m_insert_after := [] |} ]} |})
  = Throw assertion_failure
  /\ exists m,
       step (CallAddChange Replacing (Some (insn_at 0 OPCODE_CONST)) [insn_at 11 OPCODE_NOP])
         ([insn_at 10 OPCODE_NOP],
          {| m_changes :=
               {[ 0%nat := {| m_insert_before := [insn_at 12 OPCODE_NOP];
                              m_replace := None;
                              m_insert_after := [] |} ]} |})
       = Ok ([insn_at 10 OPCODE_NOP], m)
       /\ m_replace (change_set_of m 0%nat) = Some [insn_at 11 OPCODE_NOP].
Proof.
  destruct (double_replace_rejected (insn_at 0 OPCODE_CONST)
              [insn_at 10 OPCODE_NOP] [insn_at 11 OPCODE_NOP]) as [Hreject Haccept].
  split.
  - apply (Hreject
             [CallAddChange Before (Some (insn_at 0 OPCODE_CONST)) [insn_at 12 OPCODE_NOP]]
             ([insn_at 0 OPCODE_CONST], new_mutation)
             ([insn_at 0 OPCODE_CONST],
              {| m_changes :=
                   {[ 0%nat := {| m_insert_before := [];
                                  m_replace := Some [insn_at 10 OPCODE_NOP];
                                  m_insert_after := [] |} ]} |})).
    + repeat constructor.
    + reflexivity.
    + simpl. unfold add_change. simpl.
      rewrite lookup_singleton_eq. simpl.
      by rewrite insert_singleton_eq.
  - destruct (Haccept
                [] CallFlush
                [CallAddChange Before (Some (insn_at 0 OPCODE_CONST)) [insn_at 12 OPCODE_NOP]]
                ([insn_at 0 OPCODE_CONST], new_mutation)
                ([insn_at 0 OPCODE_CONST],
                 {| m_changes :=
                      {[ 0%nat := {| m_insert_before := [];
                                     m_replace := Some [insn_at 10 OPCODE_NOP];
                                     m_insert_after := [] |} ]} |})
                ([insn_at 0 OPCODE_CONST],
                 {| m_changes :=
                      {[ 0%nat := {| m_insert_before := [];
                                     m_replace := Some [insn_at 10 OPCODE_NOP];
                                     m_insert_after := [] |} ]} |})
                ([insn_at 10 OPCODE_NOP], new_mutation)
                ([insn_at 10 OPCODE_NOP],
                 {| m_changes :=
                      {[ 0%nat := {| m_insert_before := [insn_at 12 OPCODE_NOP];
                                     m_replace := None;
                                     m_insert_after := [] |} ]} |}))
      as (_ & m & Hstep & Hreplace & _).
    + reflexivity.
    + reflexivity.
    + reflexivity.
    + simpl. unfold flush. simpl. rewrite lookup_singleton_eq. reflexivity.
    + repeat constructor.
    + simpl. unfold add_change. simpl. rewrite lookup_empty. simpl.
      by rewrite insert_empty.
    + exists m. split; [exact Hstep|exact Hreplace].
Defined.

(** C8, as stated, fails: with a [clear] or a [flush] between the two
    [Replacing] calls the second one is accepted.  In the second run the
    [flush] puts the instruction at address 10 in the place of the anchor and
    empties the log. *)
Lemma double_replace_accepted_after_clear_or_flush :
  run [CallAddChange Replacing (Some (insn_at 0 OPCODE_CONST)) [insn_at 10 OPCODE_NOP];
       CallClear;
       CallAddChange Replacing (Some (insn_at 0 OPCODE_CONST)) [insn_at 11 OPCODE_NOP]]
      ([insn_at 0 OPCODE_CONST], new_mutation)
  = Ok ([insn_at 0 OPCODE_CONST],
        {| m_changes := {[ 0%nat := {| m_insert_before := [];
                                        m_replace := Some [insn_at 11 OPCODE_NOP];
                                        m_insert_after := [] |} ]} |})
  /\ run [CallAddChange Replacing (Some (insn_at 0 OPCODE_CONST)) [insn_at 10 OPCODE_NOP];
          CallFlush;
          CallAddChange Replacing (Some (insn_at 0 OPCODE_CONST)) [insn_at 11 OPCODE_NOP]]
         ([insn_at 1 OPCODE_NOP; insn_at 0 OPCODE_CONST], new_mutation)
     = Ok ([insn_at 1 OPCODE_NOP; insn_at 10 OPCODE_NOP],
           {| m_changes := {[ 0%nat := {| m_insert_before := [];
                                           m_replace := Some [insn_at 11 OPCODE_NOP];
                                           m_insert_after := [] |} ]} |}).
Proof.
  split.
  - simpl. unfold add_change. simpl. rewrite !lookup_empty. simpl.
    by rewrite insert_empty.
  - simpl. unfold add_change. simpl. rewrite !lookup_empty. simpl.
    unfold flush. simpl. rewrite lookup_insert_ne by done. rewrite lookup_empty.
    rewrite lookup_insert_eq. simpl.
    unfold add_change. simpl. rewrite lookup_empty. simpl. by rewrite insert_empty.
Qed.

(** *** Stale anchors *)

Lemma flush_insns_ext (ch1 ch2 : gmap nat ChangeSet) (cfg : list IRInstruction) :
  (forall i, i ∈ cfg -> ch1 !! insn_addr i = ch2 !! insn_addr i) ->
  flush_insns ch1 cfg = flush_insns ch2 cfg.
Proof.
  induction cfg as [|i cfg IH]; intros Hext; simpl; [done|].
  rewrite (Hext i) by set_solver.
  rewrite IH; [done|]. intros j Hj. apply Hext. set_solver.
Qed.

(** C9.  An edit whose anchor is not among the instructions of the graph at
    flush time is dropped: [flush] gives what it gives without that edit --
    the same graph, the same outcome, in particular no error on account of the
    edit, even one that would be illegal to apply -- and when no other edit is
    pending the graph is returned as it is, with an empty log. *)
Theorem stale_anchor_dropped (cfg : list IRInstruction) (m : CFGMutation)
    (a : nat) (cs : ChangeSet) :
  (forall i, i ∈ cfg -> insn_addr i <> a) ->
  m_changes m !! a = Some cs ->
  flush cfg m = flush cfg {| m_changes := delete a (m_changes m) |}
  /\ ((forall k, k <> a -> m_changes m !! k = None) ->
      flush cfg m = Ok (cfg, new_mutation)).
Proof.
  intros Hstale Hcs. split.
  - unfold flush. simpl.
    rewrite (flush_insns_ext (m_changes m) (delete a (m_changes m)) cfg); [done|].
    intros i Hi. by rewrite lookup_delete_ne by (apply not_eq_sym, Hstale, Hi).
  - intros Honly. unfold flush.
    rewrite flush_insns_untouched; [done|].
    intros i Hi. by apply Honly, Hstale.
Qed.

Lemma stale_anchor_dropped_witness :
  flush [insn_at 1 OPCODE_NOP; insn_at 2 OPCODE_RETURN_VOID]
    {| m_changes :=
         {[ 0%nat := {| m_insert_before := [insn_at 10 OPCODE_NOP];
                        m_replace := None;
                        m_insert_after := [insn_at 11 OPCODE_NOP] |} ]} |}
  = Ok ([insn_at 1 OPCODE_NOP; insn_at 2 OPCODE_RETURN_VOID], new_mutation).
Proof.
  refine (proj2 (stale_anchor_dropped _ _ 0%nat _ _ _) _).
  - intros i Hi.
    apply elem_of_cons in Hi as [->|Hi]; [simpl; lia|].
    apply elem_of_cons in Hi as [->|Hi]; [simpl; lia|].
    by apply elem_of_nil in Hi.
  - simpl. apply lookup_singleton_eq.
  - intros k Hne. simpl. by apply lookup_singleton_ne.
Defined.

End MutationFacts.

(** ** [CFGMutation]: when [add_change] fails, and changes to two anchors *)

Module MutationOperations.
Import IR Mutation MutationFacts.

(** X20.  [CFGMutation::add_change] fails in two cases only, and only with
    an assertion failure: the anchor is the end iterator, or the change is a
    [Replacing] one and the anchor already has a [Replacing] change.
    [Before] and [After] changes on a real anchor always succeed. *)
Theorem add_change_fails_iff (where_ : Insert) (anchor : InstructionIterator)
    (instructions : list IRInstruction) (m : CFGMutation) :
  (add_change where_ anchor instructions m = Throw assertion_failure
   <-> anchor = None
       \/ (where_ = Replacing
           /\ exists insn, anchor = Some insn /\ has_replace m (insn_addr insn)))
  /\ (forall e, add_change where_ anchor instructions m = Throw e -> e = assertion_failure).
Proof.
  unfold add_change, has_replace. destruct anchor as [insn|].
  - destruct (m_changes m !! insn_addr insn) as [cs|] eqn:Hcs; simpl.
    + destruct where_; simpl.
      * split; [|done]. split; [done|]. intros [|[? _]]; done.
      * split; [|done]. split; [done|]. intros [|[? _]]; done.
      * destruct (m_replace cs) as [r|] eqn:Hr; simpl.
        -- split; [|by intros e [= <-]]. split; [|done]. intros _. right. split; [done|].
           exists insn. split; [done|]. by exists cs, r.
        -- split; [|done]. split; [done|].
           intros [|[_ (i & [= <-] & cs' & r & Hcs' & Hr')]]; [done|]. congruence.
    + destruct where_; simpl.
      * split; [|done]. split; [done|]. intros [|[? _]]; done.
      * split; [|done]. split; [done|]. intros [|[? _]]; done.
      * split; [|done]. split; [done|].
        intros [|[_ (i & [= <-] & cs' & r & Hcs' & Hr')]]; [done|]. congruence.
  - split; [|by intros e [= <-]]. split; [by left|done].
Qed.

(** X21.  Changes to two different anchors do not interfere: a successful
    [add_change] on one anchor leaves the change set of the other as it was,
    and two [add_change] calls on different anchors give the same outcome in
    either order. *)
Theorem add_change_other_anchor (w1 w2 : Insert) (i j : IRInstruction)
    (l1 l2 : list IRInstruction) (m : CFGMutation) :
  insn_addr i <> insn_addr j ->
  (forall m1, add_change w1 (Some i) l1 m = Ok m1 ->
     change_set_of m1 (insn_addr j) = change_set_of m (insn_addr j))
  /\ match add_change w1 (Some i) l1 m with
     | Ok m1 => add_change w2 (Some j) l2 m1
     | Throw e => Throw e
     end
     = match add_change w2 (Some j) l2 m with
       | Ok m2 => add_change w1 (Some i) l1 m2
       | Throw e => Throw e
       end.
Proof.
  intros Hne. split.
  - intros m1 Hrun. unfold add_change in Hrun.
    destruct (ChangeSet_add_change w1 l1 _) as [cs'|e]; [|done].
    injection Hrun as <-. unfold change_set_of. simpl.
    by rewrite lookup_insert_ne.
  - unfold add_change.
    destruct (ChangeSet_add_change w1 l1
                (default empty_change_set (m_changes m !! insn_addr i))) as [c1|e1] eqn:H1;
      destruct (ChangeSet_add_change w2 l2
                  (default empty_change_set (m_changes m !! insn_addr j))) as [c2|e2] eqn:H2;
      simpl.
    + rewrite !lookup_insert_ne by done. rewrite H1, H2.
      do 2 f_equal. by apply insert_insert_ne.
    + rewrite lookup_insert_ne by done. by rewrite H2.
    + rewrite lookup_insert_ne by done. by rewrite H1.
    + assert (Hthrow : forall w l cs e,
                ChangeSet_add_change w l cs = Throw e -> e = assertion_failure).
      { intros w l cs e. destruct w; simpl; [done|done|].
        destruct (m_replace cs); [by intros [= <-]|done]. }
      by rewrite (Hthrow _ _ _ _ H1), (Hthrow _ _ _ _ H2).
Qed.

Lemma add_change_other_anchor_witness :
  (forall m1,
     add_change Before (Some (insn_at 0 OPCODE_CONST)) [insn_at 10 OPCODE_NOP] new_mutation
     = Ok m1 ->
     change_set_of m1 1%nat = change_set_of new_mutation 1%nat)
  /\ match add_change Before (Some (insn_at 0 OPCODE_CONST)) [insn_at 10 OPCODE_NOP]
             new_mutation with
     | Ok m1 => add_change Replacing (Some (insn_at 1 OPCODE_NOP)) [] m1
     | Throw e => Throw e
     end
     = match add_change Replacing (Some (insn_at 1 OPCODE_NOP)) [] new_mutation with
       | Ok m2 => add_change Before (Some (insn_at 0 OPCODE_CONST)) [insn_at 10 OPCODE_NOP] m2
       | Throw e => Throw e
       end.
Proof.
  apply (add_change_other_anchor Before Replacing (insn_at 0 OPCODE_CONST)
           (insn_at 1 OPCODE_NOP) [insn_at 10 OPCODE_NOP] [] new_mutation).
  simpl. lia.
Defined.

End MutationOperations.

(** ** The Patricia tree map *)

Module PTMapFacts.
Import PTMap.

Section Facts.
Context {T : Type} `{VT : Value T}.

Lemma ptr_eq_refl (t : PatriciaTree T) : ptr_eq t t = true.
Proof. destruct t; simpl; try done; unfold ptr_eq; simpl; apply Nat.eqb_refl. Qed.

Lemma merge_null_r (combine : CombiningFunction T) (s : PatriciaTree T) (n : nat) :
  merge combine s Null n = Ok (s, n).
Proof. destruct s; reflexivity. Qed.

(** C7.  [m.union_with(combine, empty_map)] returns the tree of [m] itself:
    the result is the very node [m] held (same address, same contents),
    nothing is allocated, and [reference_equals] with a copy of the original
    [m] holds. *)
Theorem union_with_empty_is_identity (combine : CombiningFunction T)
    (m : PatriciaTreeMap T) (n : nat) :
  union_with combine m empty_map n = Ok (m, n)
  /\ forall m', union_with combine m empty_map n = Ok (m', n) ->
       reference_equals m' m = true.
Proof.
  assert (Hrun : union_with combine m empty_map n = Ok (m, n)).
  { unfold union_with, bind. simpl. rewrite merge_null_r. by destruct m. }
  split; [exact Hrun|].
  intros m' Hm'. rewrite Hrun in Hm'. injection Hm' as <-.
  apply ptr_eq_refl.
Qed.

(** *** Monadic inversion *)

Lemma bind_inv {A B} (m : M A) (k : A -> M B) (n : nat) (r : B * nat) :
  bind m k n = Ok r -> exists a n1, m n = Ok (a, n1) /\ k a n1 = Ok r.
Proof.
  unfold bind. destruct (m n) as [[a n1]|e]; [|done]. intros Hk. by exists a, n1.
Qed.

Lemma lift_inv {A} (o : outcome A) (n : nat) (a : A) (n' : nat) :
  lift o n = Ok (a, n') -> o = Ok a /\ n' = n.
Proof. unfold lift. destruct o; [|done]. intros [= -> ->]. done. Qed.

Lemma ret_inv {A} (a b : A) (n n' : nat) : ret a n = Ok (b, n') -> b = a /\ n' = n.
Proof. unfold ret. intros [= -> ->]. done. Qed.

(** *** Pointer identity *)

Lemma subtree_refl (t : PatriciaTree T) : subtree t t.
Proof. destruct t; simpl; auto. Qed.

Lemma subtree_trans (x y z : PatriciaTree T) :
  subtree x y -> subtree y z -> subtree x z.
Proof.
  induction z as [| |a p b l IHl r IHr]; simpl; intros Hxy Hyz.
  - destruct Hyz as [->|[]]. exact Hxy.
  - destruct Hyz as [->|[]]. exact Hxy.
  - destruct Hyz as [->|[Hl|Hr]]; [exact Hxy| |]; right; auto.
Qed.

Lemma below_address (n : nat) (t : PatriciaTree T) (a : nat) :
  below n t -> address t = Some a -> (a < n)%nat.
Proof. destruct t; simpl; [done| |]; intros Hb [= <-]; tauto. Qed.

Lemma subtree_below (n : nat) (x t : PatriciaTree T) :
  below n t -> subtree x t -> below n x.
Proof.
  induction t as [| |a p b l IHl r IHr]; simpl; intros Hb Hs.
  - by destruct Hs as [->|[]].
  - by destruct Hs as [->|[]].
  - destruct Hs as [->|[Hl|Hr]]; [done| |]; tauto.
Qed.

Lemma heap_of_inv (n : nat) (t : PatriciaTree T) :
  below n t -> coherent t -> heap_inv n (heap_of t).
Proof.
  intros Hb Hc. split.
  - intros x [Hx Hs]. pose proof (subtree_below n x t Hb Hs) as Hbx.
    destruct x as [|a k v|a p b l r]; [done| |]; exists a; simpl in *; tauto.
  - intros x y [_ Hx] [_ Hy]. by apply Hc.
  - intros a p b l r [_ Hs]. split.
    + destruct l as [|la lk lv|la lp lb ll lr]; [by left|right|right]; (split; [done|]);
        (eapply subtree_trans; [|exact Hs]); simpl; right; left; auto.
    + destruct r as [|ra rk rv|ra rp rb rl rr]; [by left|right|right]; (split; [done|]);
        (eapply subtree_trans; [|exact Hs]); simpl; right; right; auto.
Qed.

Lemma in_heap_of (t : PatriciaTree T) : in_heap (heap_of t) t.
Proof. destruct t; [by left| |]; right; split; try done; apply subtree_refl. Qed.

Lemma ptr_eq_true (n : nat) (H : heap T) (s t : PatriciaTree T) :
  heap_inv n H -> in_heap H s -> in_heap H t -> ptr_eq s t = true -> s = t.
Proof.
  intros Hinv [->|Hs] [->|Ht]; unfold ptr_eq; intros Heq.
  - done.
  - destruct (heap_below n H Hinv t Ht) as (a & Ha & _). simpl in Heq. by rewrite Ha in Heq.
  - destruct (heap_below n H Hinv s Hs) as (a & Ha & _). simpl in Heq. by rewrite Ha in Heq.
  - destruct (heap_below n H Hinv s Hs) as (a & Ha & _).
    destruct (heap_below n H Hinv t Ht) as (b & Hb & _).
    rewrite Ha, Hb in Heq. apply Nat.eqb_eq in Heq as ->.
    apply (heap_coherent n H Hinv); congruence.
Qed.

Lemma heap_inv_mono (n n' : nat) (H : heap T) :
  heap_inv n H -> (n <= n')%nat -> heap_inv n' H.
Proof.
  intros [Hb Hc Hcl] Hle. split; [|done|done].
  intros x Hx. destruct (Hb x Hx) as (a & Ha & Hlt). exists a. split; [done|lia].
Qed.

Lemma heap_inv_add_leaf (n : nat) (H : heap T) (k : Z) (v : T) :
  heap_inv n H -> heap_inv (S n) (heap_add H (Leaf n k v)).
Proof.
  intros [Hb Hc Hcl]. split.
  - intros x [Hx| ->].
    + destruct (Hb x Hx) as (a & Ha & Hlt). exists a. split; [done|lia].
    + exists n. split; [done|lia].
  - intros x y [Hx| ->] [Hy| ->] Heq; [by apply Hc| | |done].
    + destruct (Hb x Hx) as (a & Ha & Hlt). rewrite Ha in Heq. simpl in Heq.
      injection Heq as ->. lia.
    + destruct (Hb y Hy) as (a & Ha & Hlt). rewrite Ha in Heq. simpl in Heq.
      injection Heq as ->. lia.
  - intros a p b l r [Hx|Hx]; [|done].
    destruct (Hcl a p b l r Hx) as [Hl Hr].
    split; [destruct Hl as [->|Hl]|destruct Hr as [->|Hr]];
      (by left) || (right; by left).
Qed.

Lemma heap_inv_add_branch (n : nat) (H : heap T) (p b : Z) (l r : PatriciaTree T) :
  heap_inv n H -> in_heap H l -> in_heap H r ->
  heap_inv (S n) (heap_add H (Branch n p b l r)).
Proof.
  intros [Hb Hc Hcl] Hl Hr. split.
  - intros x [Hx| ->].
    + destruct (Hb x Hx) as (a & Ha & Hlt). exists a. split; [done|lia].
    + exists n. split; [done|lia].
  - intros x y [Hx| ->] [Hy| ->] Heq; [by apply Hc| | |done].
    + destruct (Hb x Hx) as (a & Ha & Hlt). rewrite Ha in Heq. simpl in Heq.
      injection Heq as ->. lia.
    + destruct (Hb y Hy) as (a & Ha & Hlt). rewrite Ha in Heq. simpl in Heq.
      injection Heq as ->. lia.
  - intros a p' b' l' r' [Hx|Hx].
    + destruct (Hcl a p' b' l' r' Hx) as [Hl' Hr'].
      split; [destruct Hl' as [->|Hl']|destruct Hr' as [->|Hr']];
        (by left) || (right; by left).
    + injection Hx as -> -> -> -> ->.
      split; [destruct Hl as [->|Hl]|destruct Hr as [->|Hr]];
        (by left) || (right; by left).
Qed.

Lemma heap_post_ret (n : nat) (H : heap T) (t : PatriciaTree T) :
  heap_inv n H -> in_heap H t -> heap_post n H t n.
Proof. intros Hinv Ht. exists H. split; [done|]. split; [auto|]. split; [done|lia]. Qed.

Lemma heap_post_intro (n n' : nat) (H H' : heap T) (t' : PatriciaTree T) :
  heap_inv n' H' -> (forall x, H x -> H' x) -> in_heap H' t' -> (n <= n')%nat ->
  heap_post n H t' n'.
Proof. intros. by exists H'. Qed.

Lemma heap_post_trans (n n1 n2 : nat) (H H1 : heap T) (t : PatriciaTree T) :
  (forall x, H x -> H1 x) -> (n <= n1)%nat ->
  heap_post n1 H1 t n2 -> heap_post n H t n2.
Proof.
  intros Hsub Hle (H2 & Hinv & Hsub2 & Ht & Hle2).
  apply (heap_post_intro _ _ _ H2); auto. lia.
Qed.

Lemma in_heap_mono (H H' : heap T) (t : PatriciaTree T) :
  (forall x, H x -> H' x) -> in_heap H t -> in_heap H' t.
Proof. intros Hsub [->|Ht]; [by left|right; auto]. Qed.

Lemma make_shared_branch_heap (n : nat) (H : heap T) p b (l r t' : PatriciaTree T) n' :
  heap_inv n H -> in_heap H l -> in_heap H r ->
  make_shared_branch p b l r n = Ok (t', n') ->
  heap_post n H t' n'.
Proof.
  intros Hinv Hl Hr [= <- <-].
  exists (heap_add H (Branch n p b l r)). split; [by apply heap_inv_add_branch|].
  split; [by left|]. split; [right; by right|lia].
Qed.

Lemma make_branch_heap (n : nat) (H : heap T) p b (l r t' : PatriciaTree T) n' :
  heap_inv n H -> in_heap H l -> in_heap H r ->
  make_branch p b l r n = Ok (t', n') ->
  heap_post n H t' n'.
Proof.
  intros Hinv Hl Hr. unfold make_branch.
  destruct (is_null l).
  - intros [= <- <-]. by apply heap_post_ret.
  - destruct (is_null r).
    + intros [= <- <-]. by apply heap_post_ret.
    + by apply make_shared_branch_heap.
Qed.

Lemma join_heap (n : nat) (H : heap T) p0 p1 (t0 t1 t' : PatriciaTree T) n' :
  heap_inv n H -> in_heap H t0 -> in_heap H t1 ->
  join p0 t0 p1 t1 n = Ok (t', n') ->
  heap_post n H t' n'.
Proof.
  intros Hinv H0 H1. unfold join.
  destruct (is_zero_bit _ _); by apply make_shared_branch_heap.
Qed.

Lemma combine_leaf_heap (combine : CombiningFunction T) value a k v
    (n : nat) (H : heap T) (t' : PatriciaTree T) n' :
  heap_inv n H -> H (Leaf a k v) ->
  combine_leaf combine value a k v n = Ok (t', n') ->
  heap_post n H t' n'.
Proof.
  intros Hinv Hleaf Hrun. unfold combine_leaf in Hrun.
  apply bind_inv in Hrun as (c & n1 & Hc & Hrun).
  apply lift_inv in Hc as [Hc ->].
  destruct (is_default_value c).
  - apply ret_inv in Hrun as [-> ->]. apply heap_post_ret; [done|by left].
  - destruct (negb (equals_value c v)).
    + injection Hrun as <- <-.
      exists (heap_add H (Leaf n k c)). split; [by apply heap_inv_add_leaf|].
      split; [by left|]. split; [right; by right|lia].
    + apply ret_inv in Hrun as [-> ->]. apply heap_post_ret; [done|by right].
Qed.

Lemma combine_new_leaf_heap (combine : CombiningFunction T) key value
    (n : nat) (H : heap T) (t' : PatriciaTree T) n' :
  heap_inv n H ->
  combine_new_leaf combine key value n = Ok (t', n') ->
  heap_post n H t' n'.
Proof.
  intros Hinv Hrun. unfold combine_new_leaf in Hrun.
  eapply (heap_post_trans n (S n) n' H (heap_add H (Leaf n key default_value)));
    [by left|lia|].
  eapply combine_leaf_heap; [|right; reflexivity|exact Hrun].
  by apply heap_inv_add_leaf.
Qed.

(** [update] only adds nodes to the heap. *)
Lemma update_heap (combine : CombiningFunction T) key value (t : PatriciaTree T) :
  forall (n : nat) (H : heap T) (t' : PatriciaTree T) n',
  heap_inv n H -> in_heap H t ->
  update combine key value t n = Ok (t', n') ->
  heap_post n H t' n'.
Proof.
  induction t as [|a k v|a p b l IHl r IHr]; intros n H t' n' Hinv Ht Hrun; simpl in Hrun.
  - by eapply combine_new_leaf_heap.
  - destruct Ht as [Ht|Ht]; [done|].
    destruct (key =? k).
    + by eapply combine_leaf_heap.
    + apply bind_inv in Hrun as (nl & n1 & Hnl & Hrun).
      destruct (combine_new_leaf_heap _ _ _ _ _ _ _ Hinv Hnl) as (H1 & Hinv1 & Hsub1 & Hnl1 & Hle1).
      destruct (is_null nl).
      * apply ret_inv in Hrun as [-> ->].
        apply (heap_post_intro _ _ _ H1); auto. right. auto.
      * eapply (heap_post_trans n n1 n' H H1); [done|done|].
        eapply join_heap; [done|done| |exact Hrun]. right. auto.
  - destruct Ht as [Ht|Ht]; [done|].
    destruct (heap_closed n H Hinv _ _ _ _ _ Ht) as [Hl Hr].
    destruct (match_prefix key p b).
    + destruct (is_zero_bit key b).
      * apply bind_inv in Hrun as (nl & n1 & Hnl & Hrun).
        destruct (IHl _ _ _ _ Hinv Hl Hnl) as (H1 & Hinv1 & Hsub1 & Hnl1 & Hle1).
        eapply (heap_post_trans n n1 n' H H1); [done|done|].
        destruct (ptr_eq nl l).
        -- apply ret_inv in Hrun as [-> ->]. apply heap_post_ret; [done|right; auto].
        -- eapply make_branch_heap; [done|done| |exact Hrun].
           by eapply in_heap_mono.
      * apply bind_inv in Hrun as (nr & n1 & Hnr & Hrun).
        destruct (IHr _ _ _ _ Hinv Hr Hnr) as (H1 & Hinv1 & Hsub1 & Hnr1 & Hle1).
        eapply (heap_post_trans n n1 n' H H1); [done|done|].
        destruct (ptr_eq nr r).
        -- apply ret_inv in Hrun as [-> ->]. apply heap_post_ret; [done|right; auto].
        -- eapply make_branch_heap; [done| |done|exact Hrun].
           by eapply in_heap_mono.
    + apply bind_inv in Hrun as (nl & n1 & Hnl & Hrun).
      destruct (combine_new_leaf_heap _ _ _ _ _ _ _ Hinv Hnl) as (H1 & Hinv1 & Hsub1 & Hnl1 & Hle1).
      destruct (is_null nl).
      * apply ret_inv in Hrun as [-> ->].
        apply (heap_post_intro _ _ _ H1); auto. right. auto.
      * eapply (heap_post_trans n n1 n' H H1); [done|done|].
        eapply join_heap; [done|done| |exact Hrun]. right. auto.
Qed.

Lemma heap_subtree (n : nat) (H : heap T) (x t : PatriciaTree T) :
  heap_inv n H -> in_heap H t -> subtree x t -> in_heap H x.
Proof.
  intros Hinv. induction t as [| |a p b l IHl r IHr]; simpl; intros Ht Hs.
  - destruct Hs as [->|[]]. by left.
  - destruct Hs as [->|[]]. done.
  - destruct Hs as [->|Hs]; [done|].
    destruct Ht as [Ht|Ht]; [done|].
    destruct (heap_closed n H Hinv _ _ _ _ _ Ht) as [Hl Hr].
    destruct Hs as [Hs|Hs]; auto.
Qed.

Lemma heap_inv_below (n : nat) (H : heap T) (t : PatriciaTree T) :
  heap_inv n H -> in_heap H t -> below n t.
Proof.
  intros Hinv. induction t as [|a k v|a p b l IHl r IHr]; simpl; intros Ht.
  - done.
  - destruct Ht as [Ht|Ht]; [done|].
    destruct (heap_below n H Hinv _ Ht) as (a' & [= <-] & Hlt). done.
  - destruct Ht as [Ht|Ht]; [done|].
    destruct (heap_below n H Hinv _ Ht) as (a' & [= <-] & Hlt).
    destruct (heap_closed n H Hinv _ _ _ _ _ Ht) as [Hl Hr]. auto.
Qed.

Lemma heap_inv_coherent (n : nat) (H : heap T) (t : PatriciaTree T) :
  heap_inv n H -> in_heap H t -> coherent t.
Proof.
  intros Hinv Ht x y Hx Hy Heq.
  pose proof (heap_subtree n H x t Hinv Ht Hx) as [->|Hx'];
    pose proof (heap_subtree n H y t Hinv Ht Hy) as [->|Hy'].
  - done.
  - destruct (heap_below n H Hinv _ Hy') as (a & Ha & _). simpl in Heq. congruence.
  - destruct (heap_below n H Hinv _ Hx') as (a & Ha & _). simpl in Heq. congruence.
  - by apply (heap_coherent n H Hinv).
Qed.

(** *** Lookup and the stored bindings *)

Lemma find_value_leaves (key : Z) (t : PatriciaTree T) (v : T) :
  find_value key t = Some v -> (key, v) ∈ leaves t.
Proof.
  induction t as [|a k v'|a p b l IHl r IHr]; simpl; [done| |].
  - destruct (Z.eqb_spec key k) as [->|]; [|done]. intros [= ->]. set_solver.
  - destruct (is_zero_bit key b); intros Hf; set_solver.
Qed.

Lemma find_value_prefix_mismatch (key : Z) a p b (l r : PatriciaTree T) :
  well_formed (Branch a p b l r) ->
  match_prefix key p b = false ->
  find_value key (Branch a p b l r) = None.
Proof.
  intros (_ & _ & Hkl & Hkr & _ & _) Hmis.
  destruct (find_value key (Branch a p b l r)) as [v|] eqn:Hf; [|done].
  apply find_value_leaves in Hf. simpl in Hf.
  apply elem_of_app in Hf as [Hf|Hf].
  - destruct (Hkl _ _ Hf) as [Hm _]. congruence.
  - destruct (Hkr _ _ Hf) as [Hm _]. congruence.
Qed.

Lemma find_value_wrong_side_l (key : Z) p b (l : PatriciaTree T) :
  (forall k v, (k, v) ∈ leaves l ->
     match_prefix k p b = true /\ is_zero_bit k b = true) ->
  is_zero_bit key b = false -> find_value key l = None.
Proof.
  intros Hkl Hbit. destruct (find_value key l) as [v|] eqn:Hf; [|done].
  apply find_value_leaves in Hf. destruct (Hkl _ _ Hf). congruence.
Qed.

Lemma find_value_wrong_side_r (key : Z) p b (r : PatriciaTree T) :
  (forall k v, (k, v) ∈ leaves r ->
     match_prefix k p b = true /\ is_zero_bit k b = false) ->
  is_zero_bit key b = true -> find_value key r = None.
Proof.
  intros Hkr Hbit. destruct (find_value key r) as [v|] eqn:Hf; [|done].
  apply find_value_leaves in Hf. destruct (Hkr _ _ Hf). congruence.
Qed.

Lemma well_formed_leaves (t : PatriciaTree T) k v :
  well_formed t -> (k, v) ∈ leaves t -> is_default_value v = false.
Proof.
  induction t as [|a k' v'|a p b l IHl r IHr]; simpl; intros Hwf Hin.
  - by apply elem_of_nil in Hin.
  - apply list_elem_of_singleton in Hin. by injection Hin as -> ->.
  - destruct Hwf as (_ & _ & _ & _ & Hl & Hr).
    apply elem_of_app in Hin as [Hin|Hin]; auto.
Qed.

Lemma filter_other_key_all (key : Z) (l : list (Z * T)) :
  (forall k v, (k, v) ∈ l -> k <> key) -> filter (other_key key) l = l.
Proof.
  induction l as [|[k v] l IH]; intros Hall; [done|].
  rewrite filter_cons_True by (apply (Hall k v); set_solver).
  f_equal. apply IH. intros k' v' Hin. apply (Hall k' v'). set_solver.
Qed.

Lemma is_null_true (t : PatriciaTree T) : is_null t = true <-> t = Null.
Proof. destruct t; simpl; split; congruence. Qed.

Lemma is_null_false (t : PatriciaTree T) : is_null t = false <-> t <> Null.
Proof. destruct t; simpl; split; congruence. Qed.

Lemma make_branch_nonnull p b (l r : PatriciaTree T) n :
  l <> Null -> r <> Null ->
  make_branch p b l r n = Ok (Branch n p b l r, S n).
Proof.
  intros Hl Hr. unfold make_branch.
  apply is_null_false in Hl, Hr. by rewrite Hl, Hr.
Qed.

Lemma make_branch_null_l p b (r : PatriciaTree T) n :
  make_branch p b Null r n = Ok (r, n).
Proof. reflexivity. Qed.

Lemma make_branch_null_r p b (l : PatriciaTree T) n :
  l <> Null -> make_branch p b l Null n = Ok (l, n).
Proof. intros Hl. unfold make_branch. apply is_null_false in Hl. by rewrite Hl. Qed.

Lemma combine_new_leaf_to_default (combine : CombiningFunction T) key value d n :
  combine default_value value = Ok d -> is_default_value d = true ->
  combine_new_leaf combine key value n = Ok (Null, S n).
Proof.
  intros Hc Hd. unfold combine_new_leaf, combine_leaf, bind, lift.
  by rewrite Hc, Hd.
Qed.

(** [update] when the combined value is the default value: the key is
    unbound afterwards and nothing else changes. *)
Lemma update_to_default (combine : CombiningFunction T) key value (d : T)
    (t : PatriciaTree T) :
  forall (n : nat) (H : heap T),
  well_formed t -> heap_inv n H -> in_heap H t ->
  combine (default default_value (find_value key t)) value = Ok d ->
  is_default_value d = true ->
  exists t' n',
    update combine key value t n = Ok (t', n')
    /\ find_value key t' = None
    /\ (forall k, k <> key -> find_value k t' = find_value k t)
    /\ leaves t' = filter (other_key key) (leaves t)
    /\ well_formed t'.
Proof.
  induction t as [|a k v|a p b l IHl r IHr]; intros n H Hwf Hinv Ht Hc Hd.
  - simpl in *. rewrite (combine_new_leaf_to_default _ _ _ d) by done.
    exists Null, (S n). by simpl.
  - simpl in Hc. simpl update. destruct (Z.eqb_spec key k) as [->|Hne].
    + simpl in Hc. unfold combine_leaf, bind, lift. rewrite Hc, Hd.
      exists Null, n. simpl. split; [done|]. split; [done|]. split.
      * intros k' Hk'. by destruct (Z.eqb_spec k' k).
      * split; [|done]. rewrite filter_cons_False; [done|].
        unfold other_key. simpl. tauto.
    + simpl in Hc. unfold bind.
      rewrite (combine_new_leaf_to_default _ _ _ d) by done. simpl.
      exists (Leaf a k v), (S n). simpl.
      split; [done|]. split; [by destruct (Z.eqb_spec key k)|].
      split; [done|]. split; [|done].
      rewrite filter_cons_True; [done|]. unfold other_key. simpl. congruence.
  - destruct Ht as [Ht|Ht]; [done|].
    destruct (heap_closed n H Hinv _ _ _ _ _ Ht) as [Hl Hr].
    pose proof Hwf as (Hln & Hrn & Hkl & Hkr & Hwl & Hwr).
    simpl update. destruct (match_prefix key p b) eqn:Hmatch.
    + simpl in Hc. destruct (is_zero_bit key b) eqn:Hbit.
      * destruct (IHl n H Hwl Hinv Hl Hc Hd) as (nl & n1 & Hrun & Hfind & Hother & Hleaves & Hwnl).
        assert (Hrk : filter (other_key key) (leaves r) = leaves r).
        { apply filter_other_key_all. intros k v Hin ->.
          destruct (Hkr _ _ Hin). congruence. }
        assert (Hall : leaves nl ++ leaves r
                       = filter (other_key key) (leaves (Branch a p b l r))).
        { simpl. by rewrite filter_app, <- Hleaves, Hrk. }
        unfold bind. rewrite Hrun.
        destruct (update_heap _ _ _ _ _ _ _ _ Hinv Hl Hrun) as (H1 & Hinv1 & Hsub1 & Hnl1 & Hle1).
        destruct (ptr_eq nl l) eqn:Hptr.
        { apply (ptr_eq_true n1 H1) in Hptr; [|done|done|by eapply in_heap_mono].
          subst nl. exists (Branch a p b l r), n1. simpl. rewrite Hbit. done. }
        destruct (is_null nl) eqn:Hnull.
        { apply is_null_true in Hnull. subst nl. rewrite make_branch_null_l.
          exists r, n1. split; [done|].
          split; [by eapply find_value_wrong_side_r|]. split; [|done].
          intros k Hk. simpl. destruct (is_zero_bit k b) eqn:Hkb; [|done].
          rewrite <- (Hother k Hk). simpl. by eapply find_value_wrong_side_r. }
        apply is_null_false in Hnull. rewrite make_branch_nonnull by done.
        eexists _, _. split; [reflexivity|]. simpl. rewrite Hbit.
        split; [done|]. split.
        { intros k Hk. destruct (is_zero_bit k b); [by apply Hother|done]. }
        split; [done|]. split; [done|]. split; [done|]. split; [|done].
        intros k v Hin. apply (Hkl k v). rewrite Hleaves in Hin.
        by apply list_elem_of_filter in Hin as [_ Hin].
      * destruct (IHr n H Hwr Hinv Hr Hc Hd) as (nr & n1 & Hrun & Hfind & Hother & Hleaves & Hwnr).
        assert (Hlk : filter (other_key key) (leaves l) = leaves l).
        { apply filter_other_key_all. intros k v Hin ->.
          destruct (Hkl _ _ Hin). congruence. }
        assert (Hall : leaves l ++ leaves nr
                       = filter (other_key key) (leaves (Branch a p b l r))).
        { simpl. by rewrite filter_app, <- Hleaves, Hlk. }
        unfold bind. rewrite Hrun.
        destruct (update_heap _ _ _ _ _ _ _ _ Hinv Hr Hrun) as (H1 & Hinv1 & Hsub1 & Hnr1 & Hle1).
        destruct (ptr_eq nr r) eqn:Hptr.
        { apply (ptr_eq_true n1 H1) in Hptr; [|done|done|by eapply in_heap_mono].
          subst nr. exists (Branch a p b l r), n1. simpl. rewrite Hbit. done. }
        destruct (is_null nr) eqn:Hnull.
        { apply is_null_true in Hnull. subst nr. rewrite make_branch_null_r by done.
          exists l, n1. split; [done|].
          split; [by eapply find_value_wrong_side_l|]. split.
          - intros k Hk. simpl. destruct (is_zero_bit k b) eqn:Hkb; [done|].
            rewrite <- (Hother k Hk). simpl. by eapply find_value_wrong_side_l.
          - split; [|done]. by rewrite <- Hall, app_nil_r. }
        apply is_null_false in Hnull. rewrite make_branch_nonnull by done.
        eexists _, _. split; [reflexivity|]. simpl. rewrite Hbit.
        split; [done|]. split.
        { intros k Hk. destruct (is_zero_bit k b); [done|by apply Hother]. }
        split; [done|]. split; [done|]. split; [done|]. split; [done|]. split; [|done].
        intros k v Hin. apply (Hkr k v). rewrite Hleaves in Hin.
        by apply list_elem_of_filter in Hin as [_ Hin].
    + rewrite (find_value_prefix_mismatch key a p b l r Hwf Hmatch) in Hc. simpl in Hc.
      unfold bind. rewrite (combine_new_leaf_to_default _ _ _ d) by done. simpl.
      exists (Branch a p b l r), (S n). split; [done|].
      split; [by apply find_value_prefix_mismatch|]. split; [done|]. split; [|done].
      symmetry. apply filter_other_key_all. intros k v Hin ->. simpl in Hin.
      apply elem_of_app in Hin as [Hin|Hin].
      * destruct (Hkl _ _ Hin). congruence.
      * destruct (Hkr _ _ Hin). congruence.
Qed.

(** *** Iteration and [size] *)

Lemma go_to_next_leaf_spec (t : PatriciaTree T) :
  forall stack,
  t <> Null -> well_formed t -> stack_ok stack ->
  exists it,
    go_to_next_leaf t stack = Ok it
    /\ iterator_ok it
    /\ S (stack_leaves (m_stack it)) = (length (leaves t) + stack_leaves stack)%nat.
Proof.
  induction t as [|a k v|a p b l IHl r IHr]; intros stack Hnn Hwf Hst; [done| |].
  - eexists. split; [reflexivity|]. split; [by split|]. simpl. lia.
  - destruct Hwf as (Hln & Hrn & _ & _ & Hwl & Hwr). simpl.
    apply is_null_false in Hln as Hln'. rewrite Hln'.
    destruct (IHl (Branch a p b l r :: stack) Hln Hwl) as (it & Hgo & Hok & Hcount).
    { by constructor. }
    exists it. split; [done|]. split; [done|].
    rewrite Hcount. simpl. rewrite length_app. lia.
Qed.

Lemma for_each_count_spec (fuel : nat) :
  forall (it : PatriciaTreeIterator T) (s : nat),
  iterator_ok it ->
  (S (stack_leaves (m_stack it)) < fuel)%nat ->
  for_each_count fuel it s = Some (Ok (s + S (stack_leaves (m_stack it)))%nat).
Proof.
  induction fuel as [|fuel IH]; intros it s [Hleaf Hst] Hfuel; [lia|].
  simpl. unfold increment. rewrite Hleaf.
  assert (Hptr : ptr_eq (m_leaf it) Null = false).
  { destruct (m_leaf it); [done| |]; reflexivity. }
  rewrite Hptr.
  destruct it as [stack leaf]. simpl in *.
  destruct stack as [|top stack].
  - destruct fuel as [|fuel]; [simpl in Hfuel; lia|]. simpl.
    do 2 f_equal. lia.
  - apply Forall_cons in Hst as [Htop Hst].
    destruct top as [| |a p b l r]; [done|done|].
    destruct Htop as [Hrn Hwr].
    destruct (go_to_next_leaf_spec r stack Hrn Hwr Hst) as (it' & Hgo & Hok & Hcount).
    rewrite Hgo. rewrite IH; [|done|simpl in Hfuel; lia].
    do 2 f_equal. simpl. lia.
Qed.

Lemma leaves_le_node_count (t : PatriciaTree T) :
  (length (leaves t) <= node_count t)%nat.
Proof.
  induction t as [| |a p b l IHl r IHr]; simpl; [lia|lia|].
  rewrite length_app. lia.
Qed.

(** On a well-formed tree the iteration of [size] ends and counts the
    leaves. *)
Lemma size_well_formed (m : PatriciaTreeMap T) :
  well_formed (m_tree m) ->
  size m = Some (Ok (length (leaves (m_tree m)))).
Proof.
  intros Hwf. unfold size, iterator_begin.
  destruct (is_null (m_tree m)) eqn:Hnull.
  - apply is_null_true in Hnull. rewrite Hnull. reflexivity.
  - apply is_null_false in Hnull.
    destruct (go_to_next_leaf_spec (m_tree m) [] Hnull Hwf) as (it & Hgo & Hok & Hcount).
    { constructor. }
    rewrite Hgo. rewrite for_each_count_spec; [|done|].
    + do 2 f_equal. simpl in Hcount. lia.
    + pose proof (leaves_le_node_count (m_tree m)). simpl in Hcount. lia.
Qed.

(** C6.  Let [m] be a map whose tree is a well-formed Patricia tree of nodes
    allocated so far.  If the operation applied to [m.at(key)] yields a
    default value, then [m.update(operation, key)] returns, and afterwards
    [at(key)] is the default value, [size()] has not grown (it is the number
    of bindings kept, those of the other keys, which are unchanged), no leaf
    of the tree holds a default value, and the tree is again a well-formed
    tree of allocated nodes. *)
Theorem update_default_elision (operation : T -> outcome T) (key : Z)
    (m : PatriciaTreeMap T) (n : nat) (d : T) :
  well_formed (m_tree m) ->
  below n (m_tree m) ->
  coherent (m_tree m) ->
  operation (at_ m key) = Ok d ->
  is_default_value d = true ->
  exists m' n',
    map_update operation key m n = Ok (m', n')
    /\ at_ m' key = default_value
    /\ (forall k, k <> key -> at_ m' k = at_ m k)
    /\ (exists s s', size m = Some (Ok s) /\ size m' = Some (Ok s') /\ (s' <= s)%nat)
    /\ (forall k v, (k, v) ∈ leaves (m_tree m') -> is_default_value v = false)
    /\ well_formed (m_tree m') /\ below n' (m_tree m') /\ coherent (m_tree m').
Proof.
  intros Hwf Hbelow Hcoh Hop Hd.
  pose proof (heap_of_inv n (m_tree m) Hbelow Hcoh) as Hinv.
  pose proof (in_heap_of (m_tree m)) as Hin.
  destruct (update_to_default (fun x _ => operation x) key default_value d
              (m_tree m) n (heap_of (m_tree m)) Hwf Hinv Hin)
    as (t' & n' & Hrun & Hfind & Hother & Hleaves & Hwf'); [exact Hop|exact Hd|].
  destruct (update_heap _ _ _ _ _ _ _ _ Hinv Hin Hrun) as (H1 & Hinv1 & _ & Hin1 & _).
  exists {| m_tree := t' |}, n'.
  split; [unfold map_update, bind; by rewrite Hrun|].
  split; [unfold at_; simpl; by rewrite Hfind|].
  split; [intros k Hk; unfold at_; simpl; by rewrite Hother|].
  split.
  { exists (length (leaves (m_tree m))), (length (leaves t')).
    split; [by apply size_well_formed|]. split; [by apply size_well_formed|].
    rewrite Hleaves. apply length_filter. }
  split; [intros k v; by apply well_formed_leaves|].
  split; [done|]. split; [by eapply heap_inv_below|by eapply heap_inv_coherent].
Qed.

End Facts.

(** *** A union that breaks the canonical form *)

Import PTMap.Samples.

(** C1, at the input where the code misses it.  The union of [{0 -> 1, 1 -> 1}]
    and [{0 -> 2, 1 -> 2}] under a combining function that yields the default
    value leaves a branch node with two null children: the resulting map binds
    no key, as the empty map, yet [equals] tells it from the empty map, its
    tree is not the empty tree, and iterating it ([size]) fails the
    "a branch node always has two children" check. *)
Theorem union_breaks_canonical_form :
  exists m n,
    cancelling_union 0%nat = Ok (m, n)
    /\ m_tree m = Branch 10 0 1 Null Null
    /\ (forall k, at_ m k = at_ empty_map k)
    /\ map_equals m empty_map = false
    /\ size m = Some (Throw internal_error).
Proof.
  eexists _, _. split; [vm_compute; reflexivity|].
  split; [reflexivity|]. split; [|split; reflexivity].
  intros k. unfold at_. simpl. by destruct (is_zero_bit k 1).
Qed.

Lemma sample_tree_built : two_bindings 1 0%nat = Ok ({| m_tree := sample_tree |}, 5%nat).
Proof. reflexivity. Qed.

Lemma sample_tree_well_formed : well_formed sample_tree.
Proof.
  simpl. split; [done|]. split; [done|].
  split; [|split; [|done]].
  all: intros k v Hin; apply list_elem_of_singleton in Hin; by injection Hin as -> ->.
Qed.

Lemma sample_tree_coherent : coherent sample_tree.
Proof.
  intros x y Hx Hy Heq. simpl in Hx, Hy.
  destruct Hx as [->|[[->|[]]|[->|[]]]], Hy as [->|[[->|[]]|[->|[]]]];
    simpl in Heq; congruence.
Qed.

Lemma update_default_elision_witness :
  exists m' n',
    map_update (fun _ => Ok 0) 0 {| m_tree := sample_tree |} 5%nat = Ok (m', n')
    /\ at_ m' 0 = 0
    /\ (exists s s', size {| m_tree := sample_tree |} = Some (Ok s)
                     /\ size m' = Some (Ok s') /\ (s' <= s)%nat).
Proof.
  destruct (update_default_elision (fun _ => Ok 0) 0 {| m_tree := sample_tree |} 5%nat 0)
    as (m' & n' & Hrun & Hat & _ & Hsize & _).
  - exact sample_tree_well_formed.
  - simpl. lia.
  - exact sample_tree_coherent.
  - reflexivity.
  - reflexivity.
  - exists m', n'. auto.
Defined.

End PTMapFacts.

(** ** Canonical form of the Patricia trees *)

Module CanonicalFacts.
Import PTMap PTMapFacts.

(** *** The bit operations on keys *)

Lemma int_bits_pos : 0 < int_bits.
Proof. reflexivity. Qed.

#[local] Opaque int_bits.

Lemma wrap_small x : in_range x -> wrap x = x.
Proof. intros Hx. unfold wrap. by apply Z.mod_small. Qed.

Lemma pow2_in_range i : 0 <= i < int_bits -> in_range (2 ^ i - 1) /\ in_range (2 ^ i).
Proof.
  intros Hi. unfold in_range.
  assert (0 < 2 ^ i) by (apply Z.pow_pos_nonneg; lia).
  assert (2 ^ i < 2 ^ int_bits) by (apply Z.pow_lt_mono_r; lia).
  lia.
Qed.

Lemma mask_pow2 k i : 0 <= i < int_bits -> mask k (2 ^ i) = k mod 2 ^ i.
Proof.
  intros Hi. unfold mask. rewrite wrap_small by by apply pow2_in_range.
  replace (2 ^ i - 1) with (Z.ones i) by (rewrite Z.ones_equiv; lia).
  apply Z.land_ones. lia.
Qed.

Lemma is_zero_bit_pow2 k i : 0 <= i -> is_zero_bit k (2 ^ i) = negb (Z.testbit k i).
Proof.
  intros Hi. unfold is_zero_bit.
  destruct (Z.testbit k i) eqn:Hb; simpl.
  - apply Z.eqb_neq. intros H0.
    assert (Hc : Z.testbit (Z.land k (2 ^ i)) i = true).
    { rewrite Z.land_spec, Hb, Z.pow2_bits_true; done. }
    rewrite H0, Z.bits_0 in Hc. done.
  - apply Z.eqb_eq. apply Z.bits_inj'. intros j Hj.
    rewrite Z.land_spec, Z.bits_0, Z.pow2_bits_eqb by done.
    destruct (Z.eqb_spec i j) as [->|]; [by rewrite Hb|apply andb_false_r].
Qed.

Lemma pos_lowest_bit (p : positive) :
  exists i a, 0 <= i /\ 0 <= a /\ Z.pos p = 2 ^ i * (2 * a + 1).
Proof.
  induction p as [p IH|p IH|].
  - exists 0, (Z.pos p). split; [lia|]. split; [lia|]. rewrite Z.pow_0_r. lia.
  - destruct IH as (i & a & Hi & Ha & Hp). exists (i + 1), a.
    split; [lia|]. split; [done|].
    rewrite Z.pow_add_r, Z.pow_1_r by lia. lia.
  - exists 0, 0. done.
Qed.

Lemma land_odd_opp a : Z.land (2 * a + 1) (- (2 * a + 1)) = 1.
Proof.
  replace (- (2 * a + 1)) with (2 * Z.lnot a + 1) by (unfold Z.lnot; lia).
  apply Z.bits_inj'. intros j Hj. rewrite Z.land_spec.
  destruct (Z.eq_dec j 0) as [->|Hne].
  - by rewrite !Z.testbit_odd_0.
  - replace j with (Z.succ (j - 1)) by lia.
    rewrite !Z.testbit_odd_succ by lia.
    rewrite Z.lnot_spec by lia. rewrite andb_negb_r.
    replace 1 with (2 * 0 + 1) by done. rewrite Z.testbit_odd_succ by lia.
    by rewrite Z.bits_0.
Qed.

Lemma land_shift_opp i x : 0 <= i -> Z.land (2 ^ i * x) (- (2 ^ i * x)) = 2 ^ i * Z.land x (- x).
Proof.
  intros Hi.
  replace (- (2 ^ i * x)) with (2 ^ i * (- x)) by lia.
  rewrite !(Z.mul_comm (2 ^ i)), <- !Z.shiftl_mul_pow2 by done.
  by rewrite Z.shiftl_land.
Qed.

Lemma get_lowest_bit_spec x i a :
  0 <= i -> 0 <= a -> x = 2 ^ i * (2 * a + 1) -> x < 2 ^ int_bits ->
  0 <= i < int_bits /\ get_lowest_bit x = 2 ^ i.
Proof.
  intros Hi Ha Hx Hlt.
  assert (Hpow : 0 < 2 ^ i) by (apply Z.pow_pos_nonneg; lia).
  assert (Hi' : i < int_bits).
  { apply (Z.pow_lt_mono_r_iff 2); [lia|pose proof int_bits_pos; lia|]. nia. }
  split; [lia|].
  unfold get_lowest_bit, wrap.
  replace (Z.lnot x + 1) with (- x) by (unfold Z.lnot; lia).
  rewrite <- Z.land_ones by (pose proof int_bits_pos; lia).
  rewrite Z.land_assoc. rewrite Hx at 1 2. rewrite land_shift_opp, land_odd_opp by done.
  rewrite Z.mul_1_r, Z.land_ones by (pose proof int_bits_pos; lia).
  apply Z.mod_small. split; [lia|]. apply Z.pow_lt_mono_r; lia.
Qed.

Lemma odd_multiple_bits i a :
  0 <= i ->
  Z.testbit (2 ^ i * (2 * a + 1)) i = true
  /\ forall j, 0 <= j < i -> Z.testbit (2 ^ i * (2 * a + 1)) j = false.
Proof.
  intros Hi. rewrite Z.mul_comm. split.
  - replace i with (i + 0) at 2 by lia.
    rewrite Z.mul_pow2_bits_add by done. apply Z.testbit_odd_0.
  - intros j Hj. apply Z.mul_pow2_bits_low. lia.
Qed.

Lemma in_range_bits x : in_range x <-> 0 <= x /\ forall j, int_bits <= j -> Z.testbit x j = false.
Proof.
  pose proof int_bits_pos as Hw. unfold in_range. split.
  - intros Hx. split; [lia|]. intros j Hj.
    rewrite <- (Z.mod_small x (2 ^ int_bits)) by done.
    apply Z.mod_pow2_bits_high. lia.
  - intros [H0 Hhigh]. split; [done|].
    assert (Hx : x = x mod 2 ^ int_bits).
    { apply Z.bits_inj'. intros j Hj.
      destruct (Z.lt_ge_cases j int_bits).
      - by rewrite Z.mod_pow2_bits_low.
      - rewrite Z.mod_pow2_bits_high by lia. by apply Hhigh. }
    rewrite Hx. apply Z.mod_pos_bound. apply Z.pow_pos_nonneg; lia.
Qed.

Lemma lxor_in_range a b : in_range a -> in_range b -> in_range (Z.lxor a b).
Proof.
  rewrite !in_range_bits. intros [Ha Hah] [Hb Hbh]. split.
  - by apply Z.lxor_nonneg.
  - intros j Hj. by rewrite Z.lxor_spec, Hah, Hbh.
Qed.

Lemma mod_pow2_eq a b i :
  0 <= i ->
  a mod 2 ^ i = b mod 2 ^ i <-> forall j, 0 <= j < i -> Z.testbit a j = Z.testbit b j.
Proof.
  intros Hi. split.
  - intros Heq j Hj.
    rewrite <- (Z.mod_pow2_bits_low a i j), <- (Z.mod_pow2_bits_low b i j) by lia.
    by rewrite Heq.
  - intros Hbits. apply Z.bits_inj'. intros j Hj.
    destruct (Z.lt_ge_cases j i).
    + rewrite !Z.mod_pow2_bits_low by done. apply Hbits. lia.
    + by rewrite !Z.mod_pow2_bits_high by lia.
Qed.

Lemma get_branching_bit_spec a b :
  in_range a -> in_range b -> a <> b ->
  exists i, 0 <= i < int_bits
    /\ get_branching_bit a b = 2 ^ i
    /\ Z.testbit a i <> Z.testbit b i
    /\ forall j, 0 <= j < i -> Z.testbit a j = Z.testbit b j.
Proof.
  intros Ha Hb Hne.
  pose proof (lxor_in_range a b Ha Hb) as [Hx0 Hxlt].
  assert (Hx : Z.lxor a b <> 0) by (intros H0; by apply Z.lxor_eq in H0).
  destruct (Z.lxor a b) as [|p|p] eqn:Hxor; [done| |lia].
  destruct (pos_lowest_bit p) as (i & c & Hi & Hc & Hp).
  destruct (get_lowest_bit_spec _ i c Hi Hc Hp Hxlt) as [Hi' Hlow].
  destruct (odd_multiple_bits i c Hi) as [Hset Hclear].
  rewrite <- Hp, <- Hxor in Hset, Hclear.
  exists i. split; [done|]. split; [unfold get_branching_bit; by rewrite Hxor|].
  split.
  - rewrite Z.lxor_spec in Hset. by destruct (Z.testbit a i), (Z.testbit b i).
  - intros j Hj. specialize (Hclear j Hj). rewrite Z.lxor_spec in Hclear.
    by destruct (Z.testbit a j), (Z.testbit b j).
Qed.

(** Joining at the branching bit of [key] and [p]: the keys that agree with
    [p] up to that bit go to the other side of [key], under the prefix of
    [key]. *)
Lemma branching_bit_separates key p :
  in_range key -> in_range p -> key <> p ->
  exists i, 0 <= i < int_bits
    /\ get_branching_bit key p = 2 ^ i
    /\ Z.testbit key i <> Z.testbit p i
    /\ (forall j, 0 <= j < i -> Z.testbit key j = Z.testbit p j)
    /\ forall k, (forall j, 0 <= j <= i -> Z.testbit k j = Z.testbit p j) ->
         match_prefix k (mask key (2 ^ i)) (2 ^ i) = true
         /\ is_zero_bit k (2 ^ i) = negb (is_zero_bit key (2 ^ i)).
Proof.
  intros Hkey Hp Hne.
  destruct (get_branching_bit_spec key p Hkey Hp Hne) as (i & Hi & Hm & Hdiff & Hlow).
  exists i. do 4 (split; [done|]).
  intros k Hk. split.
  - unfold match_prefix. apply Z.eqb_eq. rewrite !mask_pow2 by done.
    apply mod_pow2_eq; [lia|]. intros j Hj. rewrite Hk, Hlow by lia. done.
  - rewrite !is_zero_bit_pow2 by lia. rewrite Hk by lia.
    by destruct (Z.testbit key i), (Z.testbit p i).
Qed.

Section Canonical.
Context {T : Type} `{VT : Value T} {VL : ValueLaws T}.

(** *** The invariant and the operations that keep it *)

Lemma canonical_well_formed (t : PatriciaTree T) : canonical t -> well_formed t.
Proof.
  induction t as [|a k v|a p b l IHl r IHr]; simpl; [done|tauto|].
  intros (Hl & Hr & _ & Hkl & Hkr & Hcl & Hcr). auto 7.
Qed.

Lemma canonical_keys (t : PatriciaTree T) k v :
  canonical t -> (k, v) ∈ leaves t -> in_range k.
Proof.
  induction t as [|a k' v'|a p b l IHl r IHr]; simpl.
  - intros _ Hin. by apply elem_of_nil in Hin.
  - intros [Hk _] Hin. apply list_elem_of_singleton in Hin. by injection Hin as -> ->.
  - intros (_ & _ & _ & _ & _ & Hcl & Hcr) Hin.
    apply elem_of_app in Hin as [Hin|Hin]; auto.
Qed.

Lemma canonical_inhabited (t : PatriciaTree T) :
  canonical t -> t <> Null -> exists k v, (k, v) ∈ leaves t.
Proof.
  induction t as [|a k v|a p b l IHl r IHr]; simpl; [done| |].
  - intros _ _. exists k, v. by apply list_elem_of_singleton.
  - intros (Hl & _ & _ & _ & _ & Hcl & _) _.
    destruct (IHl Hcl Hl) as (k & v & Hin). exists k, v.
    apply elem_of_app. by left.
Qed.

(** The keys below a branch share its prefix, which is below its branching
    bit. *)
Lemma canonical_branch_keys a p i (l r : PatriciaTree T) :
  0 <= i < int_bits ->
  canonical (Branch a p (2 ^ i) l r) ->
  0 <= p < 2 ^ i
  /\ forall k v, (k, v) ∈ leaves (Branch a p (2 ^ i) l r) ->
       forall j, 0 <= j < i -> Z.testbit k j = Z.testbit p j.
Proof.
  intros Hi Hc. pose proof Hc as (Hl & Hr & _ & Hkl & Hkr & Hcl & Hcr).
  assert (Hpre : forall k v, (k, v) ∈ leaves (Branch a p (2 ^ i) l r) -> k mod 2 ^ i = p).
  { intros k v Hin. simpl in Hin.
    assert (Hm : match_prefix k p (2 ^ i) = true).
    { apply elem_of_app in Hin as [Hin|Hin]; [by apply (Hkl k v)|by apply (Hkr k v)]. }
    unfold match_prefix in Hm. apply Z.eqb_eq in Hm. by rewrite mask_pow2 in Hm. }
  assert (Hpow : 0 < 2 ^ i) by (apply Z.pow_pos_nonneg; lia).
  destruct (canonical_inhabited l Hcl Hl) as (k0 & v0 & Hin0).
  assert (Hp : 0 <= p < 2 ^ i).
  { rewrite <- (Hpre k0 v0); [by apply Z.mod_pos_bound|].
    simpl. apply elem_of_app. by left. }
  split; [done|]. intros k v Hin j Hj.
  apply (mod_pow2_eq k p i); [lia| |done].
  rewrite (Hpre k v Hin). symmetry. by apply Z.mod_small.
Qed.

Lemma combine_leaf_shape (combine : CombiningFunction T) value a k v n t' n' :
  combine_leaf combine value a k v n = Ok (t', n') ->
  t' = Null \/ t' = Leaf a k v
  \/ exists a' c, t' = Leaf a' k c /\ is_default_value c = false.
Proof.
  unfold combine_leaf. intros Hrun.
  apply bind_inv in Hrun as (c & n1 & Hc & Hrun). apply lift_inv in Hc as [Hc ->].
  destruct (is_default_value c) eqn:Hd.
  - apply ret_inv in Hrun as [-> _]. by left.
  - destruct (equals_value c v); simpl in Hrun.
    + apply ret_inv in Hrun as [-> _]. right. by left.
    + injection Hrun as <- <-. right. right. by eexists _, _.
Qed.

Lemma combine_new_leaf_shape (combine : CombiningFunction T) key value n t' n' :
  combine_new_leaf combine key value n = Ok (t', n') ->
  t' = Null \/ exists a' c, t' = Leaf a' key c /\ is_default_value c = false.
Proof.
  unfold combine_new_leaf, combine_leaf. intros Hrun.
  apply bind_inv in Hrun as (c & n1 & Hc & Hrun). apply lift_inv in Hc as [Hc ->].
  destruct (is_default_value c) eqn:Hd.
  - apply ret_inv in Hrun as [-> _]. by left.
  - destruct (equals_value c default_value) eqn:He; simpl in Hrun.
    + apply equals_value_spec in He. subst c.
      assert (is_default_value (default_value : T) = true) by by apply is_default_value_spec.
      congruence.
    + injection Hrun as <- <-. right. by eexists _, _.
Qed.

Lemma join_canonical key a c p (tree t' : PatriciaTree T) n n' :
  in_range key -> in_range p -> key <> p ->
  is_default_value c = false ->
  canonical tree -> tree <> Null ->
  (forall i, 0 <= i < int_bits ->
     Z.testbit key i <> Z.testbit p i ->
     (forall j, 0 <= j < i -> Z.testbit key j = Z.testbit p j) ->
     forall k v, (k, v) ∈ leaves tree ->
     forall j, 0 <= j <= i -> Z.testbit k j = Z.testbit p j) ->
  join key (Leaf a key c) p tree n = Ok (t', n') ->
  canonical t'
  /\ forall k v, (k, v) ∈ leaves t' -> (k, v) ∈ leaves tree \/ k = key.
Proof.
  intros Hkey Hp Hne Hc Hct Hnn Hside Hrun. unfold join in Hrun.
  destruct (branching_bit_separates key p Hkey Hp Hne)
    as (i & Hi & Hm & Hdiff & Hlow & Hsep).
  rewrite Hm in Hrun.
  assert (Hself : match_prefix key (mask key (2 ^ i)) (2 ^ i) = true).
  { unfold match_prefix. apply Z.eqb_refl. }
  assert (Hothers : forall k v, (k, v) ∈ leaves tree ->
            match_prefix k (mask key (2 ^ i)) (2 ^ i) = true
            /\ is_zero_bit k (2 ^ i) = negb (is_zero_bit key (2 ^ i))).
  { intros k v Hin. apply Hsep. by apply (Hside i Hi Hdiff Hlow k v). }
  assert (Hbit : is_bit (2 ^ i)) by by exists i.
  destruct (is_zero_bit key (2 ^ i)) eqn:Hz; injection Hrun as <- <-; simpl.
  - split.
    + do 3 (split; [done|]). split; [|split; [|done]].
      * intros k v Hin. apply list_elem_of_singleton in Hin. by injection Hin as -> ->.
      * intros k v Hin. by apply (Hothers k v).
    + intros k v Hin. apply elem_of_cons in Hin as [[= -> ->]|Hin]; auto.
  - split.
    + do 3 (split; [done|]). split; [|split; [|done]].
      * intros k v Hin. by apply (Hothers k v).
      * intros k v Hin. apply list_elem_of_singleton in Hin. by injection Hin as -> ->.
    + intros k v Hin. apply elem_of_app in Hin as [Hin|Hin]; [by left|].
      apply list_elem_of_singleton in Hin. injection Hin as -> ->. by right.
Qed.

Lemma make_branch_canonical p b (l r t' : PatriciaTree T) n n' :
  is_bit b -> canonical l -> canonical r ->
  (forall k v, (k, v) ∈ leaves l -> match_prefix k p b = true /\ is_zero_bit k b = true) ->
  (forall k v, (k, v) ∈ leaves r -> match_prefix k p b = true /\ is_zero_bit k b = false) ->
  make_branch p b l r n = Ok (t', n') ->
  canonical t' /\ leaves t' = leaves l ++ leaves r.
Proof.
  intros Hb Hcl Hcr Hkl Hkr Hrun. unfold make_branch in Hrun.
  destruct (is_null l) eqn:Hl.
  { apply is_null_true in Hl. subst l. apply ret_inv in Hrun as [-> _]. done. }
  destruct (is_null r) eqn:Hr.
  { apply is_null_true in Hr. subst r. apply ret_inv in Hrun as [-> _].
    simpl. by rewrite app_nil_r. }
  apply is_null_false in Hl, Hr. injection Hrun as <- <-. simpl. auto 8.
Qed.

Lemma update_canonical (combine : CombiningFunction T) key value (t : PatriciaTree T) :
  forall n t' n',
  in_range key -> canonical t ->
  update combine key value t n = Ok (t', n') ->
  canonical t'
  /\ forall k v, (k, v) ∈ leaves t' -> (k, v) ∈ leaves t \/ k = key.
Proof.
  induction t as [|a k0 v0|a p b l IHl r IHr]; intros n t' n' Hkey Hc Hrun; simpl in Hrun.
  - apply combine_new_leaf_shape in Hrun as [->|(a' & c & -> & Hd)].
    { split; [done|]. intros k v Hin. by apply elem_of_nil in Hin. }
    simpl. split; [done|]. intros k v Hin.
    apply list_elem_of_singleton in Hin. injection Hin as -> ->. by right.
  - destruct Hc as [Hk0 Hv0]. destruct (Z.eqb_spec key k0) as [->|Hne].
    + apply combine_leaf_shape in Hrun as [->|[->|(a' & c & -> & Hd)]]; simpl.
      * split; [done|]. intros k v Hin. by apply elem_of_nil in Hin.
      * split; [done|]. intros k v Hin. by left.
      * split; [done|]. intros k v Hin.
        apply list_elem_of_singleton in Hin. injection Hin as -> ->. by right.
    + apply bind_inv in Hrun as (nl & n1 & Hnl & Hrun).
      apply combine_new_leaf_shape in Hnl as [->|(a' & c & -> & Hd)]; simpl in Hrun.
      * apply ret_inv in Hrun as [-> _]. split; [done|]. intros k v Hin. by left.
      * apply (join_canonical key a' c k0 (Leaf a k0 v0) t' n1 n');
          [done|done|done|done|by simpl|done| |exact Hrun].
        intros i Hi _ _ k v Hin j Hj. simpl in Hin.
        apply list_elem_of_singleton in Hin. by injection Hin as -> ->.
  - pose proof Hc as (Hl & Hr & (i & Hi & ->) & Hkl & Hkr & Hcl & Hcr).
    destruct (match_prefix key p (2 ^ i)) eqn:Hmatch.
    + destruct (is_zero_bit key (2 ^ i)) eqn:Hz.
      * apply bind_inv in Hrun as (nl & n1 & Hnl & Hrun).
        destruct (IHl _ _ _ Hkey Hcl Hnl) as [Hcnl Hsub].
        destruct (ptr_eq nl l).
        { apply ret_inv in Hrun as [-> _]. split; [done|]. intros k v Hin. by left. }
        apply make_branch_canonical in Hrun as [Hct' Hleaves]; [|by exists i|done|done| |done].
        -- split; [done|]. intros k v Hin. rewrite Hleaves in Hin. simpl.
           apply elem_of_app in Hin as [Hin|Hin].
           ++ destruct (Hsub k v Hin); [left; apply elem_of_app|]; auto.
           ++ left. apply elem_of_app. auto.
        -- intros k v Hin. destruct (Hsub k v Hin) as [Hin' | ->]; [by apply (Hkl k v)|done].
      * apply bind_inv in Hrun as (nr & n1 & Hnr & Hrun).
        destruct (IHr _ _ _ Hkey Hcr Hnr) as [Hcnr Hsub].
        destruct (ptr_eq nr r).
        { apply ret_inv in Hrun as [-> _]. split; [done|]. intros k v Hin. by left. }
        apply make_branch_canonical in Hrun as [Hct' Hleaves]; [|by exists i|done|done|done|].
        -- split; [done|]. intros k v Hin. rewrite Hleaves in Hin. simpl.
           apply elem_of_app in Hin as [Hin|Hin].
           ++ left. apply elem_of_app. auto.
           ++ destruct (Hsub k v Hin); [left; apply elem_of_app|]; auto.
        -- intros k v Hin. destruct (Hsub k v Hin) as [Hin' | ->]; [by apply (Hkr k v)|done].
    + apply bind_inv in Hrun as (nl & n1 & Hnl & Hrun).
      apply combine_new_leaf_shape in Hnl as [->|(a' & c & -> & Hd)]; simpl in Hrun.
      * apply ret_inv in Hrun as [-> _]. split; [done|]. intros k v Hin. by left.
      * destruct (canonical_branch_keys a p i l r Hi Hc) as [Hp Hpre].
        assert (Hpow : 2 ^ i < 2 ^ int_bits) by (apply Z.pow_lt_mono_r; lia).
        assert (Hpr : in_range p) by (unfold in_range; lia).
        assert (Hne : key <> p).
        { intros ->. unfold match_prefix in Hmatch. apply Z.eqb_neq in Hmatch.
          rewrite mask_pow2 in Hmatch by done. by rewrite Z.mod_small in Hmatch. }
        apply (join_canonical key a' c p (Branch a p (2 ^ i) l r) t' n1 n');
          [done|done|done|done|done|done| |exact Hrun].
        intros j Hj Hdiff Hlow k v Hin j' Hj'.
        apply (Hpre k v Hin). split; [lia|].
        destruct (Z.lt_ge_cases j i) as [Hlt|Hge]; [lia|]. exfalso.
        unfold match_prefix in Hmatch. apply Z.eqb_neq in Hmatch. apply Hmatch.
        rewrite mask_pow2 by done.
        transitivity (p mod 2 ^ i); [|by apply Z.mod_small].
        apply mod_pow2_eq; [lia|]. intros j0 Hj0. apply Hlow. lia.
Qed.

Lemma erase_all_matching_heap key_mask (t : PatriciaTree T) :
  forall (n : nat) (H : heap T) (t' : PatriciaTree T) n',
  heap_inv n H -> in_heap H t ->
  erase_all_matching key_mask t n = Ok (t', n') ->
  heap_post n H t' n'.
Proof.
  induction t as [|a k v|a p b l IHl r IHr]; intros n H t' n' Hinv Ht Hrun; simpl in Hrun.
  - apply ret_inv in Hrun as [-> ->]. by apply heap_post_ret.
  - destruct (negb _); apply ret_inv in Hrun as [-> ->]; apply heap_post_ret; try done.
    by left.
  - destruct (negb _).
    { apply ret_inv in Hrun as [-> ->]. apply heap_post_ret; [done|by left]. }
    destruct (key_mask <? b).
    { apply ret_inv in Hrun as [-> ->]. by apply heap_post_ret. }
    pose proof Ht as [Ht'|Ht']; [done|].
    destruct (heap_closed n H Hinv _ _ _ _ _ Ht') as [Hl Hr].
    apply bind_inv in Hrun as (nl & n1 & Hnl & Hrun).
    apply bind_inv in Hrun as (nr & n2 & Hnr & Hrun).
    destruct (IHl _ _ _ _ Hinv Hl Hnl) as (H1 & Hinv1 & Hsub1 & Hnl1 & Hle1).
    destruct (IHr _ _ _ _ Hinv1 (in_heap_mono _ _ _ Hsub1 Hr) Hnr)
      as (H2 & Hinv2 & Hsub2 & Hnr2 & Hle2).
    apply (heap_post_trans n n2 n' H H2); [auto|lia|].
    destruct (ptr_eq nl l && ptr_eq nr r).
    + apply ret_inv in Hrun as [-> ->]. apply heap_post_ret; [done|].
      eapply in_heap_mono; [|exact Ht]. auto.
    + eapply make_branch_heap; [done| |done|exact Hrun].
      by eapply in_heap_mono.
Qed.

Lemma erase_all_matching_canonical key_mask (t : PatriciaTree T) :
  forall n t' n',
  canonical t ->
  erase_all_matching key_mask t n = Ok (t', n') ->
  canonical t' /\ forall k v, (k, v) ∈ leaves t' -> (k, v) ∈ leaves t.
Proof.
  induction t as [|a k0 v0|a p b l IHl r IHr]; intros n t' n' Hc Hrun; simpl in Hrun.
  - apply ret_inv in Hrun as [-> _]. done.
  - destruct (negb _); apply ret_inv in Hrun as [-> _]; [|done].
    split; [done|]. intros k v Hin. by apply elem_of_nil in Hin.
  - destruct (negb _).
    { apply ret_inv in Hrun as [-> _].
      split; [done|]. intros k v Hin. by apply elem_of_nil in Hin. }
    destruct (key_mask <? b).
    { apply ret_inv in Hrun as [-> _]. done. }
    pose proof Hc as (Hl & Hr & Hb & Hkl & Hkr & Hcl & Hcr).
    apply bind_inv in Hrun as (nl & n1 & Hnl & Hrun).
    apply bind_inv in Hrun as (nr & n2 & Hnr & Hrun).
    destruct (IHl _ _ _ Hcl Hnl) as [Hcnl Hsubl].
    destruct (IHr _ _ _ Hcr Hnr) as [Hcnr Hsubr].
    destruct (ptr_eq nl l && ptr_eq nr r).
    { apply ret_inv in Hrun as [-> _]. done. }
    apply make_branch_canonical in Hrun as [Hct' Hleaves]; [|done|done|done| |].
    + split; [done|]. intros k v Hin. rewrite Hleaves in Hin. simpl.
      apply elem_of_app. apply elem_of_app in Hin as [Hin|Hin]; auto.
    + intros k v Hin. apply (Hkl k v). auto.
    + intros k v Hin. apply (Hkr k v). auto.
Qed.

(** *** Trees with the same bindings *)

Lemma same_shape_refl (t : PatriciaTree T) : same_shape t t.
Proof. induction t; simpl; auto. Qed.

Lemma same_shape_find_value (t1 t2 : PatriciaTree T) :
  same_shape t1 t2 -> forall k, find_value k t1 = find_value k t2.
Proof.
  revert t2. induction t1 as [|a1 k1 v1|a1 p1 b1 l1 IHl r1 IHr];
    intros [|a2 k2 v2|a2 p2 b2 l2 r2]; simpl; try done.
  - by intros [-> ->].
  - intros (-> & -> & Hl & Hr) k. destruct (is_zero_bit k b2); auto.
Qed.

Lemma leaves_find_value (t : PatriciaTree T) k v :
  well_formed t -> (k, v) ∈ leaves t -> find_value k t = Some v.
Proof.
  induction t as [|a k' v'|a p b l IHl r IHr]; simpl; intros Hwf Hin.
  - by apply elem_of_nil in Hin.
  - apply list_elem_of_singleton in Hin. injection Hin as -> ->. by rewrite Z.eqb_refl.
  - destruct Hwf as (_ & _ & Hkl & Hkr & Hwl & Hwr).
    apply elem_of_app in Hin as [Hin|Hin].
    + destruct (Hkl k v Hin) as [_ ->]. auto.
    + destruct (Hkr k v Hin) as [_ ->]. auto.
Qed.

Lemma equals_same_shape (n : nat) (H : heap T) (t1 t2 : PatriciaTree T) :
  (forall a b : T, equals_value a b = true -> a = b) ->
  heap_inv n H -> in_heap H t1 -> in_heap H t2 ->
  equals t1 t2 = true -> same_shape t1 t2.
Proof.
  intros Heqv Hinv. revert t2.
  induction t1 as [|a1 k1 v1|a1 p1 b1 l1 IHl r1 IHr]; intros t2 H1 H2 Heq.
  - destruct t2; simpl in Heq; done.
  - simpl in Heq. destruct (ptr_eq (Leaf a1 k1 v1) t2) eqn:Hp.
    { apply (ptr_eq_true n H) in Hp; [|done..]. subst t2. by simpl. }
    destruct t2 as [|a2 k2 v2|]; [done| |done].
    apply andb_true_iff in Heq as [Hk Hv]. apply Z.eqb_eq in Hk. simpl. auto.
  - simpl in Heq. destruct (ptr_eq (Branch a1 p1 b1 l1 r1) t2) eqn:Hp.
    { apply (ptr_eq_true n H) in Hp; [|done..]. subst t2. apply same_shape_refl. }
    destruct t2 as [| |a2 p2 b2 l2 r2]; [done|done|].
    destruct H1 as [H1|H1]; [done|]. destruct H2 as [H2|H2]; [done|].
    destruct (heap_closed n H Hinv _ _ _ _ _ H1) as [Hl1 Hr1].
    destruct (heap_closed n H Hinv _ _ _ _ _ H2) as [Hl2 Hr2].
    apply andb_true_iff in Heq as [Heq Hr]. apply andb_true_iff in Heq as [Heq Hl].
    apply andb_true_iff in Heq as [Hpe Hbe].
    apply Z.eqb_eq in Hpe, Hbe. simpl. auto.
Qed.

Lemma same_shape_equals (t1 t2 : PatriciaTree T) :
  (forall a : T, equals_value a a = true) ->
  same_shape t1 t2 -> equals t1 t2 = true.
Proof.
  intros Hrefl. revert t2.
  induction t1 as [|a1 k1 v1|a1 p1 b1 l1 IHl r1 IHr];
    intros [|a2 k2 v2|a2 p2 b2 l2 r2]; simpl; try done.
  - intros [-> ->]. destruct (ptr_eq _ _); [done|]. by rewrite Z.eqb_refl, Hrefl.
  - intros (-> & -> & Hl & Hr). destruct (ptr_eq _ _); [done|].
    by rewrite !Z.eqb_refl, IHl, IHr.
Qed.

(** The two sides of a branch each hold a key; the two keys differ at the
    branching bit. *)
Lemma canonical_branch_split a p i (l r : PatriciaTree T) :
  0 <= i < int_bits ->
  canonical (Branch a p (2 ^ i) l r) ->
  exists kl vl kr vr,
    (kl, vl) ∈ leaves l /\ (kr, vr) ∈ leaves r
    /\ Z.testbit kl i = false /\ Z.testbit kr i = true.
Proof.
  intros Hi (Hl & Hr & _ & Hkl & Hkr & Hcl & Hcr).
  destruct (canonical_inhabited l Hcl Hl) as (kl & vl & Hinl).
  destruct (canonical_inhabited r Hcr Hr) as (kr & vr & Hinr).
  exists kl, vl, kr, vr. do 2 (split; [done|]).
  destruct (Hkl kl vl Hinl) as [_ Hzl]. destruct (Hkr kr vr Hinr) as [_ Hzr].
  rewrite is_zero_bit_pow2 in Hzl, Hzr by lia.
  by destruct (Z.testbit kl i), (Z.testbit kr i).
Qed.

Lemma canonical_branch_prefix a p i (l r : PatriciaTree T) k v :
  0 <= i < int_bits ->
  canonical (Branch a p (2 ^ i) l r) ->
  find_value k (Branch a p (2 ^ i) l r) = Some v ->
  k mod 2 ^ i = p.
Proof.
  intros Hi Hc Hf. destruct (canonical_branch_keys a p i l r Hi Hc) as [Hp Hpre].
  rewrite <- (Z.mod_small p (2 ^ i)) by done.
  apply mod_pow2_eq; [lia|]. apply (Hpre k v). by apply find_value_leaves.
Qed.

(** The branching bit of a branch is the lowest bit at which two of its keys
    differ, so the bindings determine it. *)
Lemma canonical_branching_bit_le a1 p1 i1 (l1 r1 : PatriciaTree T)
    a2 p2 i2 (l2 r2 : PatriciaTree T) :
  0 <= i1 < int_bits -> 0 <= i2 < int_bits ->
  canonical (Branch a1 p1 (2 ^ i1) l1 r1) ->
  canonical (Branch a2 p2 (2 ^ i2) l2 r2) ->
  (forall k, find_value k (Branch a1 p1 (2 ^ i1) l1 r1)
             = find_value k (Branch a2 p2 (2 ^ i2) l2 r2)) ->
  i2 <= i1.
Proof.
  intros Hi1 Hi2 Hc1 Hc2 Hsame.
  destruct (Z.le_gt_cases i2 i1) as [|Hlt]; [done|exfalso].
  destruct (canonical_branch_split a1 p1 i1 l1 r1 Hi1 Hc1)
    as (kl & vl & kr & vr & Hinl & Hinr & Hbl & Hbr).
  pose proof (canonical_well_formed _ Hc1) as Hwf1.
  assert (Hfl : find_value kl (Branch a1 p1 (2 ^ i1) l1 r1) = Some vl).
  { apply leaves_find_value; [done|]. simpl. apply elem_of_app. by left. }
  assert (Hfr : find_value kr (Branch a1 p1 (2 ^ i1) l1 r1) = Some vr).
  { apply leaves_find_value; [done|]. simpl. apply elem_of_app. by right. }
  rewrite Hsame in Hfl, Hfr.
  apply (canonical_branch_prefix _ _ _ _ _ _ _ Hi2 Hc2) in Hfl, Hfr.
  assert (Hagree : kl mod 2 ^ i2 = kr mod 2 ^ i2) by congruence.
  rewrite mod_pow2_eq in Hagree by lia.
  specialize (Hagree i1 ltac:(lia)). congruence.
Qed.

Lemma canonical_unique (t1 : PatriciaTree T) :
  forall t2,
  canonical t1 -> canonical t2 ->
  (forall k, find_value k t1 = find_value k t2) ->
  same_shape t1 t2.
Proof.
  induction t1 as [|a1 k1 v1|a1 p1 b1 l1 IHl r1 IHr]; intros t2 Hc1 Hc2 Hsame.
  - destruct t2 as [|a2 k2 v2|a2 p2 b2 l2 r2]; [done| |].
    + specialize (Hsame k2). simpl in Hsame. by rewrite Z.eqb_refl in Hsame.
    + destruct (canonical_inhabited _ Hc2) as (k & v & Hin); [done|].
      apply leaves_find_value in Hin; [|by apply canonical_well_formed].
      rewrite <- Hsame in Hin. done.
  - destruct t2 as [|a2 k2 v2|a2 p2 b2 l2 r2].
    + specialize (Hsame k1). simpl in Hsame. by rewrite Z.eqb_refl in Hsame.
    + specialize (Hsame k1). simpl in Hsame. rewrite Z.eqb_refl in Hsame.
      destruct (Z.eqb_spec k1 k2); [|done]. injection Hsame as ->. by simpl.
    + exfalso. pose proof Hc2 as (_ & _ & (i & Hi & ->) & _).
      destruct (canonical_branch_split a2 p2 i l2 r2 Hi Hc2)
        as (kl & vl & kr & vr & Hinl & Hinr & Hbl & Hbr).
      pose proof (canonical_well_formed _ Hc2) as Hwf2.
      assert (Hfl : find_value kl (Branch a2 p2 (2 ^ i) l2 r2) = Some vl).
      { apply leaves_find_value; [done|]. simpl. apply elem_of_app. by left. }
      assert (Hfr : find_value kr (Branch a2 p2 (2 ^ i) l2 r2) = Some vr).
      { apply leaves_find_value; [done|]. simpl. apply elem_of_app. by right. }
      rewrite <- Hsame in Hfl, Hfr. simpl in Hfl, Hfr.
      destruct (Z.eqb_spec kl k1) as [->|]; [|done].
      destruct (Z.eqb_spec kr k1) as [->|]; [|done]. congruence.
  - destruct t2 as [|a2 k2 v2|a2 p2 b2 l2 r2].
    + destruct (canonical_inhabited _ Hc1) as (k & v & Hin); [done|].
      apply leaves_find_value in Hin; [|by apply canonical_well_formed].
      rewrite Hsame in Hin. done.
    + exfalso. pose proof Hc1 as (_ & _ & (i & Hi & ->) & _).
      destruct (canonical_branch_split a1 p1 i l1 r1 Hi Hc1)
        as (kl & vl & kr & vr & Hinl & Hinr & Hbl & Hbr).
      pose proof (canonical_well_formed _ Hc1) as Hwf1.
      assert (Hfl : find_value kl (Branch a1 p1 (2 ^ i) l1 r1) = Some vl).
      { apply leaves_find_value; [done|]. simpl. apply elem_of_app. by left. }
      assert (Hfr : find_value kr (Branch a1 p1 (2 ^ i) l1 r1) = Some vr).
      { apply leaves_find_value; [done|]. simpl. apply elem_of_app. by right. }
      rewrite Hsame in Hfl, Hfr. simpl in Hfl, Hfr.
      destruct (Z.eqb_spec kl k2) as [->|]; [|done].
      destruct (Z.eqb_spec kr k2) as [->|]; [|done]. congruence.
    + pose proof Hc1 as (Hl1 & Hr1 & (i1 & Hi1 & ->) & Hkl1 & Hkr1 & Hcl1 & Hcr1).
      pose proof Hc2 as (Hl2 & Hr2 & (i2 & Hi2 & ->) & Hkl2 & Hkr2 & Hcl2 & Hcr2).
      assert (i1 = i2) as ->.
      { apply Z.le_antisymm.
        - by apply (canonical_branching_bit_le a2 p2 i2 l2 r2 a1 p1 i1 l1 r1).
        - by apply (canonical_branching_bit_le a1 p1 i1 l1 r1 a2 p2 i2 l2 r2). }
      assert (p1 = p2) as ->.
      { destruct (canonical_inhabited _ Hcl1 Hl1) as (k & v & Hin).
        assert (Hf : find_value k (Branch a1 p1 (2 ^ i2) l1 r1) = Some v).
        { apply leaves_find_value; [by apply canonical_well_formed|].
          simpl. apply elem_of_app. by left. }
        pose proof Hf as Hf2. rewrite Hsame in Hf2.
        apply (canonical_branch_prefix _ _ _ _ _ _ _ Hi1 Hc1) in Hf.
        apply (canonical_branch_prefix _ _ _ _ _ _ _ Hi2 Hc2) in Hf2. congruence. }
      simpl. split; [done|]. split; [done|]. split.
      * apply IHl; [done|done|]. intros k. specialize (Hsame k). simpl in Hsame.
        destruct (is_zero_bit k (2 ^ i2)) eqn:Hz; [done|].
        rewrite (find_value_wrong_side_l k p2 (2 ^ i2) l1), (find_value_wrong_side_l k p2 (2 ^ i2) l2);
          done.
      * apply IHr; [done|done|]. intros k. specialize (Hsame k). simpl in Hsame.
        destruct (is_zero_bit k (2 ^ i2)) eqn:Hz; [|done].
        rewrite (find_value_wrong_side_r k p2 (2 ^ i2) r1), (find_value_wrong_side_r k p2 (2 ^ i2) r2);
          done.
Qed.

(** *** Maps built through the interface *)

(** What a client builds from empty maps with [update], [insert_or_assign]
    and [erase_all_matching] are canonical trees of allocated nodes. *)
Lemma built_invariant (ms : list (PatriciaTreeMap T)) (n : nat) :
  built ms n ->
  exists H, heap_inv n H
    /\ forall m, m ∈ ms -> in_heap H (m_tree m) /\ canonical (m_tree m).
Proof.
  induction 1 as [|ms n Hb (H & Hinv & Hall)
                  |ms n operation key m m' n' Hb (H & Hinv & Hall) Hm Hkey Hrun
                  |ms n key value m m' n' Hb (H & Hinv & Hall) Hm Hkey Hrun
                  |ms n key_mask m m' changed n' Hb (H & Hinv & Hall) Hm Hrun].
  - exists (fun _ => False). split; [by split|].
    intros m Hm. by apply elem_of_nil in Hm.
  - exists H. split; [done|]. intros m Hm.
    apply elem_of_cons in Hm as [->|Hm]; [|auto]. split; [by left|done].
  - destruct (Hall m Hm) as [Hin Hc]. unfold map_update in Hrun.
    apply bind_inv in Hrun as (t & n1 & Ht & Hrun). apply ret_inv in Hrun as [-> ->].
    destruct (update_heap _ _ _ _ _ _ _ _ Hinv Hin Ht) as (H1 & Hinv1 & Hsub & Hin1 & _).
    destruct (update_canonical _ _ _ _ _ _ _ Hkey Hc Ht) as [Hc1 _].
    exists H1. split; [done|]. intros m0 Hm0.
    apply elem_of_cons in Hm0 as [->|Hm0]; [done|].
    destruct (Hall m0 Hm0). split; [by eapply in_heap_mono|done].
  - destruct (Hall m Hm) as [Hin Hc]. unfold insert_or_assign in Hrun.
    apply bind_inv in Hrun as (t & n1 & Ht & Hrun). apply ret_inv in Hrun as [-> ->].
    destruct (update_heap _ _ _ _ _ _ _ _ Hinv Hin Ht) as (H1 & Hinv1 & Hsub & Hin1 & _).
    destruct (update_canonical _ _ _ _ _ _ _ Hkey Hc Ht) as [Hc1 _].
    exists H1. split; [done|]. intros m0 Hm0.
    apply elem_of_cons in Hm0 as [->|Hm0]; [done|].
    destruct (Hall m0 Hm0). split; [by eapply in_heap_mono|done].
  - destruct (Hall m Hm) as [Hin Hc]. unfold map_erase_all_matching in Hrun.
    apply bind_inv in Hrun as (t & n1 & Ht & Hrun). apply ret_inv in Hrun as [[= -> ->] ->].
    destruct (erase_all_matching_heap _ _ _ _ _ _ Hinv Hin Ht) as (H1 & Hinv1 & Hsub & Hin1 & _).
    destruct (erase_all_matching_canonical _ _ _ _ _ Hc Ht) as [Hc1 _].
    exists H1. split; [done|]. intros m0 Hm0.
    apply elem_of_cons in Hm0 as [->|Hm0]; [done|].
    destruct (Hall m0 Hm0). split; [by eapply in_heap_mono|done].
Qed.

Lemma built_well_formed (ms : list (PatriciaTreeMap T)) (n : nat) (m : PatriciaTreeMap T) :
  built ms n -> m ∈ ms ->
  well_formed (m_tree m) /\ below n (m_tree m) /\ coherent (m_tree m).
Proof.
  intros Hb Hm. destruct (built_invariant ms n Hb) as (H & Hinv & Hall).
  destruct (Hall m Hm) as [Hin Hc].
  split; [by apply canonical_well_formed|].
  split; [by apply (heap_inv_below n H)|by apply (heap_inv_coherent n H)].
Qed.

Lemma canonical_bindings (t1 t2 : PatriciaTree T) :
  canonical t1 -> canonical t2 ->
  (forall k, default default_value (find_value k t1)
             = default default_value (find_value k t2)) ->
  forall k, find_value k t1 = find_value k t2.
Proof.
  intros Hc1 Hc2 Hat k. specialize (Hat k).
  assert (Hnd : forall t v, canonical t -> find_value k t = Some v -> v <> default_value).
  { intros t v Hc Hf ->. apply find_value_leaves in Hf.
    apply well_formed_leaves in Hf; [|by apply canonical_well_formed].
    assert (is_default_value (default_value : T) = true) by by apply is_default_value_spec.
    congruence. }
  destruct (find_value k t1) as [v1|] eqn:H1, (find_value k t2) as [v2|] eqn:H2;
    simpl in Hat; [congruence| | |done].
  - by destruct (Hnd t1 v1).
  - by destruct (Hnd t2 v2).
Qed.

(** X8.  Canonical form, for the maps a client builds with [update],
    [insert_or_assign] and [erase_all_matching]: two of them have the same
    bindings exactly when [equals] holds, and then their trees have the same
    prefixes, branching bits and leaves. *)
Theorem built_canonical_form (ms : list (PatriciaTreeMap T)) (n : nat)
    (m1 m2 : PatriciaTreeMap T) :
  built ms n -> m1 ∈ ms -> m2 ∈ ms ->
  (map_equals m1 m2 = true <-> forall k, at_ m1 k = at_ m2 k)
  /\ ((forall k, at_ m1 k = at_ m2 k) -> same_shape (m_tree m1) (m_tree m2)).
Proof.
  intros Hb Hm1 Hm2. destruct (built_invariant ms n Hb) as (H & Hinv & Hall).
  destruct (Hall m1 Hm1) as [Hin1 Hc1]. destruct (Hall m2 Hm2) as [Hin2 Hc2].
  assert (Hshape : (forall k, at_ m1 k = at_ m2 k) -> same_shape (m_tree m1) (m_tree m2)).
  { intros Hat. apply canonical_unique; [done|done|]. by apply canonical_bindings. }
  split; [|done]. split.
  - intros Heq k. unfold at_.
    apply (equals_same_shape n H) in Heq; [|by apply equals_value_spec|done..].
    by rewrite (same_shape_find_value _ _ Heq).
  - intros Hat. apply same_shape_equals; [|by apply Hshape].
    intros a. by apply equals_value_spec.
Qed.

End Canonical.

(** *** [SimpleValue] and a sample *)

#[global] Instance simple_value_laws (T : Type) `{EqDecision T} (dflt : T) :
  @ValueLaws T (SimpleValue T dflt).
Proof.
  split; simpl.
  - intros t. apply bool_decide_eq_true.
  - intros a b. apply bool_decide_eq_true.
Qed.

Import PTMap.Samples.

(** The two insertion orders give two trees at different addresses, with the
    same nodes. *)
Lemma both_orders_same_shape :
  exists ms a b n,
    both_orders 0%nat = Ok (a, b, n)
    /\ built ms n /\ a ∈ ms /\ b ∈ ms
    /\ reference_equals a b = false
    /\ map_equals a b = true
    /\ same_shape (m_tree a) (m_tree b).
Proof.
  eexists [_; _; _; _; empty_map], _, _, _.
  split; [vm_compute; reflexivity|].
  assert (Hb : @built Z int_value
                 [ {| m_tree := Branch 9 0 1 (Leaf 8 0 1) (Leaf 6 1 1) |};
                   {| m_tree := Leaf 6 1 1 |};
                   {| m_tree := sample_tree |};
                   {| m_tree := Leaf 1 0 1 |};
                   empty_map ] 10%nat).
  { apply (built_insert_or_assign _ 7%nat 0 1 {| m_tree := Leaf 6 1 1 |});
      [|set_solver|by vm_compute|by vm_compute].
    apply (built_insert_or_assign _ 5%nat 1 1 empty_map);
      [|set_solver|by vm_compute|by vm_compute].
    apply (built_insert_or_assign _ 2%nat 1 1 {| m_tree := Leaf 1 0 1 |});
      [|set_solver|by vm_compute|by vm_compute].
    apply (built_insert_or_assign _ 0%nat 0 1 empty_map);
      [|set_solver|by vm_compute|by vm_compute].
    apply built_empty, built_nil. }
  split; [exact Hb|]. split; [set_solver|]. split; [set_solver|].
  split; [reflexivity|].
  destruct (built_canonical_form _ _ {| m_tree := sample_tree |}
              {| m_tree := Branch 9 0 1 (Leaf 8 0 1) (Leaf 6 1 1) |} Hb)
    as [Heq Hshape]; [set_solver..|].
  assert (Hat : forall k, at_ {| m_tree := sample_tree |} k
                          = at_ {| m_tree := Branch 9 0 1 (Leaf 8 0 1) (Leaf 6 1 1) |} k).
  { intros k. reflexivity. }
  split; [by apply Heq|by apply Hshape].
Defined.

End CanonicalFacts.

(** ** The Patricia tree map: what each operation leaves *)

Module PTMapOperations.
Import PTMap PTMapFacts CanonicalFacts.
#[local] Opaque int_bits.

Section UpdateLookup.
Context {T : Type} `{VT : Value T} {VL : ValueLaws T}.

Lemma default_value_is_default : is_default_value (default_value : T) = true.
Proof. by apply is_default_value_spec. Qed.

Lemma make_branch_ok p b (l r : PatriciaTree T) n :
  exists t' n', make_branch p b l r n = Ok (t', n').
Proof.
  unfold make_branch. destruct (is_null l); [by eexists _, _|].
  destruct (is_null r); by eexists _, _.
Qed.

Lemma make_branch_lookup p b (l r t' : PatriciaTree T) n n' :
  (forall k v, (k, v) ∈ leaves l -> is_zero_bit k b = true) ->
  (forall k v, (k, v) ∈ leaves r -> is_zero_bit k b = false) ->
  make_branch p b l r n = Ok (t', n') ->
  forall k, find_value k t' = if is_zero_bit k b then find_value k l else find_value k r.
Proof.
  intros Hkl Hkr Hrun k. unfold make_branch in Hrun.
  assert (Hl : is_zero_bit k b = false -> find_value k l = None).
  { intros Hz. destruct (find_value k l) as [v|] eqn:Hf; [|done].
    apply find_value_leaves in Hf. apply Hkl in Hf. congruence. }
  assert (Hr : is_zero_bit k b = true -> find_value k r = None).
  { intros Hz. destruct (find_value k r) as [v|] eqn:Hf; [|done].
    apply find_value_leaves in Hf. apply Hkr in Hf. congruence. }
  destruct (is_null l) eqn:Hnl.
  { apply is_null_true in Hnl. subst l. apply ret_inv in Hrun as [-> _].
    destruct (is_zero_bit k b); [by rewrite Hr|done]. }
  destruct (is_null r) eqn:Hnr.
  { apply is_null_true in Hnr. subst r. apply ret_inv in Hrun as [-> _].
    destruct (is_zero_bit k b); [done|by rewrite Hl]. }
  injection Hrun as <- <-. done.
Qed.

Lemma join_ok p0 (t0 : PatriciaTree T) p1 t1 n :
  exists t' n', join p0 t0 p1 t1 n = Ok (t', n').
Proof. unfold join. destruct (is_zero_bit _ _); by eexists _, _. Qed.

Lemma join_lookup key a c p (tree t' : PatriciaTree T) n n' :
  in_range key -> in_range p -> key <> p ->
  (forall i, 0 <= i < int_bits ->
     Z.testbit key i <> Z.testbit p i ->
     (forall j, 0 <= j < i -> Z.testbit key j = Z.testbit p j) ->
     forall k v, (k, v) ∈ leaves tree ->
     forall j, 0 <= j <= i -> Z.testbit k j = Z.testbit p j) ->
  join key (Leaf a key c) p tree n = Ok (t', n') ->
  find_value key t' = Some c
  /\ forall k, k <> key -> find_value k t' = find_value k tree.
Proof.
  intros Hkey Hp Hne Hside Hrun. unfold join in Hrun.
  destruct (branching_bit_separates key p Hkey Hp Hne)
    as (i & Hi & Hm & Hdiff & Hlow & Hsep).
  rewrite Hm in Hrun.
  assert (Hothers : forall k, is_zero_bit k (2 ^ i) = is_zero_bit key (2 ^ i) ->
            find_value k tree = None).
  { intros k Hz. destruct (find_value k tree) as [v|] eqn:Hf; [|done].
    apply find_value_leaves in Hf.
    destruct (Hsep k (Hside i Hi Hdiff Hlow k v Hf)) as [_ Hzk].
    rewrite Hzk in Hz. by destruct (is_zero_bit key (2 ^ i)). }
  destruct (is_zero_bit key (2 ^ i)) eqn:Hz; injection Hrun as <- <-; simpl; rewrite Hz.
  - rewrite Z.eqb_refl. split; [done|]. intros k Hk.
    destruct (is_zero_bit k (2 ^ i)) eqn:Hzk; [|done].
    destruct (Z.eqb_spec k key); [done|]. symmetry. by apply Hothers.
  - rewrite Z.eqb_refl. split; [done|]. intros k Hk.
    destruct (is_zero_bit k (2 ^ i)) eqn:Hzk; [done|].
    destruct (Z.eqb_spec k key); [done|]. symmetry. by apply Hothers.
Qed.

Lemma combine_new_leaf_run (combine : CombiningFunction T) key value c n :
  combine default_value value = Ok c ->
  exists n', (n <= n')%nat /\
    combine_new_leaf combine key value n
    = Ok (if is_default_value c then Null else Leaf (S n) key c, n').
Proof.
  intros Hc. unfold combine_new_leaf, combine_leaf, bind, lift. rewrite Hc.
  destruct (is_default_value c) eqn:Hd.
  - exists (S n). split; [lia|done].
  - destruct (equals_value c default_value) eqn:He; simpl.
    + apply equals_value_spec in He. subst c. by rewrite default_value_is_default in Hd.
    + exists (S (S n)). split; [lia|done].
Qed.

Lemma combine_new_leaf_throw (combine : CombiningFunction T) key value e n :
  combine default_value value = Throw e ->
  combine_new_leaf combine key value n = Throw e.
Proof.
  intros Hc. unfold combine_new_leaf, combine_leaf, bind, lift. by rewrite Hc.
Qed.

Lemma combine_leaf_run (combine : CombiningFunction T) value a k v c n :
  combine v value = Ok c ->
  exists t' n',
    combine_leaf combine value a k v n = Ok (t', n')
    /\ find_value k t' = (if is_default_value c then None else Some c)
    /\ (c = v -> is_default_value v = false -> t' = Leaf a k v)
    /\ forall k', k' <> k -> find_value k' t' = None.
Proof.
  intros Hc. unfold combine_leaf, bind, lift. rewrite Hc.
  destruct (is_default_value c) eqn:Hd.
  - exists Null, n. split; [done|]. split; [done|]. split; [|done].
    intros -> Hv. congruence.
  - destruct (equals_value c v) eqn:He; simpl.
    + apply equals_value_spec in He. subst c. exists (Leaf a k v), n.
      simpl. rewrite Z.eqb_refl. split; [done|]. split; [done|]. split; [done|].
      intros k' Hk'. by destruct (Z.eqb_spec k' k).
    + eexists _, _. split; [reflexivity|]. simpl. rewrite Z.eqb_refl.
      split; [done|]. split.
      * intros ->. assert (equals_value v v = true) by by apply equals_value_spec.
        congruence.
      * intros k' Hk'. by destruct (Z.eqb_spec k' k).
Qed.

(** [update] calls [combine] once, on the value bound to the key (the default
    value when there is none) and the given value; when that throws, so does
    [update]. *)
Lemma update_throw (combine : CombiningFunction T) key value e (t : PatriciaTree T) :
  forall n,
  well_formed t ->
  combine (default default_value (find_value key t)) value = Throw e ->
  update combine key value t n = Throw e.
Proof.
  induction t as [|a k v|a p b l IHl r IHr]; intros n Hwf Hc; simpl in *.
  - by apply combine_new_leaf_throw.
  - destruct (key =? k); simpl in Hc.
    + unfold combine_leaf, bind, lift. by rewrite Hc.
    + unfold bind. by rewrite (combine_new_leaf_throw _ _ _ e).
  - pose proof Hwf as (_ & _ & _ & _ & Hwl & Hwr).
    destruct (match_prefix key p b) eqn:Hmatch.
    + destruct (is_zero_bit key b); unfold bind; [by rewrite (IHl n Hwl Hc)|by rewrite (IHr n Hwr Hc)].
    + assert (Hnone : find_value key (Branch a p b l r) = None)
        by by apply find_value_prefix_mismatch.
      simpl in Hnone. rewrite Hnone in Hc. simpl in Hc.
      unfold bind. by rewrite (combine_new_leaf_throw _ _ _ e).
Qed.

Lemma update_lookup (combine : CombiningFunction T) key value c (t : PatriciaTree T) :
  forall (n : nat) (H : heap T),
  canonical t -> heap_inv n H -> in_heap H t -> in_range key ->
  combine (default default_value (find_value key t)) value = Ok c ->
  exists t' n',
    update combine key value t n = Ok (t', n')
    /\ find_value key t' = (if is_default_value c then None else Some c)
    /\ (forall k, k <> key -> find_value k t' = find_value k t)
    /\ (find_value key t = (if is_default_value c then None else Some c) -> t' = t).
Proof.
  induction t as [|a k0 v0|a p b l IHl r IHr]; intros n H Hcan Hinv Ht Hkey Hc.
  - simpl in Hc. simpl update.
    destruct (combine_new_leaf_run combine key value c n Hc) as (n' & _ & Hrun).
    rewrite Hrun. eexists _, _. split; [reflexivity|].
    destruct (is_default_value c); simpl; [done|].
    rewrite Z.eqb_refl. split; [done|]. split; [|done].
    intros k Hk. by destruct (Z.eqb_spec k key).
  - destruct Hcan as [Hk0 Hv0]. simpl in Hc. simpl update.
    destruct (Z.eqb_spec key k0) as [->|Hne]; simpl in Hc.
    + destruct (combine_leaf_run combine value a k0 v0 c n Hc)
        as (t' & n' & Hrun & Hfind & Hsame & Hother).
      exists t', n'. split; [done|]. split; [done|]. split.
      * intros k Hk. rewrite Hother by done. simpl. by destruct (Z.eqb_spec k k0).
      * simpl. rewrite Z.eqb_refl. destruct (is_default_value c) eqn:Hd; [done|].
        intros [= ->]. by apply Hsame.
    + destruct (combine_new_leaf_run combine key value c n Hc) as (n1 & _ & Hrun).
      unfold bind. rewrite Hrun. destruct (is_default_value c) eqn:Hd; simpl.
      * exists (Leaf a k0 v0), n1. simpl. split; [done|].
        split; [by destruct (Z.eqb_spec key k0)|]. done.
      * destruct (join_ok key (Leaf (S n) key c) k0 (Leaf a k0 v0) n1) as (t' & n' & Hj).
        rewrite Hj. exists t', n'. split; [done|].
        destruct (join_lookup key (S n) c k0 (Leaf a k0 v0) t' n1 n') as [Hf Ho];
          [done|done|done| |done|].
        { intros i Hi _ _ k v Hin j Hj'. simpl in Hin.
          apply list_elem_of_singleton in Hin. by injection Hin as -> ->. }
        split; [done|]. split; [done|].
        simpl. by destruct (Z.eqb_spec key k0).
  - pose proof Hcan as (Hl & Hr & (i & Hi & ->) & Hkl & Hkr & Hcl & Hcr).
    destruct Ht as [Ht|Ht]; [done|].
    destruct (heap_closed n H Hinv _ _ _ _ _ Ht) as [Hhl Hhr].
    simpl update. destruct (match_prefix key p (2 ^ i)) eqn:Hmatch.
    + simpl in Hc. destruct (is_zero_bit key (2 ^ i)) eqn:Hz.
      * destruct (IHl n H Hcl Hinv Hhl Hkey Hc) as (nl & n1 & Hrun & Hfind & Hother & Hsame).
        unfold bind. rewrite Hrun.
        destruct (update_heap _ _ _ _ _ _ _ _ Hinv Hhl Hrun) as (H1 & Hinv1 & Hsub1 & Hnl1 & _).
        destruct (update_canonical _ _ _ _ _ _ _ Hkey Hcl Hrun) as [_ Hsub].
        destruct (ptr_eq nl l) eqn:Hptr.
        { apply (ptr_eq_true n1 H1) in Hptr; [|done|done|by eapply in_heap_mono].
          subst nl. exists (Branch a p (2 ^ i) l r), n1. simpl. rewrite Hz.
          split; [done|]. split; [done|]. split; [|done].
          intros k Hk. done. }
        destruct (make_branch_ok p (2 ^ i) nl r n1) as (t' & n' & Hmb).
        rewrite Hmb. exists t', n'. split; [done|].
        pose proof (make_branch_lookup p (2 ^ i) nl r t' n1 n') as Hlook.
        assert (Hlook' : forall k, find_value k t'
                  = if is_zero_bit k (2 ^ i) then find_value k nl else find_value k r).
        { apply Hlook; [| |done].
          - intros k v Hin. destruct (Hsub k v Hin) as [Hin' | ->]; [|done].
            by destruct (Hkl k v Hin').
          - intros k v Hin. by destruct (Hkr k v Hin). }
        split; [by rewrite Hlook', Hz|]. split.
        -- intros k Hk. rewrite Hlook'. simpl.
           destruct (is_zero_bit k (2 ^ i)); [by apply Hother|done].
        -- simpl. rewrite Hz. intros Hf. apply Hsame in Hf. subst nl.
           by rewrite ptr_eq_refl in Hptr.
      * destruct (IHr n H Hcr Hinv Hhr Hkey Hc) as (nr & n1 & Hrun & Hfind & Hother & Hsame).
        unfold bind. rewrite Hrun.
        destruct (update_heap _ _ _ _ _ _ _ _ Hinv Hhr Hrun) as (H1 & Hinv1 & Hsub1 & Hnr1 & _).
        destruct (update_canonical _ _ _ _ _ _ _ Hkey Hcr Hrun) as [_ Hsub].
        destruct (ptr_eq nr r) eqn:Hptr.
        { apply (ptr_eq_true n1 H1) in Hptr; [|done|done|by eapply in_heap_mono].
          subst nr. exists (Branch a p (2 ^ i) l r), n1. simpl. rewrite Hz.
          split; [done|]. split; [done|]. split; [|done].
          intros k Hk. done. }
        destruct (make_branch_ok p (2 ^ i) l nr n1) as (t' & n' & Hmb).
        rewrite Hmb. exists t', n'. split; [done|].
        pose proof (make_branch_lookup p (2 ^ i) l nr t' n1 n') as Hlook.
        assert (Hlook' : forall k, find_value k t'
                  = if is_zero_bit k (2 ^ i) then find_value k l else find_value k nr).
        { apply Hlook; [| |done].
          - intros k v Hin. by destruct (Hkl k v Hin).
          - intros k v Hin. destruct (Hsub k v Hin) as [Hin' | ->]; [|done].
            by destruct (Hkr k v Hin'). }
        split; [by rewrite Hlook', Hz|]. split.
        -- intros k Hk. rewrite Hlook'. simpl.
           destruct (is_zero_bit k (2 ^ i)); [done|by apply Hother].
        -- simpl. rewrite Hz. intros Hf. apply Hsame in Hf. subst nr.
           by rewrite ptr_eq_refl in Hptr.
    + assert (Hnone : find_value key (Branch a p (2 ^ i) l r) = None).
      { apply find_value_prefix_mismatch; [by apply canonical_well_formed|done]. }
      rewrite Hnone in Hc. simpl in Hc.
      destruct (combine_new_leaf_run combine key value c n Hc) as (n1 & _ & Hrun).
      unfold bind. rewrite Hrun. destruct (is_default_value c) eqn:Hd; simpl.
      * exists (Branch a p (2 ^ i) l r), n1. split; [done|].
        split; [exact Hnone|]. done.
      * destruct (join_ok key (Leaf (S n) key c) p (Branch a p (2 ^ i) l r) n1)
          as (t' & n' & Hj).
        rewrite Hj. exists t', n'. split; [done|].
        destruct (canonical_branch_keys a p i l r Hi Hcan) as [Hp Hpre].
        assert (Hpow : 2 ^ i < 2 ^ int_bits) by (apply Z.pow_lt_mono_r; lia).
        assert (Hpr : in_range p) by (unfold in_range; lia).
        assert (Hne : key <> p).
        { intros ->. unfold match_prefix in Hmatch. apply Z.eqb_neq in Hmatch.
          rewrite mask_pow2 in Hmatch by done. by rewrite Z.mod_small in Hmatch. }
        destruct (join_lookup key (S n) c p (Branch a p (2 ^ i) l r) t' n1 n') as [Hf Ho];
          [done|done|done| |done|].
        { intros j Hj' Hdiff Hlow k v Hin j' Hj''.
          apply (Hpre k v Hin). split; [lia|].
          destruct (Z.lt_ge_cases j i) as [Hlt|Hge]; [lia|]. exfalso.
          unfold match_prefix in Hmatch. apply Z.eqb_neq in Hmatch. apply Hmatch.
          rewrite mask_pow2 by done.
          transitivity (p mod 2 ^ i); [|by apply Z.mod_small].
          apply mod_pow2_eq; [lia|]. intros j0 Hj0. apply Hlow. lia. }
        split; [done|]. split; [done|].
        change (find_value key (Branch a p (2 ^ i) l r)) with
          (if is_zero_bit key (2 ^ i) then find_value key l else find_value key r).
        simpl in Hnone. rewrite Hnone. done.
Qed.

End UpdateLookup.

Section MapUpdate.
Context {T : Type} `{VT : Value T} {VL : ValueLaws T}.

Lemma invariant_heap (n : nat) (m : PatriciaTreeMap T) :
  invariant n m ->
  heap_inv n (heap_of (m_tree m)) /\ in_heap (heap_of (m_tree m)) (m_tree m).
Proof.
  intros (_ & Hb & Hc). split; [by apply heap_of_inv|apply in_heap_of].
Qed.

Lemma heap_post_invariant (n n' : nat) (H : heap T) (t' : PatriciaTree T) :
  heap_post n H t' n' -> canonical t' -> invariant n' {| m_tree := t' |}.
Proof.
  intros (H' & Hinv & _ & Hin & _) Hc. split; [done|]. split.
  - by apply (heap_inv_below n' H').
  - by apply (heap_inv_coherent n' H').
Qed.

Lemma built_is_invariant (ms : list (PatriciaTreeMap T)) (n : nat) (m : PatriciaTreeMap T) :
  built ms n -> m ∈ ms -> invariant n m.
Proof.
  intros Hb Hm. destruct (built_invariant ms n Hb) as (H & Hinv & Hall).
  destruct (Hall m Hm) as [Hin Hc]. split; [done|]. split.
  - by apply (heap_inv_below n H).
  - by apply (heap_inv_coherent n H).
Qed.

Lemma at_find_value (m : PatriciaTreeMap T) (k : Z) (c : T) :
  find_value k (m_tree m) = (if is_default_value c then None else Some c) ->
  at_ m k = c.
Proof.
  unfold at_. intros ->. destruct (is_default_value c) eqn:Hd; [|done].
  symmetry. by apply is_default_value_spec.
Qed.

Lemma find_value_at (m : PatriciaTreeMap T) (k : Z) :
  canonical (m_tree m) ->
  find_value k (m_tree m)
  = (if is_default_value (at_ m k) then None else Some (at_ m k)).
Proof.
  intros Hc. unfold at_. destruct (find_value k (m_tree m)) as [v|] eqn:Hf.
  - apply find_value_leaves in Hf.
    apply well_formed_leaves in Hf; [|by apply canonical_well_formed].
    by rewrite Hf.
  - by rewrite default_value_is_default.
Qed.

(** X1.  [PatriciaTreeMap::update(operation, key)] on a map in canonical
    form calls [operation] on the value the map has at [key] (the default
    value when [key] is unbound).  When that returns [c], the new map has [c]
    at [key] and the old value at every other key, and is in canonical form
    again; when it throws, [update] throws the same exception. *)
Theorem map_update_lookup (operation : T -> outcome T) (key : Z)
    (m : PatriciaTreeMap T) (n : nat) :
  invariant n m -> in_range key ->
  match operation (at_ m key) with
  | Ok c =>
      exists m' n',
        map_update operation key m n = Ok (m', n')
        /\ at_ m' key = c
        /\ (forall k, k <> key -> at_ m' k = at_ m k)
        /\ invariant n' m'
  | Throw e => map_update operation key m n = Throw e
  end.
Proof.
  intros Hinv Hkey. pose proof Hinv as (Hc & _ & _).
  destruct (invariant_heap n m Hinv) as [Hheap Hin].
  destruct (operation (at_ m key)) as [c|e] eqn:Hop.
  - destruct (update_lookup (fun x _ => operation x) key default_value c
                (m_tree m) n _ Hc Hheap Hin Hkey Hop)
      as (t' & n' & Hrun & Hfind & Hother & _).
    exists {| m_tree := t' |}, n'.
    split; [unfold map_update, bind; by rewrite Hrun|].
    split; [by apply at_find_value|].
    split; [intros k Hk; unfold at_; simpl; by rewrite Hother|].
    apply (heap_post_invariant n n' (heap_of (m_tree m))).
    + by eapply update_heap.
    + by destruct (update_canonical _ _ _ _ _ _ _ Hkey Hc Hrun).
  - unfold map_update, bind.
    rewrite (update_throw (fun x _ => operation x) key default_value e); [done| |done].
    by apply canonical_well_formed.
Qed.

(** X2.  Insert, then look up: after [insert_or_assign(key, value)] on a map
    in canonical form, [at(key)] is [value], [at] of every other key is what
    it was, and the map is in canonical form again.  (Inserting the default
    value unbinds the key, and [at] then returns the default value.) *)
Theorem insert_or_assign_lookup (key : Z) (value : T)
    (m : PatriciaTreeMap T) (n : nat) :
  invariant n m -> in_range key ->
  exists m' n',
    insert_or_assign key value m n = Ok (m', n')
    /\ at_ m' key = value
    /\ (forall k, k <> key -> at_ m' k = at_ m k)
    /\ invariant n' m'.
Proof.
  intros Hinv Hkey. pose proof Hinv as (Hc & _ & _).
  destruct (invariant_heap n m Hinv) as [Hheap Hin].
  destruct (update_lookup snd_value key value value
              (m_tree m) n _ Hc Hheap Hin Hkey eq_refl)
    as (t' & n' & Hrun & Hfind & Hother & _).
  exists {| m_tree := t' |}, n'.
  split; [unfold insert_or_assign, bind; by rewrite Hrun|].
  split; [by apply at_find_value|].
  split; [intros k Hk; unfold at_; simpl; by rewrite Hother|].
  apply (heap_post_invariant n n' (heap_of (m_tree m))).
  + by eapply update_heap.
  + by destruct (update_canonical _ _ _ _ _ _ _ Hkey Hc Hrun).
Qed.

(** X3.  After [update], [reference_equals] with the map as it was holds
    exactly when the operation returned the value the key already had: an
    update that changes nothing hands back the same tree, and one that
    changes a value never does. *)
Theorem map_update_reference_equals (operation : T -> outcome T) (key : Z)
    (m m' : PatriciaTreeMap T) (n n' : nat) (c : T) :
  invariant n m -> in_range key ->
  operation (at_ m key) = Ok c ->
  map_update operation key m n = Ok (m', n') ->
  reference_equals m' m = true <-> c = at_ m key.
Proof.
  intros Hinv Hkey Hop Hrun. pose proof Hinv as (Hc & _ & _).
  destruct (invariant_heap n m Hinv) as [Hheap Hin].
  destruct (update_lookup (fun x _ => operation x) key default_value c
              (m_tree m) n _ Hc Hheap Hin Hkey Hop)
    as (t' & n1 & Hrun' & Hfind & Hother & Hsame).
  unfold map_update, bind in Hrun. rewrite Hrun' in Hrun.
  injection Hrun as <- <-. unfold reference_equals. simpl. split.
  - intros Hptr.
    destruct (update_heap _ _ _ _ _ _ _ _ Hheap Hin Hrun') as (H1 & Hinv1 & Hsub & Hin1 & _).
    apply (ptr_eq_true n1 H1) in Hptr; [|done|done|by eapply in_heap_mono].
    symmetry. apply at_find_value. by rewrite <- Hptr.
  - intros ->. rewrite Hsame; [apply ptr_eq_refl|]. by apply find_value_at.
Qed.

End MapUpdate.

Section EraseLookup.
Context {T : Type} `{VT : Value T} {VL : ValueLaws T}.

(** Masking with a key below the branching bit. *)
Lemma land_mod_pow2 a b i : 0 <= i -> Z.land a (b mod 2 ^ i) = (Z.land a b) mod 2 ^ i.
Proof.
  intros Hi. rewrite <- !Z.land_ones by done. by rewrite Z.land_assoc.
Qed.

Lemma land_small_mask key_mask k i :
  0 <= i -> 0 <= key_mask < 2 ^ i -> Z.land key_mask k = Z.land key_mask (k mod 2 ^ i).
Proof.
  intros Hi Hm. rewrite <- (Z.mod_small key_mask (2 ^ i)) at 1 by done.
  rewrite <- !Z.land_ones by done.
  rewrite <- Z.land_assoc. f_equal. apply Z.land_comm.
Qed.

Lemma erase_all_matching_lookup key_mask (t : PatriciaTree T) :
  forall (n : nat) (H : heap T),
  canonical t -> heap_inv n H -> in_heap H t -> in_range key_mask ->
  exists t' n',
    erase_all_matching key_mask t n = Ok (t', n')
    /\ (forall k, find_value k t'
                  = if Z.land key_mask k =? 0 then find_value k t else None)
    /\ ((forall k v, (k, v) ∈ leaves t -> Z.land key_mask k = 0) -> t' = t).
Proof.
  induction t as [|a k0 v0|a p b l IHl r IHr]; intros n H Hcan Hinv Ht Hmask.
  - exists Null, n. split; [done|]. split; [|done].
    intros k. simpl. by destruct (_ =? _).
  - simpl. destruct (Z.eqb_spec (Z.land key_mask k0) 0) as [Hz|Hnz]; simpl.
    + exists (Leaf a k0 v0), n. split; [done|]. split; [|done].
      intros k. simpl. destruct (Z.eqb_spec k k0) as [->|]; [|by destruct (_ =? _)].
      by rewrite Hz.
    + exists Null, n. split; [done|]. split.
      * intros k. simpl. destruct (Z.eqb_spec k k0) as [->|]; [|by destruct (_ =? _)].
        by destruct (Z.eqb_spec (Z.land key_mask k0) 0).
      * intros Hall. exfalso. apply Hnz. apply (Hall k0 v0). simpl. set_solver.
  - pose proof Hcan as (Hl & Hr & (i & Hi & ->) & Hkl & Hkr & Hcl & Hcr).
    destruct Ht as [Ht|Ht]; [done|].
    destruct (heap_closed n H Hinv _ _ _ _ _ Ht) as [Hhl Hhr].
    destruct (canonical_branch_keys a p i l r Hi Hcan) as [Hp _].
    assert (Hpre : forall k v, find_value k (Branch a p (2 ^ i) l r) = Some v ->
              k mod 2 ^ i = p).
    { intros k v. by apply canonical_branch_prefix. }
    simpl erase_all_matching.
    destruct (Z.eqb_spec (Z.land key_mask p) 0) as [Hz|Hnz]; simpl.
    + destruct (Z.ltb_spec key_mask (2 ^ i)) as [Hlt|Hge].
      * (* the mask lies below the branching bit: no key matches *)
        exists (Branch a p (2 ^ i) l r), n. split; [done|]. split; [|done].
        intros k. destruct (Z.eqb_spec (Z.land key_mask k) 0) as [|Hk]; [done|].
        destruct (find_value k (Branch a p (2 ^ i) l r)) as [v|] eqn:Hf; [|done].
        exfalso. apply Hk. rewrite (land_small_mask key_mask k i); [|lia|].
        -- by rewrite (Hpre k v Hf).
        -- unfold in_range in Hmask. lia.
      * destruct (IHl n H Hcl Hinv Hhl Hmask) as (nl & n1 & Hrunl & Hfl & Hsl).
        destruct (erase_all_matching_heap _ _ _ _ _ _ Hinv Hhl Hrunl)
          as (H1 & Hinv1 & Hsub1 & Hnl1 & _).
        destruct (IHr n1 H1 Hcr Hinv1 (in_heap_mono _ _ _ Hsub1 Hhr) Hmask)
          as (nr & n2 & Hrunr & Hfr & Hsr).
        destruct (erase_all_matching_heap _ _ _ _ _ _ Hinv1
                    (in_heap_mono _ _ _ Hsub1 Hhr) Hrunr)
          as (H2 & Hinv2 & Hsub2 & Hnr2 & _).
        unfold bind. rewrite Hrunl, Hrunr.
        assert (Hlook : forall k,
                  (if is_zero_bit k (2 ^ i) then find_value k nl else find_value k nr)
                  = if Z.land key_mask k =? 0
                    then find_value k (Branch a p (2 ^ i) l r) else None).
        { intros k. simpl. rewrite Hfl, Hfr.
          by destruct (is_zero_bit k (2 ^ i)), (Z.land key_mask k =? 0). }
        destruct (ptr_eq nl l && ptr_eq nr r) eqn:Hptr.
        -- apply andb_true_iff in Hptr as [Hpl Hpr].
           apply (ptr_eq_true n2 H2) in Hpl;
             [|done|by eapply in_heap_mono|eapply in_heap_mono; [|exact Hhl]; auto].
           apply (ptr_eq_true n2 H2) in Hpr;
             [|done|done|eapply in_heap_mono; [|exact Hhr]; auto].
           subst nl nr. exists (Branch a p (2 ^ i) l r), n2.
           split; [done|]. split; [|done]. intros k. rewrite <- Hlook. done.
        -- destruct (make_branch_ok p (2 ^ i) nl nr n2) as (t' & n' & Hmb).
           rewrite Hmb. exists t', n'. split; [done|].
           destruct (erase_all_matching_canonical _ _ _ _ _ Hcl Hrunl) as [_ Hsubl].
           destruct (erase_all_matching_canonical _ _ _ _ _ Hcr Hrunr) as [_ Hsubr].
           split.
           ++ intros k. rewrite <- Hlook.
              apply (make_branch_lookup p (2 ^ i) nl nr t' n2 n'); [| |done].
              ** intros k' v' Hin. by destruct (Hkl k' v' (Hsubl k' v' Hin)).
              ** intros k' v' Hin. by destruct (Hkr k' v' (Hsubr k' v' Hin)).
           ++ intros Hall. rewrite Hsl, Hsr in Hptr.
              ** by rewrite !ptr_eq_refl in Hptr.
              ** intros k v Hin. apply (Hall k v). simpl. apply elem_of_app. by right.
              ** intros k v Hin. apply (Hall k v). simpl. apply elem_of_app. by left.
    + (* the mask meets the prefix: every key matches *)
      assert (Hall : forall k v, find_value k (Branch a p (2 ^ i) l r) = Some v ->
                Z.land key_mask k <> 0).
      { intros k v Hf Hk. apply Hnz. rewrite <- (Hpre k v Hf).
        rewrite land_mod_pow2 by lia. rewrite Hk. apply Z.mod_0_l.
        apply Z.pow_nonzero; lia. }
      exists Null, n. split; [done|]. split.
      * intros k. simpl find_value at 1.
        destruct (Z.eqb_spec (Z.land key_mask k) 0) as [Hk|]; [|done].
        destruct (find_value k (Branch a p (2 ^ i) l r)) as [v|] eqn:Hf; [|done].
        by destruct (Hall k v Hf).
      * intros Hnone. exfalso.
        destruct (canonical_inhabited _ Hcan) as (k & v & Hin); [done|].
        apply (Hall k v); [|by apply (Hnone k v)].
        apply leaves_find_value; [by apply canonical_well_formed|done].
Qed.

End EraseLookup.

Section MapLookup.
Context {T : Type} `{VT : Value T} {VL : ValueLaws T}.

Lemma map_spec (g : T -> T) (t : PatriciaTree T) :
  forall (n : nat) (H : heap T),
  canonical t -> heap_inv n H -> in_heap H t ->
  exists t' n',
    map (fun v => Ok (g v)) t n = Ok (t', n')
    /\ (forall k, find_value k t'
                  = match find_value k t with
                    | Some v => if is_default_value (g v) then None else Some (g v)
                    | None => None
                    end)
    /\ canonical t'
    /\ heap_post n H t' n'
    /\ (forall k v, (k, v) ∈ leaves t' -> exists v0, (k, v0) ∈ leaves t)
    /\ ((forall k v, (k, v) ∈ leaves t -> g v = v) -> t' = t).
Proof.
  induction t as [|a k0 v0|a p b l IHl r IHr]; intros n H Hcan Hinv Ht.
  - exists Null, n. simpl. split; [done|]. split; [done|]. split; [done|].
    split; [by apply heap_post_ret|]. split; [|done].
    intros k v Hin. by apply elem_of_nil in Hin.
  - destruct Hcan as [Hk0 Hv0]. destruct Ht as [Ht|Ht]; [done|].
    simpl map. unfold bind at 1, lift.
    destruct (combine_leaf_run snd_value (g v0) a k0 v0 (g v0) n eq_refl)
      as (t' & n' & Hrun & Hfind & Hsame & Hother).
    rewrite Hrun. exists t', n'. split; [done|]. split.
    { intros k. simpl. destruct (Z.eqb_spec k k0) as [->|Hne]; [done|by apply Hother]. }
    split.
    { apply combine_leaf_shape in Hrun as [->|[->|(a' & c & -> & Hd)]]; by simpl. }
    split; [by eapply combine_leaf_heap|]. split.
    { intros k v Hin. exists v0. simpl.
      pose proof Hrun as Hshape.
      apply combine_leaf_shape in Hshape as [->|[->|(a' & c & -> & Hd)]]; simpl in Hin.
      - by apply elem_of_nil in Hin.
      - apply list_elem_of_singleton in Hin. injection Hin as -> ->. set_solver.
      - apply list_elem_of_singleton in Hin. injection Hin as -> ->. set_solver. }
    intros Hfix. apply Hsame; [|done]. apply (Hfix k0 v0). simpl. set_solver.
  - pose proof Hcan as (Hl & Hr & Hb & Hkl & Hkr & Hcl & Hcr).
    destruct Ht as [Ht|Ht]; [done|].
    destruct (heap_closed n H Hinv _ _ _ _ _ Ht) as [Hhl Hhr].
    destruct (IHl n H Hcl Hinv Hhl)
      as (nl & n1 & Hrunl & Hfl & Hcnl & (H1 & Hinv1 & Hsub1 & Hnl1 & Hle1) & Hkeysl & Hsl).
    destruct (IHr n1 H1 Hcr Hinv1 (in_heap_mono _ _ _ Hsub1 Hhr))
      as (nr & n2 & Hrunr & Hfr & Hcnr & (H2 & Hinv2 & Hsub2 & Hnr2 & Hle2) & Hkeysr & Hsr).
    simpl map. unfold bind. rewrite Hrunl, Hrunr.
    assert (Hknl : forall k v, (k, v) ∈ leaves nl ->
              match_prefix k p b = true /\ is_zero_bit k b = true).
    { intros k v Hin. destruct (Hkeysl k v Hin) as (v1 & Hin1). by apply (Hkl k v1). }
    assert (Hknr : forall k v, (k, v) ∈ leaves nr ->
              match_prefix k p b = true /\ is_zero_bit k b = false).
    { intros k v Hin. destruct (Hkeysr k v Hin) as (v1 & Hin1). by apply (Hkr k v1). }
    assert (Hlook : forall k,
              (if is_zero_bit k b then find_value k nl else find_value k nr)
              = match find_value k (Branch a p b l r) with
                | Some v => if is_default_value (g v) then None else Some (g v)
                | None => None
                end).
    { intros k. simpl. rewrite Hfl, Hfr. by destruct (is_zero_bit k b). }
    assert (HinH2 : in_heap H2 (Branch a p b l r)).
    { right. auto. }
    destruct (ptr_eq nl l && ptr_eq nr r) eqn:Hptr.
    + apply andb_true_iff in Hptr as [Hpl Hpr].
      apply (ptr_eq_true n2 H2) in Hpl;
        [|done|by eapply in_heap_mono|eapply in_heap_mono; [|exact Hhl]; auto].
      apply (ptr_eq_true n2 H2) in Hpr;
        [|done|done|eapply in_heap_mono; [|exact Hhr]; auto].
      subst nl nr. exists (Branch a p b l r), n2.
      split; [done|]. split; [intros k; by rewrite <- Hlook|].
      split; [done|]. split.
      { apply (heap_post_intro _ _ _ H2); auto. lia. }
      split; [|done]. intros k v Hin. by exists v.
    + destruct (make_branch_ok p b nl nr n2) as (t' & n' & Hmb).
      rewrite Hmb. exists t', n'. split; [done|].
      destruct (make_branch_canonical p b nl nr t' n2 n' Hb Hcnl Hcnr Hknl Hknr Hmb)
        as [Hct' Hleaves].
      split.
      { intros k. rewrite <- Hlook.
        apply (make_branch_lookup p b nl nr t' n2 n'); [| |done].
        - intros k' v' Hin. by destruct (Hknl k' v' Hin).
        - intros k' v' Hin. by destruct (Hknr k' v' Hin). }
      split; [done|]. split.
      { apply (heap_post_trans n n2 n' H H2); [auto|lia|].
        apply (make_branch_heap n2 H2 p b nl nr t' n'); [done| |done|exact Hmb].
        by eapply in_heap_mono. }
      split.
      { intros k v Hin. rewrite Hleaves in Hin. simpl.
        apply elem_of_app in Hin as [Hin|Hin].
        - destruct (Hkeysl k v Hin) as (v1 & Hin1). exists v1. apply elem_of_app. by left.
        - destruct (Hkeysr k v Hin) as (v1 & Hin1). exists v1. apply elem_of_app. by right. }
      intros Hfix. rewrite Hsl, Hsr in Hptr.
      * by rewrite !ptr_eq_refl in Hptr.
      * intros k v Hin. apply (Hfix k v). simpl. apply elem_of_app. by right.
      * intros k v Hin. apply (Hfix k v). simpl. apply elem_of_app. by left.
Qed.

(** When the function throws on a value of the map, [map] throws. *)
Lemma map_throw (f : T -> outcome T) (t : PatriciaTree T) :
  forall n k v e,
  (k, v) ∈ leaves t -> f v = Throw e ->
  exists e', map f t n = Throw e'.
Proof.
  induction t as [|a k0 v0|a p b l IHl r IHr]; intros n k v e Hin Hf; simpl in *.
  - by apply elem_of_nil in Hin.
  - apply list_elem_of_singleton in Hin. injection Hin as -> ->.
    exists e. unfold bind, lift. by rewrite Hf.
  - unfold bind. apply elem_of_app in Hin as [Hin|Hin].
    + destruct (IHl n k v e Hin Hf) as (e' & ->). by exists e'.
    + destruct (map f l n) as [[nl n1]|e1]; [|by exists e1].
      destruct (IHr n1 k v e Hin Hf) as (e' & ->). by exists e'.
Qed.

End MapLookup.

Section Iteration.
Context {T : Type} `{VT : Value T}.

Lemma stack_pairs_length (stack : list (PatriciaTree T)) :
  length (stack_pairs stack) = stack_leaves stack.
Proof.
  induction stack as [|[| |a p b l r] stack IH]; simpl; [done|done|done|].
  rewrite length_app. lia.
Qed.

Lemma go_to_next_leaf_pairs (t : PatriciaTree T) :
  forall stack it,
  go_to_next_leaf t stack = Ok it ->
  leaves (m_leaf it) ++ stack_pairs (m_stack it) = leaves t ++ stack_pairs stack.
Proof.
  induction t as [|a k v|a p b l IHl r IHr]; intros stack it Hgo; simpl in Hgo.
  - done.
  - by injection Hgo as <-.
  - destruct (is_null l); [done|]. rewrite (IHl _ _ Hgo). simpl.
    by rewrite <- app_assoc.
Qed.

Lemma go_to_next_leaf_is_leaf (t : PatriciaTree T) :
  forall stack it,
  go_to_next_leaf t stack = Ok it -> exists a k v, m_leaf it = Leaf a k v.
Proof.
  induction t as [|a k v|a p b l IHl r IHr]; intros stack it Hgo; simpl in Hgo.
  - done.
  - injection Hgo as <-. by exists a, k, v.
  - destruct (is_null l); [done|]. by eapply IHl.
Qed.

Lemma for_each_pair_spec (fuel : nat) :
  forall (it : PatriciaTreeIterator T) a k v,
  m_leaf it = Leaf a k v -> stack_ok (m_stack it) ->
  (S (stack_leaves (m_stack it)) < fuel)%nat ->
  for_each_pair fuel it = Some (Ok ((k, v) :: stack_pairs (m_stack it))).
Proof.
  induction fuel as [|fuel IH]; intros it a k v Hleaf Hst Hfuel; [lia|].
  simpl. unfold increment. rewrite Hleaf. simpl.
  destruct it as [stack leaf]. simpl in *.
  destruct stack as [|top stack].
  - destruct fuel as [|fuel]; [lia|]. done.
  - apply Forall_cons in Hst as [Htop Hst].
    destruct top as [| |a' p b l r]; [done|done|].
    destruct Htop as [Hrn Hwr].
    destruct (go_to_next_leaf_spec r stack Hrn Hwr Hst) as (it' & Hgo & [_ Hok] & Hcount).
    destruct (go_to_next_leaf_is_leaf _ _ _ Hgo) as (a1 & k1 & v1 & Hleaf').
    rewrite Hgo. rewrite (IH it' a1 k1 v1); [|done|done|simpl in Hfuel; lia].
    simpl. do 3 f_equal. rewrite <- (go_to_next_leaf_pairs _ _ _ Hgo). by rewrite Hleaf'.
Qed.

Lemma elements_well_formed (m : PatriciaTreeMap T) :
  well_formed (m_tree m) -> elements m = Some (Ok (leaves (m_tree m))).
Proof.
  intros Hwf. unfold elements, iterator_begin.
  destruct (is_null (m_tree m)) eqn:Hnull.
  - apply is_null_true in Hnull. rewrite Hnull. reflexivity.
  - apply is_null_false in Hnull.
    destruct (go_to_next_leaf_spec (m_tree m) [] Hnull Hwf) as (it & Hgo & [_ Hok] & Hcount).
    { constructor. }
    destruct (go_to_next_leaf_is_leaf _ _ _ Hgo) as (a & k & v & Hleaf).
    rewrite Hgo. rewrite (for_each_pair_spec _ it a k v); [|done|done|].
    + do 2 f_equal. pose proof (go_to_next_leaf_pairs _ _ _ Hgo) as Hp.
      rewrite Hleaf in Hp. simpl in Hp. by rewrite app_nil_r in Hp.
    + pose proof (leaves_le_node_count (m_tree m)). simpl in Hcount. lia.
Qed.

Lemma well_formed_keys_nodup (t : PatriciaTree T) :
  well_formed t -> NoDup (leaves t).*1.
Proof.
  induction t as [|a k v|a p b l IHl r IHr]; simpl; intros Hwf.
  - constructor.
  - apply NoDup_singleton.
  - destruct Hwf as (_ & _ & Hkl & Hkr & Hwl & Hwr).
    rewrite fmap_app. apply NoDup_app. split; [auto|]. split; [|auto].
    intros k Hinl Hinr.
    apply list_elem_of_fmap in Hinl as ([k1 v1] & -> & Hinl).
    apply list_elem_of_fmap in Hinr as ([k2 v2] & Heq & Hinr). simpl in Heq. subst k2.
    destruct (Hkl _ _ Hinl). destruct (Hkr _ _ Hinr). congruence.
Qed.

Lemma leaves_iff_find_value (t : PatriciaTree T) k v :
  well_formed t -> (k, v) ∈ leaves t <-> find_value k t = Some v.
Proof.
  intros Hwf. split; [by apply leaves_find_value|apply find_value_leaves].
Qed.

End Iteration.

Section MapOperations.
Context {T : Type} `{VT : Value T} {VL : ValueLaws T}.

Lemma at_bound (m : PatriciaTreeMap T) k v :
  well_formed (m_tree m) ->
  find_value k (m_tree m) = Some v <-> at_ m k = v /\ is_default_value v = false.
Proof.
  intros Hwf. unfold at_. split.
  - intros Hf. rewrite Hf. split; [done|].
    apply find_value_leaves in Hf. by eapply well_formed_leaves.
  - intros [Hat Hd]. destruct (find_value k (m_tree m)) as [v'|]; [by subst|].
    subst v. by rewrite default_value_is_default in Hd.
Qed.

(** X5.  [erase_all_matching(key_mask)] on a map in canonical form unbinds
    exactly the keys that share a bit with [key_mask]: [at(k)] is the default
    value when [key_mask & k] is not zero and the old value otherwise.  The
    result it returns is [true] exactly when some bound key shared a bit with
    the mask, and the map is in canonical form again. *)
Theorem map_erase_all_matching_lookup (key_mask : Z) (m : PatriciaTreeMap T) (n : nat) :
  invariant n m -> in_range key_mask ->
  exists m' changed n',
    map_erase_all_matching key_mask m n = Ok (m', changed, n')
    /\ (forall k, at_ m' k = if Z.land key_mask k =? 0 then at_ m k else default_value)
    /\ (changed = true <->
        exists k, Z.land key_mask k <> 0 /\ is_default_value (at_ m k) = false)
    /\ invariant n' m'.
Proof.
  intros Hinv Hmask. pose proof Hinv as (Hc & _ & _).
  destruct (invariant_heap n m Hinv) as [Hheap Hin].
  destruct (erase_all_matching_lookup key_mask (m_tree m) n _ Hc Hheap Hin Hmask)
    as (t' & n' & Hrun & Hfind & Hsame).
  destruct (erase_all_matching_heap _ _ _ _ _ _ Hheap Hin Hrun)
    as (H1 & Hinv1 & Hsub1 & Hin1 & Hle1).
  exists {| m_tree := t' |}, (negb (ptr_eq t' (m_tree m))), n'.
  split; [unfold map_erase_all_matching, bind; by rewrite Hrun|].
  split.
  { intros k. unfold at_. simpl. rewrite Hfind. by destruct (_ =? _). }
  split.
  - split.
    + intros Hch.
      destruct (decide (Forall (fun kv : Z * T => Z.land key_mask kv.1 = 0)
                          (leaves (m_tree m)))) as [Hall|Hex].
      * rewrite Hsame in Hch; [by rewrite ptr_eq_refl in Hch|].
        intros k v Hkv. rewrite Forall_forall in Hall. by apply (Hall (k, v)).
      * apply not_Forall_Exists in Hex; [|apply _].
        apply Exists_exists in Hex as ([k v] & Hkv & Hk). simpl in Hk.
        exists k. split; [done|].
        apply leaves_find_value in Hkv; [|by apply canonical_well_formed].
        apply at_bound in Hkv as [-> Hd]; [done|by apply canonical_well_formed].
    + intros (k & Hk & Hd). apply negb_true_iff.
      destruct (ptr_eq t' (m_tree m)) eqn:Hptr; [|done]. exfalso.
      apply (ptr_eq_true n' H1) in Hptr; [|done|done|by eapply in_heap_mono].
      specialize (Hfind k). rewrite Hptr in Hfind.
      apply Z.eqb_neq in Hk. rewrite Hk in Hfind.
      unfold at_ in Hd. rewrite Hfind in Hd.
      by rewrite default_value_is_default in Hd.
  - apply (heap_post_invariant n n' (heap_of (m_tree m))).
    + by exists H1.
    + by destruct (erase_all_matching_canonical _ _ _ _ _ Hc Hrun).
Qed.

(** X6.  [PatriciaTreeMap::map(f)] on a map in canonical form, for an [f]
    that does not throw: every bound key gets [f] of its value (and becomes
    unbound when that is the default value), unbound keys stay unbound.  The
    result it returns is [false] exactly when [f] leaves every bound value as
    it is, and the map is in canonical form again. *)
Theorem map_map_lookup (g : T -> T) (m : PatriciaTreeMap T) (n : nat) :
  invariant n m ->
  exists m' changed n',
    map_map (fun v => Ok (g v)) m n = Ok (m', changed, n')
    /\ (forall k, at_ m' k
                  = if is_default_value (at_ m k) then default_value else g (at_ m k))
    /\ (changed = false <->
        forall k, is_default_value (at_ m k) = false -> g (at_ m k) = at_ m k)
    /\ invariant n' m'.
Proof.
  intros Hinv. pose proof Hinv as (Hc & _ & _).
  pose proof (canonical_well_formed _ Hc) as Hwf.
  destruct (invariant_heap n m Hinv) as [Hheap Hin].
  destruct (map_spec g (m_tree m) n _ Hc Hheap Hin)
    as (t' & n' & Hrun & Hfind & Hc' & Hpost & _ & Hsame).
  pose proof Hpost as (H1 & Hinv1 & Hsub1 & Hin1 & Hle1).
  exists {| m_tree := t' |}, (negb (ptr_eq t' (m_tree m))), n'.
  split; [unfold map_map, bind; by rewrite Hrun|].
  assert (Hat : forall k, at_ {| m_tree := t' |} k
                  = if is_default_value (at_ m k) then default_value else g (at_ m k)).
  { intros k. unfold at_. simpl. rewrite Hfind.
    destruct (find_value k (m_tree m)) as [v|] eqn:Hf.
    - apply find_value_leaves in Hf. apply well_formed_leaves in Hf; [|done].
      rewrite Hf. destruct (is_default_value (g v)) eqn:Hd; [|done].
      symmetry. by apply is_default_value_spec.
    - by rewrite default_value_is_default. }
  split; [done|]. split.
  - rewrite negb_false_iff. split.
    + intros Hptr k Hd.
      apply (ptr_eq_true n' H1) in Hptr; [|done|done|by eapply in_heap_mono].
      specialize (Hat k). rewrite Hptr, Hd in Hat. unfold at_ in Hat at 1. simpl in Hat.
      unfold at_. unfold at_ in Hat. done.
    + intros Hfix. rewrite Hsame; [apply ptr_eq_refl|].
      intros k v Hkv. apply leaves_find_value in Hkv; [|done].
      apply at_bound in Hkv as [<- Hd]; [|done]. by apply Hfix.
  - by apply (heap_post_invariant n n' (heap_of (m_tree m))).
Qed.

(** X7.  Iteration from [begin()] to [end()] over a well-formed map ends
    without an exception and visits each binding once: the pairs read off the
    iterator have distinct keys, [(k, v)] is among them exactly when [at(k)]
    is [v] and [v] is not the default value, and [size()] is their number. *)
Theorem iteration_visits_bindings (m : PatriciaTreeMap T) :
  well_formed (m_tree m) ->
  exists l,
    elements m = Some (Ok l)
    /\ size m = Some (Ok (length l))
    /\ NoDup l.*1
    /\ forall k v, (k, v) ∈ l <-> at_ m k = v /\ is_default_value v = false.
Proof.
  intros Hwf. exists (leaves (m_tree m)).
  split; [by apply elements_well_formed|].
  split; [by apply size_well_formed|].
  split; [by apply well_formed_keys_nodup|].
  intros k v. rewrite leaves_iff_find_value by done. by apply at_bound.
Qed.

(** The bindings as a finite map. *)
Lemma lookup_leaves (t : PatriciaTree T) k :
  well_formed t -> (list_to_map (leaves t) : gmap Z T) !! k = find_value k t.
Proof.
  intros Hwf. destruct (find_value k t) as [v|] eqn:Hf.
  - apply elem_of_list_to_map; [by apply well_formed_keys_nodup|].
    by apply find_value_leaves.
  - apply not_elem_of_list_to_map. intros Hin.
    apply list_elem_of_fmap in Hin as ([k' v] & -> & Hin).
    apply leaves_find_value in Hin; [|done]. simpl in Hf. congruence.
Qed.

Lemma size_leaves (t : PatriciaTree T) :
  well_formed t -> length (leaves t) = base.size (list_to_map (leaves t) : gmap Z T).
Proof.
  intros Hwf. symmetry. apply map_size_list_to_map. by apply well_formed_keys_nodup.
Qed.

(** X4.  [size] across [update]: the number of bindings goes up by one when
    an unbound key gets a non-default value, down by one when a bound key
    gets the default value, and stays the same otherwise. *)
Theorem map_update_size (operation : T -> outcome T) (key : Z)
    (m m' : PatriciaTreeMap T) (n n' : nat) (c : T) :
  invariant n m -> in_range key ->
  operation (at_ m key) = Ok c ->
  map_update operation key m n = Ok (m', n') ->
  exists s s',
    size m = Some (Ok s) /\ size m' = Some (Ok s')
    /\ (s' + (if is_default_value (at_ m key) then 0 else 1)
        = s + (if is_default_value c then 0 else 1))%nat.
Proof.
  intros Hinv Hkey Hop Hrun. pose proof Hinv as (Hc & _ & _).
  pose proof (canonical_well_formed _ Hc) as Hwf.
  destruct (invariant_heap n m Hinv) as [Hheap Hin].
  destruct (update_lookup (fun x _ => operation x) key default_value c
              (m_tree m) n _ Hc Hheap Hin Hkey Hop)
    as (t' & n1 & Hrun' & Hfind & Hother & _).
  unfold map_update, bind in Hrun. rewrite Hrun' in Hrun. injection Hrun as <- <-.
  destruct (update_canonical _ _ _ _ _ _ _ Hkey Hc Hrun') as [Hc' _].
  pose proof (canonical_well_formed _ Hc') as Hwf'.
  exists (length (leaves (m_tree m))), (length (leaves t')).
  split; [by apply size_well_formed|]. split; [by apply size_well_formed|].
  rewrite !size_leaves by done.
  set (M0 := list_to_map (leaves (m_tree m)) : gmap Z T).
  set (M1 := list_to_map (leaves t') : gmap Z T).
  assert (HM1 : M1 = if is_default_value c then delete key M0 else <[key := c]> M0).
  { apply map_eq. intros k. unfold M1, M0. rewrite lookup_leaves by done.
    destruct (Z.eq_dec k key) as [->|Hne].
    - rewrite Hfind. destruct (is_default_value c).
      + by rewrite lookup_delete_eq.
      + by rewrite lookup_insert_eq.
    - rewrite Hother by done. destruct (is_default_value c).
      + by rewrite lookup_delete_ne, lookup_leaves.
      + by rewrite lookup_insert_ne, lookup_leaves. }
  assert (HM0 : M0 !! key = if is_default_value (at_ m key) then None else Some (at_ m key)).
  { unfold M0. rewrite lookup_leaves by done. by apply find_value_at. }
  rewrite HM1.
  destruct (is_default_value c), (is_default_value (at_ m key)).
  - rewrite map_size_delete, HM0. unfold id. lia.
  - assert (base.size M0 <> 0)%nat.
    { intros Hz. apply map_size_empty_inv in Hz. by rewrite Hz in HM0. }
    rewrite map_size_delete, HM0. lia.
  - rewrite map_size_insert, HM0. lia.
  - rewrite map_size_insert, HM0. unfold id. lia.
Qed.

End MapOperations.

Section MergeFacts.
Context {T : Type} `{VT : Value T} {VL : ValueLaws T}.

Lemma pow2_ltb i j : 0 <= i -> 0 <= j -> (2 ^ i <? 2 ^ j) = true <-> i < j.
Proof.
  intros Hi Hj. rewrite Z.ltb_lt. symmetry. by apply Z.pow_lt_mono_r_iff.
Qed.

Lemma pow2_eqb i j : 0 <= i -> 0 <= j -> (2 ^ i =? 2 ^ j) = true <-> i = j.
Proof.
  intros Hi Hj. rewrite Z.eqb_eq. split; [|by intros ->].
  by apply Z.pow_inj_r.
Qed.

Lemma find_value_left a p b (l r : PatriciaTree T) k v :
  canonical (Branch a p b l r) -> find_value k l = Some v ->
  is_zero_bit k b = true /\ find_value k (Branch a p b l r) = Some v.
Proof.
  intros (_ & _ & _ & Hkl & _) Hf. pose proof Hf as Hin.
  apply find_value_leaves, Hkl in Hin as [_ Hz]. simpl. by rewrite Hz.
Qed.

Lemma find_value_right a p b (l r : PatriciaTree T) k v :
  canonical (Branch a p b l r) -> find_value k r = Some v ->
  is_zero_bit k b = false /\ find_value k (Branch a p b l r) = Some v.
Proof.
  intros (_ & _ & _ & _ & Hkr & _) Hf. pose proof Hf as Hin.
  apply find_value_leaves, Hkr in Hin as [_ Hz]. simpl. by rewrite Hz.
Qed.

Lemma find_value_branch a p b (l r : PatriciaTree T) k v :
  canonical (Branch a p b l r) -> find_value k (Branch a p b l r) = Some v ->
  match_prefix k p b = true.
Proof.
  intros (_ & _ & _ & Hkl & Hkr & _) Hf. apply find_value_leaves in Hf. simpl in Hf.
  apply elem_of_app in Hf as [Hf|Hf]; [by apply Hkl in Hf as []|by apply Hkr in Hf as []].
Qed.

Lemma find_value_nondefault (t : PatriciaTree T) k v :
  canonical t -> find_value k t = Some v -> is_default_value v = false.
Proof.
  intros Hc Hf. apply find_value_leaves in Hf.
  apply well_formed_leaves in Hf; [done|by apply canonical_well_formed].
Qed.

Lemma find_value_in_range (t : PatriciaTree T) k v :
  canonical t -> find_value k t = Some v -> in_range k.
Proof. intros Hc Hf. apply find_value_leaves in Hf. by eapply canonical_keys. Qed.

(** The keys of a branch whose prefix extends [p] below bit [i] are on the
    side of [p]'s branch that the prefix is on. *)
Lemma find_value_contained a q j (l r : PatriciaTree T) p i k v :
  0 <= i < j -> j < int_bits ->
  canonical (Branch a q (2 ^ j) l r) ->
  match_prefix q p (2 ^ i) = true ->
  find_value k (Branch a q (2 ^ j) l r) = Some v ->
  match_prefix k p (2 ^ i) = true
  /\ is_zero_bit k (2 ^ i) = is_zero_bit q (2 ^ i).
Proof.
  intros Hi Hj Hc Hm Hf.
  apply canonical_branch_prefix in Hf; [|lia|done].
  destruct (canonical_branch_keys a q j l r ltac:(lia) Hc) as [Hq _].
  assert (Hbits : forall x, 0 <= x < j -> Z.testbit k x = Z.testbit q x).
  { apply mod_pow2_eq; [lia|]. rewrite Hf. symmetry. by apply Z.mod_small. }
  unfold match_prefix in *. apply Z.eqb_eq in Hm.
  rewrite mask_pow2 in Hm by lia. rewrite mask_pow2 by lia. split.
  - apply Z.eqb_eq. rewrite <- Hm. apply mod_pow2_eq; [lia|].
    intros x Hx. apply Hbits. lia.
  - rewrite !is_zero_bit_pow2 by lia. by rewrite Hbits by lia.
Qed.

(** Two prefixes that differ below bit [e] differ first at a bit below [e]. *)
Lemma first_difference_below p q e d :
  0 <= e -> p mod 2 ^ e <> q mod 2 ^ e ->
  (forall x, 0 <= x < d -> Z.testbit p x = Z.testbit q x) ->
  d < e.
Proof.
  intros He Hne Hlow. destruct (Z.lt_ge_cases d e) as [|Hge]; [done|].
  exfalso. apply Hne. apply mod_pow2_eq; [done|]. intros x Hx. apply Hlow. lia.
Qed.

Lemma join_trees p q (s t r : PatriciaTree T) n n' :
  in_range p -> in_range q -> p <> q ->
  (forall d, 0 <= d < int_bits -> Z.testbit p d <> Z.testbit q d ->
     (forall x, 0 <= x < d -> Z.testbit p x = Z.testbit q x) ->
     (forall k v, find_value k s = Some v ->
        forall x, 0 <= x <= d -> Z.testbit k x = Z.testbit p x)
     /\ (forall k v, find_value k t = Some v ->
        forall x, 0 <= x <= d -> Z.testbit k x = Z.testbit q x)) ->
  join p s q t n = Ok (r, n') ->
  (forall k, (find_value k s = None \/ find_value k t = None)
     /\ find_value k r
        = match find_value k s with Some a => Some a | None => find_value k t end)
  /\ (canonical s -> canonical t -> s <> Null -> t <> Null -> canonical r).
Proof.
  intros Hp Hq Hne Hside Hrun. unfold join in Hrun.
  destruct (branching_bit_separates p q Hp Hq Hne) as (d & Hd & Hm & Hdiff & Hlow & Hsep).
  rewrite Hm in Hrun. destruct (Hside d Hd Hdiff Hlow) as [Hs Ht].
  assert (Hks : forall k v, find_value k s = Some v ->
            match_prefix k (mask p (2 ^ d)) (2 ^ d) = true
            /\ is_zero_bit k (2 ^ d) = is_zero_bit p (2 ^ d)).
  { intros k v Hf. specialize (Hs k v Hf). split.
    - unfold match_prefix. apply Z.eqb_eq. rewrite !mask_pow2 by done.
      apply mod_pow2_eq; [lia|]. intros x Hx. apply Hs. lia.
    - rewrite !is_zero_bit_pow2 by lia. by rewrite Hs by lia. }
  assert (Hkt : forall k v, find_value k t = Some v ->
            match_prefix k (mask p (2 ^ d)) (2 ^ d) = true
            /\ is_zero_bit k (2 ^ d) = negb (is_zero_bit p (2 ^ d))).
  { intros k v Hf. apply Hsep. by apply (Ht k v). }
  assert (Hlook : forall k,
            (find_value k s = None \/ find_value k t = None)
            /\ (if bool_decide (is_zero_bit k (2 ^ d) = is_zero_bit p (2 ^ d))
                then find_value k s else find_value k t)
               = match find_value k s with Some a => Some a | None => find_value k t end).
  { intros k. destruct (find_value k s) as [a|] eqn:Hfs.
    - destruct (Hks k a Hfs) as [_ Hz]. rewrite bool_decide_eq_true_2 by done.
      split; [|done]. right. destruct (find_value k t) as [b|] eqn:Hft; [|done].
      destruct (Hkt k b Hft) as [_ Hz']. rewrite Hz in Hz'. by destruct (is_zero_bit p (2 ^ d)).
    - split; [by left|]. case_bool_decide as Hz; [|done].
      destruct (find_value k t) as [b|] eqn:Hft; [|done].
      destruct (Hkt k b Hft) as [_ Hz']. rewrite Hz in Hz'. by destruct (is_zero_bit p (2 ^ d)). }
  assert (Hbit : is_bit (2 ^ d)) by by exists d.
  destruct (is_zero_bit p (2 ^ d)) eqn:Hz; injection Hrun as <- <-; split.
  - intros k. destruct (Hlook k) as [Hdisj <-]. split; [done|]. simpl.
    destruct (is_zero_bit k (2 ^ d)); [by rewrite bool_decide_eq_true_2|by rewrite bool_decide_eq_false_2].
  - intros Hcs Hct Hsn Htn. simpl. do 3 (split; [done|]). split; [|split; [|done]].
    + intros k v Hin. apply leaves_find_value in Hin; [|by apply canonical_well_formed].
      by apply Hks in Hin.
    + intros k v Hin. apply leaves_find_value in Hin; [|by apply canonical_well_formed].
      by apply Hkt in Hin.
  - intros k. destruct (Hlook k) as [Hdisj <-]. split; [done|]. simpl.
    destruct (is_zero_bit k (2 ^ d)); [by rewrite bool_decide_eq_false_2|by rewrite bool_decide_eq_true_2].
  - intros Hcs Hct Hsn Htn. simpl. do 3 (split; [done|]). split; [|split; [|done]].
    + intros k v Hin. apply leaves_find_value in Hin; [|by apply canonical_well_formed].
      by apply Hkt in Hin.
    + intros k v Hin. apply leaves_find_value in Hin; [|by apply canonical_well_formed].
      by apply Hks in Hin.
Qed.

Section MergeSpec.
Variable combine : CombiningFunction T.

Lemma merged_none_r (oa : option T) : merged combine oa None oa.
Proof. by destruct oa. Qed.

Lemma merged_none_l (ob : option T) : merged combine None ob ob.
Proof. by destruct ob. Qed.

Lemma merged_disjoint (oa ob : option T) :
  oa = None \/ ob = None ->
  merged combine oa ob (match oa with Some a => Some a | None => ob end).
Proof. intros [->| ->]; [apply merged_none_l|]. destruct oa; apply merged_none_r. Qed.

Lemma merged_some (oa ob : option T) v :
  merged combine oa ob (Some v) -> is_Some oa \/ is_Some ob.
Proof. destruct oa, ob; simpl; eauto. Qed.

Lemma merged_same (t : PatriciaTree T) k :
  canonical t -> merged combine (find_value k t) (find_value k t) (find_value k t).
Proof.
  intros Hc. destruct (find_value k t) as [a|] eqn:Hf; [|done]. simpl.
  exists a. split; [auto|]. by rewrite (find_value_nondefault t k a).
Qed.

Lemma merge_branch_eq a p m (s0 s1 : PatriciaTree T) b q n (t0 t1 : PatriciaTree T) :
  merge combine (Branch a p m s0 s1) (Branch b q n t0 t1)
  = let s := Branch a p m s0 s1 in
    let t := Branch b q n t0 t1 in
    if ptr_eq s t then ret s
    else if (m =? n) && (p =? q) then
      do new_left <- merge combine s0 t0 ;
      do new_right <- merge combine s1 t1 ;
      if ptr_eq new_left s0 && ptr_eq new_right s1 then ret s
      else if ptr_eq new_left t0 && ptr_eq new_right t1 then ret t
      else make_shared_branch p m new_left new_right
    else if (m <? n) && match_prefix q p m then
      if is_zero_bit q m then
        do new_left <- merge combine s0 t ;
        if ptr_eq s0 new_left then ret s
        else make_shared_branch p m new_left s1
      else
        do new_right <- merge combine s1 t ;
        if ptr_eq s1 new_right then ret s
        else make_shared_branch p m s0 new_right
    else if (n <? m) && match_prefix p q n then
      if is_zero_bit p n then
        do new_left <- merge combine s t0 ;
        if ptr_eq t0 new_left then ret t
        else make_shared_branch q n new_left t1
      else
        do new_right <- merge combine s t1 ;
        if ptr_eq t1 new_right then ret t
        else make_shared_branch q n t0 new_right
    else join p s q t.
Proof. reflexivity. Qed.

Lemma merged_nonnull (s t r : PatriciaTree T) :
  canonical s -> s <> Null -> no_cancellation combine s t ->
  (forall k, merged combine (find_value k s) (find_value k t) (find_value k r)) ->
  r <> Null.
Proof.
  intros Hc Hn Hnc Hm ->. destruct (canonical_inhabited s Hc Hn) as (k & v & Hin).
  apply leaves_find_value in Hin; [|by apply canonical_well_formed].
  specialize (Hm k). rewrite Hin in Hm. simpl in Hm.
  destruct (find_value k t) as [b|] eqn:Hft; [|done].
  destruct Hm as (c & Hcomb & Hnone).
  assert (Hd : is_default_value c = false).
  { destruct Hcomb as [Hcomb|[Hcomb|[_ ->]]].
    - by apply (Hnc k v b c Hin Hft); left.
    - by apply (Hnc k v b c Hin Hft); right.
    - by apply (find_value_nondefault s k v). }
  by rewrite Hd in Hnone.
Qed.

Lemma merged_nonnull_r (s t r : PatriciaTree T) :
  canonical t -> t <> Null -> no_cancellation combine s t ->
  (forall k, merged combine (find_value k s) (find_value k t) (find_value k r)) ->
  r <> Null.
Proof.
  intros Hc Hn Hnc Hm ->. destruct (canonical_inhabited t Hc Hn) as (k & v & Hin).
  apply leaves_find_value in Hin; [|by apply canonical_well_formed].
  specialize (Hm k). rewrite Hin in Hm. simpl in Hm.
  destruct (find_value k s) as [a|] eqn:Hfs; [|done].
  destruct Hm as (c & Hcomb & Hnone).
  assert (Hd : is_default_value c = false).
  { destruct Hcomb as [Hcomb|[Hcomb|[-> ->]]].
    - by apply (Hnc k a v c Hfs Hin); left.
    - by apply (Hnc k a v c Hfs Hin); right.
    - by apply (find_value_nondefault t k v). }
  by rewrite Hd in Hnone.
Qed.

(** The leaf cases of [merge]: the binding of the leaf goes into the other
    tree by [update]. *)
Lemma merge_leaf_update (key : Z) (v : T) (t : PatriciaTree T) (n : nat) (H : heap T) :
  (forall x, combine default_value x = Ok x) ->
  in_range key -> is_default_value v = false ->
  canonical t -> heap_inv n H -> in_heap H t ->
  (forall b, find_value key t = Some b -> exists c, combine b v = Ok c) ->
  exists r n',
    update combine key v t n = Ok (r, n')
    /\ heap_post n H r n'
    /\ canonical r
    /\ (forall k, k <> key -> find_value k r = find_value k t)
    /\ match find_value key t with
       | None => find_value key r = Some v
       | Some b => exists c, combine b v = Ok c
                     /\ find_value key r = if is_default_value c then None else Some c
       end.
Proof.
  intros Hneutral Hkey Hv Hc Hinv Hin Htot.
  assert (Hcomb : exists c, combine (default default_value (find_value key t)) v = Ok c).
  { destruct (find_value key t) as [b|]; simpl; [by apply Htot|].
    exists v. apply Hneutral. }
  destruct Hcomb as (c & Hcomb).
  destruct (update_lookup combine key v c t n H Hc Hinv Hin Hkey Hcomb)
    as (r & n' & Hrun & Hfind & Hother & _).
  exists r, n'. split; [done|].
  split; [by apply (update_heap combine key v t n H r n')|].
  split; [by apply (update_canonical combine key v t n r n')|].
  split; [done|].
  destruct (find_value key t) as [b|]; simpl in Hcomb.
  - by exists c.
  - rewrite Hneutral in Hcomb. injection Hcomb as <-. by rewrite Hv in Hfind.
Qed.

Lemma combinable_sub (s t s' t' : PatriciaTree T) :
  (forall k v, find_value k s' = Some v -> find_value k s = Some v) ->
  (forall k v, find_value k t' = Some v -> find_value k t = Some v) ->
  combinable combine s t -> combinable combine s' t'.
Proof. intros Hs Ht Hc k a b Ha Hb. apply (Hc k); auto. Qed.

Lemma no_cancellation_sub (s t s' t' : PatriciaTree T) :
  (forall k v, find_value k s' = Some v -> find_value k s = Some v) ->
  (forall k v, find_value k t' = Some v -> find_value k t = Some v) ->
  no_cancellation combine s t -> no_cancellation combine s' t'.
Proof. intros Hs Ht Hc k a b c Ha Hb. apply (Hc k); auto. Qed.

Lemma find_value_branch_eq k a p b (l r : PatriciaTree T) :
  find_value k (Branch a p b l r)
  = if is_zero_bit k b then find_value k l else find_value k r.
Proof. reflexivity. Qed.

Lemma branch_canonical_rebuild x p i (l r : PatriciaTree T) :
  0 <= i < int_bits ->
  canonical l -> canonical r -> l <> Null -> r <> Null ->
  (forall k v, find_value k l = Some v ->
     match_prefix k p (2 ^ i) = true /\ is_zero_bit k (2 ^ i) = true) ->
  (forall k v, find_value k r = Some v ->
     match_prefix k p (2 ^ i) = true /\ is_zero_bit k (2 ^ i) = false) ->
  canonical (Branch x p (2 ^ i) l r).
Proof.
  intros Hi Hcl Hcr Hl Hr Hkl Hkr. simpl. do 2 (split; [done|]).
  split; [by exists i|]. split; [|split; [|done]].
  - intros k v Hin. apply (Hkl k v). apply leaves_find_value; [|done].
    by apply canonical_well_formed.
  - intros k v Hin. apply (Hkr k v). apply leaves_find_value; [|done].
    by apply canonical_well_formed.
Qed.

Lemma heap_post_step (n n1 n' : nat) (H H1 : heap T) (r : PatriciaTree T) :
  heap_inv n1 H1 -> (forall x, H x -> H1 x) -> (n <= n1)%nat ->
  heap_post n1 H1 r n' -> heap_post n H r n'.
Proof. intros _ Hsub Hle Hpost. by apply (heap_post_trans n n1 n' H H1). Qed.

Lemma merged_sym (oa ob oc : option T) :
  merged combine oa ob oc -> merged combine ob oa oc.
Proof.
  destruct oa as [a|], ob as [b|]; simpl; try done.
  intros (c & [Hc|[Hc|[Hab Hca]]] & Hoc); exists c; split; auto.
  right. right. split; congruence.
Qed.

(** Rebuilding a branch around the merge of its left subtree with a tree
    whose keys all belong on the left. *)
Lemma side_left a p i (l r other nl : PatriciaTree T) :
  0 <= i < int_bits -> canonical (Branch a p (2 ^ i) l r) ->
  (forall k v, find_value k other = Some v ->
     match_prefix k p (2 ^ i) = true /\ is_zero_bit k (2 ^ i) = true) ->
  (forall k, merged combine (find_value k l) (find_value k other) (find_value k nl)) ->
  (forall k, merged combine (find_value k (Branch a p (2 ^ i) l r)) (find_value k other)
               (if is_zero_bit k (2 ^ i) then find_value k nl else find_value k r))
  /\ (canonical nl -> nl <> Null -> forall x, canonical (Branch x p (2 ^ i) nl r)).
Proof.
  intros Hi Hc Hother Hm. pose proof Hc as (Hln & Hrn & _ & Hkl & Hkr & Hcl & Hcr). split.
  - intros k. simpl. destruct (is_zero_bit k (2 ^ i)) eqn:Hz; [apply Hm|].
    destruct (find_value k other) as [v|] eqn:Hf; [|apply merged_none_r].
    destruct (Hother k v Hf) as [_ Hz']. congruence.
  - intros Hcn Hnn x. apply branch_canonical_rebuild; [done..| |].
    + intros k v Hf. pose proof (Hm k) as Hk. rewrite Hf in Hk.
      apply merged_some in Hk as [[x' Hx]|[x' Hx]]; [|by apply (Hother k x')].
      destruct (find_value_left a p (2 ^ i) l r k x' Hc Hx) as [Hz Hfs].
      split; [by apply (find_value_branch a p (2 ^ i) l r k x')|done].
    + intros k v Hf.
      destruct (find_value_right a p (2 ^ i) l r k v Hc Hf) as [Hz Hfs].
      split; [by apply (find_value_branch a p (2 ^ i) l r k v)|done].
Qed.

Lemma side_right a p i (l r other nr : PatriciaTree T) :
  0 <= i < int_bits -> canonical (Branch a p (2 ^ i) l r) ->
  (forall k v, find_value k other = Some v ->
     match_prefix k p (2 ^ i) = true /\ is_zero_bit k (2 ^ i) = false) ->
  (forall k, merged combine (find_value k r) (find_value k other) (find_value k nr)) ->
  (forall k, merged combine (find_value k (Branch a p (2 ^ i) l r)) (find_value k other)
               (if is_zero_bit k (2 ^ i) then find_value k l else find_value k nr))
  /\ (canonical nr -> nr <> Null -> forall x, canonical (Branch x p (2 ^ i) l nr)).
Proof.
  intros Hi Hc Hother Hm. pose proof Hc as (Hln & Hrn & _ & Hkl & Hkr & Hcl & Hcr). split.
  - intros k. simpl. destruct (is_zero_bit k (2 ^ i)) eqn:Hz; [|apply Hm].
    destruct (find_value k other) as [v|] eqn:Hf; [|apply merged_none_r].
    destruct (Hother k v Hf) as [_ Hz']. congruence.
  - intros Hcn Hnn x. apply branch_canonical_rebuild; [done..| |].
    + intros k v Hf.
      destruct (find_value_left a p (2 ^ i) l r k v Hc Hf) as [Hz Hfs].
      split; [by apply (find_value_branch a p (2 ^ i) l r k v)|done].
    + intros k v Hf. pose proof (Hm k) as Hk. rewrite Hf in Hk.
      apply merged_some in Hk as [[x' Hx]|[x' Hx]]; [|by apply (Hother k x')].
      destruct (find_value_right a p (2 ^ i) l r k x' Hc Hx) as [Hz Hfs].
      split; [by apply (find_value_branch a p (2 ^ i) l r k x')|done].
Qed.

Lemma combinable_sym (s t : PatriciaTree T) : combinable combine s t -> combinable combine t s.
Proof.
  intros Hc k a b Ha Hb. destruct (Hc k b a Hb Ha) as (c & c' & H1 & H2). by exists c', c.
Qed.

Lemma no_cancellation_sym (s t : PatriciaTree T) :
  no_cancellation combine s t -> no_cancellation combine t s.
Proof. intros Hc k a b c Ha Hb Hor. apply (Hc k b a c Hb Ha). tauto. Qed.

Lemma merge_spec (s : PatriciaTree T) :
  (forall x, combine default_value x = Ok x) ->
  forall t n H,
  canonical s -> canonical t -> heap_inv n H -> in_heap H s -> in_heap H t ->
  combinable combine s t ->
  merge_post combine s t n H.
Proof.
  intros Hneutral.
  induction s as [|a k v|a p m s0 IH0 s1 IH1]; intros t n H Hcs Hct Hinv Hs Ht Htot.
  - (* the empty tree *)
    exists t, n. split; [by destruct t|]. split; [by apply heap_post_ret|].
    split; [intros k; apply merged_none_l|done].
  - (* a leaf on the left *)
    destruct (ptr_eq (Leaf a k v) t) eqn:Hptr.
    { apply (ptr_eq_true n H) in Hptr; [|done..]. subst t.
      exists (Leaf a k v), n. split; [by simpl; rewrite ptr_eq_refl|].
      split; [by apply heap_post_ret|]. split; [|done].
      intros k'. by apply merged_same. }
    destruct Hcs as [Hk Hv].
    assert (Htn : t = Null \/ t <> Null) by (destruct t; auto).
    destruct Htn as [->|Htn].
    { exists (Leaf a k v), n. split; [done|]. split; [by apply heap_post_ret|].
      split; [intros k'; apply merged_none_r|done]. }
    destruct (merge_leaf_update k v t n H Hneutral Hk Hv Hct Hinv Ht)
      as (r & n' & Hrun & Hpost & Hcr & Hother & Hkey).
    { intros b Hb. destruct (Htot k v b) as (c & c' & _ & Hc'); [|done|by exists c'].
      simpl. by rewrite Z.eqb_refl. }
    exists r, n'. split.
    { destruct t; [done| |]; simpl; simpl in Hptr; by rewrite Hptr. }
    split; [done|]. split; [|done].
    intros k'. simpl. destruct (Z.eqb_spec k' k) as [->|Hne].
    + destruct (find_value k t) as [b|].
      * destruct Hkey as (c & Hc & ->). simpl. exists c. auto.
      * by rewrite Hkey.
    + rewrite Hother by done. apply merged_none_l.
  - (* a branch on the left *)
    induction t as [|b k v|b q n0 t0 IHt0 t1 IHt1] in n, H, Hct, Hinv, Hs, Ht, Htot |- *.
    { exists (Branch a p m s0 s1), n. split; [done|]. split; [by apply heap_post_ret|].
      split; [intros k'; apply merged_none_r|done]. }
    { destruct Hct as [Hk Hv].
      destruct (merge_leaf_update k v (Branch a p m s0 s1) n H Hneutral Hk Hv Hcs Hinv Hs)
        as (r & n' & Hrun & Hpost & Hcr & Hother & Hkey).
      { intros a' Ha'. destruct (Htot k a' v) as (c & c' & Hc & _); [done| |by exists c].
        simpl. by rewrite Z.eqb_refl. }
      destruct (ptr_eq (Branch a p m s0 s1) (Leaf b k v)) eqn:Hptr.
      { by apply (ptr_eq_true n H) in Hptr. }
      exists r, n'. split; [simpl; simpl in Hptr; by rewrite Hptr|].
      split; [done|]. split; [|done].
      intros k'. cbn [find_value]. destruct (Z.eqb_spec k' k) as [->|Hne].
      + change (if is_zero_bit k m then find_value k s0 else find_value k s1)
          with (find_value k (Branch a p m s0 s1)) in *.
        destruct (find_value k (Branch a p m s0 s1)) as [a'|].
        * destruct Hkey as (c & Hc & ->). simpl. exists c. auto.
        * by rewrite Hkey.
      + rewrite Hother by done.
        change (if is_zero_bit k' m then find_value k' s0 else find_value k' s1)
          with (find_value k' (Branch a p m s0 s1)).
        apply merged_none_r. }
    pose proof Hcs as (Hs0n & Hs1n & (i & Hi & ->) & Hks0 & Hks1 & Hcs0 & Hcs1).
    pose proof Hct as (Ht0n & Ht1n & (j & Hj & ->) & Hkt0 & Hkt1 & Hct0 & Hct1).
    destruct (canonical_branch_keys a p i s0 s1 Hi Hcs) as [Hp Hpres].
    destruct (canonical_branch_keys b q j t0 t1 Hj Hct) as [Hq Hpret].
    pose proof Hs as [|Hs']; [done|]. pose proof Ht as [|Ht']; [done|].
    destruct (heap_closed n H Hinv _ _ _ _ _ Hs') as [Hhs0 Hhs1].
    destruct (heap_closed n H Hinv _ _ _ _ _ Ht') as [Hht0 Hht1].
    unfold merge_post. rewrite merge_branch_eq. cbv zeta.
    destruct (ptr_eq (Branch a p (2 ^ i) s0 s1) (Branch b q (2 ^ j) t0 t1)) eqn:Hptr.
    { apply (ptr_eq_true n H) in Hptr; [|done..]. rewrite <- Hptr.
      eexists _, _. split; [reflexivity|]. split; [by apply heap_post_ret|].
      split; [|done]. intros k. by apply merged_same. }
    destruct ((2 ^ i =? 2 ^ j) && (p =? q)) eqn:Hsame.
    { (* the same prefix and branching bit *)
      apply andb_true_iff in Hsame as [Hij Hpq].
      apply pow2_eqb in Hij; [|lia..]. apply Z.eqb_eq in Hpq. subst j q.
      destruct (IH0 t0 n H Hcs0 Hct0 Hinv Hhs0 Hht0)
        as (nl & n1 & Hrun1 & Hpost1 & Hm1 & Hc1).
      { eapply combinable_sub; [| |exact Htot]; intros k v Hf.
        - by apply (find_value_left a p (2 ^ i) s0 s1).
        - by apply (find_value_left b p (2 ^ i) t0 t1). }
      destruct Hpost1 as (H1 & Hinv1 & Hsub1 & Hnl1 & Hle1).
      destruct (IH1 t1 n1 H1 Hcs1 Hct1 Hinv1)
        as (nr & n2 & Hrun2 & Hpost2 & Hm2 & Hc2);
        [by eapply in_heap_mono|by eapply in_heap_mono| |].
      { eapply combinable_sub; [| |exact Htot]; intros k v Hf.
        - by apply (find_value_right a p (2 ^ i) s0 s1).
        - by apply (find_value_right b p (2 ^ i) t0 t1). }
      destruct Hpost2 as (H2 & Hinv2 & Hsub2 & Hnr2 & Hle2).
      unfold bind. rewrite Hrun1, Hrun2.
      assert (Hlook : forall k,
                merged combine (find_value k (Branch a p (2 ^ i) s0 s1))
                  (find_value k (Branch b p (2 ^ i) t0 t1))
                  (if is_zero_bit k (2 ^ i) then find_value k nl else find_value k nr)).
      { intros k. simpl. destruct (is_zero_bit k (2 ^ i)); [apply Hm1|apply Hm2]. }
      assert (Hcanon : no_cancellation combine (Branch a p (2 ^ i) s0 s1) (Branch b p (2 ^ i) t0 t1) ->
                forall x, canonical (Branch x p (2 ^ i) nl nr)).
      { intros Hnc x.
        assert (Hnc0 : no_cancellation combine s0 t0).
        { eapply no_cancellation_sub; [| |exact Hnc]; intros k v Hf.
          - by apply (find_value_left a p (2 ^ i) s0 s1).
          - by apply (find_value_left b p (2 ^ i) t0 t1). }
        assert (Hnc1 : no_cancellation combine s1 t1).
        { eapply no_cancellation_sub; [| |exact Hnc]; intros k v Hf.
          - by apply (find_value_right a p (2 ^ i) s0 s1).
          - by apply (find_value_right b p (2 ^ i) t0 t1). }
        apply branch_canonical_rebuild; [done|by apply Hc1|by apply Hc2| | | |].
        - by apply (merged_nonnull s0 t0).
        - by apply (merged_nonnull s1 t1).
        - intros k v Hf. pose proof (Hm1 k) as Hk. rewrite Hf in Hk.
          apply merged_some in Hk as [[x' Hx]|[x' Hx]].
          + destruct (find_value_left a p (2 ^ i) s0 s1 k x' Hcs Hx) as [Hz Hfs].
            split; [by apply (find_value_branch a p (2 ^ i) s0 s1 k x')|done].
          + destruct (find_value_left b p (2 ^ i) t0 t1 k x' Hct Hx) as [Hz Hft].
            split; [by apply (find_value_branch b p (2 ^ i) t0 t1 k x')|done].
        - intros k v Hf. pose proof (Hm2 k) as Hk. rewrite Hf in Hk.
          apply merged_some in Hk as [[x' Hx]|[x' Hx]].
          + destruct (find_value_right a p (2 ^ i) s0 s1 k x' Hcs Hx) as [Hz Hfs].
            split; [by apply (find_value_branch a p (2 ^ i) s0 s1 k x')|done].
          + destruct (find_value_right b p (2 ^ i) t0 t1 k x' Hct Hx) as [Hz Hft].
            split; [by apply (find_value_branch b p (2 ^ i) t0 t1 k x')|done]. }
      assert (Hsub : forall x, H x -> H2 x) by auto.
      destruct (ptr_eq nl s0 && ptr_eq nr s1) eqn:Hp1.
      { apply andb_true_iff in Hp1 as [Hpl Hpr].
        apply (ptr_eq_true n2 H2) in Hpl;
          [|done|by apply (in_heap_mono H1 H2)|by apply (in_heap_mono H H2)].
        apply (ptr_eq_true n2 H2) in Hpr;
          [|done|done|by apply (in_heap_mono H H2)].
        subst nl nr. eexists _, _. split; [reflexivity|].
        split; [|split; [exact Hlook|done]].
        exists H2. split; [done|]. split; [done|]. split; [right; auto|lia]. }
      destruct (ptr_eq nl t0 && ptr_eq nr t1) eqn:Hp2.
      { apply andb_true_iff in Hp2 as [Hpl Hpr].
        apply (ptr_eq_true n2 H2) in Hpl;
          [|done|by apply (in_heap_mono H1 H2)|by apply (in_heap_mono H H2)].
        apply (ptr_eq_true n2 H2) in Hpr;
          [|done|done|by apply (in_heap_mono H H2)].
        subst nl nr. eexists _, _. split; [reflexivity|].
        split; [|split; [exact Hlook|done]].
        exists H2. split; [done|]. split; [done|]. split; [right; auto|lia]. }
      eexists _, _. split; [reflexivity|]. split; [|split; [exact Hlook|]].
      - apply (heap_post_step n n2 (S n2) H H2); [done|done|lia|].
        apply (make_shared_branch_heap n2 H2 p (2 ^ i) nl nr); [done| |done|done].
        by apply (in_heap_mono H1 H2).
      - intros Hnc. by apply Hcanon. }
    destruct ((2 ^ i <? 2 ^ j) && match_prefix q p (2 ^ i)) eqn:Hsub_s.
    { (* the prefix of [t] extends that of [s] *)
      apply andb_true_iff in Hsub_s as [Hij Hmp]. apply pow2_ltb in Hij; [|lia..].
      assert (Hkeys : forall k v, find_value k (Branch b q (2 ^ j) t0 t1) = Some v ->
                match_prefix k p (2 ^ i) = true
                /\ is_zero_bit k (2 ^ i) = is_zero_bit q (2 ^ i)).
      { intros k v. by apply find_value_contained; [lia|lia|..]. }
      destruct (is_zero_bit q (2 ^ i)) eqn:Hzq.
      - destruct (IH0 (Branch b q (2 ^ j) t0 t1) n H Hcs0 Hct Hinv Hhs0 Ht)
          as (nl & n1 & Hrun1 & Hpost1 & Hm1 & Hc1).
        { eapply combinable_sub; [| |exact Htot]; intros k v Hf; [|done].
          by apply (find_value_left a p (2 ^ i) s0 s1). }
        destruct (side_left a p i s0 s1 (Branch b q (2 ^ j) t0 t1) nl Hi Hcs Hkeys Hm1)
          as [Hlook Hcanon].
        pose proof Hpost1 as (H1 & Hinv1 & Hsub1 & Hnl1 & Hle1).
        unfold bind. rewrite Hrun1.
        assert (Hcr : no_cancellation combine (Branch a p (2 ^ i) s0 s1) (Branch b q (2 ^ j) t0 t1) ->
                  forall x, canonical (Branch x p (2 ^ i) nl s1)).
        { intros Hnc.
          assert (Hnc0 : no_cancellation combine s0 (Branch b q (2 ^ j) t0 t1)).
          { eapply no_cancellation_sub; [| |exact Hnc]; intros k v Hf; [|done].
            by apply (find_value_left a p (2 ^ i) s0 s1). }
          apply Hcanon; [by apply Hc1|]. by apply (merged_nonnull s0 (Branch b q (2 ^ j) t0 t1)). }
        destruct (ptr_eq s0 nl) eqn:Hp1.
        + apply (ptr_eq_true n1 H1) in Hp1; [|done|by apply (in_heap_mono H H1)|done].
          subst nl. eexists _, _. split; [reflexivity|].
          split; [|split; [exact Hlook|done]].
          exists H1. split; [done|]. split; [done|]. split; [right; auto|lia].
        + eexists _, _. split; [reflexivity|]. split; [|split; [exact Hlook|]].
          * apply (heap_post_step n n1 (S n1) H H1); [done|done|lia|].
            apply (make_shared_branch_heap n1 H1 p (2 ^ i) nl s1); [done|done| |done].
            by apply (in_heap_mono H H1).
          * intros Hnc. by apply Hcr.
      - destruct (IH1 (Branch b q (2 ^ j) t0 t1) n H Hcs1 Hct Hinv Hhs1 Ht)
          as (nr & n1 & Hrun1 & Hpost1 & Hm1 & Hc1).
        { eapply combinable_sub; [| |exact Htot]; intros k v Hf; [|done].
          by apply (find_value_right a p (2 ^ i) s0 s1). }
        destruct (side_right a p i s0 s1 (Branch b q (2 ^ j) t0 t1) nr Hi Hcs Hkeys Hm1)
          as [Hlook Hcanon].
        pose proof Hpost1 as (H1 & Hinv1 & Hsub1 & Hnr1 & Hle1).
        unfold bind. rewrite Hrun1.
        assert (Hcr : no_cancellation combine (Branch a p (2 ^ i) s0 s1) (Branch b q (2 ^ j) t0 t1) ->
                  forall x, canonical (Branch x p (2 ^ i) s0 nr)).
        { intros Hnc.
          assert (Hnc1 : no_cancellation combine s1 (Branch b q (2 ^ j) t0 t1)).
          { eapply no_cancellation_sub; [| |exact Hnc]; intros k v Hf; [|done].
            by apply (find_value_right a p (2 ^ i) s0 s1). }
          apply Hcanon; [by apply Hc1|]. by apply (merged_nonnull s1 (Branch b q (2 ^ j) t0 t1)). }
        destruct (ptr_eq s1 nr) eqn:Hp1.
        + apply (ptr_eq_true n1 H1) in Hp1; [|done|by apply (in_heap_mono H H1)|done].
          subst nr. eexists _, _. split; [reflexivity|].
          split; [|split; [exact Hlook|done]].
          exists H1. split; [done|]. split; [done|]. split; [right; auto|lia].
        + eexists _, _. split; [reflexivity|]. split; [|split; [exact Hlook|]].
          * apply (heap_post_step n n1 (S n1) H H1); [done|done|lia|].
            apply (make_shared_branch_heap n1 H1 p (2 ^ i) s0 nr); [done| |done|done].
            by apply (in_heap_mono H H1).
          * intros Hnc. by apply Hcr. }
    destruct ((2 ^ j <? 2 ^ i) && match_prefix p q (2 ^ j)) eqn:Hsub_t.
    { (* the prefix of [s] extends that of [t] *)
      apply andb_true_iff in Hsub_t as [Hji Hmp]. apply pow2_ltb in Hji; [|lia..].
      assert (Hkeys : forall k v, find_value k (Branch a p (2 ^ i) s0 s1) = Some v ->
                match_prefix k q (2 ^ j) = true
                /\ is_zero_bit k (2 ^ j) = is_zero_bit p (2 ^ j)).
      { intros k v. by apply find_value_contained; [lia|lia|..]. }
      destruct (is_zero_bit p (2 ^ j)) eqn:Hzp.
      - destruct (IHt0 n H Hct0 Hinv Hs Hht0) as (nl & n1 & Hrun1 & Hpost1 & Hm1 & Hc1).
        { eapply combinable_sub; [| |exact Htot]; intros k v Hf; [done|].
          by apply (find_value_left b q (2 ^ j) t0 t1). }
        destruct (side_left b q j t0 t1 (Branch a p (2 ^ i) s0 s1) nl Hj Hct Hkeys)
          as [Hlook Hcanon].
        { intros k. apply merged_sym, Hm1. }
        pose proof Hpost1 as (H1 & Hinv1 & Hsub1 & Hnl1 & Hle1).
        unfold bind. rewrite Hrun1.
        assert (Hcr : no_cancellation combine (Branch a p (2 ^ i) s0 s1) (Branch b q (2 ^ j) t0 t1) ->
                  forall x, canonical (Branch x q (2 ^ j) nl t1)).
        { intros Hnc.
          assert (Hnc0 : no_cancellation combine (Branch a p (2 ^ i) s0 s1) t0).
          { eapply no_cancellation_sub; [| |exact Hnc]; intros k v Hf; [done|].
            by apply (find_value_left b q (2 ^ j) t0 t1). }
          apply Hcanon; [by apply Hc1|].
          by apply (merged_nonnull (Branch a p (2 ^ i) s0 s1) t0). }
        destruct (ptr_eq t0 nl) eqn:Hp1.
        + apply (ptr_eq_true n1 H1) in Hp1; [|done|by apply (in_heap_mono H H1)|done].
          subst nl. eexists _, _. split; [reflexivity|].
          split; [|split; [intros k; apply merged_sym, Hlook|done]].
          exists H1. split; [done|]. split; [done|]. split; [right; auto|lia].
        + eexists _, _. split; [reflexivity|].
          split; [|split; [intros k; apply merged_sym, Hlook|]].
          * apply (heap_post_step n n1 (S n1) H H1); [done|done|lia|].
            apply (make_shared_branch_heap n1 H1 q (2 ^ j) nl t1); [done|done| |done].
            by apply (in_heap_mono H H1).
          * intros Hnc. by apply Hcr.
      - destruct (IHt1 n H Hct1 Hinv Hs Hht1) as (nr & n1 & Hrun1 & Hpost1 & Hm1 & Hc1).
        { eapply combinable_sub; [| |exact Htot]; intros k v Hf; [done|].
          by apply (find_value_right b q (2 ^ j) t0 t1). }
        destruct (side_right b q j t0 t1 (Branch a p (2 ^ i) s0 s1) nr Hj Hct Hkeys)
          as [Hlook Hcanon].
        { intros k. apply merged_sym, Hm1. }
        pose proof Hpost1 as (H1 & Hinv1 & Hsub1 & Hnr1 & Hle1).
        unfold bind. rewrite Hrun1.
        assert (Hcr : no_cancellation combine (Branch a p (2 ^ i) s0 s1) (Branch b q (2 ^ j) t0 t1) ->
                  forall x, canonical (Branch x q (2 ^ j) t0 nr)).
        { intros Hnc.
          assert (Hnc1 : no_cancellation combine (Branch a p (2 ^ i) s0 s1) t1).
          { eapply no_cancellation_sub; [| |exact Hnc]; intros k v Hf; [done|].
            by apply (find_value_right b q (2 ^ j) t0 t1). }
          apply Hcanon; [by apply Hc1|].
          by apply (merged_nonnull (Branch a p (2 ^ i) s0 s1) t1). }
        destruct (ptr_eq t1 nr) eqn:Hp1.
        + apply (ptr_eq_true n1 H1) in Hp1; [|done|by apply (in_heap_mono H H1)|done].
          subst nr. eexists _, _. split; [reflexivity|].
          split; [|split; [intros k; apply merged_sym, Hlook|done]].
          exists H1. split; [done|]. split; [done|]. split; [right; auto|lia].
        + eexists _, _. split; [reflexivity|].
          split; [|split; [intros k; apply merged_sym, Hlook|]].
          * apply (heap_post_step n n1 (S n1) H H1); [done|done|lia|].
            apply (make_shared_branch_heap n1 H1 q (2 ^ j) t0 nr); [done| |done|done].
            by apply (in_heap_mono H H1).
          * intros Hnc. by apply Hcr. }
    (* the prefixes disagree *)
    assert (Hpow_i : 2 ^ i < 2 ^ int_bits) by (apply Z.pow_lt_mono_r; lia).
    assert (Hpow_j : 2 ^ j < 2 ^ int_bits) by (apply Z.pow_lt_mono_r; lia).
    assert (Hpr : in_range p) by (unfold in_range; lia).
    assert (Hqr : in_range q) by (unfold in_range; lia).
    assert (Hdiffer : p mod 2 ^ Z.min i j <> q mod 2 ^ Z.min i j).
    { destruct (Z.lt_trichotomy i j) as [Hlt|[Heq|Hgt]].
      - rewrite Z.min_l by lia. apply pow2_ltb in Hlt; [|lia..]. rewrite Hlt in Hsub_s.
        simpl in Hsub_s. unfold match_prefix in Hsub_s. apply Z.eqb_neq in Hsub_s.
        rewrite mask_pow2 in Hsub_s by lia. rewrite (Z.mod_small p) by lia. congruence.
      - subst j. rewrite Z.min_l by lia. rewrite Z.eqb_refl in Hsame. simpl in Hsame.
        apply Z.eqb_neq in Hsame. by rewrite !Z.mod_small by lia.
      - rewrite Z.min_r by lia. apply pow2_ltb in Hgt; [|lia..]. rewrite Hgt in Hsub_t.
        simpl in Hsub_t. unfold match_prefix in Hsub_t. apply Z.eqb_neq in Hsub_t.
        rewrite mask_pow2 in Hsub_t by lia. by rewrite (Z.mod_small q) by lia. }
    assert (Hne : p <> q) by (by intros ->).
    destruct (join_ok p (Branch a p (2 ^ i) s0 s1) q (Branch b q (2 ^ j) t0 t1) n)
      as (r & n' & Hrun).
    destruct (join_trees p q (Branch a p (2 ^ i) s0 s1) (Branch b q (2 ^ j) t0 t1)
                r n n' Hpr Hqr Hne) as [Hlook Hcanon]; [|exact Hrun|].
    { intros d Hd Hdiff Hlow.
      assert (Hdlt : d < Z.min i j) by (by apply (first_difference_below p q); [lia|..]).
      split; intros k v Hf x Hx; apply find_value_leaves in Hf.
      - apply (Hpres k v Hf). lia.
      - apply (Hpret k v Hf). lia. }
    exists r, n'. split; [done|].
    split; [by apply (join_heap n H p q (Branch a p (2 ^ i) s0 s1) (Branch b q (2 ^ j) t0 t1))|].
    split.
    + intros k. destruct (Hlook k) as [Hdisj ->]. by apply merged_disjoint.
    + intros _. by apply Hcanon.
Qed.

End MergeSpec.

Section IntersectSpec.
Variable combine : CombiningFunction T.

Lemma intersect_branch_eq a p m (s0 s1 : PatriciaTree T) b q n (t0 t1 : PatriciaTree T) :
  intersect combine (Branch a p m s0 s1) (Branch b q n t0 t1)
  = let s := Branch a p m s0 s1 in
    let t := Branch b q n t0 t1 in
    if ptr_eq s t then ret s
    else if (m =? n) && (p =? q) then
      do i0 <- intersect combine s0 t0 ;
      do i1 <- intersect combine s1 t1 ;
      merge use_available_value i0 i1
    else if (m <? n) && match_prefix q p m then
      intersect combine (if is_zero_bit q m then s0 else s1) t
    else if (n <? m) && match_prefix p q n then
      intersect combine s (if is_zero_bit p n then t0 else t1)
    else ret Null.
Proof. reflexivity. Qed.

Lemma intersected_none_r (oa oc : option T) :
  intersected combine oa None oc <-> oc = None.
Proof. by destruct oa. Qed.

Lemma intersected_none_l (ob oc : option T) :
  intersected combine None ob oc <-> oc = None.
Proof. done. Qed.

Lemma intersected_some (oa ob : option T) v :
  intersected combine oa ob (Some v) -> is_Some oa /\ is_Some ob.
Proof. destruct oa, ob; simpl; eauto; done. Qed.

Lemma intersected_sym (oa ob oc : option T) :
  intersected combine oa ob oc -> intersected combine ob oa oc.
Proof.
  destruct oa as [a|], ob as [b|]; simpl; try done.
  intros (c & [Hc|[Hc|[Hab Hca]]] & Hoc); exists c; split; auto.
  right. right. split; congruence.
Qed.

Lemma intersected_same (t : PatriciaTree T) k :
  canonical t ->
  intersected combine (find_value k t) (find_value k t) (find_value k t).
Proof.
  intros Hc. destruct (find_value k t) as [a|] eqn:Hf; [|done]. simpl.
  exists a. split; [auto|]. by rewrite (find_value_nondefault t k a).
Qed.

Lemma use_available_value_neutral (x : T) :
  use_available_value default_value x = Ok x.
Proof. unfold use_available_value. by rewrite default_value_is_default. Qed.

(** The leaf cases of [intersect]: the leaf at address [a] holds [(k, v)],
    the other tree binds [k] to [other]. *)
Lemma intersect_leaf (a : nat) (k : Z) (v : T) (other : option T) (n : nat) (H : heap T) :
  in_range k -> is_default_value v = false ->
  heap_inv n H -> H (Leaf a k v) ->
  (forall b, other = Some b -> exists c, combine v b = Ok c) ->
  exists r n',
    match other with
    | None => ret Null
    | Some value => combine_leaf combine value a k v
    end n = Ok (r, n')
    /\ heap_post n H r n'
    /\ canonical r
    /\ (forall k', k' <> k -> find_value k' r = None)
    /\ match other with
       | None => find_value k r = None
       | Some b => exists c, combine v b = Ok c
                     /\ find_value k r = if is_default_value c then None else Some c
       end.
Proof.
  intros Hk Hv Hinv Hleaf Htot. destruct other as [b|].
  - destruct (Htot b eq_refl) as (c & Hc).
    destruct (combine_leaf_run combine b a k v c n Hc) as (r & n' & Hrun & Hfind & _ & Hother).
    exists r, n'. split; [done|].
    split; [by apply (combine_leaf_heap combine b a k v n H)|].
    split; [|split; [done|by exists c]].
    apply combine_leaf_shape in Hrun as [->|[->|(a' & c' & -> & Hd)]]; done.
  - exists Null, n. split; [done|]. split; [apply heap_post_ret; [done|by left]|]. done.
Qed.

Lemma intersect_spec (s : PatriciaTree T) :
  forall t n H,
  canonical s -> canonical t -> heap_inv n H -> in_heap H s -> in_heap H t ->
  combinable combine s t ->
  intersect_post combine s t n H.
Proof.
  induction s as [|a k v|a p m s0 IH0 s1 IH1]; intros t n H Hcs Hct Hinv Hs Ht Htot.
  - exists Null, n. split; [by destruct t|]. split; [by apply heap_post_ret|].
    split; [done|]. intros k. done.
  - destruct (ptr_eq (Leaf a k v) t) eqn:Hptr.
    { apply (ptr_eq_true n H) in Hptr; [|done..]. subst t.
      exists (Leaf a k v), n. split; [by simpl; rewrite ptr_eq_refl|].
      split; [by apply heap_post_ret|]. split; [done|].
      intros k'. by apply intersected_same. }
    destruct Hcs as [Hk Hv].
    assert (Htn : t = Null \/ t <> Null) by (destruct t; auto).
    destruct Htn as [->|Htn].
    { exists Null, n. split; [done|]. split; [apply heap_post_ret; [done|by left]|].
      split; [done|]. intros k'. by apply intersected_none_r. }
    destruct Hs as [|Hs]; [done|].
    destruct (intersect_leaf a k v (find_value k t) n H Hk Hv Hinv Hs)
      as (r & n' & Hrun & Hpost & Hcr & Hother & Hkey).
    { intros b Hb. destruct (Htot k v b) as (c & c' & Hc & _); [|done|by exists c].
      simpl. by rewrite Z.eqb_refl. }
    exists r, n'. split.
    { destruct t; [done| |]; simpl; simpl in Hptr; by rewrite Hptr. }
    split; [done|]. split; [done|].
    intros k'. simpl. destruct (Z.eqb_spec k' k) as [->|Hne].
    + destruct (find_value k t) as [b|]; [|done].
      destruct Hkey as (c & Hc & ->). simpl. exists c. auto.
    + by rewrite Hother.
  - induction t as [|b k v|b q n0 t0 IHt0 t1 IHt1] in n, H, Hct, Hinv, Hs, Ht, Htot |- *.
    { exists Null, n. split; [done|]. split; [apply heap_post_ret; [done|by left]|].
      split; [done|]. intros k'. by apply intersected_none_r. }
    { destruct Hct as [Hk Hv]. destruct Ht as [|Ht]; [done|].
      destruct (intersect_leaf b k v (find_value k (Branch a p m s0 s1)) n H Hk Hv Hinv Ht)
        as (r & n' & Hrun & Hpost & Hcr & Hother & Hkey).
      { intros a' Ha'. destruct (Htot k a' v) as (c & c' & _ & Hc'); [done| |by exists c'].
        simpl. by rewrite Z.eqb_refl. }
      destruct (ptr_eq (Branch a p m s0 s1) (Leaf b k v)) eqn:Hptr.
      { apply (ptr_eq_true n H) in Hptr; [done|done|done|by right]. }
      exists r, n'. split; [simpl; simpl in Hptr; by rewrite Hptr|].
      split; [done|]. split; [done|].
      intros k'. apply intersected_sym. cbn [find_value].
      destruct (Z.eqb_spec k' k) as [->|Hne].
      + change (if is_zero_bit k m then find_value k s0 else find_value k s1)
          with (find_value k (Branch a p m s0 s1)) in *.
        destruct (find_value k (Branch a p m s0 s1)) as [a'|]; [|done].
        destruct Hkey as (c & Hc & ->). simpl. exists c. auto.
      + by rewrite Hother. }
    pose proof Hcs as (Hs0n & Hs1n & (i & Hi & ->) & Hks0 & Hks1 & Hcs0 & Hcs1).
    pose proof Hct as (Ht0n & Ht1n & (j & Hj & ->) & Hkt0 & Hkt1 & Hct0 & Hct1).
    destruct (canonical_branch_keys a p i s0 s1 Hi Hcs) as [Hp Hpres].
    destruct (canonical_branch_keys b q j t0 t1 Hj Hct) as [Hq Hpret].
    pose proof Hs as [|Hs']; [done|]. pose proof Ht as [|Ht']; [done|].
    destruct (heap_closed n H Hinv _ _ _ _ _ Hs') as [Hhs0 Hhs1].
    destruct (heap_closed n H Hinv _ _ _ _ _ Ht') as [Hht0 Hht1].
    unfold intersect_post. rewrite intersect_branch_eq. cbv zeta.
    destruct (ptr_eq (Branch a p (2 ^ i) s0 s1) (Branch b q (2 ^ j) t0 t1)) eqn:Hptr.
    { apply (ptr_eq_true n H) in Hptr; [|done..]. rewrite <- Hptr.
      eexists _, _. split; [reflexivity|]. split; [by apply heap_post_ret|].
      split; [done|]. intros k. by apply intersected_same. }
    destruct ((2 ^ i =? 2 ^ j) && (p =? q)) eqn:Hsame.
    { (* the same prefix and branching bit *)
      apply andb_true_iff in Hsame as [Hij Hpq].
      apply pow2_eqb in Hij; [|lia..]. apply Z.eqb_eq in Hpq. subst j q.
      destruct (IH0 t0 n H Hcs0 Hct0 Hinv Hhs0 Hht0)
        as (i0 & n1 & Hrun1 & Hpost1 & Hc1 & Hm1).
      { eapply combinable_sub; [| |exact Htot]; intros k v Hf.
        - by apply (find_value_left a p (2 ^ i) s0 s1).
        - by apply (find_value_left b p (2 ^ i) t0 t1). }
      destruct Hpost1 as (H1 & Hinv1 & Hsub1 & Hnl1 & Hle1).
      destruct (IH1 t1 n1 H1 Hcs1 Hct1 Hinv1)
        as (i1 & n2 & Hrun2 & Hpost2 & Hc2 & Hm2);
        [by apply (in_heap_mono H H1)|by apply (in_heap_mono H H1)| |].
      { eapply combinable_sub; [| |exact Htot]; intros k v Hf.
        - by apply (find_value_right a p (2 ^ i) s0 s1).
        - by apply (find_value_right b p (2 ^ i) t0 t1). }
      destruct Hpost2 as (H2 & Hinv2 & Hsub2 & Hnr2 & Hle2).
      unfold bind. rewrite Hrun1, Hrun2.
      assert (Hleft : forall k v, find_value k i0 = Some v -> is_zero_bit k (2 ^ i) = true).
      { intros k v Hf. pose proof (Hm1 k) as Hk. rewrite Hf in Hk.
        apply intersected_some in Hk as [[x Hx] _].
        by destruct (find_value_left a p (2 ^ i) s0 s1 k x Hcs Hx). }
      assert (Hright : forall k v, find_value k i1 = Some v -> is_zero_bit k (2 ^ i) = false).
      { intros k v Hf. pose proof (Hm2 k) as Hk. rewrite Hf in Hk.
        apply intersected_some in Hk as [[x Hx] _].
        by destruct (find_value_right a p (2 ^ i) s0 s1 k x Hcs Hx). }
      destruct (merge_spec use_available_value i0 use_available_value_neutral
                  i1 n2 H2 Hc1 Hc2 Hinv2)
        as (r & n' & Hrun & Hpost & Hm & Hcr);
        [by apply (in_heap_mono H1 H2)|done| |].
      { intros k x y Hx Hy. apply Hleft in Hx. apply Hright in Hy. congruence. }
      exists r, n'. split; [done|].
      split; [apply (heap_post_step n n2 n' H H2); auto; lia|].
      split.
      { apply Hcr. intros k x y c Hx Hy. apply Hleft in Hx. apply Hright in Hy. congruence. }
      intros k. simpl. specialize (Hm k).
      destruct (is_zero_bit k (2 ^ i)) eqn:Hz.
      - destruct (find_value k i1) as [y|] eqn:Hy; [apply Hright in Hy; congruence|].
        assert (find_value k r = find_value k i0) as -> by (by destruct (find_value k i0)).
        apply Hm1.
      - destruct (find_value k i0) as [x|] eqn:Hx; [apply Hleft in Hx; congruence|].
        assert (find_value k r = find_value k i1) as -> by (by destruct (find_value k i1)).
        apply Hm2. }
    destruct ((2 ^ i <? 2 ^ j) && match_prefix q p (2 ^ i)) eqn:Hsub_s.
    { (* the prefix of [t] extends that of [s] *)
      apply andb_true_iff in Hsub_s as [Hij Hmp]. apply pow2_ltb in Hij; [|lia..].
      assert (Hkeys : forall k v, find_value k (Branch b q (2 ^ j) t0 t1) = Some v ->
                match_prefix k p (2 ^ i) = true
                /\ is_zero_bit k (2 ^ i) = is_zero_bit q (2 ^ i)).
      { intros k v. by apply find_value_contained; [lia|lia|..]. }
      destruct (is_zero_bit q (2 ^ i)) eqn:Hzq.
      - destruct (IH0 (Branch b q (2 ^ j) t0 t1) n H Hcs0 Hct Hinv Hhs0 Ht)
          as (r & n' & Hrun & Hpost & Hcr & Hm).
        { eapply combinable_sub; [| |exact Htot]; intros k v Hf; [|done].
          by apply (find_value_left a p (2 ^ i) s0 s1). }
        exists r, n'. do 3 (split; [done|]). intros k. specialize (Hm k).
        destruct (find_value k (Branch b q (2 ^ j) t0 t1)) as [y|] eqn:Hy.
        + destruct (Hkeys k y Hy) as [_ Hz]. rewrite (find_value_branch_eq k a), Hz. done.
        + apply intersected_none_r. by apply intersected_none_r in Hm.
      - destruct (IH1 (Branch b q (2 ^ j) t0 t1) n H Hcs1 Hct Hinv Hhs1 Ht)
          as (r & n' & Hrun & Hpost & Hcr & Hm).
        { eapply combinable_sub; [| |exact Htot]; intros k v Hf; [|done].
          by apply (find_value_right a p (2 ^ i) s0 s1). }
        exists r, n'. do 3 (split; [done|]). intros k. specialize (Hm k).
        destruct (find_value k (Branch b q (2 ^ j) t0 t1)) as [y|] eqn:Hy.
        + destruct (Hkeys k y Hy) as [_ Hz]. rewrite (find_value_branch_eq k a), Hz. done.
        + apply intersected_none_r. by apply intersected_none_r in Hm. }
    destruct ((2 ^ j <? 2 ^ i) && match_prefix p q (2 ^ j)) eqn:Hsub_t.
    { (* the prefix of [s] extends that of [t] *)
      apply andb_true_iff in Hsub_t as [Hji Hmp]. apply pow2_ltb in Hji; [|lia..].
      assert (Hkeys : forall k v, find_value k (Branch a p (2 ^ i) s0 s1) = Some v ->
                match_prefix k q (2 ^ j) = true
                /\ is_zero_bit k (2 ^ j) = is_zero_bit p (2 ^ j)).
      { intros k v. by apply find_value_contained; [lia|lia|..]. }
      destruct (is_zero_bit p (2 ^ j)) eqn:Hzp.
      - destruct (IHt0 n H Hct0 Hinv Hs Hht0) as (r & n' & Hrun & Hpost & Hcr & Hm).
        { eapply combinable_sub; [| |exact Htot]; intros k v Hf; [done|].
          by apply (find_value_left b q (2 ^ j) t0 t1). }
        exists r, n'. do 3 (split; [done|]). intros k. specialize (Hm k).
        destruct (find_value k (Branch a p (2 ^ i) s0 s1)) as [x|] eqn:Hx.
        + destruct (Hkeys k x Hx) as [_ Hz]. rewrite (find_value_branch_eq k b), Hz. done.
        + done.
      - destruct (IHt1 n H Hct1 Hinv Hs Hht1) as (r & n' & Hrun & Hpost & Hcr & Hm).
        { eapply combinable_sub; [| |exact Htot]; intros k v Hf; [done|].
          by apply (find_value_right b q (2 ^ j) t0 t1). }
        exists r, n'. do 3 (split; [done|]). intros k. specialize (Hm k).
        destruct (find_value k (Branch a p (2 ^ i) s0 s1)) as [x|] eqn:Hx.
        + destruct (Hkeys k x Hx) as [_ Hz]. rewrite (find_value_branch_eq k b), Hz. done.
        + done. }
    (* the prefixes disagree *)
    assert (Hpow_i : 2 ^ i < 2 ^ int_bits) by (apply Z.pow_lt_mono_r; lia).
    assert (Hpow_j : 2 ^ j < 2 ^ int_bits) by (apply Z.pow_lt_mono_r; lia).
    assert (Hpr : in_range p) by (unfold in_range; lia).
    assert (Hqr : in_range q) by (unfold in_range; lia).
    assert (Hdiffer : p mod 2 ^ Z.min i j <> q mod 2 ^ Z.min i j).
    { destruct (Z.lt_trichotomy i j) as [Hlt|[Heq|Hgt]].
      - rewrite Z.min_l by lia. apply pow2_ltb in Hlt; [|lia..]. rewrite Hlt in Hsub_s.
        simpl in Hsub_s. unfold match_prefix in Hsub_s. apply Z.eqb_neq in Hsub_s.
        rewrite mask_pow2 in Hsub_s by lia. rewrite (Z.mod_small p) by lia. congruence.
      - subst j. rewrite Z.min_l by lia. rewrite Z.eqb_refl in Hsame. simpl in Hsame.
        apply Z.eqb_neq in Hsame. by rewrite !Z.mod_small by lia.
      - rewrite Z.min_r by lia. apply pow2_ltb in Hgt; [|lia..]. rewrite Hgt in Hsub_t.
        simpl in Hsub_t. unfold match_prefix in Hsub_t. apply Z.eqb_neq in Hsub_t.
        rewrite mask_pow2 in Hsub_t by lia. by rewrite (Z.mod_small q) by lia. }
    assert (Hne : p <> q) by (by intros ->).
    destruct (get_branching_bit_spec p q Hpr Hqr Hne) as (d & Hd & _ & Hdiff & Hlow).
    assert (Hdlt : d < Z.min i j) by (by apply (first_difference_below p q); [lia|..]).
    exists Null, n. split; [done|]. split; [apply heap_post_ret; [done|by left]|].
    split; [done|]. intros k.
    destruct (find_value k (Branch a p (2 ^ i) s0 s1)) as [x|] eqn:Hx; [|done].
    destruct (find_value k (Branch b q (2 ^ j) t0 t1)) as [y|] eqn:Hy; [|done].
    exfalso. apply find_value_leaves in Hx, Hy. apply Hdiff.
    rewrite <- (Hpres k x Hx d) by lia. apply (Hpret k y Hy d). lia.
Qed.

End IntersectSpec.

End MergeFacts.

Section UnionIntersection.
Context {T : Type} `{VT : Value T} {VL : ValueLaws T}.

Lemma combinable_pure (g : T -> T -> T) (s t : PatriciaTree T) :
  combinable (fun a b => Ok (g a b)) s t.
Proof. intros k a b _ _. by eexists _, _. Qed.

(** X9.  [union_with] is pointwise: for a combining function [g] that does
    not throw, is commutative and idempotent and has the default value as
    left unit, the union of two maps built with [update], [insert_or_assign]
    and [erase_all_matching] has [g (at m1 k) (at m2 k)] at every key [k]. *)
Theorem union_with_pointwise (g : T -> T -> T) (ms : list (PatriciaTreeMap T))
    (n : nat) (m1 m2 : PatriciaTreeMap T) :
  built ms n -> m1 ∈ ms -> m2 ∈ ms ->
  (forall a b, g a b = g b a) ->
  (forall a, g a a = a) ->
  (forall a, g default_value a = a) ->
  exists m' n',
    union_with (fun a b => Ok (g a b)) m1 m2 n = Ok (m', n')
    /\ forall k, at_ m' k = g (at_ m1 k) (at_ m2 k).
Proof.
  intros Hb Hm1 Hm2 Hcomm Hidem Hneutral.
  destruct (built_invariant ms n Hb) as (H & Hinv & Hall).
  destruct (Hall m1 Hm1) as [Hin1 Hc1]. destruct (Hall m2 Hm2) as [Hin2 Hc2].
  assert (Hn : forall x, (fun a b => Ok (g a b)) default_value x = Ok x).
  { intros x. simpl. by rewrite Hneutral. }
  destruct (merge_spec (fun a b => Ok (g a b)) (m_tree m1) Hn (m_tree m2) n H
              Hc1 Hc2 Hinv Hin1 Hin2 (combinable_pure g _ _))
    as (r & n' & Hrun & _ & Hm & _).
  exists {| m_tree := r |}, n'. split; [unfold union_with, bind; by rewrite Hrun|].
  intros k. specialize (Hm k). unfold at_. simpl.
  destruct (find_value k (m_tree m1)) as [a|], (find_value k (m_tree m2)) as [b|];
    simpl in Hm.
  - destruct Hm as (c & Hc & ->).
    assert (c = g a b) as ->.
    { destruct Hc as [[= <-]|[[= <-]|[-> ->]]]; [done|by rewrite Hcomm|by rewrite Hidem]. }
    destruct (is_default_value (g a b)) eqn:Hd; [|done].
    symmetry. by apply is_default_value_spec.
  - rewrite Hm. by rewrite Hcomm, Hneutral.
  - rewrite Hm. by rewrite Hneutral.
  - rewrite Hm. by rewrite Hidem.
Qed.

(** X10.  [union_with] keeps canonical form when no combination cancels: if
    [g] has the default value as left unit and gives no default value on two
    non-default values, the union of two built maps is in canonical form, and
    binds a key exactly when one of the two maps does. *)
Theorem union_with_without_cancellation (g : T -> T -> T)
    (ms : list (PatriciaTreeMap T)) (n : nat) (m1 m2 : PatriciaTreeMap T) :
  built ms n -> m1 ∈ ms -> m2 ∈ ms ->
  (forall a, g default_value a = a) ->
  (forall a b, is_default_value a = false -> is_default_value b = false ->
     is_default_value (g a b) = false) ->
  exists m' n',
    union_with (fun a b => Ok (g a b)) m1 m2 n = Ok (m', n')
    /\ invariant n' m'
    /\ forall k, is_default_value (at_ m' k)
                 = is_default_value (at_ m1 k) && is_default_value (at_ m2 k).
Proof.
  intros Hb Hm1 Hm2 Hneutral Hnc.
  destruct (built_invariant ms n Hb) as (H & Hinv & Hall).
  destruct (Hall m1 Hm1) as [Hin1 Hc1]. destruct (Hall m2 Hm2) as [Hin2 Hc2].
  assert (Hn : forall x, (fun a b => Ok (g a b)) default_value x = Ok x).
  { intros x. simpl. by rewrite Hneutral. }
  destruct (merge_spec (fun a b => Ok (g a b)) (m_tree m1) Hn (m_tree m2) n H
              Hc1 Hc2 Hinv Hin1 Hin2 (combinable_pure g _ _))
    as (r & n' & Hrun & Hpost & Hm & Hcr).
  assert (Hnc' : no_cancellation (fun a b => Ok (g a b)) (m_tree m1) (m_tree m2)).
  { intros k a b c Ha Hb' Hc.
    apply find_value_nondefault in Ha; [|done]. apply find_value_nondefault in Hb'; [|done].
    destruct Hc as [[= <-]|[= <-]]; by apply Hnc. }
  exists {| m_tree := r |}, n'. split; [unfold union_with, bind; by rewrite Hrun|].
  split; [apply (heap_post_invariant n n' H); auto|].
  intros k. specialize (Hm k). unfold at_. simpl.
  destruct (find_value k (m_tree m1)) as [a|] eqn:Ha,
           (find_value k (m_tree m2)) as [b|] eqn:Hb'; simpl in Hm.
  - apply find_value_nondefault in Ha; [|done]. apply find_value_nondefault in Hb'; [|done].
    destruct Hm as (c & Hc & ->).
    assert (Hd : is_default_value c = false).
    { destruct Hc as [[= <-]|[[= <-]|[-> ->]]]; [by apply Hnc|by apply Hnc|done]. }
    by rewrite Hd, Hd, Ha.
  - rewrite Hm. apply find_value_nondefault in Ha; [|done]. by rewrite Ha.
  - rewrite Hm. apply find_value_nondefault in Hb'; [|done]. by rewrite Hb', andb_false_r.
  - rewrite Hm. by rewrite default_value_is_default.
Qed.

(** X11.  [intersection_with] is pointwise: for a combining function [g]
    that does not throw and is commutative and idempotent, the intersection
    of two built maps has [g (at m1 k) (at m2 k)] at the keys both maps bind
    and the default value at all others, and is in canonical form. *)
Theorem intersection_with_pointwise (g : T -> T -> T) (ms : list (PatriciaTreeMap T))
    (n : nat) (m1 m2 : PatriciaTreeMap T) :
  built ms n -> m1 ∈ ms -> m2 ∈ ms ->
  (forall a b, g a b = g b a) ->
  (forall a, g a a = a) ->
  exists m' n',
    intersection_with (fun a b => Ok (g a b)) m1 m2 n = Ok (m', n')
    /\ invariant n' m'
    /\ forall k, at_ m' k
                 = if is_default_value (at_ m1 k) || is_default_value (at_ m2 k)
                   then default_value else g (at_ m1 k) (at_ m2 k).
Proof.
  intros Hb Hm1 Hm2 Hcomm Hidem.
  destruct (built_invariant ms n Hb) as (H & Hinv & Hall).
  destruct (Hall m1 Hm1) as [Hin1 Hc1]. destruct (Hall m2 Hm2) as [Hin2 Hc2].
  destruct (intersect_spec (fun a b => Ok (g a b)) (m_tree m1) (m_tree m2) n H
              Hc1 Hc2 Hinv Hin1 Hin2 (combinable_pure g _ _))
    as (r & n' & Hrun & Hpost & Hcr & Hm).
  exists {| m_tree := r |}, n'.
  split; [unfold intersection_with, bind; by rewrite Hrun|].
  split; [by apply (heap_post_invariant n n' H)|].
  intros k. specialize (Hm k). unfold at_. simpl.
  destruct (find_value k (m_tree m1)) as [a|] eqn:Ha,
           (find_value k (m_tree m2)) as [b|] eqn:Hb'; simpl in Hm.
  - apply find_value_nondefault in Ha; [|done]. apply find_value_nondefault in Hb'; [|done].
    rewrite Ha, Hb'. simpl. destruct Hm as (c & Hc & ->).
    assert (c = g a b) as ->.
    { destruct Hc as [[= <-]|[[= <-]|[-> ->]]]; [done|by rewrite Hcomm|by rewrite Hidem]. }
    destruct (is_default_value (g a b)) eqn:Hd; [|done].
    symmetry. by apply is_default_value_spec.
  - rewrite Hm. by rewrite default_value_is_default, orb_true_r.
  - rewrite Hm. by rewrite default_value_is_default.
  - rewrite Hm. by rewrite default_value_is_default.
Qed.

End UnionIntersection.

Section LeqFacts.
Context {T : Type} `{VT : Value T} {VL : ValueLaws T} `{AV : AbstractValue T}.

Hypothesis default_top : is_top (default_value : T) = true.
Hypothesis leq_refl : forall a : T, leq_value a a = true.
Hypothesis leq_top : forall a : T, leq_value a default_value = true.
Hypothesis top_leq : forall b : T, leq_value default_value b = true -> b = default_value.

Lemma unbound_not_leq (s t : PatriciaTree T) k v :
  canonical t -> find_value k t = Some v -> find_value k s = None ->
  ~ (forall k, leq_value (value_at s k) (value_at t k) = true).
Proof.
  intros Hc Hft Hfs Hall. specialize (Hall k). unfold value_at in Hall.
  rewrite Hft, Hfs in Hall. simpl in Hall. apply top_leq in Hall. subst v.
  apply find_value_nondefault in Hft; [|done].
  by rewrite default_value_is_default in Hft.
Qed.

Lemma leq_branch_eq a p m (s0 s1 : PatriciaTree T) b q n (t0 t1 : PatriciaTree T) :
  leq (Branch a p m s0 s1) (Branch b q n t0 t1)
  = let s := Branch a p m s0 s1 in
    let t := Branch b q n t0 t1 in
    if ptr_eq s t then true
    else if (m =? n) && (p =? q) then leq s0 t0 && leq s1 t1
    else if (m <? n) && match_prefix q p m then
      leq (if is_zero_bit q m then s0 else s1) t
    else negb (is_top (default_value : T)).
Proof. reflexivity. Qed.

Lemma value_at_branch k a p b (l r : PatriciaTree T) :
  value_at (Branch a p b l r) k
  = if is_zero_bit k b then value_at l k else value_at r k.
Proof. unfold value_at. simpl. by destruct (is_zero_bit k b). Qed.

Lemma value_at_unbound (t : PatriciaTree T) k :
  find_value k t = None -> value_at t k = default_value.
Proof. unfold value_at. by intros ->. Qed.

Lemma leq_spec (s : PatriciaTree T) :
  forall t n (H : heap T),
  canonical s -> canonical t -> heap_inv n H -> in_heap H s -> in_heap H t ->
  leq s t = true <-> forall k, leq_value (value_at s k) (value_at t k) = true.
Proof.
  induction s as [|a k1 v1|a p m s0 IH0 s1 IH1]; intros t n H Hcs Hct Hinv Hs Ht.
  - destruct t as [|b k2 v2|b q n0 t0 t1]; [done| |].
    + simpl. rewrite default_top. simpl. split; [done|]. intros Hall. exfalso.
      apply (unbound_not_leq Null (Leaf b k2 v2) k2 v2); [done| |done|done].
      simpl. by rewrite Z.eqb_refl.
    + simpl. rewrite default_top. simpl. split; [done|]. intros Hall. exfalso.
      destruct (canonical_inhabited _ Hct ltac:(done)) as (k & v & Hin).
      apply leaves_find_value in Hin; [|by apply canonical_well_formed].
      by apply (unbound_not_leq Null (Branch b q n0 t0 t1) k v).
  - destruct (ptr_eq (Leaf a k1 v1) t) eqn:Hptr.
    { apply (ptr_eq_true n H) in Hptr; [|done..]. subst t. simpl. rewrite ptr_eq_refl.
      split; [|done]. intros _ k. apply leq_refl. }
    destruct t as [|b k2 v2|b q n0 t0 t1].
    + simpl. rewrite default_top. split; [|done]. intros _ k. apply leq_top.
    + simpl. simpl in Hptr. rewrite Hptr. rewrite andb_true_iff, Z.eqb_eq. split.
      * intros [-> Hv] k. unfold value_at. simpl.
        destruct (k =? k2); simpl; [done|apply leq_refl].
      * intros Hall. destruct (Z.eq_dec k1 k2) as [->|Hne].
        -- split; [done|]. specialize (Hall k2). unfold value_at in Hall. simpl in Hall.
           by rewrite Z.eqb_refl in Hall.
        -- exfalso. apply (unbound_not_leq (Leaf a k1 v1) (Leaf b k2 v2) k2 v2); [done| | |done].
           ++ simpl. by rewrite Z.eqb_refl.
           ++ simpl. destruct (Z.eqb_spec k2 k1); [congruence|done].
    + simpl. simpl in Hptr. rewrite Hptr, default_top. simpl. split; [done|].
      intros Hall. exfalso.
      pose proof Hct as (_ & _ & (j & Hj & ->) & _).
      destruct (canonical_branch_split b q j t0 t1 Hj Hct)
        as (kl & vl & kr & vr & Hinl & Hinr & Hbl & Hbr).
      assert (Hfl : find_value kl (Branch b q (2 ^ j) t0 t1) = Some vl).
      { apply leaves_find_value; [by apply canonical_well_formed|].
        simpl. apply elem_of_app. by left. }
      assert (Hfr : find_value kr (Branch b q (2 ^ j) t0 t1) = Some vr).
      { apply leaves_find_value; [by apply canonical_well_formed|].
        simpl. apply elem_of_app. by right. }
      destruct (Z.eq_dec kl k1) as [->|Hne].
      * apply (unbound_not_leq (Leaf a k1 v1) _ kr vr Hct Hfr); [|done].
        simpl. destruct (Z.eqb_spec kr k1); [congruence|done].
      * apply (unbound_not_leq (Leaf a k1 v1) _ kl vl Hct Hfl); [|done].
        simpl. destruct (Z.eqb_spec kl k1); [congruence|done].
  - destruct (ptr_eq (Branch a p m s0 s1) t) eqn:Hptr.
    { apply (ptr_eq_true n H) in Hptr; [|done..]. subst t. simpl. rewrite ptr_eq_refl.
      split; [|done]. intros _ k. apply leq_refl. }
    destruct t as [|b k2 v2|b q n0 t0 t1].
    + simpl. rewrite default_top. split; [|done]. intros _ k. apply leq_top.
    + cbn [leq]. rewrite Hptr.
      assert (Hat : match find_value k2 (Branch a p m s0 s1) with
                    | Some s_value => leq_value s_value v2
                    | None => leq_value default_value v2
                    end = leq_value (value_at (Branch a p m s0 s1) k2) v2).
      { unfold value_at. by destruct (find_value k2 (Branch a p m s0 s1)). }
      rewrite Hat. clear Hat. split.
      * intros Hv k. unfold value_at at 2. simpl.
        destruct (Z.eqb_spec k k2) as [->|]; simpl; [done|apply leq_top].
      * intros Hall. specialize (Hall k2). unfold value_at at 2 in Hall. simpl in Hall.
        by rewrite Z.eqb_refl in Hall.
    + pose proof Hcs as (Hs0n & Hs1n & (i & Hi & ->) & Hks0 & Hks1 & Hcs0 & Hcs1).
      pose proof Hct as (Ht0n & Ht1n & (j & Hj & ->) & Hkt0 & Hkt1 & Hct0 & Hct1).
      destruct (canonical_branch_keys a p i s0 s1 Hi Hcs) as [Hp Hpres].
      destruct (canonical_branch_keys b q j t0 t1 Hj Hct) as [Hq Hpret].
      pose proof Hs as [|Hs']; [done|]. pose proof Ht as [|Ht']; [done|].
      destruct (heap_closed n H Hinv _ _ _ _ _ Hs') as [Hhs0 Hhs1].
      destruct (heap_closed n H Hinv _ _ _ _ _ Ht') as [Hht0 Hht1].
      rewrite leq_branch_eq. cbv zeta. rewrite Hptr.
      assert (Hwl : forall (a' : nat) p' b' (l r : PatriciaTree T) k,
                canonical (Branch a' p' b' l r) -> is_zero_bit k b' = false ->
                find_value k l = None).
      { intros a' p' b' l r k Hc Hz. destruct (find_value k l) as [v|] eqn:Hf; [|done].
        destruct (find_value_left a' p' b' l r k v Hc Hf). congruence. }
      assert (Hwr : forall (a' : nat) p' b' (l r : PatriciaTree T) k,
                canonical (Branch a' p' b' l r) -> is_zero_bit k b' = true ->
                find_value k r = None).
      { intros a' p' b' l r k Hc Hz. destruct (find_value k r) as [v|] eqn:Hf; [|done].
        destruct (find_value_right a' p' b' l r k v Hc Hf). congruence. }
      destruct ((2 ^ i =? 2 ^ j) && (p =? q)) eqn:Hsame.
      { apply andb_true_iff in Hsame as [Hij Hpq].
        apply pow2_eqb in Hij; [|lia..]. apply Z.eqb_eq in Hpq. subst j q.
        rewrite andb_true_iff.
        rewrite (IH0 t0 n H Hcs0 Hct0 Hinv Hhs0 Hht0).
        rewrite (IH1 t1 n H Hcs1 Hct1 Hinv Hhs1 Hht1). split.
        - intros [Hl Hr] k. rewrite !value_at_branch.
          destruct (is_zero_bit k (2 ^ i)); auto.
        - intros Hall. split; intros k; specialize (Hall k);
            rewrite !value_at_branch in Hall;
            destruct (is_zero_bit k (2 ^ i)) eqn:Hz; try done.
          + rewrite !value_at_unbound; [done|by eapply Hwl..].
          + rewrite !value_at_unbound; [done|by eapply Hwr..]. }
      destruct ((2 ^ i <? 2 ^ j) && match_prefix q p (2 ^ i)) eqn:Hsub_s.
      { apply andb_true_iff in Hsub_s as [Hij Hmp]. apply pow2_ltb in Hij; [|lia..].
        assert (Hkeys : forall k v, find_value k (Branch b q (2 ^ j) t0 t1) = Some v ->
                  match_prefix k p (2 ^ i) = true
                  /\ is_zero_bit k (2 ^ i) = is_zero_bit q (2 ^ i)).
        { intros k v. by apply find_value_contained; [lia|lia|..]. }
        assert (Hoff : forall k, is_zero_bit k (2 ^ i) <> is_zero_bit q (2 ^ i) ->
                  value_at (Branch b q (2 ^ j) t0 t1) k = default_value).
        { intros k Hz. apply value_at_unbound.
          destruct (find_value k (Branch b q (2 ^ j) t0 t1)) as [v|] eqn:Hf; [|done].
          by destruct (Hkeys k v Hf). }
        destruct (is_zero_bit q (2 ^ i)) eqn:Hzq.
        - rewrite (IH0 (Branch b q (2 ^ j) t0 t1) n H Hcs0 Hct Hinv Hhs0 Ht). split.
          + intros Hall k. rewrite (value_at_branch k a).
            destruct (is_zero_bit k (2 ^ i)) eqn:Hz; [done|].
            rewrite Hoff by congruence. apply leq_top.
          + intros Hall k. specialize (Hall k). rewrite (value_at_branch k a) in Hall.
            destruct (is_zero_bit k (2 ^ i)) eqn:Hz; [done|].
            rewrite Hoff by congruence. apply leq_top.
        - rewrite (IH1 (Branch b q (2 ^ j) t0 t1) n H Hcs1 Hct Hinv Hhs1 Ht). split.
          + intros Hall k. rewrite (value_at_branch k a).
            destruct (is_zero_bit k (2 ^ i)) eqn:Hz; [|done].
            rewrite Hoff by congruence. apply leq_top.
          + intros Hall k. specialize (Hall k). rewrite (value_at_branch k a) in Hall.
            destruct (is_zero_bit k (2 ^ i)) eqn:Hz; [|done].
            rewrite Hoff by congruence. apply leq_top. }
      (* some key of [t] is not bound in [s] *)
      rewrite default_top. simpl. split; [done|]. intros Hall. exfalso.
      assert (Hmissing : exists k v, find_value k (Branch b q (2 ^ j) t0 t1) = Some v
                           /\ find_value k (Branch a p (2 ^ i) s0 s1) = None).
      { destruct (canonical_branch_split b q j t0 t1 Hj Hct)
          as (kl & vl & kr & vr & Hinl & Hinr & Hbl & Hbr).
        assert (Hfl : find_value kl (Branch b q (2 ^ j) t0 t1) = Some vl).
        { apply leaves_find_value; [by apply canonical_well_formed|].
          simpl. apply elem_of_app. by left. }
        assert (Hfr : find_value kr (Branch b q (2 ^ j) t0 t1) = Some vr).
        { apply leaves_find_value; [by apply canonical_well_formed|].
          simpl. apply elem_of_app. by right. }
        destruct ((2 ^ j <? 2 ^ i) && match_prefix p q (2 ^ j)) eqn:Hsub_t.
        - apply andb_true_iff in Hsub_t as [Hji Hmp]. apply pow2_ltb in Hji; [|lia..].
          assert (Hkeys : forall k v, find_value k (Branch a p (2 ^ i) s0 s1) = Some v ->
                    match_prefix k q (2 ^ j) = true
                    /\ is_zero_bit k (2 ^ j) = is_zero_bit p (2 ^ j)).
          { intros k v. by apply find_value_contained; [lia|lia|..]. }
          destruct (is_zero_bit p (2 ^ j)) eqn:Hzp.
          + exists kr, vr. split; [done|].
            destruct (find_value kr (Branch a p (2 ^ i) s0 s1)) as [v|] eqn:Hf; [|done].
            destruct (Hkeys kr v Hf) as [_ Hz]. rewrite is_zero_bit_pow2 in Hz by lia.
            by rewrite Hbr in Hz.
          + exists kl, vl. split; [done|].
            destruct (find_value kl (Branch a p (2 ^ i) s0 s1)) as [v|] eqn:Hf; [|done].
            destruct (Hkeys kl v Hf) as [_ Hz]. rewrite is_zero_bit_pow2 in Hz by lia.
            by rewrite Hbl in Hz.
        - assert (Hpow_i : 2 ^ i < 2 ^ int_bits) by (apply Z.pow_lt_mono_r; lia).
          assert (Hpow_j : 2 ^ j < 2 ^ int_bits) by (apply Z.pow_lt_mono_r; lia).
          assert (Hpr : in_range p) by (unfold in_range; lia).
          assert (Hqr : in_range q) by (unfold in_range; lia).
          assert (Hdiffer : p mod 2 ^ Z.min i j <> q mod 2 ^ Z.min i j).
          { destruct (Z.lt_trichotomy i j) as [Hlt|[Heq|Hgt]].
            - rewrite Z.min_l by lia. apply pow2_ltb in Hlt; [|lia..]. rewrite Hlt in Hsub_s.
              simpl in Hsub_s. unfold match_prefix in Hsub_s. apply Z.eqb_neq in Hsub_s.
              rewrite mask_pow2 in Hsub_s by lia. rewrite (Z.mod_small p) by lia. congruence.
            - subst j. rewrite Z.min_l by lia. rewrite Z.eqb_refl in Hsame. simpl in Hsame.
              apply Z.eqb_neq in Hsame. by rewrite !Z.mod_small by lia.
            - rewrite Z.min_r by lia. apply pow2_ltb in Hgt; [|lia..]. rewrite Hgt in Hsub_t.
              simpl in Hsub_t. unfold match_prefix in Hsub_t. apply Z.eqb_neq in Hsub_t.
              rewrite mask_pow2 in Hsub_t by lia. by rewrite (Z.mod_small q) by lia. }
          assert (Hne : p <> q) by (by intros ->).
          destruct (get_branching_bit_spec p q Hpr Hqr Hne) as (d & Hd & _ & Hdiff & Hlow).
          assert (Hdlt : d < Z.min i j) by (by apply (first_difference_below p q); [lia|..]).
          exists kl, vl. split; [done|].
          destruct (find_value kl (Branch a p (2 ^ i) s0 s1)) as [v|] eqn:Hf; [|done].
          exfalso. apply find_value_leaves in Hf, Hfl. apply Hdiff.
          rewrite <- (Hpres kl v Hf d) by lia. apply (Hpret kl vl Hfl d). lia. }
      destruct Hmissing as (k & v & Hft & Hfs).
      by apply (unbound_not_leq (Branch a p (2 ^ i) s0 s1) (Branch b q (2 ^ j) t0 t1) k v).
Qed.

End LeqFacts.

Section LeqMap.
Context {T : Type} `{VT : Value T} {VL : ValueLaws T} `{AV : AbstractValue T}.

(** X12.  [leq] is the pointwise order when unbound keys stand for Top: if
    the default value is Top, [Value::leq] is reflexive, every value is below
    the default value and only the default value is above it, then
    [m1.leq(m2)] holds exactly when [Value::leq (at m1 k) (at m2 k)] holds at
    every key [k], for maps built with [update], [insert_or_assign] and
    [erase_all_matching]. *)
Theorem map_leq_pointwise (ms : list (PatriciaTreeMap T)) (n : nat)
    (m1 m2 : PatriciaTreeMap T) :
  is_top (default_value : T) = true ->
  (forall a : T, leq_value a a = true) ->
  (forall a : T, leq_value a default_value = true) ->
  (forall b : T, leq_value default_value b = true -> b = default_value) ->
  built ms n -> m1 ∈ ms -> m2 ∈ ms ->
  map_leq m1 m2 = true <-> forall k, leq_value (at_ m1 k) (at_ m2 k) = true.
Proof.
  intros Htop Hrefl Hgreatest Honly Hb Hm1 Hm2.
  destruct (built_invariant ms n Hb) as (H & Hinv & Hall).
  destruct (Hall m1 Hm1) as [Hin1 Hc1]. destruct (Hall m2 Hm2) as [Hin2 Hc2].
  unfold map_leq.
  rewrite (leq_spec Htop Hrefl Hgreatest Honly (m_tree m1) (m_tree m2) n H
             Hc1 Hc2 Hinv Hin1 Hin2).
  unfold value_at, at_. split; intros Hall' k; specialize (Hall' k);
    by destruct (find_value k (m_tree m1)), (find_value k (m_tree m2)).
Qed.

End LeqMap.

(** *** Samples *)

Import PTMap.Samples.

Lemma sample_session : built [sample_tree_map; sample_leaf_map; empty_map] 5%nat.
Proof.
  apply (built_insert_or_assign _ 2%nat 1 1 sample_leaf_map);
    [|set_solver|by vm_compute|by vm_compute].
  apply (built_insert_or_assign _ 0%nat 0 1 empty_map);
    [|set_solver|by vm_compute|by vm_compute].
  apply built_empty, built_nil.
Qed.

Lemma sample_map_invariant : invariant 5%nat sample_tree_map.
Proof. apply (built_is_invariant _ _ _ sample_session). set_solver. Qed.

Lemma map_update_lookup_witness :
  exists m' n',
    map_update (fun x => Ok (x + 1)) 0 sample_tree_map 5%nat = Ok (m', n')
    /\ at_ m' 0 = 2
    /\ (forall k, k <> 0 -> at_ m' k = at_ sample_tree_map k)
    /\ invariant n' m'.
Proof.
  exact (map_update_lookup (fun x => Ok (x + 1)) 0 sample_tree_map 5%nat
           sample_map_invariant ltac:(by vm_compute)).
Defined.

Lemma insert_or_assign_lookup_witness :
  exists m' n',
    insert_or_assign 2 7 sample_tree_map 5%nat = Ok (m', n')
    /\ at_ m' 2 = 7
    /\ (forall k, k <> 2 -> at_ m' k = at_ sample_tree_map k)
    /\ invariant n' m'.
Proof.
  exact (insert_or_assign_lookup 2 7 sample_tree_map 5%nat
           sample_map_invariant ltac:(by vm_compute)).
Defined.

Lemma map_update_reference_equals_witness :
  reference_equals sample_tree_map sample_tree_map = true <-> 1 = at_ sample_tree_map 0.
Proof.
  exact (map_update_reference_equals (fun x => Ok x) 0 sample_tree_map sample_tree_map
           5%nat 5%nat 1 sample_map_invariant ltac:(by vm_compute) eq_refl eq_refl).
Defined.

Lemma map_update_size_witness :
  exists s s',
    size sample_tree_map = Some (Ok s) /\ size sample_leaf_map = Some (Ok s')
    /\ (s' + 1 = s + 0)%nat.
Proof.
  exact (map_update_size (fun _ => Ok 0) 1 sample_tree_map sample_leaf_map 5%nat 5%nat 0
           sample_map_invariant ltac:(by vm_compute) eq_refl eq_refl).
Defined.

Lemma map_erase_all_matching_lookup_witness :
  exists m' changed n',
    map_erase_all_matching 1 sample_tree_map 5%nat = Ok (m', changed, n')
    /\ (forall k, at_ m' k = if Z.land 1 k =? 0 then at_ sample_tree_map k else 0)
    /\ (changed = true <->
        exists k, Z.land 1 k <> 0 /\ is_default_value (at_ sample_tree_map k) = false)
    /\ invariant n' m'.
Proof.
  exact (map_erase_all_matching_lookup 1 sample_tree_map 5%nat
           sample_map_invariant ltac:(by vm_compute)).
Defined.

Lemma map_map_lookup_witness :
  exists m' changed n',
    map_map (fun v => Ok (v - 1)) sample_tree_map 5%nat = Ok (m', changed, n')
    /\ (forall k, at_ m' k
                  = if is_default_value (at_ sample_tree_map k) then 0
                    else at_ sample_tree_map k - 1)
    /\ (changed = false <->
        forall k, is_default_value (at_ sample_tree_map k) = false ->
          at_ sample_tree_map k - 1 = at_ sample_tree_map k)
    /\ invariant n' m'.
Proof.
  exact (map_map_lookup (fun v => v - 1) sample_tree_map 5%nat sample_map_invariant).
Defined.

Lemma iteration_visits_bindings_witness :
  exists l,
    elements sample_tree_map = Some (Ok l)
    /\ size sample_tree_map = Some (Ok (length l))
    /\ NoDup l.*1
    /\ forall k v, (k, v) ∈ l <-> at_ sample_tree_map k = v /\ is_default_value v = false.
Proof.
  exact (iteration_visits_bindings sample_tree_map sample_tree_well_formed).
Defined.

Lemma union_with_pointwise_witness :
  exists m' n',
    union_with (fun a b => Ok (Z.lor a b)) sample_tree_map sample_leaf_map 5%nat = Ok (m', n')
    /\ forall k, at_ m' k = Z.lor (at_ sample_tree_map k) (at_ sample_leaf_map k).
Proof.
  apply (union_with_pointwise Z.lor _ 5%nat sample_tree_map sample_leaf_map sample_session).
  - set_solver.
  - set_solver.
  - apply Z.lor_comm.
  - apply Z.lor_diag.
  - apply Z.lor_0_l.
Defined.

Lemma lor_no_cancellation (a b : Z) :
  is_default_value a = false -> is_default_value b = false ->
  is_default_value (Z.lor a b) = false.
Proof.
  simpl. intros Ha _. apply bool_decide_eq_false in Ha. apply bool_decide_eq_false.
  intros H0. apply Z.lor_eq_0_iff in H0. tauto.
Qed.

Lemma union_with_without_cancellation_witness :
  exists m' n',
    union_with (fun a b => Ok (Z.lor a b)) sample_tree_map sample_leaf_map 5%nat = Ok (m', n')
    /\ invariant n' m'
    /\ forall k, is_default_value (at_ m' k)
                 = is_default_value (at_ sample_tree_map k)
                   && is_default_value (at_ sample_leaf_map k).
Proof.
  apply (union_with_without_cancellation Z.lor _ 5%nat sample_tree_map sample_leaf_map
           sample_session).
  - set_solver.
  - set_solver.
  - apply Z.lor_0_l.
  - apply lor_no_cancellation.
Defined.

Lemma intersection_with_pointwise_witness :
  exists m' n',
    intersection_with (fun a b => Ok (Z.lor a b)) sample_tree_map sample_leaf_map 5%nat
    = Ok (m', n')
    /\ invariant n' m'
    /\ forall k, at_ m' k
                 = if is_default_value (at_ sample_tree_map k)
                      || is_default_value (at_ sample_leaf_map k)
                   then 0 else Z.lor (at_ sample_tree_map k) (at_ sample_leaf_map k).
Proof.
  apply (intersection_with_pointwise Z.lor _ 5%nat sample_tree_map sample_leaf_map
           sample_session).
  - set_solver.
  - set_solver.
  - apply Z.lor_comm.
  - apply Z.lor_diag.
Defined.

Lemma map_leq_pointwise_witness :
  map_leq sample_tree_map sample_leaf_map = true
  <-> forall k, leq_value (at_ sample_tree_map k) (at_ sample_leaf_map k) = true.
Proof.
  apply (map_leq_pointwise [sample_tree_map; sample_leaf_map; empty_map] 5%nat
           sample_tree_map sample_leaf_map).
  - reflexivity.
  - intros a. cbn [leq_value flat_order]. by rewrite Z.eqb_refl, orb_true_r.
  - intros a. reflexivity.
  - intros b. cbn [leq_value flat_order]. rewrite orb_true_iff, !Z.eqb_eq.
    intros [->| <-]; reflexivity.
  - exact sample_session.
  - set_solver.
  - set_solver.
Defined.

End PTMapOperations.

(** ** The CFG inliner *)

Module InlinerFacts.
Import IR Inliner.

Ltac elem_cases H :=
  repeat (apply elem_of_cons in H as [->|H]); try (by apply elem_of_nil in H).

(** *** Argument threading *)

Lemma load_param_to_move_ok (op : IROpcode) :
  is_load_param op = true -> exists mv, load_param_to_move op = Ok mv
                                        /\ move_width mv = param_width op.
Proof. destruct op; simpl; try done; eauto. Qed.

Lemma move_arg_regs_loop_ok (params : list IRInstruction) (srcs : list Z) :
  forall (i n : nat),
  Forall param_ok params ->
  (i + length params <= length srcs)%nat ->
  exists moves,
    move_arg_regs_loop params srcs i n = Ok (moves, (n + length params)%nat)
    /\ length moves = length params
    /\ forall j load, params !! j = Some load ->
         exists s d op,
           srcs !! (i + j)%nat = Some s
           /\ dest_opt load = Some d
           /\ load_param_to_move (opcode load) = Ok op
           /\ moves !! j = Some {| insn_addr := (n + j)%nat; opcode := op;
                                   srcs_vec := [s]; dest_opt := Some d |}.
Proof.
  induction params as [|load params IH]; intros i n Hok Hlen; simpl.
  - exists []. rewrite Nat.add_0_r. split; [done|]. split; [done|]. intros j l Hj. done.
  - apply Forall_cons in Hok as [[Hop Hdest] Hok]. simpl in Hlen.
    destruct (load_param_to_move_ok _ Hop) as (op & Hmv & _).
    unfold has_dest in Hdest. destruct (dest_opt load) as [d|] eqn:Hd; [|done].
    destruct (lookup_lt_is_Some_2 srcs i ltac:(lia)) as [s Hs].
    destruct (IH (S i) (S n) Hok ltac:(lia)) as (moves & Hrun & Hmlen & Hnth).
    unfold bind, lift, ret, dest. rewrite Hmv, Hs, Hd, Hrun.
    eexists. split; [do 2 f_equal; lia|]. split; [simpl; by rewrite Hmlen|].
    intros [|j] l Hj; simpl in Hj.
    + injection Hj as <-. exists s, d, op. rewrite !Nat.add_0_r. done.
    + destruct (Hnth j l Hj) as (s' & d' & op' & Hs' & Hd' & Hop' & Hm').
      exists s', d', op'. replace (i + S j)%nat with (S i + j)%nat by lia.
      replace (n + S j)%nat with (S n + j)%nat by lia. done.
Qed.

Lemma find_fmap_blocks (g : Block -> Block) (a : nat) (bs : list Block) :
  (forall b, block_addr (g b) = block_addr b) ->
  List.find (fun b => Nat.eqb (block_addr b) a) (g <$> bs)
  = g <$> List.find (fun b => Nat.eqb (block_addr b) a) bs.
Proof.
  intros Hg. induction bs as [|b bs IH]; simpl; [done|].
  rewrite Hg. destruct (Nat.eqb (block_addr b) a); [done|exact IH].
Qed.

Lemma leading_params_fmap (f : IRInstruction -> IRInstruction) (l : list IRInstruction) :
  (forall i, opcode (f i) = opcode i) ->
  leading_params (f <$> l)
  = (f <$> fst (leading_params l), f <$> snd (leading_params l)).
Proof.
  intros Hf. induction l as [|i l IH]; [done|].
  rewrite fmap_cons. cbn [leading_params]. rewrite Hf.
  destruct (is_load_param (opcode i)); [|done].
  rewrite IH. by destruct (leading_params l).
Qed.

Lemma leading_params_load (l : list IRInstruction) :
  Forall (fun i => is_load_param (opcode i) = true) (fst (leading_params l)).
Proof.
  induction l as [|i l IH]; simpl; [constructor|].
  destruct (is_load_param (opcode i)) eqn:Hop; [|constructor].
  destruct (leading_params l). simpl in *. by constructor.
Qed.

Lemma get_param_instructions_remap (callee : ControlFlowGraph) (crs : Z) :
  get_param_instructions (remap_registers callee crs)
  = remap_insn crs <$> get_param_instructions callee.
Proof.
  unfold get_param_instructions, find_block, remap_registers, map_instructions. simpl.
  rewrite find_fmap_blocks by done.
  destruct (List.find _ (m_blocks callee)) as [b|]; simpl; [|done].
  by rewrite leading_params_fmap.
Qed.

Lemma entry_instructions_set_params (cfg : ControlFlowGraph) (moves : list IRInstruction) :
  entry_instructions (set_param_instructions cfg moves)
  = match find_block cfg (m_entry_block cfg) with
    | Some b => moves ++ snd (leading_params (m_entries b))
    | None => []
    end.
Proof.
  unfold entry_instructions, find_block, set_param_instructions. simpl.
  rewrite find_fmap_blocks.
  - destruct (List.find _ (m_blocks cfg)) as [b|] eqn:Hfind; simpl; [|done].
    apply List.find_some in Hfind as [_ Heq]. by rewrite Heq.
  - intros b. by destruct (Nat.eqb (block_addr b) (m_entry_block cfg)).
Qed.

(** *** What the moves do to the registers *)

Section Exec.
Context {V : Type}.

Lemma exec_move_untouched (rho : Z -> V) (m : IRInstruction) (r : Z) :
  ~ writes m r -> exec_move rho m r = rho r.
Proof.
  intros Hnw. unfold exec_move.
  destruct (srcs_vec m) as [|s [|s' l]] eqn:Hs; try done.
  destruct (dest_opt m) as [d|] eqn:Hd; try done.
  destruct ((d <=? r) && (r <? d + move_width (opcode m))) eqn:Hin; [|done].
  exfalso. apply Hnw. exists s, d. split; [done|]. split; [done|]. lia.
Qed.

Lemma exec_moves_untouched (moves : list IRInstruction) :
  forall (rho : Z -> V) (r : Z),
  (forall m, m ∈ moves -> ~ writes m r) ->
  exec_moves rho moves r = rho r.
Proof.
  induction moves as [|m moves IH]; intros rho r Hnw; [done|].
  change (exec_moves rho (m :: moves) r) with (exec_moves (exec_move rho m) moves r).
  rewrite IH by (intros m' Hm'; apply Hnw; set_solver).
  apply exec_move_untouched. apply Hnw. set_solver.
Qed.

Lemma exec_moves_at (pre post : list IRInstruction) (m : IRInstruction)
    (rho : Z -> V) (s d off : Z) :
  srcs_vec m = [s] -> dest_opt m = Some d ->
  0 <= off < move_width (opcode m) ->
  (forall m', m' ∈ pre -> ~ writes m' (s + off)) ->
  (forall m', m' ∈ post -> ~ writes m' (d + off)) ->
  exec_moves rho (pre ++ m :: post) (d + off) = rho (s + off).
Proof.
  intros Hs Hd Hoff Hpre Hpost.
  assert (Hsplit : exec_moves rho (pre ++ m :: post)
                   = exec_moves (exec_move (exec_moves rho pre) m) post)
    by (unfold exec_moves; by rewrite foldl_app).
  rewrite Hsplit.
  rewrite (exec_moves_untouched post) by done.
  unfold exec_move at 1. rewrite Hs, Hd.
  replace ((d <=? d + off) && (d + off <? d + move_width (opcode m))) with true
    by (symmetry; apply andb_true_iff; lia).
  replace (s + (d + off - d)) with (s + off) by lia.
  by apply exec_moves_untouched.
Qed.

End Exec.

Lemma params_of_callee_ok (callee : ControlFlowGraph) (crs : Z) :
  Forall (fun load => has_dest load = true) (get_param_instructions callee) ->
  Forall param_ok (remap_insn crs <$> get_param_instructions callee).
Proof.
  intros Hdest. apply Forall_fmap.
  assert (Hload : Forall (fun i => is_load_param (opcode i) = true)
                    (get_param_instructions callee)).
  { unfold get_param_instructions.
    destruct (find_block callee (m_entry_block callee)); [|constructor].
    apply leading_params_load. }
  rewrite Forall_forall in Hdest, Hload. apply Forall_forall. intros load Hin.
  unfold compose, param_ok. simpl. split; [by apply Hload|].
  specialize (Hdest load Hin). unfold has_dest in *. simpl.
  by destruct (dest_opt load).
Qed.

(** *** Register disjointness *)

Lemma elem_of_instructions (cfg : ControlFlowGraph) (insn : IRInstruction) :
  insn ∈ instructions cfg <-> exists b, b ∈ m_blocks cfg /\ insn ∈ m_entries b.
Proof.
  unfold instructions. induction (m_blocks cfg) as [|b bs IH]; simpl.
  - split; [intros Hin; by apply elem_of_nil in Hin|].
    intros (b & Hb & _). by apply elem_of_nil in Hb.
  - rewrite elem_of_app, IH. split.
    + intros [Hin|(b' & Hb' & Hin)]; [exists b|exists b']; set_solver.
    + intros (b' & Hb' & Hin). apply elem_of_cons in Hb' as [->|Hb']; [by left|].
      right. by exists b'.
Qed.

Lemma instructions_map (f : IRInstruction -> IRInstruction) (cfg : ControlFlowGraph) :
  instructions (map_instructions f cfg) = f <$> instructions cfg.
Proof.
  unfold instructions, map_instructions. cbn [m_blocks set_blocks].
  induction (m_blocks cfg) as [|b bs IH]; [done|].
  rewrite !fmap_cons. cbn [List.concat]. rewrite fmap_app, <- IH. reflexivity.
Qed.

Lemma remap_insn_registers (crs lim : Z) (insn : IRInstruction) :
  0 <= crs -> crs + lim <= 2 ^ reg_bits ->
  registers_within 0 lim insn ->
  registers_within crs (crs + lim) (remap_insn crs insn).
Proof.
  intros Hcrs Hfit Hwf r Hr. unfold registers in Hr. simpl in Hr.
  assert (Hshift : exists r0, r0 ∈ registers insn /\ r = reg_wrap (r0 + crs)).
  { unfold registers. apply elem_of_app in Hr as [Hr|Hr].
    - apply list_elem_of_fmap in Hr as (r0 & -> & Hr0). exists r0. set_solver.
    - destruct (dest_opt insn) as [d|]; simpl in Hr; [|by apply elem_of_nil in Hr].
      apply list_elem_of_singleton in Hr as ->. exists d. set_solver. }
  destruct Hshift as (r0 & Hr0 & ->). specialize (Hwf r0 Hr0).
  unfold reg_wrap. rewrite Z.mod_small; lia.
Qed.

Lemma leading_params_app (l : list IRInstruction) :
  fst (leading_params l) ++ snd (leading_params l) = l.
Proof.
  induction l as [|i l IH]; simpl; [done|].
  destruct (is_load_param (opcode i)); [|done].
  destruct (leading_params l). simpl in *. by rewrite IH.
Qed.

Lemma instructions_set_params (cfg : ControlFlowGraph) (moves : list IRInstruction)
    (insn : IRInstruction) :
  insn ∈ instructions (set_param_instructions cfg moves) ->
  insn ∈ moves \/ insn ∈ instructions cfg.
Proof.
  rewrite !elem_of_instructions. intros (b & Hb & Hin).
  unfold set_param_instructions in Hb. simpl in Hb.
  apply list_elem_of_fmap in Hb as (b0 & -> & Hb0).
  destruct (Nat.eqb (block_addr b0) (m_entry_block cfg)).
  - simpl in Hin. apply elem_of_app in Hin as [Hin|Hin]; [by left|].
    right. exists b0. split; [done|].
    rewrite <- (leading_params_app (m_entries b0)). set_solver.
  - right. by exists b0.
Qed.

Lemma move_arg_regs_loop_inv (params : list IRInstruction) (srcs : list Z) :
  forall (i n : nat) moves n',
  move_arg_regs_loop params srcs i n = Ok (moves, n') ->
  (n <= n')%nat /\ Forall (argument_move params srcs n) moves.
Proof.
  induction params as [|load params IH]; intros i n moves n' Hrun; simpl in Hrun.
  - injection Hrun as <- <-. split; [lia|constructor].
  - apply PTMapFacts.bind_inv in Hrun as (op & n1 & Hop & Hrun).
    apply PTMapFacts.lift_inv in Hop as [Hop ->].
    apply PTMapFacts.bind_inv in Hrun as (a & n1 & Ha & Hrun).
    injection Ha as <- <-.
    apply PTMapFacts.bind_inv in Hrun as (s & n1 & Hs & Hrun).
    apply PTMapFacts.lift_inv in Hs as [Hs ->].
    apply PTMapFacts.bind_inv in Hrun as (d & n1 & Hd & Hrun).
    apply PTMapFacts.lift_inv in Hd as [Hd ->].
    apply PTMapFacts.bind_inv in Hrun as (rest & n1 & Hrest & Hrun).
    injection Hrun as <- <-.
    destruct (IH _ _ _ _ Hrest) as [Hle Hall].
    destruct (srcs !! i) as [s'|] eqn:Hsi; [|done]. injection Hs as <-.
    unfold dest in Hd. destruct (dest_opt load) as [d'|] eqn:Hdl; [|done].
    injection Hd as <-.
    split; [lia|]. constructor.
    + split; [simpl; lia|]. split.
      { simpl. destruct (opcode load); simpl in Hop; try done; by injection Hop as <-. }
      exists load, s', d'. simpl.
      split; [set_solver|]. split; [by eapply list_elem_of_lookup_2|done].
    + eapply Forall_impl; [exact Hall|].
      intros m (Hm & Hnr & load' & s1 & d1 & Hl' & Hs1 & Hd1 & Hsv & Hdv).
      split; [lia|]. split; [done|]. exists load', s1, d1. split; [set_solver|done].
Qed.

Lemma move_return_reg_loop_inv (l : list IRInstruction) (ret_reg : option Z) :
  forall (n : nat) l' n',
  move_return_reg_loop l ret_reg n = Ok (l', n') ->
  (n <= n')%nat
  /\ Forall (fun m => m ∈ l \/ return_move l ret_reg n m) l'.
Proof.
  induction l as [|insn l IH]; intros n l' n' Hrun; simpl in Hrun.
  - injection Hrun as <- <-. split; [lia|constructor].
  - assert (Hweaken : forall n1 l1, (n <= n1)%nat ->
              Forall (fun m => m ∈ l \/ return_move l ret_reg n1 m) l1 ->
              Forall (fun m => m ∈ insn :: l \/ return_move (insn :: l) ret_reg n m) l1).
    { intros n1 l1 Hle Hall1. eapply Forall_impl; [exact Hall1|].
      intros m [Hm|(Hfresh & ret & s & r & Hret & Hisr & Hs & Hr & Hsv & Hdv)];
        [left; set_solver|].
      right. split; [lia|]. exists ret, s, r. split; [set_solver|done]. }
    destruct (is_return (opcode insn)) eqn:Hisret.
    + apply PTMapFacts.bind_inv in Hrun as (op & n1 & Hop & Hrun).
      apply PTMapFacts.lift_inv in Hop as [Hop ->].
      destruct ret_reg as [r|].
      * destruct (bool_decide (op <> OPCODE_NOP)).
        -- apply PTMapFacts.bind_inv in Hrun as (a & n1 & Ha & Hrun).
           injection Ha as <- <-.
           apply PTMapFacts.bind_inv in Hrun as (s & n1 & Hs & Hrun).
           apply PTMapFacts.lift_inv in Hs as [Hs ->].
           apply PTMapFacts.bind_inv in Hrun as (rest & n1 & Hrest & Hrun).
           injection Hrun as <- <-.
           destruct (IH _ _ _ Hrest) as [Hle Hall].
           split; [lia|]. constructor.
           ++ right. split; [simpl; lia|]. exists insn, s, r. simpl.
              split; [set_solver|]. split; [done|]. split; [|done].
              unfold src in Hs. destruct (srcs_vec insn !! 0%nat) eqn:H0; [|done].
              injection Hs as <-. by eapply list_elem_of_lookup_2.
           ++ apply (Hweaken (S n)); [lia|done].
        -- destruct (IH _ _ _ Hrun) as [Hle Hall]. split; [done|].
           by apply (Hweaken n).
      * destruct (IH _ _ _ Hrun) as [Hle Hall]. split; [done|].
        by apply (Hweaken n).
    + apply PTMapFacts.bind_inv in Hrun as (rest & n1 & Hrest & Hrun).
      injection Hrun as <- <-.
      destruct (IH _ _ _ Hrest) as [Hle Hall]. split; [done|].
      constructor; [left; set_solver|]. by apply (Hweaken n).
Qed.

Lemma move_return_reg_inv (callee : ControlFlowGraph) (ret_reg : option Z)
    (n : nat) (callee' : ControlFlowGraph) (n' : nat) :
  move_return_reg callee ret_reg n = Ok (callee', n') ->
  (n <= n')%nat
  /\ m_registers_size callee' = m_registers_size callee
  /\ forall m, m ∈ instructions callee' ->
       m ∈ instructions callee \/ return_move (instructions callee) ret_reg n m.
Proof.
  unfold move_return_reg. intros Hrun.
  apply PTMapFacts.bind_inv in Hrun as (bs & n1 & Hbs & Hrun).
  injection Hrun as <- <-.
  assert (Hblocks : forall blocks n bs n1,
            move_return_reg_blocks blocks ret_reg n = Ok (bs, n1) ->
            (n <= n1)%nat
            /\ forall m b', b' ∈ bs -> m ∈ m_entries b' ->
                 exists b, b ∈ blocks
                   /\ (m ∈ m_entries b \/ return_move (m_entries b) ret_reg n m)).
  { clear. induction blocks as [|b blocks IH]; intros n bs n1 Hrun; simpl in Hrun.
    - injection Hrun as <- <-. split; [lia|]. intros m b' Hb'. by apply elem_of_nil in Hb'.
    - apply PTMapFacts.bind_inv in Hrun as (l & n2 & Hl & Hrun).
      apply PTMapFacts.bind_inv in Hrun as (rest & n3 & Hrest & Hrun).
      injection Hrun as <- <-.
      destruct (move_return_reg_loop_inv _ _ _ _ _ Hl) as [Hle1 Hall].
      destruct (IH _ _ _ Hrest) as [Hle2 Hin]. split; [lia|].
      intros m b' Hb' Hm. apply elem_of_cons in Hb' as [->|Hb'].
      + exists b. split; [set_solver|]. simpl in Hm.
        rewrite Forall_forall in Hall. by apply Hall.
      + destruct (Hin m b' Hb' Hm) as (b0 & Hb0 & [Hm0|(Hfresh & Hmove)]).
        * exists b0. split; [set_solver|by left].
        * exists b0. split; [set_solver|]. right. split; [lia|done]. }
  destruct (Hblocks _ _ _ _ Hbs) as [Hle Hin]. split; [done|]. split; [done|].
  intros m Hm. apply elem_of_instructions in Hm as (b' & Hb' & Hm). simpl in Hb'.
  destruct (Hin m b' Hb' Hm) as (b & Hb & [Hm0|(Hfresh & ret & s & r & Hret & Hmove)]).
  - left. apply elem_of_instructions. by exists b.
  - right. split; [done|]. exists ret, s, r.
    split; [apply elem_of_instructions; by exists b|done].
Qed.

Lemma steal_blocks_entries (callee_blocks : list Block) :
  forall caller_blocks,
  concat (m_entries <$> steal_blocks caller_blocks callee_blocks)
  = concat (m_entries <$> caller_blocks) ++ concat (m_entries <$> callee_blocks).
Proof.
  induction callee_blocks as [|b bs IH]; intros caller_blocks; simpl.
  - by rewrite app_nil_r.
  - rewrite IH. rewrite fmap_app, concat_app. simpl.
    by rewrite app_nil_r, <- app_assoc.
Qed.

Lemma steal_contents_instructions (caller callee caller' callee' : ControlFlowGraph) :
  steal_contents caller callee = Ok (caller', callee') ->
  instructions caller' = instructions caller ++ instructions callee.
Proof.
  unfold steal_contents. destruct (m_blocks caller) as [|b bs] eqn:Hbs; [done|].
  intros [= <- <-]. unfold instructions. simpl. rewrite Hbs.
  apply steal_blocks_entries.
Qed.

Lemma add_throw_edges_blocks (catches : list Edge) :
  forall cfg b start,
  m_blocks (add_throw_edges cfg catches b start) = m_blocks cfg.
Proof.
  induction catches as [|c catches IH]; intros cfg b start; simpl; [done|].
  destruct (e_type c); by rewrite IH.
Qed.

Lemma add_callee_throws_blocks (callee_blocks : list Block) :
  forall cfg catches,
  m_blocks (add_callee_throws_to_caller cfg callee_blocks catches) = m_blocks cfg.
Proof.
  induction callee_blocks as [|b bs IH]; intros cfg catches; simpl; [done|].
  rewrite IH.
  destruct (last _) as [back|].
  - destruct (e_type back) as [| |ti|]; try done.
    destruct (catch_type ti); [|done]. apply add_throw_edges_blocks.
  - destruct (get_last_insn b) as [i|]; [|done].
    destruct (can_throw (opcode i)); [|done]. apply add_throw_edges_blocks.
Qed.

Lemma connect_blocks (preds : list nat) :
  forall cfg succ, m_blocks (connect cfg preds succ) = m_blocks cfg.
Proof.
  unfold connect. induction preds as [|p preds IH]; intros cfg succ; simpl; [done|].
  by rewrite IH.
Qed.

Lemma connect_cfgs_blocks after cfg callsite callee_blocks callee_entry
    callee_exits callsite_split :
  m_blocks (connect_cfgs after cfg callsite callee_blocks callee_entry
              callee_exits callsite_split) = m_blocks cfg.
Proof.
  unfold connect_cfgs. rewrite connect_blocks.
  assert (Hthrows :
    m_blocks match get_outgoing_throws_in_order cfg callsite with
             | [] => cfg
             | _ :: _ => add_callee_throws_to_caller cfg callee_blocks
                           (get_outgoing_throws_in_order cfg callsite)
             end = m_blocks cfg).
  { destruct (get_outgoing_throws_in_order cfg callsite); [done|].
    apply add_callee_throws_blocks. }
  destruct after.
  - rewrite connect_blocks. simpl. exact Hthrows.
  - simpl. rewrite connect_blocks. exact Hthrows.
Qed.

Lemma remove_insn_instructions (cfg : ControlFlowGraph) (a : nat) (insn : IRInstruction) :
  insn ∈ instructions (remove_insn cfg a) -> insn ∈ instructions cfg.
Proof.
  rewrite !elem_of_instructions. intros (b & Hb & Hin).
  unfold remove_insn in Hb. simpl in Hb.
  apply list_elem_of_fmap in Hb as (b0 & -> & Hb0). simpl in Hin.
  apply list_elem_of_filter in Hin as [_ Hin]. by exists b0.
Qed.

Lemma foldr_max_bound (l : list Z) (x : Z) : x ∈ l -> x <= foldr Z.max 0 l.
Proof.
  induction l as [|y l IH]; intros Hin; [by apply elem_of_nil in Hin|].
  simpl. apply elem_of_cons in Hin as [->|Hin]; [lia|].
  specialize (IH Hin). lia.
Qed.

Lemma recompute_registers_size_bound (cfg : ControlFlowGraph) (insn : IRInstruction)
    (r : Z) :
  insn ∈ instructions cfg -> r ∈ registers insn ->
  r < m_registers_size (recompute_registers_size cfg).
Proof.
  intros Hin Hr. unfold recompute_registers_size. simpl.
  assert (Hall : r + 1 ∈ (fun r => r + 1) <$> concat (registers <$> instructions cfg)).
  { apply list_elem_of_fmap. exists r. split; [done|].
    apply list_elem_of_In, in_concat. exists (registers insn).
    split; [|by apply list_elem_of_In].
    apply list_elem_of_In, list_elem_of_fmap. by exists insn. }
  apply foldr_max_bound in Hall. lia.
Qed.

Lemma get_param_instructions_sub (cfg : ControlFlowGraph) (insn : IRInstruction) :
  insn ∈ get_param_instructions cfg -> insn ∈ instructions cfg.
Proof.
  unfold get_param_instructions, find_block.
  destruct (List.find _ (m_blocks cfg)) as [b|] eqn:Hfind;
    [|intros Hin; by apply elem_of_nil in Hin].
  apply List.find_some in Hfind as [Hb _]. intros Hin.
  apply elem_of_instructions. exists b. split; [by apply list_elem_of_In|].
  rewrite <- (leading_params_app (m_entries b)). set_solver.
Qed.

Lemma registers_dest (insn : IRInstruction) (d : Z) :
  dest_opt insn = Some d -> d ∈ registers insn.
Proof. intros Hd. unfold registers. rewrite Hd. set_solver. Qed.

Lemma registers_src (insn : IRInstruction) (s : Z) :
  s ∈ srcs_vec insn -> s ∈ registers insn.
Proof. intros Hs. unfold registers. set_solver. Qed.

Lemma inliner_move_registers (crs ces : Z) (n : nat) (insn : IRInstruction) :
  0 <= crs -> 0 <= ces -> inliner_move crs ces n insn ->
  registers_within 0 (crs + ces) insn.
Proof.
  intros Hcrs Hces (_ & s & d & Hs & Hd & Hcase) r Hr.
  unfold registers in Hr. rewrite Hs, Hd in Hr.
  apply elem_of_app in Hr as [Hr|Hr]; apply list_elem_of_singleton in Hr as ->; lia.
Qed.

(** C4.  Take a plugin whose hooks leave caller and callee as they are, a
    caller and a callee whose registers are below their [registers_size], the
    two sizes fitting [reg_t] together, and argument and result registers that
    are registers of the caller.  When the body of [inline_cfg] returns, every
    instruction of the merged graph is an instruction of the caller, or an
    instruction of the callee with each register incremented by the caller's
    pre-inline [registers_size] -- all its registers are then at least that
    size and below the sum of the sizes -- or a move made by the inliner
    between an argument or result register of the caller and such a callee
    register.  The final [registers_size] exceeds every register of the
    merged graph, and it is the sum of the two sizes unless the plugin asks for
    the recomputation. *)
Theorem inline_register_disjointness (plugin : CFGInlinerPlugin)
    (caller : ControlFlowGraph) (inline_site_block : nat)
    (inline_site : IRInstruction) (move_res : option IRInstruction)
    (callee : ControlFlowGraph) (callee_entry_block : nat)
    (callee_return_blocks : list nat) (split_on_inline : nat)
    (n n' : nat) (caller' : ControlFlowGraph) :
  let crs := m_registers_size caller in
  let ces := m_registers_size callee in
  (forall c e, update_before_reg_remap plugin c e = (c, e)) ->
  (forall c e, fst (update_after_reg_remap plugin c e) = (c, e)) ->
  0 <= crs -> 0 <= ces -> crs + ces < 2 ^ reg_bits ->
  (forall insn, insn ∈ instructions caller -> registers_within 0 crs insn) ->
  (forall insn, insn ∈ instructions callee -> registers_within 0 ces insn) ->
  (forall r, r ∈ inline_site_srcs plugin inline_site -> 0 <= r < crs) ->
  (forall r, reg_for_return plugin = Some r -> 0 <= r < crs) ->
  (forall mr, move_res = Some mr -> registers_within 0 crs mr) ->
  inline_cfg_body plugin caller inline_site_block inline_site move_res callee
    callee_entry_block callee_return_blocks split_on_inline n = Ok (caller', n') ->
  (forall insn, insn ∈ instructions caller' ->
     insn ∈ instructions caller
     \/ (exists orig, orig ∈ instructions callee /\ insn = remap_insn crs orig
                      /\ registers_within crs (crs + ces) insn)
     \/ inliner_move crs ces n insn)
  /\ (forall insn, insn ∈ instructions caller' ->
       registers_within 0 (m_registers_size caller') insn)
  /\ (m_registers_size caller' = crs + ces
      \/ exists c e, snd (update_after_reg_remap plugin c e) = true).
Proof.
  intros crs ces Hbefore Hafter Hcrs Hces Hfit Hcaller Hcallee Hsrcs Hretreg Hmr Hrun.
  unfold inline_cfg_body in Hrun. rewrite Hbefore in Hrun.
  fold crs ces in Hrun.
  apply PTMapFacts.bind_inv in Hrun as (callee1 & n1 & Hargs & Hrun).
  apply PTMapFacts.bind_inv in Hrun as ([return_reg caller1] & n2 & Hrc & Hrun).
  apply PTMapFacts.bind_inv in Hrun as (callee2 & n3 & Hret & Hrun).
  specialize (Hafter caller1 callee2).
  destruct (update_after_reg_remap plugin caller1 callee2) as [[c e] flag] eqn:Hhook.
  simpl in Hafter. injection Hafter as -> ->.
  apply PTMapFacts.bind_inv in Hrun as ([stolen emptied] & n4 & Hsteal & Hrun).
  apply PTMapFacts.lift_inv in Hsteal as [Hsteal ->].
  cbn [fst] in Hrun.
  (* the callee after remapping and argument moves *)
  assert (Hremapped : forall orig, orig ∈ instructions callee ->
            registers_within crs (crs + ces) (remap_insn crs orig)).
  { intros orig Horig. apply remap_insn_registers; [done|lia|by apply Hcallee]. }
  assert (Hcallee1 : (n <= n1)%nat /\ forall insn, insn ∈ instructions callee1 ->
            (exists orig, orig ∈ instructions callee /\ insn = remap_insn crs orig)
            \/ (is_return (opcode insn) = false /\ inliner_move crs ces n insn)).
  { unfold move_arg_regs in Hargs.
    apply PTMapFacts.bind_inv in Hargs as (moves & n0 & Hloop & Hargs).
    injection Hargs as <- <-.
    destruct (move_arg_regs_loop_inv _ _ _ _ _ _ Hloop) as [Hle Hmoves].
    split; [done|]. intros insn Hin.
    apply instructions_set_params in Hin as [Hin|Hin].
    - right. rewrite Forall_forall in Hmoves.
      destruct (Hmoves insn Hin) as (Hfresh & Hnr & load & s & d & Hload & Hs & Hd & Hsv & Hdv).
      split; [done|]. split; [done|]. exists s, d. split; [done|]. split; [done|]. left.
      split; [by apply Hsrcs|].
      apply get_param_instructions_sub in Hload.
      unfold remap_registers in Hload. rewrite instructions_map in Hload.
      apply list_elem_of_fmap in Hload as (orig & -> & Horig).
      apply (Hremapped orig Horig). by apply registers_dest.
    - left. unfold remap_registers in Hin. rewrite instructions_map in Hin.
      apply list_elem_of_fmap in Hin as (orig & -> & Horig). by exists orig. }
  destruct Hcallee1 as [Hn1 Hcallee1].
  (* the result register and the caller without its move-result *)
  assert (Hrc' : n2 = n1
            /\ (forall r, return_reg = Some r -> 0 <= r < crs)
            /\ m_registers_size caller1 = crs
            /\ forall insn, insn ∈ instructions caller1 -> insn ∈ instructions caller).
  { assert (Hmrd : forall mr d, move_res = Some mr -> dest mr = Ok d -> 0 <= d < crs).
    { intros mr d Hsome Hd. unfold dest in Hd.
      destruct (dest_opt mr) as [d'|] eqn:Hd'; [|done]. injection Hd as <-.
      apply (Hmr mr Hsome). by apply registers_dest. }
    destruct (has_move_result_any inline_site).
    - apply PTMapFacts.bind_inv in Hrc as (rr & n0 & Hrr & Hrc).
      assert (Hrr' : n0 = n1 /\ forall r, rr = Some r -> 0 <= r < crs).
      { destruct (reg_for_return plugin) as [r0|] eqn:Hplug.
        - injection Hrr as <- <-. split; [done|]. intros r [= <-]. by apply Hretreg.
        - destruct move_res as [mr|].
          + apply PTMapFacts.bind_inv in Hrr as (d & n5 & Hd & Hrr).
            apply PTMapFacts.lift_inv in Hd as [Hd ->]. injection Hrr as <- <-.
            split; [done|]. intros r [= <-]. by eapply Hmrd.
          + injection Hrr as <- <-. split; [done|]. intros r. done. }
      destruct Hrr' as [-> Hrr'].
      destruct move_res as [mr|].
      + destruct (remove_inline_site plugin); injection Hrc as <- <- <-.
        * split; [done|]. split; [done|]. split; [done|].
          intros insn. apply remove_insn_instructions.
        * done.
      + injection Hrc as <- <- <-. done.
    - injection Hrc as <- <- <-. split; [done|]. split; [exact Hretreg|]. done. }
  destruct Hrc' as (-> & Hretok & Hsize1 & Hcaller1).
  (* the callee after the return moves *)
  destruct (move_return_reg_inv _ _ _ _ _ Hret) as (Hn3 & _ & Hcallee2).
  assert (Hcallee2' : forall insn, insn ∈ instructions callee2 ->
            (exists orig, orig ∈ instructions callee /\ insn = remap_insn crs orig)
            \/ inliner_move crs ces n insn).
  { intros insn Hin. destruct (Hcallee2 insn Hin) as [Hold|Hnew].
    - destruct (Hcallee1 insn Hold) as [Horig|[_ Hmove]]; [by left|by right].
    - right. destruct Hnew as (Hfresh & ret & s & r & Hretin & Hisret & Hs & Hr & Hsv & Hdv).
      split; [lia|]. exists s, r. split; [done|]. split; [done|]. right.
      split; [|by apply Hretok].
      destruct (Hcallee1 ret Hretin) as [(orig & Horig & ->)|[Hnr _]]; [|congruence].
      apply (Hremapped orig Horig). by apply registers_src. }
  (* the merged graph *)
  pose proof (steal_contents_instructions _ _ _ _ Hsteal) as Hstolen.
  set (connected := connect_cfgs (inline_after plugin) stolen inline_site_block
                      (m_blocks callee2) callee_entry_block callee_return_blocks
                      split_on_inline) in Hrun.
  assert (Hconnected : instructions connected = instructions caller1 ++ instructions callee2).
  { unfold instructions, connected. rewrite connect_cfgs_blocks. exact Hstolen. }
  set (sized := if flag then recompute_registers_size connected
                else set_registers_size connected (reg_wrap (crs + ces))) in Hrun.
  assert (Hsized : instructions sized = instructions connected).
  { unfold sized. by destruct flag. }
  assert (Hclass : forall insn, insn ∈ instructions sized ->
     insn ∈ instructions caller
     \/ (exists orig, orig ∈ instructions callee /\ insn = remap_insn crs orig
                      /\ registers_within crs (crs + ces) insn)
     \/ inliner_move crs ces n insn).
  { intros insn Hin. rewrite Hsized, Hconnected in Hin.
    apply elem_of_app in Hin as [Hin|Hin]; [left; by apply Hcaller1|right].
    destruct (Hcallee2' insn Hin) as [(orig & Horig & ->)|Hmove]; [left|by right].
    exists orig. split; [done|]. split; [done|]. by apply Hremapped. }
  assert (Hbound : forall insn, insn ∈ instructions sized ->
            registers_within 0 (m_registers_size sized) insn).
  { intros insn Hin r Hr.
    assert (H0 : 0 <= r < crs + ces).
    { destruct (Hclass insn Hin) as [Hc|[(orig & _ & _ & Hw)|Hmove]].
      - specialize (Hcaller insn Hc r Hr). lia.
      - specialize (Hw r Hr). lia.
      - by apply (inliner_move_registers crs ces n insn Hcrs Hces Hmove). }
    unfold sized. destruct flag.
    - split; [lia|]. apply (recompute_registers_size_bound connected insn); [|done].
      by rewrite <- Hsized.
    - simpl. unfold reg_wrap. rewrite Z.mod_small; lia. }
  assert (Hfinal : instructions caller' ⊆ instructions sized
                   /\ m_registers_size caller' = m_registers_size sized).
  { destruct (remove_inline_site plugin); injection Hrun as <- <-.
    - split; [|done]. intros insn. apply remove_insn_instructions.
    - done. }
  destruct Hfinal as [Hsub Hsz].
  split; [intros insn Hin; by apply Hclass, Hsub|].
  split; [intros insn Hin; rewrite Hsz; by apply Hbound, Hsub|].
  rewrite Hsz. unfold sized. destruct flag.
  - right. exists caller1, callee2. by rewrite Hhook.
  - left. simpl. unfold reg_wrap. rewrite Z.mod_small; lia.
Qed.

(** *** Argument threading through [inline_cfg] *)

(** The monadic loop is the in-place loop without the graph an exception
    leaves behind. *)
Lemma move_arg_regs_loop_in_place_outcome (params : list IRInstruction) (srcs : list Z) :
  forall (i n : nat),
  move_arg_regs_loop params srcs i n
  = match move_arg_regs_loop_in_place params srcs i n with
    | (insns, n', Ok _) => Ok (insns, n')
    | (_, _, Throw e) => Throw e
    end.
Proof.
  induction params as [|load params IH]; intros i n; simpl; [done|].
  unfold bind, lift, ret.
  destruct (load_param_to_move (opcode load)) as [op|e]; [|done].
  destruct (srcs !! i) as [s|]; [|done].
  destruct (dest load) as [d|e]; [|done].
  rewrite IH.
  destruct (move_arg_regs_loop_in_place params srcs (S i) (S n)) as [[rest' n'] [[]|e]]; done.
Qed.

Lemma move_arg_regs_in_place_outcome (callee : ControlFlowGraph) (srcs : list Z) (n : nat) :
  move_arg_regs callee srcs n
  = match move_arg_regs_in_place callee srcs n with
    | (callee', n', Ok _) => Ok (callee', n')
    | (_, _, Throw e) => Throw e
    end.
Proof.
  unfold move_arg_regs, move_arg_regs_in_place, bind, ret.
  rewrite move_arg_regs_loop_in_place_outcome.
  destruct (move_arg_regs_loop_in_place _ srcs 0 n) as [[insns n'] [[]|e]]; done.
Qed.

Lemma move_arg_regs_loop_in_place_short (params : list IRInstruction) (srcs : list Z) :
  forall (i n : nat),
  Forall param_ok params ->
  (i <= length srcs < i + length params)%nat ->
  exists insns,
    move_arg_regs_loop_in_place params srcs i n
    = (insns, S (n + (length srcs - i)), Throw out_of_range)
    /\ (forall j load, (j < length srcs - i)%nat -> params !! j = Some load ->
          exists s d op,
            srcs !! (i + j)%nat = Some s /\ dest_opt load = Some d
            /\ load_param_to_move (opcode load) = Ok op
            /\ insns !! j = Some {| insn_addr := (n + j)%nat; opcode := op;
                                    srcs_vec := [s]; dest_opt := Some d |})
    /\ drop (length srcs - i) insns = drop (length srcs - i) params.
Proof.
  induction params as [|load params IH]; intros i n Hok Hlen; simpl in *; [lia|].
  apply Forall_cons in Hok as [[Hop Hdest] Hok].
  destruct (load_param_to_move_ok _ Hop) as (op & Hmv & _).
  unfold has_dest in Hdest. destruct (dest_opt load) as [d|] eqn:Hd; [|done].
  unfold dest. rewrite Hmv, Hd.
  destruct (srcs !! i) as [s|] eqn:Hs.
  - pose proof (lookup_lt_Some _ _ _ Hs) as Hlt.
    destruct (IH (S i) (S n) Hok ltac:(lia)) as (insns & Hrun & Hnth & Hdrop).
    rewrite Hrun. eexists. split; [do 2 f_equal; lia|].
    replace (length srcs - i)%nat with (S (length srcs - S i)) by lia.
    split.
    + intros [|j] l Hj Hl; simpl in Hl.
      * injection Hl as <-. exists s, d, op. rewrite !Nat.add_0_r.
        done.
      * destruct (Hnth j l ltac:(lia) Hl) as (s' & d' & op' & Hs' & Hd' & Hop' & Hm').
        exists s', d', op'. replace (i + S j)%nat with (S i + j)%nat by lia.
        replace (n + S j)%nat with (S n + j)%nat by lia. done.
    + simpl. exact Hdrop.
  - apply lookup_ge_None in Hs.
    replace (length srcs - i)%nat with 0%nat by lia.
    eexists. split; [do 2 f_equal; lia|]. split; [intros j l Hj; lia|done].
Qed.

Lemma bind_throw_inv {A B} (m : M A) (k : A -> M B) (n : nat) (e : exn) :
  bind m k n = Throw e ->
  m n = Throw e \/ exists a n1, m n = Ok (a, n1) /\ k a n1 = Throw e.
Proof.
  unfold bind. destruct (m n) as [[a n1]|e']; [|intros [= ->]; by left].
  intros Hk. right. by exists a, n1.
Qed.

Lemma return_to_move_ok (op : IROpcode) :
  is_return op = true ->
  exists mv, return_to_move op = Ok mv /\ (mv = OPCODE_NOP <-> op = OPCODE_RETURN_VOID).
Proof. destruct op; simpl; try done; eexists; (split; [reflexivity|]); split; done. Qed.

Lemma move_return_reg_loop_total (l : list IRInstruction) (ret_reg : option Z) :
  forall n,
  (forall i, i ∈ l -> is_return (opcode i) = true ->
     opcode i <> OPCODE_RETURN_VOID -> srcs_vec i <> []) ->
  exists l' n', move_return_reg_loop l ret_reg n = Ok (l', n').
Proof.
  induction l as [|insn l IH]; intros n Hsrc; simpl; [by eexists _, _|].
  assert (Hrest : forall n1, exists l' n', move_return_reg_loop l ret_reg n1 = Ok (l', n')).
  { intros n1. apply IH. intros i Hi. apply Hsrc. set_solver. }
  destruct (is_return (opcode insn)) eqn:Hisret.
  - destruct (return_to_move_ok _ Hisret) as (mv & Hmv & Hnop).
    unfold bind at 1. unfold lift at 1. rewrite Hmv.
    destruct ret_reg as [r|]; [|apply Hrest].
    destruct (bool_decide (mv <> OPCODE_NOP)) eqn:Hdec; [|apply Hrest].
    apply bool_decide_eq_true in Hdec.
    assert (Hs : srcs_vec insn <> []).
    { apply Hsrc; [set_solver|done|]. intros Hvoid. by apply Hdec, Hnop. }
    unfold bind, lift, ret, src.
    destruct (srcs_vec insn) as [|s ss]; [done|]. simpl.
    destruct (Hrest (S n)) as (l' & n' & Hl'). rewrite Hl'. by eexists _, _.
  - unfold bind, ret. destruct (Hrest n) as (l' & n' & Hl'). rewrite Hl'. by eexists _, _.
Qed.

Lemma move_return_reg_loop_prefix (moves rest : list IRInstruction) (ret_reg : option Z) :
  forall n l' n',
  Forall (fun m => is_return (opcode m) = false) moves ->
  move_return_reg_loop (moves ++ rest) ret_reg n = Ok (l', n') ->
  exists rest', l' = moves ++ rest'.
Proof.
  induction moves as [|m moves IH]; intros n l' n' Hnr Hrun; simpl in *; [by exists l'|].
  apply Forall_cons in Hnr as [Hm Hnr]. rewrite Hm in Hrun.
  apply PTMapFacts.bind_inv in Hrun as (rest1 & n1 & Hrest & Hrun).
  injection Hrun as <- <-.
  destruct (IH _ _ _ Hnr Hrest) as [rest' ->]. by exists rest'.
Qed.

Lemma move_return_reg_blocks_total (bs : list Block) (ret_reg : option Z) :
  forall n,
  (forall b i, b ∈ bs -> i ∈ m_entries b -> is_return (opcode i) = true ->
     opcode i <> OPCODE_RETURN_VOID -> srcs_vec i <> []) ->
  exists bs' n', move_return_reg_blocks bs ret_reg n = Ok (bs', n').
Proof.
  induction bs as [|b bs IH]; intros n Hsrc; simpl; [by eexists _, _|].
  destruct (move_return_reg_loop_total (m_entries b) ret_reg n) as (l & n1 & Hl).
  { intros i Hi. apply (Hsrc b); set_solver. }
  destruct (IH n1) as (bs' & n' & Hbs').
  { intros b' i Hb'. apply Hsrc. set_solver. }
  unfold bind, ret. rewrite Hl, Hbs'. by eexists _, _.
Qed.

Lemma move_return_reg_blocks_elem (bs : list Block) (ret_reg : option Z) :
  forall n bs' n',
  move_return_reg_blocks bs ret_reg n = Ok (bs', n') ->
  forall b, b ∈ bs ->
    exists l n1 n2, set_entries b l ∈ bs'
      /\ move_return_reg_loop (m_entries b) ret_reg n1 = Ok (l, n2).
Proof.
  induction bs as [|b0 bs IH]; intros n bs' n' Hrun b Hb; simpl in Hrun.
  - by apply elem_of_nil in Hb.
  - apply PTMapFacts.bind_inv in Hrun as (l & n1 & Hl & Hrun).
    apply PTMapFacts.bind_inv in Hrun as (rest & n2 & Hrest & Hrun).
    injection Hrun as <- <-.
    apply elem_of_cons in Hb as [->|Hb].
    + exists l, n, n1. split; [set_solver|done].
    + destruct (IH _ _ _ Hrest b Hb) as (l' & n3 & n4 & Hin & Hrun').
      exists l', n3, n4. split; [set_solver|done].
Qed.

Lemma steal_blocks_elem (callee_blocks : list Block) :
  forall caller_blocks b,
  b ∈ caller_blocks \/ b ∈ callee_blocks ->
  exists b', b' ∈ steal_blocks caller_blocks callee_blocks
    /\ block_addr b' = block_addr b /\ m_entries b' = m_entries b.
Proof.
  induction callee_blocks as [|c cs IH]; intros caller_blocks b Hb; simpl.
  - destruct Hb as [Hb|Hb]; [by exists b|by apply elem_of_nil in Hb].
  - destruct Hb as [Hb|Hb].
    + apply IH. left. set_solver.
    + apply elem_of_cons in Hb as [->|Hb].
      * destruct (IH (caller_blocks ++
                        [{| block_addr := block_addr c;
                            m_id := S (max_block_id caller_blocks);
                            m_entries := m_entries c |}])
                     {| block_addr := block_addr c;
                        m_id := S (max_block_id caller_blocks);
                        m_entries := m_entries c |}) as (b' & Hin & Haddr & Hent);
          [left; set_solver|].
        by exists b'.
      * apply IH. by right.
Qed.

Lemma filter_keeps_prefix {A} (P : A -> Prop) `{forall x, Decision (P x)}
    (moves rest : list A) :
  Forall P moves -> filter P (moves ++ rest) = moves ++ filter P rest.
Proof.
  induction 1 as [|x moves Hx Hall IH]; [done|].
  simpl. rewrite filter_cons_True by done. by rewrite IH.
Qed.

Lemma set_param_instructions_entry_block (cfg : ControlFlowGraph)
    (insns : list IRInstruction) (b : Block) :
  b ∈ m_blocks cfg -> block_addr b = m_entry_block cfg ->
  exists b', b' ∈ m_blocks (set_param_instructions cfg insns)
    /\ block_addr b' = block_addr b
    /\ m_entries b' = insns ++ snd (leading_params (m_entries b)).
Proof.
  intros Hb Haddr. eexists. split.
  - unfold set_param_instructions. cbn [m_blocks set_blocks].
    apply list_elem_of_fmap. exists b. split; [reflexivity|exact Hb].
  - rewrite Haddr, Nat.eqb_refl. done.
Qed.

Lemma remap_registers_block (cfg : ControlFlowGraph) (crs : Z) (b : Block) :
  b ∈ m_blocks cfg ->
  set_entries b (remap_insn crs <$> m_entries b) ∈ m_blocks (remap_registers cfg crs).
Proof.
  intros Hb. unfold remap_registers, map_instructions. cbn [m_blocks set_blocks].
  apply list_elem_of_fmap. by exists b.
Qed.

Lemma remove_insn_block (cfg : ControlFlowGraph) (a : nat) (b : Block) :
  b ∈ m_blocks cfg ->
  set_entries b (filter (fun i => insn_addr i <> a) (m_entries b))
    ∈ m_blocks (remove_insn cfg a).
Proof.
  intros Hb. unfold remove_insn. cbn [m_blocks set_blocks].
  apply list_elem_of_fmap. by exists b.
Qed.

Lemma remove_insn_no_blocks (cfg : ControlFlowGraph) (a : nat) :
  m_blocks (remove_insn cfg a) = [] -> m_blocks cfg = [].
Proof.
  unfold remove_insn. cbn [m_blocks set_blocks]. apply fmap_nil_inv.
Qed.

(** C3, as amended.  Take a plugin whose hooks leave caller and callee as
    they are, a callee whose N load-params have destinations, the M source
    registers handed over (those of the invoke, or the plugin's), and an
    allocator whose next address lies above that of the call instruction.

    When N <= M there are N moves, the i-th a new object with the move opcode
    of the i-th load-param, the i-th source register as its source and the
    load-param's destination, shifted by the caller's register count, as its
    destination; source registers from N on get no move.  [move_arg_regs]
    returns with the moves written over the load-params.  [inline_cfg]
    returns when the caller has a block, the move-result a destination and
    every return of the callee other than return-void a source; and whenever
    it returns, the callee's entry block stands in the caller with the N moves
    as its first entries.  When the argument registers are caller registers
    and the parameters occupy distinct registers, running the moves leaves in
    the register of parameter i -- the register the remapped callee reads it
    from -- the value argument register i held before.

    When N > M, [srcs.at(M)] throws [std::out_of_range] and [inline_cfg] ends
    with that exception; [move_arg_regs] has by then turned the first M
    load-params of the callee copy into moves and left the others as they
    were. *)
Theorem inline_argument_threading (plugin : CFGInlinerPlugin)
    (caller : ControlFlowGraph) (inline_site_block : nat)
    (inline_site : IRInstruction) (move_res : option IRInstruction)
    (callee : ControlFlowGraph) (callee_entry_block : nat)
    (callee_return_blocks : list nat) (split_on_inline : nat) (n : nat) :
  let params := get_param_instructions callee in
  let srcs := inline_site_srcs plugin inline_site in
  let caller_regs_size := m_registers_size caller in
  let remapped := remap_registers callee caller_regs_size in
  let inlined :=
    inline_cfg_body plugin caller inline_site_block inline_site move_res callee
      callee_entry_block callee_return_blocks split_on_inline n in
  (forall c e, update_before_reg_remap plugin c e = (c, e)) ->
  (forall c e, fst (update_after_reg_remap plugin c e) = (c, e)) ->
  Forall (fun load => has_dest load = true) params ->
  (insn_addr inline_site < n)%nat ->
  ((length params <= length srcs)%nat ->
     exists moves,
       length moves = length params
       /\ (forall i load, params !! i = Some load ->
             exists m, moves !! i = Some m
               /\ move_for srcs caller_regs_size (n + i) i load m)
       /\ (exists callee1,
             move_arg_regs_in_place remapped srcs n
             = (callee1, (n + length params)%nat, Ok tt)
             /\ take (length params) (entry_instructions callee1) = moves)
       /\ (m_blocks caller <> [] ->
           (forall mr, move_res = Some mr -> has_dest mr = true) ->
           returns_have_src callee ->
           exists caller' n', inlined = Ok (caller', n'))
       /\ (forall caller' n', inlined = Ok (caller', n') ->
             forall b, b ∈ m_blocks callee -> block_addr b = m_entry_block callee ->
               exists b', b' ∈ m_blocks caller' /\ block_addr b' = block_addr b
                 /\ take (length params) (m_entries b') = moves)
       /\ (forall (V : Type) (rho : Z -> V),
             0 <= caller_regs_size ->
             args_in_caller params srcs caller_regs_size ->
             dests_fit params caller_regs_size ->
             dests_disjoint params ->
             forall i load s d off,
               params !! i = Some load -> srcs !! i = Some s ->
               dest_opt load = Some d ->
               0 <= off < param_width (opcode load) ->
               exec_moves rho moves (d + caller_regs_size + off) = rho (s + off)))
  /\ ((length srcs < length params)%nat ->
        inlined = Throw out_of_range
        /\ exists callee1,
             move_arg_regs_in_place remapped srcs n
             = (callee1, S (n + length srcs), Throw out_of_range)
             /\ (forall i load, (i < length srcs)%nat -> params !! i = Some load ->
                   exists m, entry_instructions callee1 !! i = Some m
                     /\ move_for srcs caller_regs_size (n + i) i load m)
             /\ drop (length srcs) (entry_instructions callee1)
                = drop (length srcs) (entry_instructions remapped)).
Proof.
  intros params srcs crs remapped inlined Hbefore Hafter Hdest Hsite.
  pose proof (params_of_callee_ok callee crs Hdest) as Hok.
  assert (Hparams : get_param_instructions remapped = remap_insn crs <$> params)
    by apply get_param_instructions_remap.
  split.
  - intros Hlen.
    destruct (move_arg_regs_loop_ok (remap_insn crs <$> params) srcs 0 n Hok)
      as (moves & Hloop & Hmlen & Hnth).
    { rewrite length_fmap. simpl. exact Hlen. }
    rewrite length_fmap in Hloop, Hmlen.
    set (callee1 := set_param_instructions remapped moves).
    assert (Hrun1 : move_arg_regs remapped srcs n = Ok (callee1, (n + length params)%nat)).
    { unfold move_arg_regs, bind, ret. by rewrite Hparams, Hloop. }
    assert (Hmoves : forall i load, params !! i = Some load ->
            exists s d op,
              srcs !! i = Some s /\ dest_opt load = Some d
              /\ load_param_to_move (opcode load) = Ok op
              /\ moves !! i
                 = Some {| insn_addr := (n + i)%nat; opcode := op; srcs_vec := [s];
                           dest_opt := Some (reg_wrap (d + crs)) |}).
    { intros i load Hi.
      destruct (Hnth i (remap_insn crs load)) as (s & d' & op & Hs & Hd' & Hop & Hm).
      { by rewrite list_lookup_fmap, Hi. }
      simpl in Hd', Hop. destruct (dest_opt load) as [d|] eqn:Hd; [|done].
      simpl in Hd'. injection Hd' as <-.
      exists s, d, op. done. }
    assert (Hnoret : Forall (fun m => is_return (opcode m) = false) moves).
    { destruct (move_arg_regs_loop_inv _ _ _ _ _ _ Hloop) as [_ Hall].
      eapply Forall_impl; [exact Hall|]. by intros m (_ & Hnr & _). }
    assert (Hfresh : Forall (fun m => insn_addr m <> insn_addr inline_site) moves).
    { destruct (move_arg_regs_loop_inv _ _ _ _ _ _ Hloop) as [_ Hall].
      eapply Forall_impl; [exact Hall|]. intros m (Hge & _). lia. }
    assert (Hentry : forall b, b ∈ m_blocks callee -> block_addr b = m_entry_block callee ->
              exists b1 rest, b1 ∈ m_blocks callee1 /\ block_addr b1 = block_addr b
                /\ m_entries b1 = moves ++ rest).
    { intros b Hb Haddr.
      destruct (set_param_instructions_entry_block remapped moves
                  (set_entries b (remap_insn crs <$> m_entries b)))
        as (b1 & Hb1 & Haddr1 & Hent1); [by apply remap_registers_block|exact Haddr|].
      exists b1, (snd (leading_params (remap_insn crs <$> m_entries b))). done. }
    exists moves. split; [exact Hmlen|]. split; [|split; [|split; [|split]]].
    + intros i load Hi. destruct (Hmoves i load Hi) as (s & d & op & Hs & Hd & Hop & Hm).
      eexists. split; [exact Hm|]. by exists s, d, op.
    + exists callee1. split.
      * pose proof (move_arg_regs_in_place_outcome remapped srcs n) as Hout.
        rewrite Hrun1 in Hout.
        destruct (move_arg_regs_in_place remapped srcs n) as [[c n1] [[]|e]]; [|done].
        by injection Hout as <- <-.
      * unfold callee1. rewrite entry_instructions_set_params.
        pose proof Hparams as Hfind. unfold get_param_instructions in Hfind.
        destruct (find_block remapped (m_entry_block remapped)) as [b|].
        -- rewrite <- Hmlen. by rewrite take_app_length.
        -- destruct params; [by destruct moves|done].
    + (* [inline_cfg] returns *)
      intros Hblocks Hmr Hret.
      destruct inlined as [[caller' n']|e] eqn:Hrun; [by eexists _, _|exfalso].
      unfold inlined, inline_cfg_body in Hrun. rewrite Hbefore in Hrun.
      apply bind_throw_inv in Hrun as [Hthrow|(c1 & n1 & Hargs & Hrun)].
      { fold crs remapped srcs in Hthrow. by rewrite Hrun1 in Hthrow. }
      fold crs remapped srcs in Hargs. rewrite Hrun1 in Hargs. injection Hargs as <- <-.
      apply bind_throw_inv in Hrun as [Hthrow|([return_reg caller1] & n2 & Hrc & Hrun)].
      { destruct (has_move_result_any inline_site); [|done].
        apply bind_throw_inv in Hthrow as [Hthrow|(rr & n0 & Hrr & Hthrow)].
        - destruct (reg_for_return plugin); [done|].
          destruct move_res as [mr|]; [|done].
          apply bind_throw_inv in Hthrow as [Hthrow|(d & n0 & Hd & Hthrow)]; [|done].
          specialize (Hmr mr eq_refl). unfold has_dest in Hmr.
          unfold lift, dest in Hthrow. by destruct (dest_opt mr).
        - destruct move_res as [mr|]; [|done]. by destruct (remove_inline_site plugin). }
      assert (Hcaller1 : m_blocks caller1 <> []).
      { destruct (has_move_result_any inline_site).
        - apply PTMapFacts.bind_inv in Hrc as (rr & n0 & Hrr & Hrc).
          destruct move_res as [mr|].
          + destruct (remove_inline_site plugin); injection Hrc as _ <- _; [|done].
            intros Hnil. by apply Hblocks, (remove_insn_no_blocks _ _ Hnil).
          + by injection Hrc as _ <- _.
        - by injection Hrc as _ <- _. }
      apply bind_throw_inv in Hrun as [Hthrow|(callee2 & n3 & Hret2 & Hrun)].
      { unfold move_return_reg in Hthrow.
        apply bind_throw_inv in Hthrow as [Hthrow|(bs & n0 & Hbs & Hthrow)]; [|done].
        destruct (move_return_reg_blocks_total (m_blocks callee1) return_reg n2)
          as (bs & n0 & Hbs); [|by rewrite Hbs in Hthrow].
        intros b i Hb Hi Hisret Hvoid.
        assert (Hin : i ∈ instructions callee1)
          by (apply elem_of_instructions; by exists b).
        apply instructions_set_params in Hin as [Hin|Hin].
        - rewrite Forall_forall in Hnoret. rewrite (Hnoret i Hin) in Hisret. done.
        - unfold remapped, remap_registers in Hin. rewrite instructions_map in Hin.
          apply list_elem_of_fmap in Hin as (orig & -> & Horig). simpl in *.
          intros Hnil. apply fmap_nil_inv in Hnil. by apply (Hret orig). }
      specialize (Hafter caller1 callee2).
      destruct (update_after_reg_remap plugin caller1 callee2) as [[c e'] flag].
      simpl in Hafter. injection Hafter as -> ->.
      apply bind_throw_inv in Hrun as [Hthrow|(stolen & n4 & Hsteal & Hrun)]; [|done].
      unfold lift, steal_contents in Hthrow.
      by destruct (m_blocks caller1).
    + (* the moves open the callee's entry block in the caller *)
      intros caller' n' Hrun b Hb Haddr.
      unfold inlined, inline_cfg_body in Hrun. rewrite Hbefore in Hrun.
      apply PTMapFacts.bind_inv in Hrun as (c1 & n1 & Hargs & Hrun).
      fold crs remapped srcs in Hargs. rewrite Hrun1 in Hargs. injection Hargs as <- <-.
      apply PTMapFacts.bind_inv in Hrun as ([return_reg caller1] & n2 & Hrc & Hrun).
      apply PTMapFacts.bind_inv in Hrun as (callee2 & n3 & Hret2 & Hrun).
      specialize (Hafter caller1 callee2).
      destruct (update_after_reg_remap plugin caller1 callee2) as [[c e'] flag].
      simpl in Hafter. injection Hafter as -> ->.
      apply PTMapFacts.bind_inv in Hrun as ([stolen emptied] & n4 & Hsteal & Hrun).
      apply PTMapFacts.lift_inv in Hsteal as [Hsteal ->].
      cbn [fst] in Hrun.
      destruct (Hentry b Hb Haddr) as (b1 & rest1 & Hb1 & Haddr1 & Hent1).
      (* through [move_return_reg] *)
      unfold move_return_reg in Hret2.
      apply PTMapFacts.bind_inv in Hret2 as (bs & n0 & Hbs & Hret2).
      injection Hret2 as <- <-.
      destruct (move_return_reg_blocks_elem _ _ _ _ _ Hbs b1 Hb1)
        as (l & m1 & m2 & Hin2 & Hloop2).
      rewrite Hent1 in Hloop2.
      destruct (move_return_reg_loop_prefix _ _ _ _ _ _ Hnoret Hloop2) as [rest2 ->].
      (* through [steal_contents] *)
      assert (Hstolen : m_blocks stolen
                        = steal_blocks (m_blocks caller1) bs).
      { unfold steal_contents in Hsteal.
        destruct (m_blocks caller1) as [|x xs] eqn:Hc1; [done|].
        by injection Hsteal as <- _. }
      destruct (steal_blocks_elem bs (m_blocks caller1)
                  (set_entries b1 (moves ++ rest2))) as (b3 & Hb3 & Haddr3 & Hent3);
        [by right|].
      rewrite <- Hstolen in Hb3. simpl in Haddr3, Hent3.
      assert (Hsized : forall c,
                m_blocks (if flag
                          then recompute_registers_size
                                 (connect_cfgs (inline_after plugin) stolen
                                    inline_site_block bs callee_entry_block
                                    callee_return_blocks split_on_inline)
                          else set_registers_size
                                 (connect_cfgs (inline_after plugin) stolen
                                    inline_site_block bs callee_entry_block
                                    callee_return_blocks split_on_inline) c)
                = m_blocks stolen).
      { intros c0. destruct flag; simpl; apply connect_cfgs_blocks. }
      destruct (remove_inline_site plugin); injection Hrun as <- <-.
      * eexists. split; [apply remove_insn_block; rewrite Hsized; exact Hb3|].
        split; [simpl; congruence|]. simpl. rewrite Hent3.
        rewrite filter_keeps_prefix by exact Hfresh.
        rewrite <- Hmlen. by rewrite take_app_length.
      * exists b3. split; [by rewrite Hsized|]. split; [congruence|].
        rewrite Hent3, <- Hmlen. by rewrite take_app_length.
    + (* what the moves do *)
      intros V rho Hcrs Hargs Hfit Hdisj i load s d off Hi Hs Hd Hoff.
      destruct (Hmoves i load Hi) as (s' & d' & op & Hs' & Hd' & Hop & Hm).
      rewrite Hs in Hs'. injection Hs' as <-. rewrite Hd in Hd'. injection Hd' as <-.
      destruct (Hfit load d) as [Hd0 Hdfit]; [by eapply list_elem_of_lookup_2|done|].
      assert (Hw : move_width op = param_width (opcode load)).
      { destruct (opcode load); simpl in Hop; try done; by injection Hop as <-. }
      assert (Hwpos : 1 <= param_width (opcode load)) by (destruct (opcode load); simpl; lia).
      assert (Hwrap : reg_wrap (d + crs) = d + crs).
      { unfold reg_wrap. apply Z.mod_small. lia. }
      rewrite Hwrap in Hm.
      rewrite <- (take_drop_middle moves i _ Hm).
      replace (d + crs + off) with ((d + crs) + off) by lia.
      apply exec_moves_at; simpl; [done|done|lia| |].
      * intros m' Hm' (s1 & d1 & Hs1 & Hd1 & Hrange).
        apply list_elem_of_lookup in Hm' as [j Hj].
        apply lookup_take_Some in Hj as [Hj Hji].
        assert (is_Some (params !! j)) as [lj Hlj].
        { apply lookup_lt_is_Some. apply lookup_lt_Some in Hj. lia. }
        destruct (Hmoves j lj Hlj) as (sj & dj & opj & Hsj & Hdj & Hopj & Hmj).
        rewrite Hj in Hmj. injection Hmj as ->. simpl in Hs1, Hd1, Hrange.
        injection Hd1 as <-.
        destruct (Hfit lj dj) as [Hdj0 Hdjfit]; [by eapply list_elem_of_lookup_2|done|].
        assert (Hwj : 1 <= param_width (opcode lj)) by (destruct (opcode lj); simpl; lia).
        unfold reg_wrap in Hrange. rewrite Z.mod_small in Hrange by lia.
        destruct (Hargs i load s Hi Hs). lia.
      * intros m' Hm' (s1 & d1 & Hs1 & Hd1 & Hrange).
        apply list_elem_of_lookup in Hm' as [j Hj].
        rewrite lookup_drop in Hj.
        assert (is_Some (params !! (S i + j)%nat)) as [lj Hlj].
        { apply lookup_lt_is_Some. apply lookup_lt_Some in Hj. lia. }
        destruct (Hmoves _ lj Hlj) as (sj & dj & opj & Hsj & Hdj & Hopj & Hmj).
        rewrite Hj in Hmj. injection Hmj as ->. simpl in Hs1, Hd1, Hrange.
        injection Hd1 as <-.
        destruct (Hfit lj dj) as [Hdj0 Hdjfit]; [by eapply list_elem_of_lookup_2|done|].
        assert (Hwj : move_width opj = param_width (opcode lj)).
        { destruct (opcode lj); simpl in Hopj; try done; by injection Hopj as <-. }
        assert (Hwj1 : 1 <= param_width (opcode lj)) by (destruct (opcode lj); simpl; lia).
        unfold reg_wrap in Hrange. rewrite Z.mod_small in Hrange by lia.
        destruct (Hdisj i (S i + j)%nat load lj d dj) as [Hlt|Hlt]; try done; lia.
  - intros Hlen.
    destruct (move_arg_regs_loop_in_place_short (remap_insn crs <$> params) srcs 0 n Hok)
      as (insns & Hloop & Hnth & Hdrop).
    { rewrite length_fmap. lia. }
    rewrite Nat.sub_0_r in Hloop, Hnth, Hdrop.
    assert (Hplace : move_arg_regs_in_place remapped srcs n
                     = (set_param_instructions remapped insns, S (n + length srcs),
                        Throw out_of_range)).
    { unfold move_arg_regs_in_place. by rewrite Hparams, Hloop. }
    split.
    + unfold inlined, inline_cfg_body. rewrite Hbefore.
      unfold bind at 1. fold crs remapped srcs.
      rewrite move_arg_regs_in_place_outcome, Hplace. done.
    + eexists. split; [exact Hplace|].
      rewrite entry_instructions_set_params.
      pose proof Hparams as Hfind. unfold get_param_instructions in Hfind.
      unfold entry_instructions.
      destruct (find_block remapped (m_entry_block remapped)) as [b|] eqn:Hb.
      * split.
        -- intros i load Hi Hl.
           destruct (Hnth i (remap_insn crs load) Hi) as (s & d' & op & Hs & Hd' & Hop & Hm).
           { by rewrite list_lookup_fmap, Hl. }
           simpl in Hd', Hop. destruct (dest_opt load) as [d|] eqn:Hd; [|done].
           simpl in Hd'. injection Hd' as <-.
           eexists. split; [by rewrite lookup_app_l by (by eapply lookup_lt_Some)|].
           by exists s, d, op.
        -- assert (Hilen : (length srcs <= length insns)%nat).
           { destruct (Nat.le_gt_cases (length srcs) (length insns)) as [|Hgt]; [done|].
             exfalso. rewrite (drop_ge insns) in Hdrop by lia.
             symmetry in Hdrop. apply (f_equal length) in Hdrop.
             rewrite length_drop, length_fmap in Hdrop. simpl in Hdrop. lia. }
           rewrite <- (leading_params_app (m_entries b)) at 2.
           rewrite Hfind. rewrite !drop_app_le by (rewrite ?length_fmap; lia).
           by rewrite Hdrop.
      * destruct params; [simpl in Hlen; lia|done].
Qed.

(** C3, as stated, fails when the numbers differ.  With two load-params and
    one source register, [srcs.at(1)] throws and [inline_cfg] is abandoned,
    the first load-param of the callee copy already turned into a move; with
    one load-param and two source registers [inline_cfg] returns, the entry
    block of the callee holds one move, and there is no move from the second
    source register. *)
Lemma argument_threading_counts_differ :
  (length (get_param_instructions two_param_callee) = 2%nat
   /\ inline_cfg_body base_plugin sample_caller 100
        (mk_insn 21 OPCODE_INVOKE_STATIC [0] None)
        (Some (mk_insn 22 OPCODE_MOVE_RESULT [] (Some 1)))
        two_param_callee 0 [0%nat] 101 40%nat
      = Throw out_of_range
   /\ exists callee1,
        move_arg_regs_in_place (remap_registers two_param_callee 2) [0] 40%nat
        = (callee1, 42%nat, Throw out_of_range)
        /\ entry_instructions callee1
           = [mk_insn 40 OPCODE_MOVE [0] (Some 2);
              mk_insn 1 IOPCODE_LOAD_PARAM_WIDE [] (Some 3);
              mk_insn 2 OPCODE_RETURN_WIDE [3] None])
  /\ (length (get_param_instructions sample_callee) = 1%nat
      /\ exists caller',
           inline_cfg_body base_plugin sample_caller 100
             (mk_insn 21 OPCODE_INVOKE_STATIC [0; 1] None)
             (Some (mk_insn 22 OPCODE_MOVE_RESULT [] (Some 1)))
             sample_callee 200 [202%nat] 101 40%nat
           = Ok (caller', 42%nat)
           /\ m_entries <$> find_block caller' 200
              = Some [mk_insn 40 OPCODE_MOVE [0] (Some 2);
                      mk_insn 31 OPCODE_NEW_INSTANCE [] (Some 3)]).
Proof.
  split.
  - split; [reflexivity|]. split; [vm_compute; reflexivity|].
    eexists. split; vm_compute; reflexivity.
  - split; [reflexivity|]. eexists. split; vm_compute; reflexivity.
Qed.

Lemma sample_callee_returns (insn : IRInstruction) :
  insn ∈ instructions sample_callee -> is_return (opcode insn) = true ->
  opcode insn <> OPCODE_RETURN_VOID -> srcs_vec insn <> [].
Proof.
  intros Hin. unfold instructions in Hin. simpl in Hin. elem_cases Hin; done.
Qed.

Lemma inline_argument_threading_witness :
  (exists caller' n',
     inline_cfg_body base_plugin sample_caller 100
       (mk_insn 21 OPCODE_INVOKE_STATIC [0] None)
       (Some (mk_insn 22 OPCODE_MOVE_RESULT [] (Some 1)))
       sample_callee 200 [202%nat] 101 40%nat = Ok (caller', n')
     /\ exists b', b' ∈ m_blocks caller' /\ block_addr b' = 200%nat
          /\ take 1 (m_entries b') = [mk_insn 40 OPCODE_MOVE [0] (Some 2)])
  /\ exec_moves (fun r => r) [mk_insn 40 OPCODE_MOVE [0] (Some 2)] (0 + 2 + 0) = 0 + 0
  /\ inline_cfg_body base_plugin sample_caller 100
       (mk_insn 21 OPCODE_INVOKE_STATIC [0] None)
       (Some (mk_insn 22 OPCODE_MOVE_RESULT [] (Some 1)))
       two_param_callee 0 [0%nat] 101 40%nat
     = Throw out_of_range.
Proof.
  destruct (inline_argument_threading base_plugin sample_caller 100
              (mk_insn 21 OPCODE_INVOKE_STATIC [0] None)
              (Some (mk_insn 22 OPCODE_MOVE_RESULT [] (Some 1)))
              sample_callee 200 [202%nat] 101 40%nat)
    as [Hfits _].
  { reflexivity. }
  { reflexivity. }
  { repeat constructor. }
  { simpl. lia. }
  destruct (inline_argument_threading base_plugin sample_caller 100
              (mk_insn 21 OPCODE_INVOKE_STATIC [0] None)
              (Some (mk_insn 22 OPCODE_MOVE_RESULT [] (Some 1)))
              two_param_callee 0 [0%nat] 101 40%nat)
    as [_ Hshort].
  { reflexivity. }
  { reflexivity. }
  { repeat constructor. }
  { simpl. lia. }
  destruct (Hfits ltac:(simpl; lia))
    as (moves & Hlen & Hnth & _ & Hreturns & Hopens & Hexec).
  assert (Hmoves : moves = [mk_insn 40 OPCODE_MOVE [0] (Some 2)]).
  { destruct (Hnth 0%nat (mk_insn 30 IOPCODE_LOAD_PARAM [] (Some 0)) eq_refl)
      as (m & Hm & s & d & op & Hs & Hd & Hop & ->).
    simpl in Hs, Hd, Hop. injection Hs as <-. injection Hd as <-. injection Hop as <-.
    destruct moves as [|m0 [|m1 moves]]; simpl in Hlen, Hm; try done.
    by injection Hm as ->. }
  rewrite Hmoves in Hopens, Hexec.
  split; [|split].
  - destruct Hreturns as (caller' & n' & Hrun).
    + done.
    + by intros mr [= <-].
    + exact sample_callee_returns.
    + exists caller', n'. split; [exact Hrun|].
      destruct (Hopens caller' n' Hrun
                  {| block_addr := 200; m_id := 0;
                     m_entries := [mk_insn 30 IOPCODE_LOAD_PARAM [] (Some 0);
                                   mk_insn 31 OPCODE_NEW_INSTANCE [] (Some 1)] |})
        as (b' & Hb' & Haddr & Htake).
      * simpl. set_solver.
      * reflexivity.
      * by exists b'.
  - apply (Hexec Z (fun r => r) ltac:(simpl; lia)) with
      (i := 0%nat) (load := mk_insn 30 IOPCODE_LOAD_PARAM [] (Some 0));
      try reflexivity.
    + intros [|i] load s Hl Hs; simpl in Hl, Hs; try done.
      injection Hl as <-. injection Hs as <-. simpl. lia.
    + intros load d Hin Hd. simpl in Hin. elem_cases Hin. simpl in Hd.
      injection Hd as <-. simpl. unfold reg_bits. lia.
    + intros [|i] [|j] li lj di dj Hne Hli Hlj; simpl in Hli, Hlj; done.
    + simpl. lia.
  - apply Hshort. simpl. lia.
Defined.

(** *** Throw edges *)

Lemma add_throw_edges_edges (catches : list Edge) :
  forall cfg b start,
  m_edges (add_throw_edges cfg catches b start)
  = m_edges cfg ++ new_throw_edges catches b start.
Proof.
  induction catches as [|c catches IH]; intros cfg b start; simpl.
  - by rewrite app_nil_r.
  - destruct (e_type c); rewrite IH; simpl; try done.
    by rewrite <- app_assoc.
Qed.

Lemma new_throw_edges_src (catches : list Edge) :
  forall b start e, e ∈ new_throw_edges catches b start ->
    e_src e = b /\ is_throw_edge e = true.
Proof.
  induction catches as [|c catches IH]; intros b start e Hin; simpl in Hin.
  - by apply elem_of_nil in Hin.
  - destruct (e_type c); try (by eapply IH).
    apply elem_of_cons in Hin as [->|Hin]; [done|by eapply IH].
Qed.














Lemma connect_edges (preds : list nat) :
  forall cfg succ,
  m_edges (connect cfg preds succ)
  = m_edges cfg
    ++ ((fun p => {| e_src := p; e_target := succ; e_type := EDGE_GOTO |}) <$> preds).
Proof.
  unfold connect. induction preds as [|p preds IH]; intros cfg succ; simpl.
  - by rewrite app_nil_r.
  - rewrite IH. simpl. by rewrite <- app_assoc.
Qed.








(** *** A sample inlining *)

Lemma sample_caller_registers (insn : IRInstruction) :
  insn ∈ instructions sample_caller -> registers_within 0 2 insn.
Proof.
  intros Hin r Hr. unfold instructions in Hin. simpl in Hin.
  elem_cases Hin; unfold registers in Hr; simpl in Hr; elem_cases Hr; lia.
Qed.

Lemma sample_callee_registers (insn : IRInstruction) :
  insn ∈ instructions sample_callee -> registers_within 0 2 insn.
Proof.
  intros Hin r Hr. unfold instructions in Hin. simpl in Hin.
  elem_cases Hin; unfold registers in Hr; simpl in Hr; elem_cases Hr; lia.
Qed.

Lemma inline_register_disjointness_witness :
  exists caller',
    inline_cfg_body base_plugin sample_caller 100 (mk_insn 21 OPCODE_INVOKE_STATIC [0] None)
      (Some (mk_insn 22 OPCODE_MOVE_RESULT [] (Some 1))) sample_callee 200 [202%nat] 101
      40%nat = Ok (caller', 42%nat)
    /\ m_registers_size caller' = 4
    /\ forall insn, insn ∈ instructions caller' -> registers_within 0 4 insn.
Proof.
  eexists. split; [vm_compute; reflexivity|].
  match goal with
  | |- m_registers_size ?c = _ /\ _ =>
      destruct (inline_register_disjointness base_plugin sample_caller 100
                  (mk_insn 21 OPCODE_INVOKE_STATIC [0] None)
                  (Some (mk_insn 22 OPCODE_MOVE_RESULT [] (Some 1)))
                  sample_callee 200 [202%nat] 101 40%nat 42%nat c)
        as (_ & Hbound & _)
  end.
  - reflexivity.
  - reflexivity.
  - simpl. lia.
  - simpl. lia.
  - simpl. unfold reg_bits. lia.
  - exact sample_caller_registers.
  - exact sample_callee_registers.
  - intros r Hr. simpl in Hr. elem_cases Hr. simpl. lia.
  - intros r Hr. discriminate Hr.
  - intros mr [= <-] r Hr. unfold registers in Hr. simpl in Hr. elem_cases Hr. simpl. lia.
  - vm_compute. reflexivity.
  - split; [reflexivity|]. exact Hbound.
Defined.



End InlinerFacts.

(** ** The CFG inliner: the steps one by one *)

Module InlinerOperations.
Import IR Inliner InlinerFacts.

Lemma return_to_move_not_return op mv :
  return_to_move op = Ok mv -> is_return mv = false.
Proof. destruct op; simpl; intros [= <-]; done. Qed.

Lemma move_return_reg_loop_spec (l : list IRInstruction) (ret_reg : option Z) :
  forall (n0 n : nat) l' n',
  (n0 <= n)%nat ->
  Forall (older_than n0) l ->
  move_return_reg_loop l ret_reg n = Ok (l', n') ->
  Forall not_return l'
  /\ filter (older_than n0) l' = filter not_return l
  /\ (ret_reg = None -> l' = filter not_return l).
Proof.
  induction l as [|insn rest IH]; intros n0 n l' n' Hle Hold Hrun; simpl in Hrun.
  - apply PTMapFacts.ret_inv in Hrun as [-> _]. done.
  - apply Forall_cons in Hold as [Hinsn Hrest].
    destruct (is_return (opcode insn)) eqn:Hret.
    + apply PTMapFacts.bind_inv in Hrun as (op & n1 & Hop & Hrun).
      apply PTMapFacts.lift_inv in Hop as [Hop ->].
      rewrite (filter_cons_False not_return) by (unfold not_return; congruence).
      destruct ret_reg as [r|].
      * destruct (bool_decide (op <> OPCODE_NOP)).
        -- apply PTMapFacts.bind_inv in Hrun as (a & n2 & Ha & Hrun). injection Ha as <- <-.
           apply PTMapFacts.bind_inv in Hrun as (s & n3 & Hs & Hrun).
           apply PTMapFacts.lift_inv in Hs as [Hs ->].
           apply PTMapFacts.bind_inv in Hrun as (rest' & n4 & Hrest' & Hrun).
           apply PTMapFacts.ret_inv in Hrun as [-> ->].
           destruct (IH n0 (S n) rest' n4 ltac:(lia) Hrest Hrest') as (Hnr & Hf & _).
           split.
           { constructor; [|done]. unfold not_return. simpl.
             by eapply return_to_move_not_return. }
           split; [|done].
           rewrite filter_cons_False; [done|]. unfold older_than. simpl. lia.
        -- destruct (IH n0 n l' n' Hle Hrest Hrun) as (Hnr & Hf & _). done.
      * destruct (IH n0 n l' n' Hle Hrest Hrun) as (Hnr & Hf & Hnone). auto.
    + apply PTMapFacts.bind_inv in Hrun as (rest' & n1 & Hrest' & Hrun).
      apply PTMapFacts.ret_inv in Hrun as [-> ->].
      destruct (IH n0 n rest' n1 Hle Hrest Hrest') as (Hnr & Hf & Hnone).
      rewrite (filter_cons_True not_return) by done.
      split; [by constructor|]. split.
      * rewrite filter_cons_True by done. by rewrite Hf.
      * intros Hn. by rewrite Hnone.
Qed.

Lemma move_return_reg_blocks_spec (bs : list Block) (ret_reg : option Z) :
  forall (n0 n : nat) bs' n',
  (n0 <= n)%nat ->
  Forall (older_than n0) (concat (m_entries <$> bs)) ->
  move_return_reg_blocks bs ret_reg n = Ok (bs', n') ->
  (n <= n')%nat
  /\ block_addr <$> bs' = block_addr <$> bs
  /\ m_id <$> bs' = m_id <$> bs
  /\ Forall not_return (concat (m_entries <$> bs'))
  /\ filter (older_than n0) (concat (m_entries <$> bs'))
     = filter not_return (concat (m_entries <$> bs))
  /\ (ret_reg = None ->
      concat (m_entries <$> bs') = filter not_return (concat (m_entries <$> bs))).
Proof.
  induction bs as [|b rest IH]; intros n0 n bs' n' Hle Hold Hrun; simpl in Hrun.
  - apply PTMapFacts.ret_inv in Hrun as [-> ->]. done.
  - rewrite fmap_cons in Hold. simpl in Hold. apply Forall_app in Hold as [Hb Hrest].
    apply PTMapFacts.bind_inv in Hrun as (l & n1 & Hl & Hrun).
    apply PTMapFacts.bind_inv in Hrun as (rest' & n2 & Hrest' & Hrun).
    apply PTMapFacts.ret_inv in Hrun as [-> ->].
    destruct (move_return_reg_loop_inv _ _ _ _ _ Hl) as [Hle1 _].
    destruct (move_return_reg_loop_spec _ _ n0 _ _ _ Hle Hb Hl) as (Hnr & Hf & Hnone).
    destruct (IH n0 n1 rest' n2 ltac:(lia) Hrest Hrest')
      as (Hle2 & Haddr & Hid & Hnr' & Hf' & Hnone').
    split; [lia|]. rewrite !fmap_cons. simpl.
    split; [by rewrite Haddr|]. split; [by rewrite Hid|].
    split; [by apply Forall_app|]. split.
    + by rewrite !filter_app, Hf, Hf'.
    + intros Hn. by rewrite filter_app, Hnone, Hnone'.
Qed.

Lemma made_from_return_mono l l' ret_reg m :
  (forall x, x ∈ l -> x ∈ l') -> made_from_return l ret_reg m -> made_from_return l' ret_reg m.
Proof.
  intros Hsub (ret & s & r & Hin & H1). exists ret, s, r. split; [auto|done].
Qed.

Lemma move_return_reg_loop_new (l : list IRInstruction) (ret_reg : option Z) :
  forall (n : nat) l' n',
  move_return_reg_loop l ret_reg n = Ok (l', n') ->
  Forall (fun m => m ∈ l \/ made_from_return l ret_reg m) l'.
Proof.
  induction l as [|insn rest IH]; intros n l' n' Hrun; simpl in Hrun.
  - apply PTMapFacts.ret_inv in Hrun as [-> _]. constructor.
  - assert (Hmono : forall l', Forall (fun m => m ∈ rest \/ made_from_return rest ret_reg m) l' ->
              Forall (fun m => m ∈ insn :: rest \/ made_from_return (insn :: rest) ret_reg m) l').
    { intros l0 HF. eapply Forall_impl; [exact HF|].
      intros m [Hm|Hm]; [left; set_solver|right].
      eapply made_from_return_mono; [|done]. set_solver. }
    destruct (is_return (opcode insn)) eqn:Hret.
    + apply PTMapFacts.bind_inv in Hrun as (op & n1 & Hop & Hrun).
      apply PTMapFacts.lift_inv in Hop as [Hop ->].
      destruct ret_reg as [r|].
      * destruct (bool_decide (op <> OPCODE_NOP)).
        -- apply PTMapFacts.bind_inv in Hrun as (a & n2 & Ha & Hrun). injection Ha as <- <-.
           apply PTMapFacts.bind_inv in Hrun as (s & n3 & Hs & Hrun).
           apply PTMapFacts.lift_inv in Hs as [Hs ->].
           apply PTMapFacts.bind_inv in Hrun as (rest' & n4 & Hrest' & Hrun).
           apply PTMapFacts.ret_inv in Hrun as [-> ->].
           constructor; [|by eapply Hmono, IH].
           right. exists insn, s, r. split; [set_solver|]. split; [done|].
           unfold src in Hs. destruct (srcs_vec insn !! 0%nat) eqn:Hs0; [|done].
           injection Hs as ->. done.
        -- by eapply Hmono, IH.
      * by eapply Hmono, IH.
    + apply PTMapFacts.bind_inv in Hrun as (rest' & n1 & Hrest' & Hrun).
      apply PTMapFacts.ret_inv in Hrun as [-> ->].
      constructor; [left; set_solver|by eapply Hmono, IH].
Qed.

Lemma move_return_reg_blocks_new (bs : list Block) (ret_reg : option Z) :
  forall (n : nat) bs' n',
  move_return_reg_blocks bs ret_reg n = Ok (bs', n') ->
  Forall (fun m => m ∈ concat (m_entries <$> bs)
                   \/ made_from_return (concat (m_entries <$> bs)) ret_reg m)
    (concat (m_entries <$> bs')).
Proof.
  induction bs as [|b rest IH]; intros n bs' n' Hrun; simpl in Hrun.
  - apply PTMapFacts.ret_inv in Hrun as [-> ->]. constructor.
  - apply PTMapFacts.bind_inv in Hrun as (l & n1 & Hl & Hrun).
    apply PTMapFacts.bind_inv in Hrun as (rest' & n2 & Hrest' & Hrun).
    apply PTMapFacts.ret_inv in Hrun as [-> ->]. rewrite !fmap_cons. simpl.
    apply Forall_app. split.
    + eapply Forall_impl; [by eapply move_return_reg_loop_new|].
      intros m [Hm|Hm]; [left; apply elem_of_app; by left|right].
      eapply made_from_return_mono; [|done]. intros x Hx. apply elem_of_app. by left.
    + eapply Forall_impl; [by eapply IH|].
      intros m [Hm|Hm]; [left; apply elem_of_app; by right|right].
      eapply made_from_return_mono; [|done]. intros x Hx. apply elem_of_app. by right.
Qed.

(** X22.  [CFGInliner::move_return_reg] leaves no return instruction in the
    callee.  The instructions that were there before, other than returns,
    stay in their order; every instruction it makes is a move from the first
    source of a return of the callee into the result register, with the
    opcode [return_to_move] gives; without a result register nothing is made
    and the returns are just removed.  Blocks and edges are as before. *)
Theorem move_return_reg_no_returns (callee : ControlFlowGraph) (ret_reg : option Z)
    (n : nat) (callee' : ControlFlowGraph) (n' : nat) :
  (forall insn, insn ∈ instructions callee -> (insn_addr insn < n)%nat) ->
  move_return_reg callee ret_reg n = Ok (callee', n') ->
  (forall insn, insn ∈ instructions callee' -> is_return (opcode insn) = false)
  /\ filter (older_than n) (instructions callee')
     = filter not_return (instructions callee)
  /\ (forall insn, insn ∈ instructions callee' -> (n <= insn_addr insn)%nat ->
        made_from_return (instructions callee) ret_reg insn)
  /\ (ret_reg = None ->
      instructions callee' = filter not_return (instructions callee))
  /\ block_addr <$> m_blocks callee' = block_addr <$> m_blocks callee
  /\ m_id <$> m_blocks callee' = m_id <$> m_blocks callee
  /\ m_edges callee' = m_edges callee.
Proof.
  intros Hold Hrun. unfold move_return_reg in Hrun.
  apply PTMapFacts.bind_inv in Hrun as (bs & n1 & Hbs & Hrun). apply PTMapFacts.ret_inv in Hrun as [-> ->].
  assert (Hold' : Forall (older_than n) (concat (m_entries <$> m_blocks callee))).
  { apply Forall_forall. intros x Hx. by apply Hold. }
  destruct (move_return_reg_blocks_spec _ _ n n _ _ ltac:(lia) Hold' Hbs)
    as (_ & Haddr & Hid & Hnr & Hf & Hnone).
  pose proof (move_return_reg_blocks_new _ _ _ _ _ Hbs) as Hnew.
  unfold instructions. simpl.
  split; [intros insn Hin; rewrite Forall_forall in Hnr; by apply Hnr|].
  split; [done|]. split; [|done].
  intros insn Hin Hge. rewrite Forall_forall in Hnew.
  destruct (Hnew insn Hin) as [Hin'|Hm]; [|done].
  specialize (Hold insn Hin'). lia.
Qed.

Lemma reg_wrap_add_inj (s r1 r2 : Z) :
  0 <= r1 < 2 ^ reg_bits -> 0 <= r2 < 2 ^ reg_bits ->
  reg_wrap (r1 + s) = reg_wrap (r2 + s) -> r1 = r2.
Proof.
  unfold reg_wrap. intros H1 H2 Heq.
  assert (Hpos : 0 < 2 ^ reg_bits) by (unfold reg_bits; lia).
  assert (Hd : (r1 - r2) mod 2 ^ reg_bits = 0).
  { replace (r1 - r2) with ((r1 + s) - (r2 + s)) by lia.
    rewrite Zminus_mod, Heq, Z.sub_diag. apply Z.mod_0_l. lia. }
  apply Z.mod_divide in Hd; [|lia]. destruct Hd as [q Hq].
  assert (q = 0) by nia. lia.
Qed.

(** X23.  [CFGInliner::remap_registers] adds the caller's register count to
    every register of every instruction of the callee, in 32-bit arithmetic,
    and changes nothing else (opcodes, instruction identities, edges, the
    callee's own register count).  The renaming is one to one on 32-bit
    registers, so two registers of the callee never collapse into one. *)
Theorem remap_registers_injective (callee : ControlFlowGraph) (caller_regs_size : Z) :
  let callee' := remap_registers callee caller_regs_size in
  let rename := fun r => reg_wrap (r + caller_regs_size) in
  registers <$> instructions callee'
  = (fun insn => rename <$> registers insn) <$> instructions callee
  /\ opcode <$> instructions callee' = opcode <$> instructions callee
  /\ insn_addr <$> instructions callee' = insn_addr <$> instructions callee
  /\ (forall r1 r2, 0 <= r1 < 2 ^ reg_bits -> 0 <= r2 < 2 ^ reg_bits ->
        rename r1 = rename r2 -> r1 = r2)
  /\ m_edges callee' = m_edges callee
  /\ m_registers_size callee' = m_registers_size callee.
Proof.
  intros callee' rename. subst callee'. unfold remap_registers.
  rewrite instructions_map, <- !list_fmap_compose.
  split.
  { apply list_fmap_ext. intros _ insn _. unfold registers. simpl.
    rewrite fmap_app. f_equal. by destruct (dest_opt insn). }
  split; [done|]. split; [done|].
  split; [intros r1 r2; apply reg_wrap_add_inj|done].
Qed.

Lemma max_block_id_snoc (bs : list Block) (b : Block) :
  max_block_id (bs ++ [b]) = Nat.max (max_block_id bs) (m_id b).
Proof.
  unfold max_block_id. rewrite fmap_app, foldr_app. simpl.
  generalize (m_id <$> bs). intros l. induction l as [|x l IH]; simpl; lia.
Qed.

Lemma steal_blocks_renumber (callee_blocks : list Block) :
  forall caller_blocks,
  steal_blocks caller_blocks callee_blocks
  = caller_blocks ++ renumber (S (max_block_id caller_blocks)) callee_blocks.
Proof.
  induction callee_blocks as [|b rest IH]; intros caller_blocks; simpl.
  - by rewrite app_nil_r.
  - rewrite IH, <- app_assoc. simpl. do 3 f_equal.
    rewrite max_block_id_snoc. simpl. lia.
Qed.

Lemma max_block_id_bound (bs : list Block) (b : Block) :
  b ∈ bs -> (m_id b <= max_block_id bs)%nat.
Proof.
  unfold max_block_id. induction bs as [|x bs IH]; intros Hin.
  - by apply elem_of_nil in Hin.
  - csimpl. apply elem_of_cons in Hin as [->|Hin]; [lia|].
    specialize (IH Hin). lia.
Qed.

Lemma renumber_ids (bs : list Block) (id : nat) :
  m_id <$> renumber id bs = seq id (length bs).
Proof.
  revert id. induction bs as [|b rest IH]; intros id; csimpl; [done|].
  by rewrite IH.
Qed.

Lemma renumber_contents (bs : list Block) (id : nat) :
  block_addr <$> renumber id bs = block_addr <$> bs
  /\ m_entries <$> renumber id bs = m_entries <$> bs.
Proof.
  revert id. induction bs as [|b rest IH]; intros id; csimpl; [done|].
  destruct (IH (S id)) as [-> ->]. done.
Qed.

(** X24.  [CFGInliner::steal_contents] fails its assertion exactly when the
    caller has no block.  Otherwise the caller keeps its blocks and gets the
    callee's behind them, in order, numbered consecutively from one past the
    caller's largest block id: block ids stay distinct.  The callee's edges
    are appended to the caller's, and the callee is left without blocks and
    edges. *)
Theorem steal_contents_fresh_ids (caller callee : ControlFlowGraph) :
  (steal_contents caller callee = Throw assertion_failure <-> m_blocks caller = [])
  /\ forall caller' callee',
       steal_contents caller callee = Ok (caller', callee') ->
       m_blocks caller'
       = m_blocks caller ++ renumber (S (max_block_id (m_blocks caller))) (m_blocks callee)
       /\ m_id <$> m_blocks caller'
          = (m_id <$> m_blocks caller)
            ++ seq (S (max_block_id (m_blocks caller))) (length (m_blocks callee))
       /\ (NoDup (m_id <$> m_blocks caller) -> NoDup (m_id <$> m_blocks caller'))
       /\ m_edges caller' = m_edges caller ++ m_edges callee
       /\ m_blocks callee' = [] /\ m_edges callee' = [].
Proof.
  unfold steal_contents. split.
  - destruct (m_blocks caller); split; done.
  - intros caller' callee' Hrun.
    destruct (m_blocks caller) as [|b0 bs0] eqn:Hbs; [done|].
    injection Hrun as <- <-. simpl. rewrite steal_blocks_renumber.
    split; [done|]. rewrite fmap_app, renumber_ids.
    split; [done|]. split; [|done].
    intros Hnd. apply NoDup_app. split; [done|]. split; [|apply NoDup_seq].
    intros id Hin Hseq. apply elem_of_seq in Hseq as [Hge _].
    apply list_elem_of_fmap in Hin as (b & -> & Hb).
    apply max_block_id_bound in Hb. lia.
Qed.

Lemma add_callee_throws_appends (bs : list Block) :
  forall cfg catches,
  exists extra,
    m_edges (add_callee_throws_to_caller cfg bs catches) = m_edges cfg ++ extra
    /\ Forall (fun e => is_throw_edge e = true) extra.
Proof.
  induction bs as [|b rest IH]; intros cfg catches; simpl.
  - exists []. by rewrite app_nil_r.
  - match goal with
    | |- context [add_callee_throws_to_caller ?c rest catches] =>
        assert (Hstep : exists extra, m_edges c = m_edges cfg ++ extra
                  /\ Forall (fun e => is_throw_edge e = true) extra)
    end.
    { assert (Hadd : forall start, exists extra,
                m_edges (add_throw_edges cfg catches (block_addr b) start)
                = m_edges cfg ++ extra
                /\ Forall (fun e => is_throw_edge e = true) extra).
      { intros start. eexists. split; [apply add_throw_edges_edges|].
        apply Forall_forall. intros e He. by apply new_throw_edges_src in He as [_ ?]. }
      assert (Hnone : exists extra, m_edges cfg = m_edges cfg ++ extra
                /\ Forall (fun e => is_throw_edge e = true) extra).
      { exists []. by rewrite app_nil_r. }
      destruct (last _) as [back|].
      - destruct (e_type back) as [| |ti|]; try done.
        destruct (catch_type ti); [apply Hadd|done].
      - destruct (get_last_insn b) as [i|]; [|done].
        destruct (can_throw (opcode i)); [apply Hadd|done]. }
    destruct Hstep as (extra1 & Hc & Ht1).
    match goal with
    | |- context [add_callee_throws_to_caller ?c rest catches] =>
        destruct (IH c catches) as (extra2 & -> & Ht2); rewrite Hc
    end.
    exists (extra1 ++ extra2). rewrite <- app_assoc. split; [done|by apply Forall_app].
Qed.

Lemma filter_goto_throws (extra : list Edge) :
  Forall (fun e => is_throw_edge e = true) extra ->
  filter (fun e => is_goto_edge e = true) extra = [].
Proof.
  induction extra as [|e extra IH]; intros Hall; [done|].
  apply Forall_cons in Hall as [He Hall]. rewrite filter_cons_False; [by apply IH|].
  unfold is_goto_edge, is_throw_edge in *. destruct (e_type e); done.
Qed.

Lemma filter_goto_gotos (succ : nat) (preds : list nat) :
  filter (fun e => is_goto_edge e = true) (goto_edge succ <$> preds)
  = goto_edge succ <$> preds.
Proof.
  induction preds as [|p preds IH]; [done|]. csimpl.
  rewrite filter_cons_True by done. by rewrite IH.
Qed.

(** X25.  The goto edges of [CFGInliner::connect_cfgs].  Inlining after the
    call: the goto edges of the result are the goto edges of the graph that
    do not leave [callsite], then one from [callsite] to [callee_entry], then
    one from each callee exit to [callsite_split].  Inlining before the call:
    the only edges into [callsite_split] are the gotos from the callee's
    exits; every edge of the graph that did not go into [callsite_split] is
    kept, and for each one that did there is a goto from its source to
    [callee_entry] (when that is not [callsite_split] itself). *)
Theorem connect_cfgs_gotos (cfg : ControlFlowGraph) (callsite : nat)
    (callee_blocks : list Block) (callee_entry : nat) (callee_exits : list nat)
    (callsite_split : nat) :
  let after := connect_cfgs true cfg callsite callee_blocks callee_entry
                 callee_exits callsite_split in
  let before := connect_cfgs false cfg callsite callee_blocks callee_entry
                  callee_exits callsite_split in
  filter (fun e => is_goto_edge e = true) (m_edges after)
  = filter (fun e => is_goto_edge e = true)
      (filter (fun e => ~ (e_src e = callsite /\ is_goto_edge e = true)) (m_edges cfg))
    ++ [goto_edge callee_entry callsite]
    ++ (goto_edge callsite_split <$> callee_exits)
  /\ filter (fun e => e_target e = callsite_split) (m_edges before)
     = goto_edge callsite_split <$> callee_exits
  /\ (forall e, e ∈ m_edges cfg -> e_target e <> callsite_split -> e ∈ m_edges before)
  /\ (callee_entry <> callsite_split ->
      forall e, e ∈ m_edges cfg -> e_target e = callsite_split ->
        goto_edge callee_entry (e_src e) ∈ m_edges before).
Proof.
  intros after before. subst after before. unfold connect_cfgs.
  set (catches := get_outgoing_throws_in_order cfg callsite).
  assert (Hcfg1 : exists extra,
            m_edges (match catches with
                     | [] => cfg
                     | _ :: _ => add_callee_throws_to_caller cfg callee_blocks catches
                     end) = m_edges cfg ++ extra
            /\ Forall (fun e => is_throw_edge e = true) extra).
  { destruct catches; [|apply add_callee_throws_appends].
    exists []. by rewrite app_nil_r. }
  destruct Hcfg1 as (extra & Hc1 & Hthrows).
  split.
  { rewrite !connect_edges. simpl. rewrite Hc1.
    rewrite !filter_app. fold (goto_edge callee_entry) (goto_edge callsite_split).
    rewrite (filter_goto_gotos callsite_split).
    rewrite (filter_cons_True _ (goto_edge callee_entry callsite)) by done.
    rewrite filter_nil.
    rewrite (filter_goto_throws
               (filter (fun e => ~ (e_src e = callsite /\ is_goto_edge e = true)) extra)).
    - by rewrite app_nil_r, <- app_assoc.
    - apply Forall_forall. intros e He. apply list_elem_of_filter in He as [_ He].
      rewrite Forall_forall in Hthrows. by apply Hthrows. }
  rewrite !connect_edges. simpl. rewrite ?connect_edges, Hc1.
  fold (goto_edge callee_entry) (goto_edge callsite_split).
  split.
  { rewrite filter_app.
    assert (Hnone : forall l : list Edge,
              filter (fun e => e_target e = callsite_split)
                (filter (fun e => e_target e <> callsite_split) l) = []).
    { intros l. induction l as [|e l IH]; [done|].
      destruct (decide (e_target e = callsite_split)).
      - by rewrite (filter_cons_False (fun e => e_target e <> callsite_split)) by tauto.
      - rewrite (filter_cons_True (fun e => e_target e <> callsite_split)) by done.
        by rewrite filter_cons_False. }
    rewrite Hnone. simpl.
    induction callee_exits as [|x xs IH]; [done|]. csimpl.
    rewrite filter_cons_True by done. by rewrite IH. }
  split.
  { intros e He Hne. apply elem_of_app. left. apply list_elem_of_filter.
    split; [done|]. apply elem_of_app. left. apply elem_of_app. by left. }
  intros Hentry e He Ht. apply elem_of_app. left. apply list_elem_of_filter.
  split; [done|]. apply elem_of_app. right.
  apply list_elem_of_fmap. exists (e_src e). split; [done|].
  apply list_elem_of_fmap. exists e. split; [done|].
  apply list_elem_of_filter. split; [done|]. apply elem_of_app. by left.
Qed.

Lemma move_return_reg_no_returns_witness :
  exists callee' n',
    move_return_reg sample_callee (Some 5) 100%nat = Ok (callee', n')
    /\ (forall insn, insn ∈ instructions callee' -> is_return (opcode insn) = false)
    /\ filter (older_than 100) (instructions callee')
       = filter not_return (instructions sample_callee)
    /\ (forall insn, insn ∈ instructions callee' -> (100 <= insn_addr insn)%nat ->
          made_from_return (instructions sample_callee) (Some 5) insn)
    /\ (Some 5 = None ->
        instructions callee' = filter not_return (instructions sample_callee))
    /\ block_addr <$> m_blocks callee' = block_addr <$> m_blocks sample_callee
    /\ m_id <$> m_blocks callee' = m_id <$> m_blocks sample_callee
    /\ m_edges callee' = m_edges sample_callee.
Proof.
  eexists _, _. split; [vm_compute; reflexivity|].
  eapply (move_return_reg_no_returns sample_callee (Some 5) 100%nat);
    [|vm_compute; reflexivity].
  apply Forall_forall. repeat (constructor; [simpl; lia|]). constructor.
Defined.

End InlinerOperations.
